(** * extract-api: the crawl-and-localize engine of the site mirroring server

    A shallow embedding of the request handler [app.post('/api/extract')],
    of [downloadPage], [downloadAsset], [getLocalFilePath] and
    [isValidWebflowUrl], together with the invariants of the crawl; the
    hourly sweep of the temp directory and the older handler of
    [src/server.js] are embedded beside them.

    Strings are byte strings (the UTF-8 encoding of the JavaScript string),
    byte counts are in [N].  The asynchronous code is embedded as a
    transition function over explicit job states: one transition is one
    run-to-completion segment of the event loop (the code between two
    [await]s), and the event that triggers it carries what the outside
    world answered (a network response, an expired timer, a file-system
    verdict). *)

From stdpp Require Import gmap strings list.
From Stdlib Require Import String Ascii NArith Lia.

Open Scope string_scope.

(** ** JavaScript string primitives used by the server *)

Module JS.

(** [s.startsWith(p)] *)
Definition startsWith (s p : string) : bool := String.prefix p s.

(** [s.endsWith(p)] *)
Definition endsWith (s p : string) : bool :=
  let n := String.length s in
  let m := String.length p in
  (m <=? n)%nat && String.eqb (substring (n - m) m s) p.

(** [s.includes(sub)]: some suffix of [s] starts with [sub]. *)
Fixpoint includes (s sub : string) : bool :=
  startsWith s sub ||
  match s with
  | EmptyString => false
  | String _ s' => includes s' sub
  end.

(** [s.split(sep)[0]] for a one-character separator. *)
Fixpoint split_head (sep : ascii) (s : string) : string :=
  match s with
  | EmptyString => EmptyString
  | String c s' =>
      if Ascii.eqb c sep then EmptyString else String c (split_head sep s')
  end.

(** [s.split(sep)] for a one-character separator. *)
Fixpoint split (sep : ascii) (s : string) : list string :=
  match s with
  | EmptyString => [EmptyString]
  | String c s' =>
      if Ascii.eqb c sep then EmptyString :: split sep s'
      else match split sep s' with
           | [] => [String c EmptyString]
           | h :: t => String c h :: t
           end
  end.

Definition lower_ascii (c : ascii) : ascii :=
  let n := nat_of_ascii c in
  if ((65 <=? n) && (n <=? 90))%nat then ascii_of_nat (n + 32) else c.

(** [s.toLowerCase()] on the ASCII letters. *)
Fixpoint toLowerCase (s : string) : string :=
  match s with
  | EmptyString => EmptyString
  | String c s' => String (lower_ascii c) (toLowerCase s')
  end.

(** [s.replace(/\\/g, '/')] *)
Fixpoint backslash_to_slash (s : string) : string :=
  match s with
  | EmptyString => EmptyString
  | String c s' =>
      String (if Ascii.eqb c "\"%char then "/"%char else c) (backslash_to_slash s')
  end.

(** JavaScript truthiness of a possibly undefined string. *)
Definition truthy (o : option string) : bool :=
  match o with
  | Some s => negb (String.eqb s "")
  | None => false
  end.

End JS.

(** ** The [path] module (POSIX flavour) *)

Module Path.

Definition sep : ascii := "/"%char.

(** One segment of [normalizeString]: empty and [.] segments vanish,
    [..] removes the previous segment when there is one to remove and is
    kept only when climbing above the start is allowed.  The accumulator
    holds the segments kept so far, last one first. *)
Definition norm_step (allowAboveRoot : bool) (acc : list string) (seg : string)
  : list string :=
  if String.eqb seg "" || String.eqb seg "." then acc
  else if String.eqb seg ".." then
    match acc with
    | top :: rest =>
        if String.eqb top ".." then seg :: acc else rest
    | [] => if allowAboveRoot then [seg] else []
    end
  else seg :: acc.

Definition normalizeString (p : string) (allowAboveRoot : bool) : string :=
  String.concat "/" (rev (fold_left (norm_step allowAboveRoot) (JS.split sep p) [])).

(** [path.normalize(p)] *)
Definition normalize (p : string) : string :=
  if String.eqb p "" then "."
  else
    let isAbsolute := JS.startsWith p "/" in
    let trailingSeparator := JS.endsWith p "/" in
    let q := normalizeString p (negb isAbsolute) in
    if String.eqb q "" then
      if isAbsolute then "/" else if trailingSeparator then "./" else "."
    else
      let q' := if trailingSeparator then q +:+ "/" else q in
      if isAbsolute then "/" +:+ q' else q'.

(** [path.join(...args)] *)
Definition join (args : list string) : string :=
  match filter (fun a => a ≠ "") args with
  | [] => "."
  | nonempty => normalize (String.concat "/" nonempty)
  end.

(** The characters of the last path component, trailing separators
    ignored, last character first. *)
Fixpoint take_component (rcs : list ascii) : list ascii :=
  match rcs with
  | [] => []
  | c :: rest => if Ascii.eqb c sep then [] else c :: take_component rest
  end.

Fixpoint drop_separators (rcs : list ascii) : list ascii :=
  match rcs with
  | [] => []
  | c :: rest => if Ascii.eqb c sep then drop_separators rest else rcs
  end.

(** The part of a reversed component up to and including its first dot,
    that is the extension of the component, still reversed. *)
Fixpoint upto_dot (rcs : list ascii) : option (list ascii) :=
  match rcs with
  | [] => None
  | c :: rest =>
      if Ascii.eqb c "."%char then Some [c]
      else option_map (cons c) (upto_dot rest)
  end.

(** [path.extname(p)]: from the last dot of the last component to its
    end; empty when there is no dot, when the only dot starts the
    component, and for the component [..]. *)
Definition extname (p : string) : string :=
  let base := take_component (drop_separators (rev (list_ascii_of_string p))) in
  match upto_dot base with
  | None => ""
  | Some rext =>
      if (List.length rext =? List.length base)%nat then ""
      else if String.eqb (string_of_list_ascii (rev base)) ".." then ""
      else string_of_list_ascii (rev rext)
  end.

Fixpoint drop_component (rcs : list ascii) : option (list ascii) :=
  match rcs with
  | [] => None
  | c :: rest => if Ascii.eqb c sep then Some rest else drop_component rest
  end.

(** [path.dirname(p)] *)
Definition dirname (p : string) : string :=
  match list_ascii_of_string p with
  | [] => "."
  | c0 :: cs =>
      let hasRoot := Ascii.eqb c0 sep in
      match drop_component (drop_separators (rev cs)) with
      | None => if hasRoot then "/" else "."
      | Some rbefore =>
          if hasRoot && (List.length rbefore =? 0)%nat then "//"
          else string_of_list_ascii (c0 :: rev rbefore)
      end
  end.

(** The segments of [path.resolve(p)] for an absolute [p]; the working
    areas of the server are absolute ([TEMP_DIR] is built from
    [__dirname]), so the current directory never takes part. *)
Definition resolve_segments (p : string) : list string :=
  rev (fold_left (norm_step false) (JS.split sep p) []).

Fixpoint strip_common (from to : list string) : list string * list string :=
  match from, to with
  | f :: from', t :: to' =>
      if String.eqb f t then strip_common from' to' else (from, to)
  | _, _ => (from, to)
  end.

(** [path.relative(from, to)]: one [..] for each segment of [from] below
    the common ancestor, then the segments of [to] below it. *)
Definition relative (from to : string) : string :=
  let '(up, down) := strip_common (resolve_segments from) (resolve_segments to) in
  String.concat "/" (map (fun _ => "..") up ++ down).

End Path.

(** ** Platform capabilities

    The WHATWG [URL] constructor and the URI coding functions are services
    of the runtime, not code of the server.  The server is embedded over any
    implementation of them; [None] stands for a thrown exception. *)

Record URL := mkURL {
  href : string;
  origin : string;
  host : string;
  hostname : string;
  pathname : string
}.

Class Platform := {
  (** [new URL(input)] *)
  newURL : string -> option URL;
  (** [new URL(input, base)] *)
  newURLBase : string -> string -> option URL;
  decodeURIComponent : string -> option string;
  encodeURI : string -> option string
}.

(** ** Constants *)

Definition MAX_CONCURRENT_DOWNLOADS : nat := 10.
Definition CHUNK_SIZE : nat := 15.
Definition MAX_SIZE_MB : N := 500.

(** The ceiling the running total is compared with,
    [MAX_SIZE_MB * 1024 * 1024] bytes. *)
Definition MAX_SIZE_BYTES : N := MAX_SIZE_MB * 1024 * 1024.

(** ** Path mapping and input validation *)

Section Mapping.
Context {Pf : Platform}.

(** [getLocalFilePath(url, baseUrl, tempDir)].  The pathname is decoded
    before the branch on the trailing slash, so a malformed escape throws
    in every branch. *)
Definition getLocalFilePath (url baseUrl tempDir : string) : option string :=
  urlObj ← newURL url;
  decoded ← decodeURIComponent (pathname urlObj);
  let localPath := Path.join [tempDir; decoded] in
  if JS.endsWith (pathname urlObj) "/" then
    Some (Path.join [tempDir; pathname urlObj; "index.html"])
  else
    let extname := Path.extname (pathname urlObj) in
    if String.eqb extname ""
       || negb (existsb (String.eqb (JS.toLowerCase extname)) [".html"; ".htm"])
    then Some (localPath +:+ ".html")
    else Some localPath.

(** The local path of an asset, computed inline in [downloadPage]:
    same-host assets keep their pathname under the working area, the
    others go below [assets/<host>]. *)
Definition assetLocalPath (assetUrl baseHost tempDir : string) : option string :=
  assetUrlObj ← newURL assetUrl;
  Some (if String.eqb (host assetUrlObj) baseHost
        then Path.join [tempDir; pathname assetUrlObj]
        else Path.join [tempDir; "assets"; host assetUrlObj; pathname assetUrlObj]).

(** [isValidWebflowUrl(url)] *)
Definition isValidWebflowUrl (url : string) : bool :=
  match newURL url with
  | Some parsedUrl =>
      JS.endsWith (hostname parsedUrl) "webflow.io"
      || JS.endsWith (hostname parsedUrl) "webflow.com"
  | None => false
  end.

End Mapping.

(** ** Parsed documents

    A page body is observed by the server through its byte length and
    through the elements [cheerio] selects from it, in document order; an
    element exposes its tag and its [href] and [src] attributes. *)

Inductive Tag := TagLink | TagScript | TagImg | TagSource | TagA | TagOther.

Inductive AttrName := AttrHref | AttrSrc.

Record Element := mkElement {
  tag : Tag;
  attr_href : option string;
  attr_src : option string
}.

Record Html := mkHtml {
  byteLength : N;
  dom : list Element
}.

Definition get_attr (a : AttrName) (el : Element) : option string :=
  match a with
  | AttrHref => attr_href el
  | AttrSrc => attr_src el
  end.

Definition set_attr (a : AttrName) (v : string) (el : Element) : Element :=
  match a with
  | AttrHref => {| tag := tag el; attr_href := Some v; attr_src := attr_src el |}
  | AttrSrc => {| tag := tag el; attr_href := attr_href el; attr_src := Some v |}
  end.

(** The selector [link[href], script[src], img[src], source[src]]. *)
Definition is_asset_element (el : Element) : bool :=
  match tag el with
  | TagLink => bool_decide (is_Some (attr_href el))
  | TagScript | TagImg | TagSource => bool_decide (is_Some (attr_src el))
  | _ => false
  end.

(** The selector [a[href]]. *)
Definition is_anchor_element (el : Element) : bool :=
  match tag el with
  | TagA => bool_decide (is_Some (attr_href el))
  | _ => false
  end.

(** An entry of the [assets] array: [{ url, element, attr }], the element
    being referred to by its position in the document. *)
Record Asset := mkAsset {
  asset_url : string;
  asset_element : nat;
  asset_attr : AttrName
}.

Section Discovery.
Context {Pf : Platform}.

(** The first half of the [.each] callback of the asset selector: the
attribute that is read, and the absolute URL made of its value. *)
Definition asset_attr_of (el : Element) : AttrName :=
  if JS.truthy (attr_href el) then AttrHref else AttrSrc.

Definition resolve_asset_url (url : string) (el : Element) : option string :=
  match get_attr (asset_attr_of el) el with
  | None => None
  | Some assetUrl =>
      if String.eqb assetUrl "" then None
      else if JS.startsWith assetUrl "http" || JS.startsWith assetUrl "//"
      then Some (if JS.startsWith assetUrl "//"
                 then "https:" +:+ assetUrl else assetUrl)
      else href <$> newURLBase assetUrl url
  end.

(** The whole callback: the asset an element contributes, if any. *)
Definition asset_of_element (url : string) (i : nat) (el : Element) : option Asset :=
  assetUrl ← resolve_asset_url url el;
  if JS.includes assetUrl "data:" then None
  else Some {| asset_url := assetUrl; asset_element := i;
               asset_attr := asset_attr_of el |}.

(** The [assets] array built by the first [.each] loop of [downloadPage]. *)
Definition collect_assets (url : string) (doc : list Element) : list Asset :=
  omap (fun '(i, el) =>
          if is_asset_element el then asset_of_element url i el else None)
       (imap pair doc).

End Discovery.

(** ** The retry loop of [downloadAsset] *)

(** What one pass through the [try]/[catch] of the loop body does. *)
Inductive Attempt :=
  | Returned (assetSize : N)   (* [return assetSize] *)
  | Rethrown                   (* [throw error] on the last iteration *)
  | Backoff (ms : N).          (* [setTimeout(resolve, ms)], then the next iteration *)

(** The default value of the parameter [retries]; every call site omits it. *)
Definition default_retries : nat := 3.

(** Iteration [i] of the loop: [response] is what [axios.get] answered
    ([None] when it rejected), [fs_ok] tells whether [mkdirSync] and
    [writeFileSync] went through. *)
Definition downloadAsset_iteration
    (retries i : nat) (response : option N) (fs_ok : bool) : Attempt :=
  let caught :=
    if (i =? retries - 1)%nat then Rethrown else Backoff (1000 * 2 ^ N.of_nat i) in
  match response with
  | Some assetSize =>
      if (MAX_SIZE_BYTES <? assetSize)%N then caught
      else if fs_ok then Returned assetSize else caught
  | None => caught
  end.

(** The result of a call of [downloadAsset], with its observable history. *)
Record Download := mkDownload {
  dl_result : option N;     (* the returned size, [None] when the call throws *)
  dl_attempts : nat;        (* how many times [axios.get] was called *)
  dl_delays : list N        (* the backoff delays, in order *)
}.

(** [downloadAsset(url, filePath, retries)] against a network that answers
    the [i]-th request with [net i]; [todo] counts the iterations left. *)
Fixpoint downloadAsset_loop
    (net : nat -> option N * bool) (retries todo i : nat) (delays : list N) : Download :=
  match todo with
  | O => mkDownload (Some 0%N) i delays
  | S todo' =>
      match downloadAsset_iteration retries i (net i).1 (net i).2 with
      | Returned n => mkDownload (Some n) (S i) delays
      | Rethrown => mkDownload None (S i) delays
      | Backoff ms => downloadAsset_loop net retries todo' (S i) (delays ++ [ms])
      end
  end.

Definition downloadAsset (net : nat -> option N * bool) (retries : nat) : Download :=
  downloadAsset_loop net retries retries 0 [].

(** ** Job states *)

(** What the job did to the outside world, oldest first. *)
Inductive Effect :=
  | MakeTempDir (tempDir : string)          (* [fs.mkdirSync(tempDir, ...)] of the handler *)
  | GetPage (url : string)                  (* [axios.get] of [downloadPage] *)
  | GetAsset (url : string) (attempt : nat) (* [axios.get] of [downloadAsset], iteration [attempt] *)
  | Sleep (ms : N)                          (* backoff timer armed *)
  | SaveAsset (filePath : string) (size : N)
      (* [fs.writeFileSync(filePath, response.data)] *)
  | SavePage (url : string) (body : Html) (localFilePath : string) (doc : list Element).
      (* [fs.writeFileSync(localFilePath, $.html())] by the page task of
         [url], whose response body was [body] *)

Inductive Status :=
  | Crawling    (* inside the [while] loop *)
  | Completed   (* the loop ended, the archive is produced *)
  | Failed.     (* the size error reached the [catch]: "Extraction failed" *)

(** The promise returned by one callback of the asset [chunk.map]. *)
Inductive AssetTask :=
  | ASettled (assetSize : N)
  | AFetching (a : Asset) (assetPath : string) (i : nat)  (* awaiting [axios.get], iteration [i] *)
  | ASleeping (a : Asset) (assetPath : string) (i : nat). (* awaiting the timer of iteration [i] *)

(** The locals of [downloadPage] that are fixed once the page has arrived. *)
Record PageCtx := mkPageCtx {
  page_url : string;
  page_html : Html;
  localFilePath : string;
  pageDir : string;
  assets : list Asset
}.

(** The promise returned by one callback of the page [chunk.map]. *)
Inductive PageTask :=
  | PFetching (url : string)      (* awaiting [axios.get(url)] *)
  | PAssets (ctx : PageCtx) (pageSize : N) (doc : list Element)
            (i : nat) (chunk : list AssetTask)
      (* awaiting [Promise.all] of the asset chunk that starts at index [i] *)
  | PReturned (pageSize : N)      (* [downloadPage] resolved, callback to resume *)
  | PFinished.                    (* callback settled *)

Record Job := mkJob {
  baseUrl : string;
  baseHost : string;
  tempDir : string;
  visitedUrls : gset string;
  visitedAssets : gset string;
  urlQueue : list string;
  totalSize : N;
  tasks : list PageTask;       (* the promises of the current page chunk *)
  status : Status;
  trace : list Effect
}.

Definition set_visitedUrls (v : gset string) (s : Job) : Job :=
  mkJob (baseUrl s) (baseHost s) (tempDir s) v (visitedAssets s) (urlQueue s)
        (totalSize s) (tasks s) (status s) (trace s).
Definition set_visitedAssets (v : gset string) (s : Job) : Job :=
  mkJob (baseUrl s) (baseHost s) (tempDir s) (visitedUrls s) v (urlQueue s)
        (totalSize s) (tasks s) (status s) (trace s).
Definition set_urlQueue (q : list string) (s : Job) : Job :=
  mkJob (baseUrl s) (baseHost s) (tempDir s) (visitedUrls s) (visitedAssets s) q
        (totalSize s) (tasks s) (status s) (trace s).
Definition set_totalSize (n : N) (s : Job) : Job :=
  mkJob (baseUrl s) (baseHost s) (tempDir s) (visitedUrls s) (visitedAssets s)
        (urlQueue s) n (tasks s) (status s) (trace s).
Definition set_tasks (ts : list PageTask) (s : Job) : Job :=
  mkJob (baseUrl s) (baseHost s) (tempDir s) (visitedUrls s) (visitedAssets s)
        (urlQueue s) (totalSize s) ts (status s) (trace s).
Definition set_status (st : Status) (s : Job) : Job :=
  mkJob (baseUrl s) (baseHost s) (tempDir s) (visitedUrls s) (visitedAssets s)
        (urlQueue s) (totalSize s) (tasks s) st (trace s).
Definition emit (e : Effect) (s : Job) : Job :=
  mkJob (baseUrl s) (baseHost s) (tempDir s) (visitedUrls s) (visitedAssets s)
        (urlQueue s) (totalSize s) (tasks s) (status s) (trace s ++ [e]).

Definition asset_settled (t : AssetTask) : bool :=
  match t with ASettled _ => true | _ => false end.

Definition settled_size (t : AssetTask) : N :=
  match t with ASettled n => n | _ => 0%N end.

Definition page_finished (t : PageTask) : bool :=
  match t with PFinished => true | _ => false end.

(** ** Transitions *)

Section Engine.
Context {Pf : Platform}.

(** *** Asset localization *)

(** The callback of the asset [chunk.map], up to its first [await]:
    the check-and-insert on [visitedAssets], the local path, and the
    first request of [downloadAsset] (the loop is entered, [retries]
    being 3). *)
Definition start_asset (a : Asset) (s : Job) : AssetTask * Job :=
  if bool_decide (asset_url a ∈ visitedAssets s) then (ASettled 0, s)
  else
    let s1 := set_visitedAssets ({[asset_url a]} ∪ visitedAssets s) s in
    match assetLocalPath (asset_url a) (baseHost s) (tempDir s) with
    | None => (ASettled 0, s1)
    | Some assetPath =>
        (AFetching a assetPath 0, emit (GetAsset (asset_url a) 0) s1)
    end.

(** [chunk.map(async ...)]: the callbacks start one after the other. *)
Fixpoint start_assets (chunk : list Asset) (s : Job) : list AssetTask * Job :=
  match chunk with
  | [] => ([], s)
  | a :: rest =>
      let '(t, s1) := start_asset a s in
      let '(ts, s2) := start_assets rest s1 in
      (t :: ts, s2)
  end.

(** The callback after [await downloadAsset(...)] returned [assetSize]:
    the reference is rewritten and the size is the callback's value; an
    exception of [encodeURI] is caught like a failed download. *)
Definition localize_asset
    (ctx : PageCtx) (a : Asset) (assetPath : string) (assetSize : N)
    (doc : list Element) : N * list Element :=
  let relativeAssetPath :=
    JS.backslash_to_slash (Path.relative (pageDir ctx) assetPath) in
  match encodeURI relativeAssetPath with
  | Some v => (assetSize, alter (set_attr (asset_attr a) v) (asset_element a) doc)
  | None => (0%N, doc)
  end.

(** *** Link rewriting *)

(** The body of the [.each] callback of the [a[href]] selector. *)
Definition rewrite_link (ctx : PageCtx) (el : Element) (s : Job) : Element * Job :=
  match attr_href el with
  | None => (el, s)
  | Some h =>
      if String.eqb h "" || JS.startsWith h "mailto:" || JS.startsWith h "tel:"
         || JS.startsWith h "#"
      then (el, s)
      else
        match newURLBase h (page_url ctx) with
        | None => (el, s)
        | Some absolute =>
            let absoluteLink := href absolute in
            let normalizedLink :=
              JS.split_head "?" (JS.split_head "#" absoluteLink) in
            if JS.startsWith normalizedLink (baseUrl s) then
              let s1 :=
                if negb (bool_decide (normalizedLink ∈ visitedUrls s))
                   && negb (bool_decide (normalizedLink ∈ urlQueue s))
                then set_urlQueue (urlQueue s ++ [normalizedLink]) s
                else s in
              match getLocalFilePath normalizedLink (baseUrl s) (tempDir s) with
              | None => (el, s1)
              | Some localLinkPath =>
                  let relativeLinkPath :=
                    JS.backslash_to_slash
                      (Path.relative (pageDir ctx) localLinkPath) in
                  match encodeURI relativeLinkPath with
                  | Some v => (set_attr AttrHref v el, s1)
                  | None => (el, s1)
                  end
              end
            else (el, s)
        end
  end.

(** The second [.each] loop of [downloadPage]. *)
Fixpoint rewrite_links (ctx : PageCtx) (doc : list Element) (s : Job)
  : list Element * Job :=
  match doc with
  | [] => ([], s)
  | el :: rest =>
      let '(el', s1) :=
        if is_anchor_element el then rewrite_link ctx el s else (el, s) in
      let '(rest', s2) := rewrite_links ctx rest s1 in
      (el' :: rest', s2)
  end.

(** *** Page processing *)

(** The end of [downloadPage]: links, then the page file.  A failed
    write is caught by the outer [catch], which returns 0. *)
Definition finish_page
    (ctx : PageCtx) (pageSize : N) (doc : list Element) (fs_ok : bool) (s : Job)
  : PageTask * Job :=
  let '(doc', s1) := rewrite_links ctx doc s in
  if fs_ok
  then (PReturned pageSize,
        emit (SavePage (page_url ctx) (page_html ctx) (localFilePath ctx) doc') s1)
  else (PReturned 0, s1).

(** The head of the asset [for] loop at index [i]: either the next chunk
    is started and awaited, or the loop is over and the page finishes. *)
Definition asset_loop
    (ctx : PageCtx) (pageSize : N) (doc : list Element) (i : nat)
    (fs_ok : bool) (s : Job) : PageTask * Job :=
  if (i <? List.length (assets ctx))%nat then
    let chunk := take MAX_CONCURRENT_DOWNLOADS (drop i (assets ctx)) in
    let '(ts, s1) := start_assets chunk s in
    (PAssets ctx pageSize doc i ts, s1)
  else finish_page ctx pageSize doc fs_ok s.

(** [downloadPage] from the arrival of the response to its next [await]. *)
Definition page_arrived
    (url : string) (response : option Html) (fs_ok : bool) (s : Job)
  : PageTask * Job :=
  match response with
  | None => (PReturned 0, s)
  | Some html =>
      let pageSize := byteLength html in
      match getLocalFilePath url (baseUrl s) (tempDir s) with
      | None => (PReturned 0, s)
      | Some lfp =>
          let ctx := {| page_url := url; page_html := html; localFilePath := lfp;
                        pageDir := Path.dirname lfp;
                        assets := collect_assets url (dom html) |} in
          asset_loop ctx pageSize (dom html) 0 fs_ok s
      end
  end.

(** The answer to request [i] of an asset task. *)
Definition asset_arrived
    (ctx : PageCtx) (a : Asset) (assetPath : string) (i : nat)
    (response : option N) (fs_ok : bool) (doc : list Element) (s : Job)
  : AssetTask * list Element * Job :=
  match downloadAsset_iteration default_retries i response fs_ok with
  | Returned assetSize =>
      let '(n, doc') := localize_asset ctx a assetPath assetSize doc in
      (ASettled n, doc', emit (SaveAsset assetPath assetSize) s)
  | Rethrown => (ASettled 0, doc, s)
  | Backoff ms => (ASleeping a assetPath i, doc, emit (Sleep ms) s)
  end.

(** The backoff timer of iteration [i] expired: [i++] and the loop
    test; past the loop [downloadAsset] returns 0 to the callback. *)
Definition asset_woke
    (ctx : PageCtx) (a : Asset) (assetPath : string) (i : nat)
    (doc : list Element) (s : Job) : AssetTask * list Element * Job :=
  if (S i <? default_retries)%nat
  then (AFetching a assetPath (S i), doc, emit (GetAsset (asset_url a) (S i)) s)
  else
    let '(n, doc') := localize_asset ctx a assetPath 0 doc in
    (ASettled n, doc', s).

(** *** The crawl loop *)

(** The callback of the page [chunk.map], up to its first [await]. *)
Definition start_page (currentUrl : string) (s : Job) : PageTask * Job :=
  if bool_decide (currentUrl ∈ visitedUrls s) then (PFinished, s)
  else
    (PFetching currentUrl,
     emit (GetPage currentUrl)
          (set_visitedUrls ({[currentUrl]} ∪ visitedUrls s) s)).

Fixpoint start_pages (chunk : list string) (s : Job) : list PageTask * Job :=
  match chunk with
  | [] => ([], s)
  | u :: rest =>
      let '(t, s1) := start_page u s in
      let '(ts, s2) := start_pages rest s1 in
      (t :: ts, s2)
  end.

(** The callback after [await downloadPage(...)]: the running total and
    the size check.  The first callback that throws rejects
    [Promise.all] and with it the handler's [try] block. *)
Definition page_returned (pageSize : N) (s : Job) : Job :=
  let s1 := set_totalSize (totalSize s + pageSize) s in
  if (MAX_SIZE_BYTES <? totalSize s1)%N
  then match status s1 with
       | Crawling => set_status Failed s1
       | _ => s1
       end
  else s1.

(** One turn of the [while] loop, taken when every promise of the
    previous chunk has been fulfilled. *)
Definition next_wave (s : Job) : Job :=
  match urlQueue s with
  | [] => set_status Completed s
  | _ =>
      let chunk := take CHUNK_SIZE (urlQueue s) in
      let '(ts, s1) := start_pages chunk (set_urlQueue (drop CHUNK_SIZE (urlQueue s)) s) in
      set_tasks ts s1
  end.

(** What the event loop delivers to the job. *)
Inductive Event :=
  | EvLoop
  | EvPageResponse (p : nat) (response : option Html) (fs_ok : bool)
  | EvAssetResponse (p a : nat) (response : option N) (fs_ok : bool)
  | EvTimer (p a : nat)
  | EvChunkDone (p : nat) (fs_ok : bool)
  | EvPageDone (p : nat).

Definition put_task (p : nat) (t : PageTask) (s : Job) : Job :=
  set_tasks (<[p := t]> (tasks s)) s.

(** [step ev s] is the state after the segment that [ev] resumes, or
    [None] when nothing in [s] waits for [ev]. *)
Definition step (ev : Event) (s : Job) : option Job :=
  match ev with
  | EvLoop =>
      match status s with
      | Crawling =>
          if forallb page_finished (tasks s) then Some (next_wave s) else None
      | _ => None
      end
  | EvPageResponse p response fs_ok =>
      match tasks s !! p with
      | Some (PFetching url) =>
          let '(t, s1) := page_arrived url response fs_ok s in
          Some (put_task p t s1)
      | _ => None
      end
  | EvAssetResponse p a response fs_ok =>
      match tasks s !! p with
      | Some (PAssets ctx pageSize doc i chunk) =>
          match chunk !! a with
          | Some (AFetching asset assetPath k) =>
              let '(t, doc', s1) :=
                asset_arrived ctx asset assetPath k response fs_ok doc s in
              Some (put_task p (PAssets ctx pageSize doc' i (<[a := t]> chunk)) s1)
          | _ => None
          end
      | _ => None
      end
  | EvTimer p a =>
      match tasks s !! p with
      | Some (PAssets ctx pageSize doc i chunk) =>
          match chunk !! a with
          | Some (ASleeping asset assetPath k) =>
              let '(t, doc', s1) := asset_woke ctx asset assetPath k doc s in
              Some (put_task p (PAssets ctx pageSize doc' i (<[a := t]> chunk)) s1)
          | _ => None
          end
      | _ => None
      end
  | EvChunkDone p fs_ok =>
      match tasks s !! p with
      | Some (PAssets ctx pageSize doc i chunk) =>
          if forallb asset_settled chunk then
            let pageSize' :=
              (pageSize + foldl N.add 0 (map settled_size chunk))%N in
            let '(t, s1) :=
              asset_loop ctx pageSize' doc (i + MAX_CONCURRENT_DOWNLOADS) fs_ok s in
            Some (put_task p t s1)
          else None
      | _ => None
      end
  | EvPageDone p =>
      match tasks s !! p with
      | Some (PReturned pageSize) =>
          Some (put_task p PFinished (page_returned pageSize s))
      | _ => None
      end
  end.

Fixpoint run (evs : list Event) (s : Job) : option Job :=
  match evs with
  | [] => Some s
  | ev :: rest =>
      match step ev s with
      | Some s' => run rest s'
      | None => None
      end
  end.

(** *** The head of the request handler *)

Inductive Start :=
  | Rejected             (* 400 "Invalid URL"; the handler returned *)
  | SetupFailed          (* an exception before the loop: 500 *)
  | Started (s : Job).   (* about to enter the [while] loop *)

(** The handler up to the loop: validation, the working area
    ([tempDir], named after a fresh UUID), and the initial frontier.
    The first component lists what was done to the outside world. *)
Definition start (targetUrl tempDir : string) (mkdir_ok : bool)
  : list Effect * Start :=
  if negb (isValidWebflowUrl targetUrl) then ([], Rejected)
  else if negb mkdir_ok then ([MakeTempDir tempDir], SetupFailed)
  else
    match newURL targetUrl with
    | None => ([MakeTempDir tempDir], SetupFailed)
    | Some u =>
        let s0 := {| baseUrl := origin u; baseHost := host u; tempDir := tempDir;
                     visitedUrls := ∅; visitedAssets := ∅;
                     urlQueue := [targetUrl]; totalSize := 0;
                     tasks := []; status := Crawling;
                     trace := [MakeTempDir tempDir] |} in
        (trace s0, Started s0)
    end.

(** The states a job can be in. *)
Definition reachable (targetUrl tempDir : string) (s : Job) : Prop :=
  ∃ s0 evs, (start targetUrl tempDir true).2 = Started s0 ∧ run evs s0 = Some s.

End Engine.

(** ** The older handler

    [src/server.js] is an earlier version of the same server.  Its
    [downloadPage] runs the same asset and link loops and returns nothing,
    its [downloadAsset] does not look at the size of the response, and the
    callback of the page [chunk.map] ends after [await downloadPage(...)]:
    there is no running total and no size error.  The sizes that the
    tasks of the newer version carry are kept and never read. *)

Module Legacy.

Section Engine.
Context {Pf : Platform}.

(** Iteration [i] of the loop of [downloadAsset]: the response is
    written whatever its size. *)
Definition downloadAsset_iteration
    (retries i : nat) (response : option N) (fs_ok : bool) : Attempt :=
  let caught :=
    if (i =? retries - 1)%nat then Rethrown else Backoff (1000 * 2 ^ N.of_nat i) in
  match response with
  | Some size => if fs_ok then Returned size else caught
  | None => caught
  end.

(** The answer to request [i] of an asset task. *)
Definition asset_arrived
    (ctx : PageCtx) (a : Asset) (assetPath : string) (i : nat)
    (response : option N) (fs_ok : bool) (doc : list Element) (s : Job)
  : AssetTask * list Element * Job :=
  match downloadAsset_iteration default_retries i response fs_ok with
  | Returned size =>
      let '(n, doc') := localize_asset ctx a assetPath size doc in
      (ASettled n, doc', emit (SaveAsset assetPath size) s)
  | Rethrown => (ASettled 0, doc, s)
  | Backoff ms => (ASleeping a assetPath i, doc, emit (Sleep ms) s)
  end.

(** The transitions of the older handler: as [step], with the older
    [downloadAsset], and a page callback that ends when [downloadPage]
    has returned. *)
Definition step (ev : Event) (s : Job) : option Job :=
  match ev with
  | EvLoop =>
      match status s with
      | Crawling =>
          if forallb page_finished (tasks s) then Some (next_wave s) else None
      | _ => None
      end
  | EvPageResponse p response fs_ok =>
      match tasks s !! p with
      | Some (PFetching url) =>
          let '(t, s1) := page_arrived url response fs_ok s in
          Some (put_task p t s1)
      | _ => None
      end
  | EvAssetResponse p a response fs_ok =>
      match tasks s !! p with
      | Some (PAssets ctx pageSize doc i chunk) =>
          match chunk !! a with
          | Some (AFetching asset assetPath k) =>
              let '(t, doc', s1) :=
                asset_arrived ctx asset assetPath k response fs_ok doc s in
              Some (put_task p (PAssets ctx pageSize doc' i (<[a := t]> chunk)) s1)
          | _ => None
          end
      | _ => None
      end
  | EvTimer p a =>
      match tasks s !! p with
      | Some (PAssets ctx pageSize doc i chunk) =>
          match chunk !! a with
          | Some (ASleeping asset assetPath k) =>
              let '(t, doc', s1) := asset_woke ctx asset assetPath k doc s in
              Some (put_task p (PAssets ctx pageSize doc' i (<[a := t]> chunk)) s1)
          | _ => None
          end
      | _ => None
      end
  | EvChunkDone p fs_ok =>
      match tasks s !! p with
      | Some (PAssets ctx pageSize doc i chunk) =>
          if forallb asset_settled chunk then
            let '(t, s1) :=
              asset_loop ctx pageSize doc (i + MAX_CONCURRENT_DOWNLOADS) fs_ok s in
            Some (put_task p t s1)
          else None
      | _ => None
      end
  | EvPageDone p =>
      match tasks s !! p with
      | Some (PReturned _) => Some (put_task p PFinished s)
      | _ => None
      end
  end.

Fixpoint run (evs : list Event) (s : Job) : option Job :=
  match evs with
  | [] => Some s
  | ev :: rest =>
      match step ev s with
      | Some s' => run rest s'
      | None => None
      end
  end.

(** The states a job of the older handler can be in. *)
Definition reachable (targetUrl tempDir : string) (s : Job) : Prop :=
  ∃ s0 evs, (start targetUrl tempDir true).2 = Started s0 ∧ run evs s0 = Some s.

End Engine.

End Legacy.

(** ** A concrete platform

    An executable instance for the plain URLs of the examples below:
    [http(s)://host/path?query#fragment] with a host of letters, digits,
    dots and hyphens, no port, no dot segments, and only characters that
    the URL parser copies unchanged; [data:] URLs are kept as they are.
    On such inputs it returns what the runtime returns; everything else is
    refused rather than guessed. *)

Module Node.

Definition between (lo hi : nat) (c : ascii) : bool :=
  let n := nat_of_ascii c in ((lo <=? n) && (n <=? hi))%nat.

Definition is_alnum (c : ascii) : bool :=
  between 48 57 c || between 65 90 c || between 97 122 c.

Definition one_of (set : string) (c : ascii) : bool :=
  existsb (Ascii.eqb c) (list_ascii_of_string set).

Definition is_host_char (c : ascii) : bool := is_alnum c || one_of ".-" c.
Definition is_path_char (c : ascii) : bool := is_alnum c || one_of "/._~-%+,;=@!$&'()*:" c.
Definition is_tail_char (c : ascii) : bool := is_path_char c || one_of "?#" c.

Fixpoint span (keep : ascii -> bool) (s : string) : string * string :=
  match s with
  | EmptyString => (EmptyString, EmptyString)
  | String c s' =>
      if keep c then let '(a, b) := span keep s' in (String c a, b)
      else (EmptyString, s)
  end.

Definition all_chars (ok : ascii -> bool) (s : string) : bool :=
  forallb ok (list_ascii_of_string s).

Definition drop_prefix (p s : string) : option string :=
  if JS.startsWith s p
  then Some (substring (String.length p) (String.length s - String.length p) s)
  else None.

Definition parse_after_scheme (scheme rest : string) : option URL :=
  let '(authority, after) := span is_host_char rest in
  let '(path, tail) := span is_path_char after in
  let segments := JS.split "/" path in
  if negb (String.eqb authority "")
     && (String.eqb path "" || JS.startsWith path "/")
     && negb (existsb (fun seg => String.eqb seg "." || String.eqb seg "..") segments)
     && all_chars is_tail_char tail
  then
    let h := JS.toLowerCase authority in
    let p := if String.eqb path "" then "/" else path in
    let o := scheme +:+ "//" +:+ h in
    Some {| href := o +:+ p +:+ tail; origin := o; host := h; hostname := h;
            pathname := p |}
  else None.

Definition parse (input : string) : option URL :=
  match drop_prefix "https://" input, drop_prefix "http://" input,
        drop_prefix "data:" input with
  | Some rest, _, _ => parse_after_scheme "https:" rest
  | _, Some rest, _ => parse_after_scheme "http:" rest
  | _, _, Some rest =>
      if all_chars is_tail_char rest
      then Some {| href := input; origin := "null"; host := ""; hostname := "";
                   pathname := rest |}
      else None
  | _, _, _ => None
  end.

(** A reference is either absolute, or a path from the root of the base. *)
Definition parse_with_base (input base : string) : option URL :=
  match parse input with
  | Some u => Some u
  | None =>
      if JS.startsWith input "/" && negb (JS.startsWith input "//")
      then b ← parse base; parse (origin b +:+ input)
      else None
  end.

Definition hex_value (c : ascii) : option nat :=
  let n := nat_of_ascii c in
  if between 48 57 c then Some (n - 48)
  else if between 65 70 c then Some (n - 55)
  else if between 97 102 c then Some (n - 87)
  else None.

(** Escapes of ASCII characters are decoded; a malformed escape throws.
    Escaped bytes above 127 are outside this instance. *)
Fixpoint decode (fuel : nat) (s : string) : option string :=
  match fuel, s with
  | _, EmptyString => Some EmptyString
  | O, _ => None
  | S fuel', String c s' =>
      if Ascii.eqb c "%"%char then
        match s' with
        | String h (String l s'') =>
            hi ← hex_value h;
            lo ← hex_value l;
            if (hi <? 8)%nat
            then String (ascii_of_nat (16 * hi + lo)) <$> decode fuel' s''
            else None
        | _ => None
        end
      else String c <$> decode fuel' s'
  end.

Definition hex_digit (n : nat) : ascii :=
  ascii_of_nat (if (n <? 10)%nat then 48 + n else 55 + n).

Definition is_uri_char (c : ascii) : bool :=
  is_alnum c || one_of ";,/?:@&=+$-_.!~*'()#" c.

Fixpoint encode (s : string) : string :=
  match s with
  | EmptyString => EmptyString
  | String c s' =>
      if is_uri_char c then String c (encode s')
      else
        let n := nat_of_ascii c in
        String "%" (String (hex_digit (n / 16)) (String (hex_digit (n mod 16)) (encode s')))
  end.

Definition node : Platform := {|
  newURL := parse;
  newURLBase := parse_with_base;
  decodeURIComponent := fun s => decode (String.length s) s;
  encodeURI := fun s => Some (encode s)
|}.

End Node.

(** ** The hourly sweep of the temp directory *)

(** An entry of [fs.readdirSync(TEMP_DIR)] with what the file system
    answers about it: its modification time in milliseconds ([None] when
    [fs.statSync] throws) and whether [fs.rmSync] goes through. *)
Record DirEntry := mkDirEntry {
  entry_name : string;
  entry_mtime : option Z;
  entry_rm_ok : bool
}.

(** One hour, the age past which an entry is removed. *)
Definition MAX_AGE_MS : Z := 3600000.

(** The [forEach] loop of the timer callback on the entries that are
    left: the paths it removed, and whether it ran to its end.  An
    exception of [statSync] or [rmSync] leaves the loop for the [catch]
    around it. *)
Fixpoint sweep_entries (TEMP_DIR : string) (now : Z) (files : list DirEntry)
  : list string * bool :=
  match files with
  | [] => ([], true)
  | file :: rest =>
      let filePath := Path.join [TEMP_DIR; entry_name file] in
      match entry_mtime file with
      | None => ([], false)
      | Some mtime =>
          if (MAX_AGE_MS <? now - mtime)%Z then
            if entry_rm_ok file then
              let '(removed, finished) := sweep_entries TEMP_DIR now rest in
              (filePath :: removed, finished)
            else ([], false)
          else sweep_entries TEMP_DIR now rest
      end
  end.

(** The timer callback; the listing is [None] when [readdirSync] throws. *)
Definition sweep (TEMP_DIR : string) (now : Z) (listing : option (list DirEntry))
  : list string * bool :=
  match listing with
  | None => ([], false)
  | Some files => sweep_entries TEMP_DIR now files
  end.

Close Scope string_scope.

(** ** Observations on traces *)

(** The URLs [downloadPage] requested, in order. *)
Definition page_gets (tr : list Effect) : list string :=
  omap (fun e => match e with GetPage u => Some u | _ => None end) tr.

(** The URLs [downloadAsset] was called for, in order: each call opens
    with request number 0. *)
Definition asset_calls (tr : list Effect) : list string :=
  omap (fun e => match e with GetAsset u O => Some u | _ => None end) tr.

(** ** What the page-local segments leave alone *)

(** The fields no segment of [downloadPage] writes; no such segment
    requests a page either. *)
Record local_frame (s s' : Job) : Prop := {
  lf_baseUrl : baseUrl s' = baseUrl s;
  lf_baseHost : baseHost s' = baseHost s;
  lf_tempDir : tempDir s' = tempDir s;
  lf_visitedUrls : visitedUrls s' = visitedUrls s;
  lf_totalSize : totalSize s' = totalSize s;
  lf_tasks : tasks s' = tasks s;
  lf_status : status s' = status s;
  lf_page_gets : page_gets (trace s') = page_gets (trace s)
}.

(** ** The visited sets *)

(** The visited sets record exactly the page requests and cover the asset
    calls, and neither list repeats a URL. *)
Record fetch_inv (s : Job) : Prop := {
  page_gets_nodup : NoDup (page_gets (trace s));
  page_gets_visited : ∀ u, u ∈ page_gets (trace s) ↔ u ∈ visitedUrls s;
  asset_calls_nodup : NoDup (asset_calls (trace s));
  asset_calls_visited : ∀ u, u ∈ asset_calls (trace s) → u ∈ visitedAssets s
}.

(** ** The size budget *)

(** The job has failed exactly when the running total is over the
    ceiling, and a completed job has no page task left. *)
Record budget_inv (s : Job) : Prop := {
  budget_failed : status s = Failed ↔ (MAX_SIZE_BYTES < totalSize s)%N;
  budget_completed : status s = Completed → forallb page_finished (tasks s) = true
}.

(** [claims s s']: the visited sets only grow from [s] to [s'], and every
    request for a page, and every call of [downloadAsset], issued in
    between is for a URL that was not yet in the visited set at [s] and is
    in it at [s']. *)
Definition claims (s s' : Job) : Prop :=
  visitedUrls s ⊆ visitedUrls s' ∧ visitedAssets s ⊆ visitedAssets s' ∧
  ∃ new, trace s' = trace s ++ new ∧
    (∀ u, GetPage u ∈ new → (u ∉ visitedUrls s) ∧ u ∈ visitedUrls s') ∧
    (∀ u, GetAsset u 0 ∈ new → (u ∉ visitedAssets s) ∧ u ∈ visitedAssets s').

(** ** Requests of the retry loop *)

(** Every request [downloadAsset] sent, oldest first: the URL and the
    iteration of the loop that sent it. *)
Definition asset_requests (tr : list Effect) : list (string * nat) :=
  omap (fun e => match e with GetAsset u k => Some (u, k) | _ => None end) tr.

(** The URL and the iteration of an asset task that has not settled. *)
Definition asset_task_key (t : AssetTask) : option (string * nat) :=
  match t with
  | ASettled _ => None
  | AFetching a _ k | ASleeping a _ k => Some (asset_url a, k)
  end.

(** [in_flight s p a u k]: the asset task at position [a] of the chunk
    that page task [p] awaits works on [u] and is in iteration [k]. *)
Definition in_flight (s : Job) (p a : nat) (u : string) (k : nat) : Prop :=
  ∃ ctx pageSize doc i chunk t,
    tasks s !! p = Some (PAssets ctx pageSize doc i chunk) ∧
    chunk !! a = Some t ∧ asset_task_key t = Some (u, k).

(** No request is sent twice: the requests for a URL are the iterations
    [0], [1], ... of the one call of [downloadAsset] that claimed it, and
    a call that has not returned is at the iteration of its latest
    request. *)
Record request_inv (s : Job) : Prop := {
  requests_nodup : NoDup (asset_requests (trace s));
  requests_visited : ∀ u k, (u, k) ∈ asset_requests (trace s) → u ∈ visitedAssets s;
  requests_prefix :
    ∀ u k j, (u, k) ∈ asset_requests (trace s) → j ≤ k →
             (u, j) ∈ asset_requests (trace s);
  in_flight_sent : ∀ p a u k, in_flight s p a u k → (u, k) ∈ asset_requests (trace s);
  in_flight_visited : ∀ p a u k, in_flight s p a u k → u ∈ visitedAssets s;
  in_flight_latest :
    ∀ p a u k j, in_flight s p a u k → (u, j) ∈ asset_requests (trace s) → j ≤ k;
  in_flight_unique :
    ∀ p a k p' a' k' u,
      in_flight s p a u k → in_flight s p' a' u k' → p = p' ∧ a = a'
}.

(** ** Work left in a job *)

(** Requests and timers an asset task can still take. *)
Definition asset_work (t : AssetTask) : nat :=
  match t with
  | ASettled _ => 0
  | AFetching _ _ k => 2 * (default_retries - k)
  | ASleeping _ _ k => 2 * (default_retries - k) - 1
  end.

(** Events a page task can still take, [W] bounding what a page that has
    not arrived yet may need. *)
Definition page_work (W : nat) (t : PageTask) : nat :=
  match t with
  | PFetching _ => W + 3
  | PAssets ctx _ _ i chunk =>
      2 + sum_list (asset_work <$> chunk)
      + 7 * (List.length (assets ctx) - i - List.length chunk)
  | PReturned _ => 1
  | PFinished => 0
  end.

Definition status_rank (st : Status) : nat :=
  match st with Crawling => 1 | _ => 0 end.

(** The work of a full wave of pages, plus one. *)
Definition wave_cost (W : nat) : nat := CHUNK_SIZE * (W + 3) + 1.

(** A bound on the number of events a job can still take when all the
    URLs it will ever visit are in [U]. *)
Definition rank (W : nat) (U : gset string) (s : Job) : nat :=
  wave_cost W * (size U - size (visitedUrls s))
  + sum_list (page_work W <$> tasks s) + status_rank (status s).

(** The frontier holds no URL twice and none that was visited. *)
Record queue_inv (s : Job) : Prop := {
  queue_nodup : NoDup (urlQueue s);
  queue_fresh : ∀ u, u ∈ urlQueue s → u ∉ visitedUrls s
}.

(** What an event assumes of the site: a page that arrives has at most
    [W / 7] elements. *)
Definition event_within (W : nat) (ev : Event) : Prop :=
  match ev with
  | EvPageResponse _ (Some html) _ => 7 * List.length (dom html) ≤ W
  | _ => True
  end.

(** ** A small site, for the examples *)

Module Demo.

Definition img (src : string) : Element := mkElement TagImg None (Some src).
Definition anchor (h : string) : Element := mkElement TagA (Some h) None.

Definition target : string := "https://x.webflow.io/".
Definition workdir : string := "/srv/temp/temp-1".

(** The home page shows the same image twice and links to one page. *)
Definition home : Html :=
  mkHtml 1000 [img "https://cdn.x.com/a.png"; img "https://cdn.x.com/a.png";
               anchor "/about?x=1#top"].

Definition initial : Job :=
  {| baseUrl := "https://x.webflow.io"; baseHost := "x.webflow.io";
     tempDir := workdir; visitedUrls := ∅; visitedAssets := ∅;
     urlQueue := [target]; totalSize := 0; tasks := []; status := Crawling;
     trace := [MakeTempDir workdir] |}.

(** The home page arrives with its image, the linked page fails. *)
Definition events : list Event :=
  [EvLoop; EvPageResponse 0 (Some home) true;
   EvAssetResponse 0 0 (Some 50%N) true; EvChunkDone 0 true; EvPageDone 0;
   EvLoop; EvPageResponse 0 None true; EvPageDone 0; EvLoop].

Definition final : Job := default initial (run (Pf := Node.node) events initial).

(** A site over the ceiling: a hub that links to eleven pages of
    50,000,000 bytes each. *)
Definition hub : Html :=
  mkHtml 2000
    (map (fun n => anchor ("/p" +:+ n))
         ["a"; "b"; "c"; "d"; "e"; "f"; "g"; "h"; "i"; "j"; "k"]).

Definition big : Html := mkHtml 50000000 [].

Definition events_huge : list Event :=
  [EvLoop; EvPageResponse 0 (Some hub) true; EvPageDone 0; EvLoop]
  ++ flat_map (fun p => [EvPageResponse p (Some big) true; EvPageDone p]) (seq 0 11).

Definition final_huge : Job := default initial (run (Pf := Node.node) events_huge initial).

(** A page with eleven images. *)
Definition gallery : Html :=
  mkHtml 2000
    (map (fun n => img ("https://cdn.x.com/" +:+ n +:+ ".png"))
         ["a"; "b"; "c"; "d"; "e"; "f"; "g"; "h"; "i"; "j"; "k"]).

Definition events_gallery : list Event :=
  [EvLoop; EvPageResponse 0 (Some gallery) true].

Definition final_gallery : Job :=
  default initial (run (Pf := Node.node) events_gallery initial).

(** The only page cannot be retrieved. *)
Definition events_down : list Event :=
  [EvLoop; EvPageResponse 0 None true; EvPageDone 0; EvLoop].

Definition final_down : Job :=
  default initial (run (Pf := Node.node) events_down initial).

(** A page whose images carry [data:] in the scheme and in the query. *)
Definition inline : Html :=
  mkHtml 300 [img "data:image/png;base64,AAAA";
              img "https://cdn.x.com/pix.png?from=data:1"].

Definition events_inline : list Event :=
  [EvLoop; EvPageResponse 0 (Some inline) true; EvPageDone 0; EvLoop].

Definition final_inline : Job :=
  default initial (run (Pf := Node.node) events_inline initial).

(** A target with a query string, whose page links to itself. *)
Definition target_query : string := "https://x.webflow.io/?ref=nav".

Definition landing : Html := mkHtml 400 [anchor "https://x.webflow.io/?ref=nav"].

Definition initial_query : Job :=
  {| baseUrl := "https://x.webflow.io"; baseHost := "x.webflow.io";
     tempDir := workdir; visitedUrls := ∅; visitedAssets := ∅;
     urlQueue := [target_query]; totalSize := 0; tasks := []; status := Crawling;
     trace := [MakeTempDir workdir] |}.

Definition events_query : list Event :=
  [EvLoop; EvPageResponse 0 (Some landing) true; EvPageDone 0; EvLoop].

Definition final_query : Job :=
  default initial_query (run (Pf := Node.node) events_query initial_query).

(** A page whose three images differ in query and fragment only. *)
Definition variants : Html :=
  mkHtml 300 [img "https://cdn.x.com/a.png"; img "https://cdn.x.com/a.png?v=2";
              img "https://cdn.x.com/a.png#frag"].

Definition events_variants : list Event :=
  [EvLoop; EvPageResponse 0 (Some variants) true;
   EvAssetResponse 0 0 (Some 50%N) true; EvAssetResponse 0 1 (Some 60%N) true;
   EvAssetResponse 0 2 (Some 70%N) true; EvChunkDone 0 true; EvPageDone 0; EvLoop].

Definition final_variants : Job :=
  default initial (run (Pf := Node.node) events_variants initial).

(** The gallery with images of 50,000,000 bytes each, and a page file
    that cannot be written. *)
Definition events_lost : list Event :=
  ([EvLoop; EvPageResponse 0 (Some gallery) true]
   ++ map (fun a => EvAssetResponse 0 a (Some 50000000%N) true) (seq 0 10)
   ++ [EvChunkDone 0 true; EvAssetResponse 0 0 (Some 50000000%N) true;
       EvChunkDone 0 false; EvPageDone 0; EvLoop])%list.

Definition final_lost : Job := default initial (run (Pf := Node.node) events_lost initial).

(** A directory page with links to seventeen pages; it also links to
    itself, and to two of the pages a second time, once with a query and
    a fragment. *)
Definition directory : Html :=
  mkHtml 3000
    (anchor "/" ::
     map (fun n => anchor ("/p" +:+ n))
         ["a"; "b"; "c"; "d"; "e"; "f"; "g"; "h"; "i"; "j"; "k"; "l"; "m"; "n";
          "o"; "p"; "q"]
     ++ [anchor "/pa"; anchor "/pb?x=1#top"])%list.

Definition events_directory : list Event :=
  [EvLoop; EvPageResponse 0 (Some directory) true; EvPageDone 0].

(** The job when the directory page has been processed. *)
Definition listed : Job :=
  default initial (run (Pf := Node.node) events_directory initial).



End Demo.

(** ** The retry loop, attempt by attempt *)

(** The size a request contributes when it succeeds: a response within
    the ceiling whose file could be written. *)
Definition attempt_ok (r : option N * bool) : option N :=
  match r with
  | (Some n, true) => if (MAX_SIZE_BYTES <? n)%N then None else Some n
  | _ => None
  end.

(** [suffix_of p s]: [s] ends with [p]. *)
Definition suffix_of (p s : string) : Prop := ∃ front, s = front +:+ p.

(** ** Bounds on concurrency and retries *)

Definition asset_task_bounded (t : AssetTask) : Prop :=
  match t with
  | ASettled _ => True
  | AFetching _ _ k => k < default_retries
  | ASleeping _ _ k => S k < default_retries
  end.

(** The chunk a page awaits is the image of
    [assets.slice(i, i + MAX_CONCURRENT_DOWNLOADS)]. *)
Definition page_task_bounded (t : PageTask) : Prop :=
  match t with
  | PAssets ctx _ _ i chunk =>
      List.length chunk = List.length (take MAX_CONCURRENT_DOWNLOADS (drop i (assets ctx)))
      ∧ Forall asset_task_bounded chunk
  | _ => True
  end.

Definition effect_bounded (e : Effect) : Prop :=
  match e with
  | GetAsset _ k => k < default_retries
  | Sleep ms => ms = 1000%N ∨ ms = 2000%N
  | _ => True
  end.

Record bounds_inv (s : Job) : Prop := {
  wave_bounded : List.length (tasks s) ≤ CHUNK_SIZE;
  tasks_bounded : Forall page_task_bounded (tasks s);
  trace_bounded : Forall effect_bounded (trace s)
}.

(** ** Documents under localization *)

Definition no_data (u : string) : Prop := JS.includes u "data:" = false.

(** The asset an unsettled asset task works on. *)
Definition task_asset (t : AssetTask) : option Asset :=
  match t with
  | ASettled _ => None
  | AFetching a _ _ | ASleeping a _ _ => Some a
  end.

Section WellFormed.
Context {Pf : Platform}.

(** Positions of [doc] that no entry of [assets] refers to still hold the
    element that was parsed. *)
Definition untouched (ctx : PageCtx) (doc : list Element) : Prop :=
  ∀ j, (∀ a, a ∈ assets ctx → asset_element a ≠ j) →
       doc !! j = dom (page_html ctx) !! j.

Definition page_task_wf (t : PageTask) : Prop :=
  match t with
  | PAssets ctx _ doc _ chunk =>
      assets ctx = collect_assets (page_url ctx) (dom (page_html ctx))
      ∧ (∀ t a, t ∈ chunk → task_asset t = Some a → a ∈ assets ctx)
      ∧ untouched ctx doc
  | _ => True
  end.

Definition effect_wf (e : Effect) : Prop :=
  match e with
  | GetAsset u _ => no_data u
  | SavePage url body _ doc' =>
      ∀ j el, dom body !! j = Some el → is_anchor_element el = false →
              (∀ a, a ∈ collect_assets url (dom body) → asset_element a ≠ j) →
              doc' !! j = Some el
  | _ => True
  end.

Record wf_inv (s : Job) : Prop := {
  tasks_wf : Forall page_task_wf (tasks s);
  trace_wf : Forall effect_wf (trace s)
}.

End WellFormed.

(** ** Plain paths *)

(** A path segment proper: not empty, not a dot segment, free of [/]. *)
Definition is_segment (s : string) : bool :=
  negb (String.eqb s "") && negb (String.eqb s ".") && negb (String.eqb s "..")
  && negb (JS.includes s "/").

(** [of_segments [a; b]] is the absolute path [/a/b]. *)
Definition of_segments (segs : list string) : string :=
  foldr (fun seg acc => "/" +:+ seg +:+ acc) "" segs.

(** The extension test of [getLocalFilePath]. *)
Definition has_html_extension (p : string) : bool :=
  existsb (String.eqb (JS.toLowerCase (Path.extname p))) [".html"; ".htm"]%string.

(** Tokens: what stands between two separators. *)
Definition is_token (s : string) : Prop := JS.includes s "/" = false.

(** The tokens of a path below the root: its segments, and an empty
    token at the end when it has a trailing separator. *)
Definition path_tokens (psegs : list string) (trail : bool) : list string :=
  ""%string :: psegs ++ (if trail then [""%string] else []).

(** The local path as the specification words it: [index.html] for a
    directory-style path, an [.html] suffix for an extensionless path, the
    path itself otherwise, below [assets/<host>] when the host is not the
    one of the site. *)
Definition spec_local_path {Pf : Platform} (url baseHost tempDir : string)
  : option string :=
  u ← newURL url;
  let under :=
    if String.eqb (host u) baseHost then [tempDir]
    else [tempDir; "assets"%string; host u] in
  if JS.endsWith (pathname u) "/"
  then Some (Path.join (under ++ [pathname u; "index.html"%string]))
  else if String.eqb (Path.extname (pathname u)) ""
  then Some (Path.join (under ++ [pathname u]) +:+ ".html")
  else Some (Path.join (under ++ [pathname u])).

(** ** Paths below a directory *)

(** The segments of [path.join(root, p)] for the directory [root] made of
    the segments [rsegs]: the tokens of [p] are taken one after the other
    by [normalizeString]; empty tokens and [.] vanish, and [..] removes the
    segment before it, a segment of [root] included. *)
Definition resolve_below (rsegs : list string) (p : string) : list string :=
  rev (fold_left (Path.norm_step false) (JS.split "/" p) (rev rsegs)).

(** An absolute path written out, with or without a trailing separator;
    the root directory is [/] in both cases. *)
Definition render_path (segs : list string) (trail : bool) : string :=
  match segs with
  | [] => "/"%string
  | _ => (of_segments segs +:+ (if trail then "/" else ""))%string
  end.

(** The segments of a path: its tokens that are not empty. *)
Definition segments_of (p : string) : list string :=
  filter (fun x => x ≠ ""%string) (JS.split "/" p).

(** No token of the path is [.] or [..]. *)
Definition dot_free (p : string) : Prop :=
  Forall (fun x => x ≠ "."%string ∧ x ≠ ".."%string) (JS.split "/" p).

(** ** Where pages are saved *)

Section SavedPaths.
Context {Pf : Platform}.

Definition task_path_ok (root : string) (t : PageTask) : Prop :=
  match t with
  | PAssets ctx _ _ _ _ =>
      getLocalFilePath (page_url ctx) "" root = Some (localFilePath ctx)
  | _ => True
  end.

Definition effect_path_ok (root : string) (e : Effect) : Prop :=
  match e with
  | SavePage url _ lfp _ => getLocalFilePath url "" root = Some lfp
  | _ => True
  end.

Record path_inv (root : string) (s : Job) : Prop := {
  root_fixed : tempDir s = root;
  tasks_path_ok : Forall (task_path_ok root) (tasks s);
  trace_path_ok : Forall (effect_path_ok root) (trace s)
}.

End SavedPaths.

(** ** The retry loop in general *)

(** The delay armed after the failure of request [i]. *)
Definition backoff_ms (i : nat) : N := 1000 * 2 ^ N.of_nat i.

(** ** The sweep *)

(** Entries the sweep is to remove: modified more than an hour ago. *)
Definition expired (now : Z) (e : DirEntry) : bool :=
  match entry_mtime e with
  | Some mtime => (MAX_AGE_MS <? now - mtime)%Z
  | None => false
  end.

(** Entries on which a file-system call throws. *)
Definition sweep_fails (now : Z) (e : DirEntry) : bool :=
  match entry_mtime e with
  | Some mtime => expired now e && negb (entry_rm_ok e)
  | None => true
  end.

(** ** The reach of the crawl *)

(** The URLs a job knows: waiting in the frontier or claimed. *)
Definition known (s : Job) (u : string) : Prop := u ∈ urlQueue s ∨ u ∈ visitedUrls s.

(** The test of the link rewriter on the value of [href]. *)
Definition followed (h : string) : bool :=
  negb (String.eqb h "" || JS.startsWith h "mailto:" || JS.startsWith h "tel:"
        || JS.startsWith h "#").

(** [normalizedLink]: the link without fragment and query. *)
Definition link_key (absoluteLink : string) : string :=
  JS.split_head "?" (JS.split_head "#" absoluteLink).

(** What the link rewriter accepts for the frontier: a string that
    starts with [base] and holds neither [?] nor [#]. *)
Definition site_key (base u : string) : Prop :=
  JS.startsWith u base = true ∧ JS.includes u "?" = false ∧ JS.includes u "#" = false.

(** [grows s s']: from [s] to [s'] the job keeps its constants, forgets
    no URL, and learns site keys only. *)
Record grows (s s' : Job) : Prop := {
  grows_baseUrl : baseUrl s' = baseUrl s;
  grows_baseHost : baseHost s' = baseHost s;
  grows_tempDir : tempDir s' = tempDir s;
  grows_known : ∀ u, known s u → known s' u;
  grows_new : ∀ u, known s' u → known s u ∨ site_key (baseUrl s) u
}.

(** Every same-site link of a saved page is known to the job. *)
Definition effect_closed {Pf : Platform} (s : Job) (e : Effect) : Prop :=
  match e with
  | SavePage url body _ _ =>
      ∀ j el h absolute,
        dom body !! j = Some el → is_anchor_element el = true →
        attr_href el = Some h → followed h = true →
        newURLBase h url = Some absolute →
        JS.startsWith (link_key (href absolute)) (baseUrl s) = true →
        known s (link_key (href absolute))
  | _ => True
  end.

(** ** Where effects come from *)

Section Origins.
Context {Pf : Platform}.

(** [saving s p ctx doc]: in [s], page task [p] is about to leave the
    asset loop of the page [ctx] with the document [doc]: either its last
    chunk has settled, or the page has just arrived and has no asset. *)
Definition saving (s : Job) (p : nat) (ctx : PageCtx) (doc : list Element) : Prop :=
  (∃ pageSize i chunk,
      tasks s !! p = Some (PAssets ctx pageSize doc i chunk) ∧
      forallb asset_settled chunk = true)
  ∨ (tasks s !! p = Some (PFetching (page_url ctx)) ∧
     getLocalFilePath (page_url ctx) (baseUrl s) (tempDir s) = Some (localFilePath ctx) ∧
     pageDir ctx = Path.dirname (localFilePath ctx) ∧
     assets ctx = collect_assets (page_url ctx) (dom (page_html ctx)) ∧
     assets ctx = [] ∧
     doc = dom (page_html ctx)).

(** What a write that happens in the step from [s] to [s'] is. *)
Definition fresh_effect (s s' : Job) (e : Effect) : Prop :=
  match e with
  | SaveAsset assetPath size =>
      ∃ p a ctx pageSize doc i chunk asset k,
        tasks s !! p = Some (PAssets ctx pageSize doc i chunk) ∧
        chunk !! a = Some (AFetching asset assetPath k) ∧
        (size ≤ MAX_SIZE_BYTES)%N
  | SavePage url body lfp doc' =>
      ∃ p ctx doc,
        saving s p ctx doc ∧
        url = page_url ctx ∧ body = page_html ctx ∧ lfp = localFilePath ctx ∧
        doc' = (rewrite_links ctx doc s).1 ∧
        urlQueue s' = urlQueue (rewrite_links ctx doc s).2 ∧
        visitedUrls s' = visitedUrls (rewrite_links ctx doc s).2
  | _ => True
  end.

End Origins.

(** Every same-site link of a saved page is known. *)
Definition closed_inv {Pf : Platform} (s : Job) : Prop :=
  Forall (effect_closed s) (trace s).

(** ** Page contexts *)

(** The locals of [downloadPage] are what the code computes them from. *)
Definition ctx_ok {Pf : Platform} (s : Job) (ctx : PageCtx) : Prop :=
  getLocalFilePath (page_url ctx) (baseUrl s) (tempDir s) = Some (localFilePath ctx) ∧
  pageDir ctx = Path.dirname (localFilePath ctx) ∧
  assets ctx = collect_assets (page_url ctx) (dom (page_html ctx)).

Definition ctx_inv {Pf : Platform} (s : Job) : Prop :=
  ∀ p ctx pageSize doc i chunk,
    tasks s !! p = Some (PAssets ctx pageSize doc i chunk) → ctx_ok s ctx.

(** The locals of [downloadPage] for the page [url] with body [body]
    saved at [lfp]. *)
Definition ctx_of {Pf : Platform} (url : string) (body : Html) (lfp : string) : PageCtx :=
  {| page_url := url; page_html := body; localFilePath := lfp;
     pageDir := Path.dirname lfp; assets := collect_assets url (dom body) |}.

(** The anchors of a saved page are what the link rewriter made of them. *)
Definition effect_anchors {Pf : Platform} (s : Job) (e : Effect) : Prop :=
  match e with
  | SavePage url body lfp doc' =>
      ∀ j el, dom body !! j = Some el → is_anchor_element el = true →
              doc' !! j = Some (rewrite_link (ctx_of url body lfp) el s).1
  | _ => True
  end.

Definition anchors_inv {Pf : Platform} (s : Job) : Prop :=
  Forall (effect_anchors s) (trace s).

(** ** The bytes a job has written *)

Definition sumN (l : list N) : N := foldr N.add 0%N l.

(** The sizes of the asset files written. *)
Definition saved_asset_bytes (tr : list Effect) : N :=
  sumN (omap (fun e => match e with SaveAsset _ n => Some n | _ => None end) tr).

(** The sizes of the bodies of the pages written, as they were fetched. *)
Definition saved_page_bytes (tr : list Effect) : N :=
  sumN (omap (fun e => match e with SavePage _ body _ _ => Some (byteLength body)
                                | _ => None end) tr).

(** What a page task has counted so far and not yet handed to the
    handler. *)
Definition held (t : PageTask) : N :=
  match t with
  | PAssets _ pageSize _ _ chunk => pageSize + sumN (settled_size <$> chunk)
  | PReturned pageSize => pageSize
  | _ => 0
  end.

(** The size of the body a page task has counted without having
    written the page yet. *)
Definition owed (t : PageTask) : N :=
  match t with
  | PAssets ctx _ _ _ _ => byteLength (page_html ctx)
  | _ => 0
  end.

(** The value [downloadPage] has returned and the handler has not added. *)
Definition returned (t : PageTask) : N :=
  match t with PReturned pageSize => pageSize | _ => 0 end.

Record ledger_inv (s : Job) : Prop := {
  ledger_upper :
    (totalSize s + sumN (held <$> tasks s)
     ≤ saved_page_bytes (trace s) + saved_asset_bytes (trace s)
       + sumN (owed <$> tasks s))%N;
  ledger_lower :
    (saved_page_bytes (trace s) ≤ totalSize s + sumN (returned <$> tasks s))%N;
  ledger_tasks :
    ∀ p ctx pageSize doc i chunk,
      tasks s !! p = Some (PAssets ctx pageSize doc i chunk) →
      (byteLength (page_html ctx) ≤ pageSize)%N
}.

(** The event does not report a failed write of a page file after the
    last asset chunk of the page. *)
Definition page_kept (ev : Event) : bool :=
  match ev with
  | EvChunkDone _ fs_ok => fs_ok
  | _ => true
  end.

(** Every byte written is counted, and nothing else: the bytes of the
    page bodies and asset files written are the total plus what the page
    tasks hold, less the bodies they hold without having written them. *)
Definition audit_inv (s : Job) : Prop :=
  (totalSize s + sumN (held <$> tasks s)
   = saved_page_bytes (trace s) + saved_asset_bytes (trace s)
     + sumN (owed <$> tasks s))%N.

(** ** Localized assets *)

(** The asset and the file of an asset task that has not settled. *)
Definition asset_task_path (t : AssetTask) : option (Asset * string) :=
  match t with
  | ASettled _ => None
  | AFetching a assetPath _ | ASleeping a assetPath _ => Some (a, assetPath)
  end.

Section Localized.
Context {Pf : Platform}.

(** [localized s url lfp j el el']: [el'] is what the asset loop leaves
    of the element [el], parsed at position [j] of the page [url] that is
    saved at [lfp]: [el] itself, or [el] with the attribute that was read
    set to the encoded relative path from the page to the local file of
    its asset, a file that has been written. *)
Definition localized (s : Job) (url lfp : string) (j : nat) (el el' : Element) : Prop :=
  el' = el ∨
  ∃ a assetPath size v,
    is_asset_element el = true ∧
    asset_of_element url j el = Some a ∧
    assetLocalPath (asset_url a) (baseHost s) (tempDir s) = Some assetPath ∧
    SaveAsset assetPath size ∈ trace s ∧
    encodeURI (JS.backslash_to_slash (Path.relative (Path.dirname lfp) assetPath))
      = Some v ∧
    el' = set_attr (asset_attr a) v el.

(** The chunk of a page task is a slice of its assets, each task with
    the local file of its asset; the elements of the assets that are not
    settled yet are as they were parsed; every element is localized. *)
Definition page_task_local (s : Job) (t : PageTask) : Prop :=
  match t with
  | PAssets ctx _ doc i chunk =>
      (∀ idx t a assetPath,
         chunk !! idx = Some t → asset_task_path t = Some (a, assetPath) →
         assets ctx !! (i + idx) = Some a ∧
         assetLocalPath (asset_url a) (baseHost s) (tempDir s) = Some assetPath) ∧
      (∀ n a,
         assets ctx !! n = Some a → i ≤ n →
         (∀ size, chunk !! (n - i) ≠ Some (ASettled size)) →
         doc !! asset_element a = dom (page_html ctx) !! asset_element a) ∧
      (∀ j el,
         dom (page_html ctx) !! j = Some el →
         ∃ el', doc !! j = Some el' ∧
                localized s (page_url ctx) (localFilePath ctx) j el el')
  | _ => True
  end.

Definition effect_local (s : Job) (e : Effect) : Prop :=
  match e with
  | SaveAsset assetPath size =>
      (size ≤ MAX_SIZE_BYTES)%N ∧
      ∃ u k, GetAsset u k ∈ trace s ∧
             assetLocalPath u (baseHost s) (tempDir s) = Some assetPath
  | SavePage url body lfp doc' =>
      ∀ j el, dom body !! j = Some el → is_anchor_element el = false →
              ∃ el', doc' !! j = Some el' ∧ localized s url lfp j el el'
  | _ => True
  end.

Record local_inv (s : Job) : Prop := {
  tasks_local : Forall (page_task_local s) (tasks s);
  trace_local : Forall (effect_local s) (trace s)
}.

End Localized.

(** ** Pages at work and pages written *)

(** The URLs of the pages written, oldest first. *)
Definition saved_urls (tr : list Effect) : list string :=
  omap (fun e => match e with SavePage url _ _ _ => Some url | _ => None end) tr.

(** The page a task is downloading. *)
Definition page_task_url (t : PageTask) : option string :=
  match t with
  | PFetching url => Some url
  | PAssets ctx _ _ _ _ => Some (page_url ctx)
  | _ => None
  end.

(** [working s p u]: page task [p] is inside [downloadPage] for [u]. *)
Definition working (s : Job) (p : nat) (u : string) : Prop :=
  ∃ t, tasks s !! p = Some t ∧ page_task_url t = Some u.

(** A page is written once at most, by the one task that claimed it. *)
Record saves_inv (s : Job) : Prop := {
  saves_nodup : NoDup (saved_urls (trace s));
  saves_visited : ∀ u, u ∈ saved_urls (trace s) → u ∈ visitedUrls s;
  working_visited : ∀ p u, working s p u → u ∈ visitedUrls s;
  working_unsaved : ∀ p u, working s p u → u ∉ saved_urls (trace s);
  working_unique : ∀ p q u, working s p u → working s q u → p = q
}.

(** ** Jobs that differ in their status only *)

Definition same_work (s s' : Job) : Prop :=
  baseUrl s' = baseUrl s ∧ baseHost s' = baseHost s ∧ tempDir s' = tempDir s ∧
  visitedUrls s' = visitedUrls s ∧ visitedAssets s' = visitedAssets s ∧
  urlQueue s' = urlQueue s ∧ totalSize s' = totalSize s ∧
  tasks s' = tasks s ∧ trace s' = trace s.

(** * Properties *)

(** ** Facts about the string primitives *)

Lemma string_app_cons (c : ascii) (a b : string) :
  String c a +:+ b = String c (a +:+ b).
Proof. reflexivity. Qed.

Lemma string_app_nil_l (b : string) : "" +:+ b = b.
Proof. reflexivity. Qed.

Ltac app_simpl := rewrite ?string_app_cons, ?string_app_nil_l in *; simpl in *.

Section JSFacts.

Lemma string_app_length (a b : string) :
  String.length (a +:+ b) = String.length a + String.length b.
Proof. induction a as [|c a IH]; app_simpl; [done|]. by rewrite IH. Qed.

Lemma string_app_assoc (a b c : string) : (a +:+ b) +:+ c = a +:+ (b +:+ c).
Proof. induction a as [|x a IH]; app_simpl; [done|]. by f_equal. Qed.

Lemma string_app_nil_r (a : string) : a +:+ "" = a.
Proof. induction a as [|x a IH]; app_simpl; [done|]. by f_equal. Qed.

Lemma startsWith_spec (s p : string) :
  JS.startsWith s p = true ↔ ∃ rest, s = p +:+ rest.
Proof.
  unfold JS.startsWith. revert s. induction p as [|c p IH]; intros s.
  - destruct s; simpl; split; eauto.
  - destruct s as [|b s]; simpl.
    + split; [done|]. by intros [rest ?].
    + destruct (ascii_dec c b) as [->|Hne].
      * rewrite IH. split; intros [rest Hr]; exists rest; app_simpl; congruence.
      * split; [done|]. intros [rest ?]. app_simpl. congruence.
Qed.

Lemma substring_split (s : string) (k : nat) :
  k ≤ String.length s →
  s = substring 0 k s +:+ substring k (String.length s - k) s.
Proof.
  revert k. induction s as [|c s IH]; intros k Hk; simpl in *.
  - by destruct k.
  - destruct k as [|k]; app_simpl.
    + f_equal. clear. induction s as [|c s IH]; simpl; [done|]. by f_equal.
    + f_equal. apply IH. lia.
Qed.

Lemma substring_app_r (a b : string) :
  substring (String.length a) (String.length b) (a +:+ b) = b.
Proof.
  induction a as [|c a IH]; app_simpl; [|done].
  induction b as [|c b IH]; simpl; [done|]. by f_equal.
Qed.

Lemma endsWith_spec (s p : string) :
  JS.endsWith s p = true ↔ ∃ front, s = front +:+ p.
Proof.
  unfold JS.endsWith. rewrite andb_true_iff, Nat.leb_le, String.eqb_eq. split.
  - intros [Hle Hsub]. exists (substring 0 (String.length s - String.length p) s).
    pose proof (substring_split s (String.length s - String.length p)) as Hs.
    replace (String.length s - (String.length s - String.length p))
      with (String.length p) in Hs by lia.
    rewrite Hsub in Hs. apply Hs. lia.
  - intros [front ->]. rewrite string_app_length. split; [lia|].
    replace (String.length front + String.length p - String.length p)
      with (String.length front) by lia.
    apply substring_app_r.
Qed.

Lemma includes_spec (s sub : string) :
  JS.includes s sub = true ↔ ∃ before after, s = before +:+ sub +:+ after.
Proof.
  induction s as [|c s IH]; cbn [JS.includes].
  - rewrite orb_false_r, startsWith_spec. split.
    + intros [rest Hr]. by exists ""%string, rest.
    + intros (before & after & Hs). destruct before; app_simpl; [eauto|done].
  - rewrite orb_true_iff, startsWith_spec, IH. split.
    + intros [[rest Hr]|(before & after & Hs)].
      * by exists ""%string, rest.
      * exists (String c before), after. app_simpl. by f_equal.
    + intros (before & after & Hs). destruct before as [|b before]; app_simpl.
      * left. eauto.
      * right. exists before, after. congruence.
Qed.

Lemma split_head_length (c : ascii) (s : string) :
  String.length (JS.split_head c s) ≤ String.length s.
Proof. induction s as [|b s IH]; simpl; [done|]. destruct (Ascii.eqb b c); simpl; lia. Qed.

Lemma startsWith_char (c b : ascii) (s : string) :
  JS.startsWith (String b s) (String c "") = Ascii.eqb b c.
Proof.
  unfold JS.startsWith. simpl. destruct (ascii_dec c b) as [->|Hne].
  - rewrite Ascii.eqb_refl. by destruct s.
  - symmetry. apply Ascii.eqb_neq. congruence.
Qed.

Lemma split_head_cut (c : ascii) (s : string) :
  JS.includes s (String c "") = true →
  String.length (JS.split_head c s) < String.length s.
Proof.
  induction s as [|b s IH]; cbn [JS.includes JS.split_head]; [done|].
  rewrite startsWith_char. destruct (Ascii.eqb b c); simpl; [lia|].
  intros Hin%IH. lia.
Qed.

Lemma split_head_id (c : ascii) (s : string) :
  JS.includes s (String c "") = false → JS.split_head c s = s.
Proof.
  induction s as [|b s IH]; cbn [JS.includes JS.split_head]; [done|].
  rewrite startsWith_char. destruct (Ascii.eqb b c); simpl; [done|].
  intros Hin%IH. by f_equal.
Qed.

(** A URL with a query or a fragment differs from its normalized form. *)
Lemma normalized_differs (s : string) :
  JS.includes s "?" = true ∨ JS.includes s "#" = true →
  JS.split_head "?" (JS.split_head "#" s) ≠ s.
Proof.
  intros Hc Heq.
  assert (String.length (JS.split_head "?" (JS.split_head "#" s)) < String.length s);
    [|rewrite Heq in *; lia].
  pose proof (split_head_length "?" (JS.split_head "#" s)).
  pose proof (split_head_length "#" s).
  destruct (JS.includes s "#") eqn:Hh.
  - pose proof (split_head_cut "#" s Hh). lia.
  - destruct Hc as [Hq|?]; [|done].
    rewrite (split_head_id "#" s Hh). by apply split_head_cut.
Qed.

End JSFacts.

(** ** Facts about [path.join] *)

Section PathFacts.

Lemma split_nonempty (c : ascii) (s : string) : JS.split c s ≠ [].
Proof.
  induction s as [|b s IH]; simpl; [done|].
  destruct (Ascii.eqb b c); [done|]. by destruct (JS.split c s).
Qed.

(** Splitting at a separator that is there. *)
Lemma split_app (c : ascii) (a b : string) :
  JS.split c (a +:+ String c b) = JS.split c a ++ JS.split c b.
Proof.
  induction a as [|x a IH]; app_simpl.
  - by rewrite Ascii.eqb_refl.
  - destruct (Ascii.eqb x c); [by rewrite IH|].
    rewrite IH. pose proof (split_nonempty c a). by destruct (JS.split c a).
Qed.

Lemma split_plain (c : ascii) (s : string) :
  JS.includes s (String c "") = false → JS.split c s = [s].
Proof.
  induction s as [|b s IH]; cbn [JS.includes JS.split]; [done|].
  rewrite startsWith_char. destruct (Ascii.eqb b c); simpl; [done|].
  intros Hs. by rewrite (IH Hs).
Qed.

Lemma concat_cons (sep x : string) (l : list string) :
  l ≠ [] → String.concat sep (x :: l) = x +:+ sep +:+ String.concat sep l.
Proof. by destruct l. Qed.

Lemma concat_app (sep : string) (l1 l2 : list string) :
  l1 ≠ [] → l2 ≠ [] →
  String.concat sep (l1 ++ l2) = String.concat sep l1 +:+ sep +:+ String.concat sep l2.
Proof.
  intros H1 H2. induction l1 as [|x l1 IH]; [done|].
  destruct l1 as [|y l1].
  - cbn [app]. by rewrite concat_cons.
  - rewrite <- app_comm_cons, (concat_cons sep x), IH, (concat_cons sep x),
      !string_app_assoc by done. done.
Qed.

Lemma split_concat (l : list string) :
  l ≠ [] → Forall is_token l → JS.split "/" (String.concat "/" l) = l.
Proof.
  intros Hl Htok. induction l as [|x l IH]; [done|].
  apply Forall_cons in Htok as [Hx Htok].
  destruct l as [|y l]; [by apply split_plain|].
  rewrite concat_cons by done.
  change ("/" +:+ String.concat "/" (y :: l))
    with (String "/" (String.concat "/" (y :: l))).
  rewrite split_app, IH, split_plain; done.
Qed.

Lemma segment_token (s : string) : is_segment s = true → is_token s.
Proof. unfold is_segment, is_token. rewrite !andb_true_iff, !negb_true_iff. tauto. Qed.

(** Normalizing tokens that are empty or proper segments keeps the
    segments. *)
Lemma norm_step_tokens (above : bool) (toks acc : list string) :
  Forall (fun x => x = ""%string ∨ is_segment x = true) toks →
  fold_left (Path.norm_step above) toks acc
  = rev (filter (fun x => x ≠ ""%string) toks) ++ acc.
Proof.
  revert acc. induction toks as [|x toks IH]; intros acc Htok; [done|].
  apply Forall_cons in Htok as [Hx Htok]. simpl. rewrite IH by done.
  destruct Hx as [->|Hx].
  - rewrite filter_cons_False by (by intros ?). done.
  - unfold is_segment in Hx. rewrite !andb_true_iff, !negb_true_iff in Hx.
    destruct Hx as (((Hne & Hd) & Hdd) & _).
    rewrite filter_cons_True by (intros ->; done).
    unfold Path.norm_step. rewrite Hne, Hd, Hdd. simpl.
    by rewrite <- app_assoc.
Qed.

Lemma of_segments_app (a b : list string) :
  of_segments (a ++ b) = of_segments a +:+ of_segments b.
Proof.
  induction a as [|x a IH]; simpl; [done|].
  rewrite IH, !string_app_assoc. done.
Qed.

Lemma of_segments_concat (segs : list string) :
  segs ≠ [] → of_segments segs = "/" +:+ String.concat "/" segs.
Proof.
  induction segs as [|x segs IH]; [done|]. intros _. simpl.
  destruct segs as [|y segs].
  - simpl. by rewrite string_app_nil_r.
  - rewrite IH by done. done.
Qed.

Lemma substring_skip (a b : string) (k m : nat) :
  substring (String.length a + k) m (a +:+ b) = substring k m b.
Proof. induction a as [|c a IH]; app_simpl; [done|]. exact IH. Qed.

Lemma endsWith_app (a : string) (c : ascii) (b p : string) :
  String.length p = 1 →
  JS.endsWith (a +:+ String c b) p = JS.endsWith (String c b) p.
Proof.
  intros Hp. unfold JS.endsWith. rewrite string_app_length, Hp.
  cbn [String.length].
  replace (String.length a + S (String.length b) - 1)
    with (String.length a + String.length b) by lia.
  replace (S (String.length b) - 1) with (String.length b) by lia.
  rewrite substring_skip.
  assert ((1 <=? String.length a + S (String.length b)) = true) as ->
    by (apply Nat.leb_le; lia).
  assert ((1 <=? S (String.length b)) = true) as -> by (apply Nat.leb_le; lia).
  done.
Qed.

Lemma endsWith_token (s : string) :
  is_token s → JS.endsWith s "/" = false.
Proof.
  intros Hs. apply not_true_is_false. intros [front Hf]%endsWith_spec.
  unfold is_token in Hs. apply not_true_iff_false in Hs. apply Hs.
  apply includes_spec. exists front, ""%string. done.
Qed.

Lemma concat_tokens (ls : list (list string)) :
  ls ≠ [] → Forall (fun l => l ≠ []) ls →
  String.concat "/" (map (String.concat "/") ls) = String.concat "/" (mjoin ls).
Proof.
  intros Hls Hne. induction ls as [|l ls IH]; [done|].
  apply Forall_cons in Hne as [Hl Hne]. destruct ls as [|l' ls].
  - simpl. by rewrite app_nil_r.
  - cbn [map mjoin list_join]. rewrite concat_cons by done.
    change (map (String.concat "/") (l' :: ls)) with
      (String.concat "/" l' :: map (String.concat "/") ls) in IH.
    rewrite IH by done. rewrite concat_app; [done..|].
    apply Forall_cons in Hne as [Hl' _]. cbn [mjoin list_join]. by destruct l'.
Qed.

Lemma join_nonempty (args : list string) :
  args ≠ [] → Forall (fun a => a ≠ ""%string) args →
  Path.join args = Path.normalize (String.concat "/" args).
Proof.
  intros Hargs Hne. unfold Path.join.
  assert (filter (fun a => a ≠ ""%string) args = args) as ->.
  { induction Hne as [|a args Ha Hne IH]; [done|].
    rewrite filter_cons_True by done. f_equal. destruct args; [done|]. by apply IH. }
  by destruct args.
Qed.

(** An absolute path made of segments and empty tokens normalizes to its
    segments; the trailing separator is kept. *)
Lemma normalize_tokens (toks : list string) :
  Forall (fun x => x = ""%string ∨ is_segment x = true) toks →
  filter (fun x => x ≠ ""%string) toks ≠ [] →
  Path.normalize (String.concat "/" (""%string :: toks))
  = of_segments (filter (fun x => x ≠ ""%string) toks)
    +:+ (if bool_decide (last toks = Some ""%string) then "/" else "").
Proof.
  intros Htok Hsegs.
  assert (toks ≠ []) as Hne by (by intros ->).
  assert (Forall is_token toks) as Htok'.
  { eapply Forall_impl; [exact Htok|]. intros x [->|Hx]; [done|by apply segment_token]. }
  set (segs := filter (fun x => x ≠ ""%string) toks) in *.
  assert (Forall (fun x => is_segment x = true) segs) as Hseg.
  { apply Forall_forall. intros x [Hx Hin]%list_elem_of_filter.
    rewrite Forall_forall in Htok. by destruct (Htok x Hin). }
  assert (String.concat "/" segs ≠ ""%string) as Hq.
  { destruct segs as [|x segs']; [done|]. apply Forall_cons in Hseg as [Hx _].
    destruct x; [done|]. by destruct segs'. }
  rewrite concat_cons by done. rewrite string_app_nil_l.
  unfold Path.normalize. cbv zeta.
  assert (JS.startsWith ("/" +:+ String.concat "/" toks) "/" = true) as ->.
  { apply startsWith_spec. eauto. }
  change (negb true) with false.
  assert (Path.normalizeString ("/" +:+ String.concat "/" toks) false
          = String.concat "/" segs) as ->.
  { unfold Path.normalizeString.
    change ("/" +:+ String.concat "/" toks)
      with (""%string +:+ String "/" (String.concat "/" toks)).
    rewrite split_app, split_concat by done. simpl.
    unfold Path.norm_step at 2. simpl.
    rewrite norm_step_tokens by done. by rewrite app_nil_r, rev_involutive. }
  assert (JS.endsWith ("/" +:+ String.concat "/" toks) "/"
          = bool_decide (last toks = Some ""%string)) as ->.
  { destruct (exists_last Hne) as (front & x & ->). rewrite last_snoc.
    destruct front as [|y front].
    - (* a single token, which is a segment *)
      simpl. destruct x as [|c x]; [done|].
      rewrite bool_decide_eq_false_2 by (by intros [=]).
      change ("/" +:+ String c x) with (("/" +:+ "") +:+ String c x).
      rewrite endsWith_app by done. apply endsWith_token.
      apply Forall_app in Htok' as [_ Hx]. by inversion Hx.
    - rewrite concat_app by done. simpl String.concat at 2.
      destruct x as [|c x].
      + rewrite bool_decide_eq_true_2 by done. apply endsWith_spec.
        exists ("/" +:+ String.concat "/" (y :: front)).
        by rewrite !string_app_assoc, string_app_nil_r.
      + rewrite bool_decide_eq_false_2 by (by intros [=]).
        rewrite <- !string_app_assoc, endsWith_app by done.
        apply endsWith_token. apply Forall_app in Htok' as [_ Hx].
        by inversion Hx. }
  assert (String.eqb ("/" +:+ String.concat "/" toks) "" = false) as -> by done.
  apply String.eqb_neq in Hq. rewrite Hq.
  rewrite of_segments_concat by done.
  destruct (bool_decide (last toks = Some ""%string)).
  - by rewrite string_app_assoc.
  - by rewrite string_app_nil_r.
Qed.

Lemma filter_segments (segs : list string) :
  forallb is_segment segs = true →
  filter (fun x => x ≠ ""%string) segs = segs.
Proof.
  induction segs as [|x segs IH]; simpl; [done|].
  rewrite andb_true_iff. intros [Hx Hsegs].
  rewrite filter_cons_True; [by rewrite IH|]. intros ->. done.
Qed.

Lemma segments_tokens (segs : list string) :
  forallb is_segment segs = true →
  Forall (fun x => x = ""%string ∨ is_segment x = true) segs.
Proof.
  rewrite forallb_forall, Forall_forall. intros Hs x Hx. right.
  by apply Hs, list_elem_of_In.
Qed.

Lemma path_tokens_concat (psegs : list string) (trail : bool) :
  psegs ≠ [] ∨ trail = true →
  String.concat "/" (path_tokens psegs trail)
  = of_segments psegs +:+ (if trail then "/" else "").
Proof.
  intros Hp. unfold path_tokens. destruct psegs as [|x psegs].
  - destruct Hp as [?| ->]; done.
  - rewrite of_segments_concat by done. destruct trail.
    + rewrite (app_comm_cons _ _ ""%string), concat_app by done.
      rewrite concat_cons by done. by rewrite !string_app_assoc.
    + by rewrite app_nil_r, concat_cons, string_app_nil_r.
Qed.

Lemma path_tokens_filter (psegs : list string) (trail : bool) :
  forallb is_segment psegs = true →
  filter (fun x => x ≠ ""%string) (path_tokens psegs trail) = psegs.
Proof.
  intros Hp. unfold path_tokens.
  rewrite filter_cons_False by (by intros ?).
  rewrite filter_app, filter_segments by done.
  destruct trail; [|by rewrite app_nil_r].
  rewrite filter_cons_False by (by intros ?). by rewrite app_nil_r.
Qed.

Lemma path_tokens_last (psegs : list string) (trail : bool) :
  forallb is_segment psegs = true → psegs ≠ [] ∨ trail = true →
  bool_decide (last (path_tokens psegs trail) = Some ""%string) = trail.
Proof.
  intros Hp Hne. unfold path_tokens. destruct trail.
  - rewrite app_comm_cons, last_snoc. by apply bool_decide_eq_true_2.
  - rewrite app_nil_r. destruct Hne as [Hne|?]; [|done].
    destruct (exists_last Hne) as (front & x & ->).
    rewrite app_comm_cons, last_snoc. apply bool_decide_eq_false_2.
    intros [= ->]. rewrite forallb_app in Hp. simpl in Hp.
    by rewrite andb_false_r in Hp.
Qed.

(** [path.join] of an absolute root made of segments with further
    pieces, each given by its tokens. *)
Lemma join_tokens (rsegs : list string) (pieces : list (list string)) :
  rsegs ≠ [] → forallb is_segment rsegs = true →
  pieces ≠ [] →
  Forall (fun l => String.concat "/" l ≠ ""%string) pieces →
  Forall (fun x => x = ""%string ∨ is_segment x = true) (mjoin pieces) →
  Path.join (of_segments rsegs :: map (String.concat "/") pieces)
  = of_segments (rsegs ++ filter (fun x => x ≠ ""%string) (mjoin pieces))
    +:+ (if bool_decide (last (mjoin pieces) = Some ""%string) then "/" else "").
Proof.
  intros Hr Hrsegs Hp Hpieces Htok.
  assert (Forall (fun l : list string => l ≠ []) pieces) as Hne.
  { eapply Forall_impl; [exact Hpieces|]. by intros l Hl ->. }
  assert (mjoin pieces ≠ []) as Hjoin.
  { destruct pieces as [|l pieces]; [done|].
    apply Forall_cons in Hne as [Hl _]. simpl. by destruct l. }
  rewrite of_segments_concat by done.
  change ("/" +:+ String.concat "/" rsegs) with (""%string +:+ "/" +:+ String.concat "/" rsegs).
  rewrite <- concat_cons by done.
  change (String.concat "/" (""%string :: rsegs) :: map (String.concat "/") pieces)
    with (map (String.concat "/") ((""%string :: rsegs) :: pieces)).
  rewrite join_nonempty.
  - rewrite concat_tokens; [|done|by constructor].
    cbn [mjoin list_join]. rewrite <- app_comm_cons.
    rewrite normalize_tokens.
    + rewrite filter_app, filter_segments by done.
      rewrite last_app. destruct (last (mjoin pieces)) eqn:Hlast; [done|].
      by apply last_None in Hlast.
    + apply Forall_app. split; [by apply segments_tokens|done].
    + rewrite filter_app, filter_segments by done. by destruct rsegs.
  - done.
  - constructor.
    + rewrite concat_cons by done. done.
    + by apply Forall_fmap.
Qed.

End PathFacts.

(** ** Traces only grow *)

Section Frames.
Context {Pf : Platform}.

Lemma page_gets_snoc tr e :
  page_gets (tr ++ [e]) =
  page_gets tr ++ match e with GetPage u => [u] | _ => [] end.
Proof. unfold page_gets. rewrite omap_app. by destruct e. Qed.

Lemma asset_calls_snoc tr e :
  asset_calls (tr ++ [e]) =
  asset_calls tr ++ match e with GetAsset u O => [u] | _ => [] end.
Proof. unfold asset_calls. rewrite omap_app. destruct e as [| |? []| | |]; done. Qed.

End Frames.

(** ** What the page-local segments leave alone *)

Lemma local_frame_refl s : local_frame s s.
Proof. by split. Qed.

Lemma local_frame_trans s1 s2 s3 :
  local_frame s1 s2 → local_frame s2 s3 → local_frame s1 s3.
Proof. intros [] []. split; congruence. Qed.

Lemma local_frame_emit e s :
  (∀ u, e ≠ GetPage u) → local_frame s (emit e s).
Proof.
  intros He. split; simpl; try done.
  rewrite page_gets_snoc. destruct e; rewrite ?app_nil_r; try done. by destruct (He url).
Qed.

Section LocalFrames.
Context {Pf : Platform}.

Lemma start_asset_frame a s : local_frame s (start_asset a s).2.
Proof.
  unfold start_asset. case_bool_decide; [apply local_frame_refl|].
  destruct (assetLocalPath _ _ _); simpl; [|by split].
  eapply local_frame_trans; [|by apply local_frame_emit]. by split.
Qed.

Lemma start_assets_frame chunk s : local_frame s (start_assets chunk s).2.
Proof.
  revert s. induction chunk as [|a rest IH]; intros s; simpl.
  - apply local_frame_refl.
  - pose proof (start_asset_frame a s) as Ha.
    destruct (start_asset a s) as [t s1]. specialize (IH s1).
    destruct (start_assets rest s1) as [ts s2]. simpl in *.
    eapply local_frame_trans; eauto.
Qed.

Lemma rewrite_link_frame ctx el s : local_frame s (rewrite_link ctx el s).2.
Proof.
  unfold rewrite_link.
  repeat (case_match; simpl; try apply local_frame_refl); by split.
Qed.

Lemma rewrite_links_frame ctx doc s : local_frame s (rewrite_links ctx doc s).2.
Proof.
  revert s. induction doc as [|el rest IH]; intros s; simpl.
  - apply local_frame_refl.
  - destruct (is_anchor_element el).
    + pose proof (rewrite_link_frame ctx el s) as Hl.
      destruct (rewrite_link ctx el s) as [el' s1]. specialize (IH s1).
      destruct (rewrite_links ctx rest s1) as [rest' s2]. simpl in *.
      eapply local_frame_trans; eauto.
    + specialize (IH s). by destruct (rewrite_links ctx rest s).
Qed.

Lemma finish_page_frame ctx pageSize doc fs_ok s :
  local_frame s (finish_page ctx pageSize doc fs_ok s).2.
Proof.
  unfold finish_page. pose proof (rewrite_links_frame ctx doc s) as Hl.
  destruct (rewrite_links ctx doc s) as [doc' s1]. destruct fs_ok; simpl in *; [|done].
  eapply local_frame_trans; [exact Hl|]. by apply local_frame_emit.
Qed.

Lemma asset_loop_frame ctx pageSize doc i fs_ok s :
  local_frame s (asset_loop ctx pageSize doc i fs_ok s).2.
Proof.
  unfold asset_loop. case_match; [|apply finish_page_frame].
  pose proof (start_assets_frame (take MAX_CONCURRENT_DOWNLOADS (drop i (assets ctx))) s).
  by destruct (start_assets _ s).
Qed.

Lemma page_arrived_frame url response fs_ok s :
  local_frame s (page_arrived url response fs_ok s).2.
Proof.
  unfold page_arrived. destruct response; [|apply local_frame_refl].
  destruct (getLocalFilePath _ _ _); [apply asset_loop_frame|apply local_frame_refl].
Qed.

Lemma asset_arrived_frame ctx a assetPath i response fs_ok doc s :
  local_frame s (asset_arrived ctx a assetPath i response fs_ok doc s).2.
Proof.
  unfold asset_arrived. destruct (downloadAsset_iteration _ _ _ _); simpl.
  - destruct (localize_asset _ _ _ _ _). by apply local_frame_emit.
  - apply local_frame_refl.
  - by apply local_frame_emit.
Qed.

Lemma asset_woke_frame ctx a assetPath i doc s :
  local_frame s (asset_woke ctx a assetPath i doc s).2.
Proof.
  unfold asset_woke. case_match; simpl; [by apply local_frame_emit|].
  destruct (localize_asset _ _ _ _ _). apply local_frame_refl.
Qed.

End LocalFrames.

(** ** Each URL is requested at most once *)

Section FetchInvariant.
Context {Pf : Platform}.

(** The invariant reads three fields only. *)
Lemma fetch_inv_ext s s' :
  visitedUrls s' = visitedUrls s →
  visitedAssets s' = visitedAssets s →
  page_gets (trace s') = page_gets (trace s) →
  asset_calls (trace s') = asset_calls (trace s) →
  fetch_inv s → fetch_inv s'.
Proof.
  intros Hu Ha Hp Hc [I1 I2 I3 I4].
  split; rewrite ?Hu, ?Ha, ?Hp, ?Hc; done.
Qed.

Lemma fetch_inv_local s s' :
  local_frame s s' →
  visitedAssets s' = visitedAssets s →
  page_gets (trace s') = page_gets (trace s) →
  asset_calls (trace s') = asset_calls (trace s) →
  fetch_inv s → fetch_inv s'.
Proof. intros []. by apply fetch_inv_ext. Qed.

Lemma start_asset_fetch_inv a s :
  fetch_inv s → fetch_inv (start_asset a s).2.
Proof.
  intros [I1 I2 I3 I4]. unfold start_asset.
  case_bool_decide as Hin; [done|].
  destruct (assetLocalPath _ _ _) as [assetPath|]; simpl.
  - split; simpl; rewrite ?page_gets_snoc, ?asset_calls_snoc, ?app_nil_r; try done.
    + apply NoDup_app. split_and!; [done| |apply NoDup_singleton].
      intros u Hu ->%list_elem_of_singleton. by apply Hin, I4.
    + intros u [Hu| ->%list_elem_of_singleton]%elem_of_app; apply elem_of_union.
      * right. by apply I4.
      * left. by apply elem_of_singleton.
  - split; simpl; try done. intros u Hu. apply elem_of_union. right. by apply I4.
Qed.

Lemma start_assets_fetch_inv chunk s :
  fetch_inv s → fetch_inv (start_assets chunk s).2.
Proof.
  revert s. induction chunk as [|a rest IH]; intros s Hs; simpl; [done|].
  pose proof (start_asset_fetch_inv a s Hs) as Ha.
  destruct (start_asset a s) as [t s1]. specialize (IH s1 Ha).
  by destruct (start_assets rest s1).
Qed.

Lemma rewrite_link_fields ctx el s :
  visitedAssets (rewrite_link ctx el s).2 = visitedAssets s ∧
  trace (rewrite_link ctx el s).2 = trace s.
Proof. unfold rewrite_link. by repeat (case_match; simpl). Qed.

Lemma rewrite_links_fields ctx doc s :
  visitedAssets (rewrite_links ctx doc s).2 = visitedAssets s ∧
  trace (rewrite_links ctx doc s).2 = trace s.
Proof.
  revert s. induction doc as [|el rest IH]; intros s; simpl; [done|].
  destruct (is_anchor_element el).
  - pose proof (rewrite_link_fields ctx el s) as [Ha Ht].
    destruct (rewrite_link ctx el s) as [el' s1]. specialize (IH s1).
    destruct (rewrite_links ctx rest s1) as [rest' s2]. simpl in *.
    destruct IH. split; congruence.
  - specialize (IH s). by destruct (rewrite_links ctx rest s).
Qed.

Lemma finish_page_fetch_inv ctx pageSize doc fs_ok s :
  fetch_inv s → fetch_inv (finish_page ctx pageSize doc fs_ok s).2.
Proof.
  intros Hs. unfold finish_page.
  pose proof (rewrite_links_frame ctx doc s) as Hf.
  pose proof (rewrite_links_fields ctx doc s) as [Ha Ht].
  destruct (rewrite_links ctx doc s) as [doc' s1]. simpl in *.
  assert (fetch_inv s1) as Hs1 by (apply (fetch_inv_local s); by rewrite ?Ht).
  destruct fs_ok; simpl; [|done].
  apply (fetch_inv_ext s1); simpl; rewrite ?page_gets_snoc, ?asset_calls_snoc, ?app_nil_r; done.
Qed.

Lemma asset_loop_fetch_inv ctx pageSize doc i fs_ok s :
  fetch_inv s → fetch_inv (asset_loop ctx pageSize doc i fs_ok s).2.
Proof.
  intros Hs. unfold asset_loop. case_match; [|by apply finish_page_fetch_inv].
  pose proof (start_assets_fetch_inv
                (take MAX_CONCURRENT_DOWNLOADS (drop i (assets ctx))) s Hs).
  by destruct (start_assets _ s).
Qed.

Lemma page_arrived_fetch_inv url response fs_ok s :
  fetch_inv s → fetch_inv (page_arrived url response fs_ok s).2.
Proof.
  intros Hs. unfold page_arrived. destruct response; [|done].
  destruct (getLocalFilePath _ _ _); [by apply asset_loop_fetch_inv|done].
Qed.

Lemma asset_arrived_fetch_inv ctx a assetPath i response fs_ok doc s :
  fetch_inv s → fetch_inv (asset_arrived ctx a assetPath i response fs_ok doc s).2.
Proof.
  intros Hs. unfold asset_arrived.
  destruct (downloadAsset_iteration _ _ _ _); simpl; [|done|].
  - destruct (localize_asset _ _ _ _ _).
    apply (fetch_inv_ext s); simpl;
      rewrite ?page_gets_snoc, ?asset_calls_snoc, ?app_nil_r; done.
  - apply (fetch_inv_ext s); simpl;
      rewrite ?page_gets_snoc, ?asset_calls_snoc, ?app_nil_r; done.
Qed.

Lemma asset_woke_fetch_inv ctx a assetPath i doc s :
  fetch_inv s → fetch_inv (asset_woke ctx a assetPath i doc s).2.
Proof.
  intros Hs. unfold asset_woke. case_match; simpl.
  - apply (fetch_inv_ext s); simpl;
      rewrite ?page_gets_snoc, ?asset_calls_snoc, ?app_nil_r; done.
  - by destruct (localize_asset _ _ _ _ _).
Qed.

Lemma start_page_fetch_inv u s :
  fetch_inv s → fetch_inv (start_page u s).2.
Proof.
  intros [I1 I2 I3 I4]. unfold start_page.
  case_bool_decide as Hin; [done|]. simpl.
  split; simpl; rewrite ?page_gets_snoc, ?asset_calls_snoc, ?app_nil_r; try done.
  - apply NoDup_app. split_and!; [done| |apply NoDup_singleton].
    intros v Hv ->%list_elem_of_singleton. by apply Hin, I2.
  - intros v. rewrite elem_of_app, list_elem_of_singleton, I2, elem_of_union,
      elem_of_singleton. tauto.
Qed.

Lemma start_pages_fetch_inv chunk s :
  fetch_inv s → fetch_inv (start_pages chunk s).2.
Proof.
  revert s. induction chunk as [|u rest IH]; intros s Hs; simpl; [done|].
  pose proof (start_page_fetch_inv u s Hs) as Hu.
  destruct (start_page u s) as [t s1]. specialize (IH s1 Hu).
  by destruct (start_pages rest s1).
Qed.

Lemma next_wave_fetch_inv s : fetch_inv s → fetch_inv (next_wave s).
Proof.
  intros Hs. unfold next_wave. destruct (urlQueue s) as [|u q] eqn:Hq.
  - by apply (fetch_inv_ext s).
  - pose proof (start_pages_fetch_inv (take CHUNK_SIZE (u :: q))
                  (set_urlQueue (drop CHUNK_SIZE (u :: q)) s)) as Hw.
    destruct (start_pages _ _) as [ts s1]. simpl in *.
    apply (fetch_inv_ext s1); try done. apply Hw. by apply (fetch_inv_ext s).
Qed.

Lemma put_task_fetch_inv p t s : fetch_inv s → fetch_inv (put_task p t s).
Proof. by apply fetch_inv_ext. Qed.

Lemma page_returned_fetch_inv n s : fetch_inv s → fetch_inv (page_returned n s).
Proof.
  unfold page_returned. simpl. intros Hs.
  repeat case_match; by apply (fetch_inv_ext s).
Qed.

Lemma step_fetch_inv ev s s' :
  step ev s = Some s' → fetch_inv s → fetch_inv s'.
Proof.
  intros Hstep Hs. destruct ev; simpl in Hstep; repeat case_match; simplify_eq.
  - by apply next_wave_fetch_inv.
  - apply put_task_fetch_inv.
    match goal with E : page_arrived ?u ?r ?f s = _ |- _ =>
      pose proof (page_arrived_fetch_inv u r f s Hs) as Hx; by rewrite E in Hx end.
  - apply put_task_fetch_inv.
    match goal with E : asset_arrived ?c ?a ?pa ?i ?r ?f ?d s = _ |- _ =>
      pose proof (asset_arrived_fetch_inv c a pa i r f d s Hs) as Hx; by rewrite E in Hx end.
  - apply put_task_fetch_inv.
    match goal with E : asset_woke ?c ?a ?pa ?i ?d s = _ |- _ =>
      pose proof (asset_woke_fetch_inv c a pa i d s Hs) as Hx; by rewrite E in Hx end.
  - apply put_task_fetch_inv.
    match goal with E : asset_loop ?c ?n ?d ?i ?f s = _ |- _ =>
      pose proof (asset_loop_fetch_inv c n d i f s Hs) as Hx; by rewrite E in Hx end.
  - by apply put_task_fetch_inv, page_returned_fetch_inv.
Qed.

Lemma run_fetch_inv evs s s' :
  run evs s = Some s' → fetch_inv s → fetch_inv s'.
Proof.
  revert s. induction evs as [|ev rest IH]; intros s Hrun Hs; simpl in Hrun.
  - by simplify_eq.
  - destruct (step ev s) as [s1|] eqn:Hstep; [|done].
    eapply IH; [done|]. by eapply step_fetch_inv.
Qed.

Lemma start_fetch_inv targetUrl tempDir mkdir_ok s0 :
  (start targetUrl tempDir mkdir_ok).2 = Started s0 → fetch_inv s0.
Proof.
  unfold start. repeat case_match; simpl; intros; simplify_eq.
  split; simpl; try apply NoDup_nil_2; set_solver.
Qed.

End FetchInvariant.

(** ** Induction over the states of a job *)

Section Reachable.
Context {Pf : Platform}.

Lemma run_app evs1 evs2 s :
  run (evs1 ++ evs2) s = s1 ← run evs1 s; run evs2 s1.
Proof.
  revert s. induction evs1 as [|ev rest IH]; intros s; simpl; [done|].
  destruct (step ev s); simpl; [apply IH|done].
Qed.

Lemma run_invariant (P : Job → Prop) :
  (∀ ev s s', step ev s = Some s' → P s → P s') →
  ∀ evs s s', run evs s = Some s' → P s → P s'.
Proof.
  intros Hstep evs. induction evs as [|ev rest IH]; intros s s' Hrun Hs; simpl in Hrun.
  - by simplify_eq.
  - destruct (step ev s) as [s1|] eqn:E; [|done]. eauto.
Qed.

Lemma reachable_invariant (P : Job → Prop) :
  (∀ targetUrl tempDir s0, (start targetUrl tempDir true).2 = Started s0 → P s0) →
  (∀ ev s s', step ev s = Some s' → P s → P s') →
  ∀ targetUrl tempDir s, reachable targetUrl tempDir s → P s.
Proof.
  intros Hinit Hstep targetUrl tempDir s (s0 & evs & Hs0 & Hrun).
  eapply run_invariant; eauto.
Qed.

Lemma reachable_step targetUrl tempDir ev s s' :
  reachable targetUrl tempDir s → step ev s = Some s' →
  reachable targetUrl tempDir s'.
Proof.
  intros (s0 & evs & Hs0 & Hrun) Hstep. exists s0, (evs ++ [ev]).
  split; [done|]. rewrite run_app, Hrun. simpl. by rewrite Hstep.
Qed.

Lemma reachable_run targetUrl tempDir evs s s' :
  reachable targetUrl tempDir s → run evs s = Some s' →
  reachable targetUrl tempDir s'.
Proof.
  intros (s0 & evs0 & Hs0 & Hrun0) Hrun. exists s0, (evs0 ++ evs).
  split; [done|]. rewrite run_app, Hrun0. done.
Qed.

End Reachable.

(** ** The running total and the size check *)

Section Budget.
Context {Pf : Platform}.

Lemma start_page_frame u s :
  totalSize (start_page u s).2 = totalSize s ∧ status (start_page u s).2 = status s.
Proof. unfold start_page. by case_bool_decide. Qed.

Lemma start_pages_frame chunk s :
  totalSize (start_pages chunk s).2 = totalSize s ∧
  status (start_pages chunk s).2 = status s.
Proof.
  revert s. induction chunk as [|u rest IH]; intros s; simpl; [done|].
  pose proof (start_page_frame u s) as [Ht Hs].
  destruct (start_page u s) as [t s1]. specialize (IH s1).
  destruct (start_pages rest s1) as [ts s2]. simpl in *.
  destruct IH. split; congruence.
Qed.

(** Every event but [EvLoop] and [EvPageDone] resumes a page task that
    is still at work and leaves total and status alone. *)
Lemma step_local ev s s' :
  step ev s = Some s' →
  match ev with
  | EvLoop | EvPageDone _ => True
  | _ => forallb page_finished (tasks s) = false ∧
         totalSize s' = totalSize s ∧ status s' = status s
  end.
Proof.
  intros Hstep. destruct ev as [|p r f|p a r f|p a|p f|p]; try done;
    simpl in Hstep; repeat case_match; simplify_eq;
    (split;
     [ apply not_true_is_false; intros Hall;
       rewrite forallb_forall in Hall;
       match goal with E : tasks _ !! _ = Some _ |- _ =>
         apply list_elem_of_lookup_2, list_elem_of_In, Hall in E; done end
     | match goal with
       | E : page_arrived ?u ?r ?f ?s = _ |- _ =>
           pose proof (page_arrived_frame u r f s) as F; rewrite E in F
       | E : asset_arrived ?c ?a ?pa ?i ?r ?f ?d ?s = _ |- _ =>
           pose proof (asset_arrived_frame c a pa i r f d s) as F; rewrite E in F
       | E : asset_woke ?c ?a ?pa ?i ?d ?s = _ |- _ =>
           pose proof (asset_woke_frame c a pa i d s) as F; rewrite E in F
       | E : asset_loop ?c ?n ?d ?k ?g ?s = _ |- _ =>
           pose proof (asset_loop_frame c n d k g s) as F; rewrite E in F
       end;
       destruct F; done ]).
Qed.

End Budget.

Section BudgetInvariant.
Context {Pf : Platform}.

Lemma page_returned_total n s :
  totalSize (page_returned n s) = (totalSize s + n)%N.
Proof. unfold page_returned. simpl. by repeat case_match. Qed.

Lemma page_returned_status n s :
  status (page_returned n s) =
  if (MAX_SIZE_BYTES <? totalSize s + n)%N
  then match status s with Crawling => Failed | st => st end
  else status s.
Proof. unfold page_returned. simpl. by repeat case_match. Qed.

Lemma page_returned_tasks n s : tasks (page_returned n s) = tasks s.
Proof. unfold page_returned. simpl. by repeat case_match. Qed.

Lemma next_wave_total s : totalSize (next_wave s) = totalSize s.
Proof.
  unfold next_wave. destruct (urlQueue s) as [|u q]; [done|].
  pose proof (start_pages_frame (take CHUNK_SIZE (u :: q))
                (set_urlQueue (drop CHUNK_SIZE (u :: q)) s)) as [Ht _].
  by destruct (start_pages _ _).
Qed.

Lemma next_wave_status s :
  status (next_wave s) = match urlQueue s with [] => Completed | _ => status s end.
Proof.
  unfold next_wave. destruct (urlQueue s) as [|u q]; [done|].
  pose proof (start_pages_frame (take CHUNK_SIZE (u :: q))
                (set_urlQueue (drop CHUNK_SIZE (u :: q)) s)) as [_ Hs].
  by destruct (start_pages _ _).
Qed.

(** The running total never decreases. *)
Lemma step_total_mono ev s s' :
  step ev s = Some s' → (totalSize s ≤ totalSize s')%N.
Proof.
  intros Hstep. pose proof (step_local ev s s' Hstep) as Hl.
  destruct ev; try (destruct Hl as (_ & -> & _); lia);
    simpl in Hstep; repeat case_match; simplify_eq; simpl.
  - rewrite next_wave_total. lia.
  - rewrite page_returned_total. lia.
Qed.

Lemma step_budget_inv ev s s' :
  step ev s = Some s' → budget_inv s → budget_inv s'.
Proof.
  intros Hstep [I1 I2]. pose proof (step_local ev s s' Hstep) as Hl.
  destruct ev;
    try (destruct Hl as (Hbusy & Ht & Hs); split; rewrite ?Ht, ?Hs; [done|];
         intros Hc; rewrite (I2 Hc) in Hbusy; done).
  - simpl in Hstep. destruct (status s) eqn:Hst; try done.
    destruct (forallb page_finished (tasks s)) eqn:Hall; simplify_eq.
    split; rewrite ?next_wave_total, ?next_wave_status.
    + rewrite <- I1, Hst. by destruct (urlQueue s).
    + destruct (urlQueue s) eqn:Hq; [|by rewrite Hst].
      intros _. unfold next_wave. by rewrite Hq.
  - simpl in Hstep.
    destruct (tasks s !! p) as [[| |pageSize|]|] eqn:Hp; simplify_eq.
    assert (status s ≠ Completed) as Hnc.
    { intros Hc. specialize (I2 Hc). rewrite forallb_forall in I2.
      apply list_elem_of_lookup_2, list_elem_of_In, I2 in Hp. done. }
    split; simpl; rewrite ?page_returned_total, ?page_returned_status.
    + destruct (N.ltb_spec MAX_SIZE_BYTES (totalSize s + pageSize)) as [Hlt|Hge].
      * destruct (status s); try done.
      * split; [|lia]. intros Hf. apply I1 in Hf. lia.
    + destruct (MAX_SIZE_BYTES <? totalSize s + pageSize)%N;
        destruct (status s); done.
Qed.

Lemma start_budget_inv targetUrl tempDir mkdir_ok s0 :
  (start targetUrl tempDir mkdir_ok).2 = Started s0 → budget_inv s0.
Proof.
  unfold start. repeat case_match; simpl; intros; simplify_eq.
  split; simpl; [|done]. split; [done|]. intros Hlt. by vm_compute in Hlt.
Qed.

Lemma reachable_budget_inv targetUrl tempDir s :
  reachable targetUrl tempDir s → budget_inv s.
Proof.
  apply (reachable_invariant budget_inv).
  - intros. by eapply start_budget_inv.
  - apply step_budget_inv.
Qed.

(** A failed job stays failed, and claims no further page. *)
Lemma step_failed ev s s' :
  step ev s = Some s' → budget_inv s → status s = Failed →
  status s' = Failed ∧ page_gets (trace s') = page_gets (trace s).
Proof.
  intros Hstep Hinv Hf.
  assert (status s' = Failed) as Hf'.
  { pose proof (step_budget_inv _ _ _ Hstep Hinv) as [I1' _].
    apply I1'. pose proof (step_total_mono _ _ _ Hstep).
    destruct Hinv as [I1 _]. apply I1 in Hf. lia. }
  split; [done|].
  destruct ev; simpl in Hstep; rewrite ?Hf in Hstep; try done;
    repeat case_match; simplify_eq; simpl;
    try match goal with
      | E : page_arrived ?u ?r ?f ?s = _ |- _ =>
          pose proof (page_arrived_frame u r f s) as F; rewrite E in F
      | E : asset_arrived ?c ?a ?pa ?i ?r ?f ?d ?s = _ |- _ =>
          pose proof (asset_arrived_frame c a pa i r f d s) as F; rewrite E in F
      | E : asset_woke ?c ?a ?pa ?i ?d ?s = _ |- _ =>
          pose proof (asset_woke_frame c a pa i d s) as F; rewrite E in F
      | E : asset_loop ?c ?n ?d ?k ?g ?s = _ |- _ =>
          pose proof (asset_loop_frame c n d k g s) as F; rewrite E in F
      end; try (by destruct F).
  unfold page_returned. simpl. by repeat case_match.
Qed.

Lemma run_failed evs s s' :
  run evs s = Some s' → budget_inv s → status s = Failed →
  status s' = Failed ∧ page_gets (trace s') = page_gets (trace s).
Proof.
  revert s. induction evs as [|ev rest IH]; intros s Hrun Hinv Hf; simpl in Hrun.
  - by simplify_eq.
  - destruct (step ev s) as [s1|] eqn:Hstep; [|done].
    destruct (step_failed _ _ _ Hstep Hinv Hf) as [Hf1 Hg1].
    destruct (IH s1 Hrun (step_budget_inv _ _ _ Hstep Hinv) Hf1) as [? ?].
    split; congruence.
Qed.

Lemma run_total_mono evs s s' :
  run evs s = Some s' → (totalSize s ≤ totalSize s')%N.
Proof.
  revert s. induction evs as [|ev rest IH]; intros s Hrun; simpl in Hrun.
  - simplify_eq. lia.
  - destruct (step ev s) as [s1|] eqn:Hstep; [|done].
    pose proof (step_total_mono _ _ _ Hstep). specialize (IH _ Hrun). lia.
Qed.

End BudgetInvariant.

(** ** Check-and-insert is one step *)

Section Claims.
Context {Pf : Platform}.

Lemma claims_same s s' :
  visitedUrls s' = visitedUrls s → visitedAssets s' = visitedAssets s →
  trace s' = trace s → claims s s'.
Proof.
  intros Hu Ha Ht. unfold claims. rewrite Hu, Ha, Ht. split_and!; [done..|].
  exists []. rewrite app_nil_r. split_and!; [done|..]; intros u Hu'; by apply elem_of_nil in Hu'.
Qed.

Lemma claims_refl s : claims s s.
Proof. by apply claims_same. Qed.

Lemma claims_trans s1 s2 s3 : claims s1 s2 → claims s2 s3 → claims s1 s3.
Proof.
  intros (Hu1 & Ha1 & new1 & Ht1 & Hp1 & Hc1) (Hu2 & Ha2 & new2 & Ht2 & Hp2 & Hc2).
  split_and!; [by etrans..|].
  exists (new1 ++ new2). rewrite Ht2, Ht1, app_assoc. split_and!; [done|..].
  - intros u [Hin|Hin]%elem_of_app.
    + destruct (Hp1 u Hin). split; [done|]. by apply Hu2.
    + destruct (Hp2 u Hin) as [Hnot ?]. split; [|done]. intros ?. by apply Hnot, Hu1.
  - intros u [Hin|Hin]%elem_of_app.
    + destruct (Hc1 u Hin). split; [done|]. by apply Ha2.
    + destruct (Hc2 u Hin) as [Hnot ?]. split; [|done]. intros ?. by apply Hnot, Ha1.
Qed.

Lemma claims_emit e s :
  (∀ u, e ≠ GetPage u) → (∀ u, e ≠ GetAsset u 0) → claims s (emit e s).
Proof.
  intros Hp Hc. split_and!; [done..|]. exists [e]. split_and!; [done|..].
  - intros u He%list_elem_of_singleton. by destruct (Hp u).
  - intros u He%list_elem_of_singleton. by destruct (Hc u).
Qed.

Lemma start_asset_claims a s : claims s (start_asset a s).2.
Proof.
  unfold start_asset. case_bool_decide as Hin; [apply claims_refl|].
  destruct (assetLocalPath _ _ _); simpl.
  - split_and!; simpl; [done|set_solver|].
    exists [GetAsset (asset_url a) 0]. split_and!; [done|..].
    + intros u Hu%list_elem_of_singleton. done.
    + intros u Hu%list_elem_of_singleton. simplify_eq. set_solver.
  - split_and!; simpl; [done|set_solver|].
    exists []. rewrite app_nil_r. split_and!; [done|..]; intros u Hu; by apply elem_of_nil in Hu.
Qed.

Lemma start_assets_claims chunk s : claims s (start_assets chunk s).2.
Proof.
  revert s. induction chunk as [|a rest IH]; intros s; simpl; [apply claims_refl|].
  pose proof (start_asset_claims a s) as Ha.
  destruct (start_asset a s) as [t s1]. specialize (IH s1).
  destruct (start_assets rest s1) as [ts s2]. simpl in *.
  by eapply claims_trans.
Qed.

Lemma finish_page_claims ctx pageSize doc fs_ok s :
  claims s (finish_page ctx pageSize doc fs_ok s).2.
Proof.
  unfold finish_page.
  pose proof (rewrite_links_frame ctx doc s) as Hf.
  pose proof (rewrite_links_fields ctx doc s) as [Ha Ht].
  destruct (rewrite_links ctx doc s) as [doc' s1]. simpl in *.
  assert (claims s s1) as Hc by (apply claims_same; [by destruct Hf|done..]).
  destruct fs_ok; simpl; [|done].
  eapply claims_trans; [exact Hc|]. by apply claims_emit.
Qed.

Lemma asset_loop_claims ctx pageSize doc i fs_ok s :
  claims s (asset_loop ctx pageSize doc i fs_ok s).2.
Proof.
  unfold asset_loop. case_match; [|apply finish_page_claims].
  pose proof (start_assets_claims
                (take MAX_CONCURRENT_DOWNLOADS (drop i (assets ctx))) s).
  by destruct (start_assets _ s).
Qed.

Lemma page_arrived_claims url response fs_ok s :
  claims s (page_arrived url response fs_ok s).2.
Proof.
  unfold page_arrived. destruct response; [|apply claims_refl].
  destruct (getLocalFilePath _ _ _); [apply asset_loop_claims|apply claims_refl].
Qed.

Lemma asset_arrived_claims ctx a assetPath i response fs_ok doc s :
  claims s (asset_arrived ctx a assetPath i response fs_ok doc s).2.
Proof.
  unfold asset_arrived. destruct (downloadAsset_iteration _ _ _ _); simpl.
  - destruct (localize_asset _ _ _ _ _). by apply claims_emit.
  - apply claims_refl.
  - by apply claims_emit.
Qed.

Lemma asset_woke_claims ctx a assetPath i doc s :
  claims s (asset_woke ctx a assetPath i doc s).2.
Proof.
  unfold asset_woke. case_match; simpl; [by apply claims_emit|].
  destruct (localize_asset _ _ _ _ _). apply claims_refl.
Qed.

Lemma start_page_claims u s : claims s (start_page u s).2.
Proof.
  unfold start_page. case_bool_decide as Hin; [apply claims_refl|]. simpl.
  split_and!; simpl; [set_solver|done|].
  exists [GetPage u]. split_and!; [done|..].
  - intros v Hv%list_elem_of_singleton. simplify_eq. set_solver.
  - intros v Hv%list_elem_of_singleton. done.
Qed.

Lemma start_pages_claims chunk s : claims s (start_pages chunk s).2.
Proof.
  revert s. induction chunk as [|u rest IH]; intros s; simpl; [apply claims_refl|].
  pose proof (start_page_claims u s) as Hu.
  destruct (start_page u s) as [t s1]. specialize (IH s1).
  destruct (start_pages rest s1) as [ts s2]. simpl in *.
  by eapply claims_trans.
Qed.

Lemma next_wave_claims s : claims s (next_wave s).
Proof.
  unfold next_wave. destruct (urlQueue s) as [|u q]; [by apply claims_same|].
  pose proof (start_pages_claims (take CHUNK_SIZE (u :: q))
                (set_urlQueue (drop CHUNK_SIZE (u :: q)) s)) as Hw.
  destruct (start_pages _ _) as [ts s1]. simpl in *.
  eapply claims_trans; [|eapply claims_trans; [exact Hw|]]; by apply claims_same.
Qed.

(** Every transition claims the URLs it requests. *)
Lemma step_claims ev s s' : step ev s = Some s' → claims s s'.
Proof.
  intros Hstep. destruct ev; simpl in Hstep; repeat case_match; simplify_eq;
    try match goal with
      | E : page_arrived ?u ?r ?f ?s = _ |- _ =>
          pose proof (page_arrived_claims u r f s) as F; rewrite E in F
      | E : asset_arrived ?c ?a ?pa ?i ?r ?f ?d ?s = _ |- _ =>
          pose proof (asset_arrived_claims c a pa i r f d s) as F; rewrite E in F
      | E : asset_woke ?c ?a ?pa ?i ?d ?s = _ |- _ =>
          pose proof (asset_woke_claims c a pa i d s) as F; rewrite E in F
      | E : asset_loop ?c ?n ?d ?k ?g ?s = _ |- _ =>
          pose proof (asset_loop_claims c n d k g s) as F; rewrite E in F
      end.
  - apply next_wave_claims.
  - eapply claims_trans; [exact F|]. by apply claims_same.
  - eapply claims_trans; [exact F|]. by apply claims_same.
  - eapply claims_trans; [exact F|]. by apply claims_same.
  - eapply claims_trans; [exact F|]. by apply claims_same.
  - apply claims_same; simpl; unfold page_returned; simpl; by repeat case_match.
Qed.

End Claims.

(** ** Progress *)

Section Progress.
Context {Pf : Platform}.

Lemma forallb_false_lookup {A} (f : A → bool) (l : list A) :
  forallb f l = false → ∃ i x, l !! i = Some x ∧ f x = false.
Proof.
  induction l as [|y l IH]; simpl; [done|].
  destruct (f y) eqn:Hy; simpl.
  - intros (i & x & Hi & Hx)%IH. by exists (S i), x.
  - intros _. by exists 0, y.
Qed.

(** A page task that has not settled can always be resumed. *)
Lemma busy_task_enabled s p t :
  tasks s !! p = Some t → page_finished t = false →
  ∃ ev s', step ev s = Some s'.
Proof.
  intros Hp Hbusy. destruct t as [url|ctx pageSize doc i chunk|pageSize|]; [| | |done].
  - exists (EvPageResponse p None true). simpl. rewrite Hp. simpl. eauto.
  - destruct (forallb asset_settled chunk) eqn:Hall.
    + exists (EvChunkDone p true). simpl. rewrite Hp, Hall.
      destruct (asset_loop _ _ _ _ _ _). eauto.
    + apply forallb_false_lookup in Hall as (a & t & Ha & Ht).
      destruct t as [n|asset assetPath k|asset assetPath k]; [done| |].
      * exists (EvAssetResponse p a None true). simpl. rewrite Hp, Ha.
        destruct (asset_arrived _ _ _ _ _ _ _ _) as [[? ?] ?]. eauto.
      * exists (EvTimer p a). simpl. rewrite Hp, Ha.
        destruct (asset_woke _ _ _ _ _ _) as [[? ?] ?]. eauto.
  - exists (EvPageDone p). simpl. rewrite Hp. eauto.
Qed.

(** A crawling job is never stuck. *)
Lemma crawling_enabled s :
  status s = Crawling → ∃ ev s', step ev s = Some s'.
Proof.
  intros Hst. destruct (forallb page_finished (tasks s)) eqn:Hall.
  - exists EvLoop. simpl. rewrite Hst, Hall. eauto.
  - apply forallb_false_lookup in Hall as (p & t & Hp & Ht).
    by eapply busy_task_enabled.
Qed.

End Progress.

(** ** Wave sizes and retry counts *)

Section Bounds.
Context {Pf : Platform}.

Lemma trace_bounded_emit e s :
  effect_bounded e → Forall effect_bounded (trace s) →
  Forall effect_bounded (trace (emit e s)).
Proof. intros He Hs. simpl. apply Forall_app. split; [done|by constructor]. Qed.

Lemma start_asset_bounds a s :
  Forall effect_bounded (trace s) →
  asset_task_bounded (start_asset a s).1 ∧
  Forall effect_bounded (trace (start_asset a s).2).
Proof.
  intros Hs. unfold start_asset. case_bool_decide; [done|].
  destruct (assetLocalPath _ _ _); simpl; [|done].
  split; [unfold default_retries; lia|].
  apply Forall_app. split; [done|]. constructor; [|done]. simpl. unfold default_retries. lia.
Qed.

Lemma start_assets_bounds chunk s :
  Forall effect_bounded (trace s) →
  List.length (start_assets chunk s).1 = List.length chunk ∧
  Forall asset_task_bounded (start_assets chunk s).1 ∧
  Forall effect_bounded (trace (start_assets chunk s).2).
Proof.
  revert s. induction chunk as [|a rest IH]; intros s Hs; simpl; [done|].
  pose proof (start_asset_bounds a s Hs) as [Ht Hs1].
  destruct (start_asset a s) as [t s1]. specialize (IH s1 Hs1).
  destruct (start_assets rest s1) as [ts s2]. simpl in *.
  destruct IH as (Hl & Hts & Hs2). split_and!; [by f_equal| by constructor | done].
Qed.

Lemma finish_page_bounds ctx pageSize doc fs_ok s :
  Forall effect_bounded (trace s) →
  page_task_bounded (finish_page ctx pageSize doc fs_ok s).1 ∧
  Forall effect_bounded (trace (finish_page ctx pageSize doc fs_ok s).2).
Proof.
  intros Hs. unfold finish_page.
  pose proof (rewrite_links_fields ctx doc s) as [_ Ht].
  destruct (rewrite_links ctx doc s) as [doc' s1]. simpl in *.
  destruct fs_ok; simpl; (split; [done|]); rewrite Ht; [|done].
  apply Forall_app. split; [done|]. by constructor.
Qed.

Lemma asset_loop_bounds ctx pageSize doc i fs_ok s :
  Forall effect_bounded (trace s) →
  page_task_bounded (asset_loop ctx pageSize doc i fs_ok s).1 ∧
  Forall effect_bounded (trace (asset_loop ctx pageSize doc i fs_ok s).2).
Proof.
  intros Hs. unfold asset_loop. case_match; [|by apply finish_page_bounds].
  pose proof (start_assets_bounds
                (take MAX_CONCURRENT_DOWNLOADS (drop i (assets ctx))) s Hs)
    as (Hl & Hts & Hs1).
  destruct (start_assets _ s) as [ts s1]. simpl in *. done.
Qed.

Lemma page_arrived_bounds url response fs_ok s :
  Forall effect_bounded (trace s) →
  page_task_bounded (page_arrived url response fs_ok s).1 ∧
  Forall effect_bounded (trace (page_arrived url response fs_ok s).2).
Proof.
  intros Hs. unfold page_arrived. destruct response; [|done].
  destruct (getLocalFilePath _ _ _); [by apply asset_loop_bounds|done].
Qed.

(** The delay after the failure of request [k]. *)
Lemma backoff_delay k response fs_ok ms :
  k < default_retries →
  downloadAsset_iteration default_retries k response fs_ok = Backoff ms →
  S k < default_retries ∧ ms = (1000 * 2 ^ N.of_nat k)%N ∧ (ms = 1000%N ∨ ms = 2000%N).
Proof.
  unfold default_retries, downloadAsset_iteration. intros Hk.
  destruct k as [|[|[|k]]]; try lia; simpl;
    repeat case_match; intros; simplify_eq; (split_and!; [lia|done|auto]).
Qed.

Lemma asset_arrived_bounds ctx a assetPath k response fs_ok doc s :
  k < default_retries →
  Forall effect_bounded (trace s) →
  asset_task_bounded (asset_arrived ctx a assetPath k response fs_ok doc s).1.1 ∧
  Forall effect_bounded (trace (asset_arrived ctx a assetPath k response fs_ok doc s).2).
Proof.
  intros Hk Hs. unfold asset_arrived.
  destruct (downloadAsset_iteration _ _ _ _) eqn:Hit; simpl; [|done|].
  - destruct (localize_asset _ _ _ _ _). simpl. split; [done|].
    by apply trace_bounded_emit.
  - apply backoff_delay in Hit as (? & _ & ?); [|done].
    split; [done|]. by apply trace_bounded_emit.
Qed.

Lemma asset_woke_bounds ctx a assetPath k doc s :
  Forall effect_bounded (trace s) →
  asset_task_bounded (asset_woke ctx a assetPath k doc s).1.1 ∧
  Forall effect_bounded (trace (asset_woke ctx a assetPath k doc s).2).
Proof.
  intros Hs. unfold asset_woke. destruct (S k <? default_retries) eqn:Hk; simpl.
  - apply Nat.ltb_lt in Hk. split; [done|]. by apply trace_bounded_emit.
  - by destruct (localize_asset _ _ _ _ _).
Qed.

Lemma start_pages_bounds chunk s :
  Forall effect_bounded (trace s) →
  List.length (start_pages chunk s).1 = List.length chunk ∧
  Forall page_task_bounded (start_pages chunk s).1 ∧
  Forall effect_bounded (trace (start_pages chunk s).2).
Proof.
  revert s. induction chunk as [|u rest IH]; intros s Hs; simpl; [done|].
  assert (page_task_bounded (start_page u s).1 ∧
          Forall effect_bounded (trace (start_page u s).2)) as [Ht Hs1].
  { unfold start_page. case_bool_decide; simpl; [done|].
    split; [done|]. apply Forall_app. split; [done|]. by constructor. }
  destruct (start_page u s) as [t s1]. specialize (IH s1 Hs1).
  destruct (start_pages rest s1) as [ts s2]. simpl in *.
  destruct IH as (Hl & Hts & Hs2). split_and!; [by f_equal| by constructor | done].
Qed.

Lemma put_task_bounds p t s :
  page_task_bounded t → bounds_inv s → bounds_inv (put_task p t s).
Proof.
  intros Ht [I1 I2 I3]. split; simpl; [by rewrite length_insert| |done].
  by apply Forall_insert.
Qed.

Lemma bounds_inv_trace s s' :
  tasks s' = tasks s → Forall effect_bounded (trace s') → bounds_inv s → bounds_inv s'.
Proof. intros Ht Hs' [I1 I2 I3]. split; rewrite ?Ht; done. Qed.

Lemma step_bounds_inv ev s s' :
  step ev s = Some s' → bounds_inv s → bounds_inv s'.
Proof.
  intros Hstep Hs. pose proof Hs as [I1 I2 I3].
  destruct ev as [|p r f|p a r f|p a|p f|p]; simpl in Hstep.
  - destruct (status s); try done.
    destruct (forallb page_finished (tasks s)); simplify_eq.
    unfold next_wave. destruct (urlQueue s) as [|u q] eqn:Hq; [by split|].
    pose proof (start_pages_bounds (take CHUNK_SIZE (u :: q))
                  (set_urlQueue (drop CHUNK_SIZE (u :: q)) s) I3) as (Hl & Hts & Hs1).
    destruct (start_pages _ _) as [ts s1]. simpl in *.
    split; simpl; [|done..]. rewrite Hl, length_take. unfold CHUNK_SIZE. lia.
  - destruct (tasks s !! p) as [[url| | |]|] eqn:Hp; try done.
    pose proof (page_arrived_bounds url r f s I3) as [Ht Hs1].
    pose proof (page_arrived_frame url r f s) as F.
    destruct (page_arrived url r f s) as [t s1]. simplify_eq. simpl in *.
    apply put_task_bounds; [done|]. apply (bounds_inv_trace s); [by destruct F|done..].
  - destruct (tasks s !! p) as [[|ctx pageSize doc i chunk| |]|] eqn:Hp; try done.
    destruct (chunk !! a) as [[|asset assetPath k|]|] eqn:Ha; try done.
    pose proof (Forall_lookup_1 _ _ _ _ I2 Hp) as [Hlen Hchunk].
    pose proof (Forall_lookup_1 _ _ _ _ Hchunk Ha) as Hk. simpl in Hk.
    pose proof (asset_arrived_bounds ctx asset assetPath k r f doc s Hk I3) as [Ht Hs1].
    pose proof (asset_arrived_frame ctx asset assetPath k r f doc s) as F.
    destruct (asset_arrived _ _ _ _ _ _ _ _) as [[t doc'] s1]. simplify_eq. simpl in *.
    apply put_task_bounds.
    + split; [by rewrite length_insert|by apply Forall_insert].
    + apply (bounds_inv_trace s); [by destruct F|done..].
  - destruct (tasks s !! p) as [[|ctx pageSize doc i chunk| |]|] eqn:Hp; try done.
    destruct (chunk !! a) as [[| |asset assetPath k]|] eqn:Ha; try done.
    pose proof (Forall_lookup_1 _ _ _ _ I2 Hp) as [Hlen Hchunk].
    pose proof (asset_woke_bounds ctx asset assetPath k doc s I3) as [Ht Hs1].
    pose proof (asset_woke_frame ctx asset assetPath k doc s) as F.
    destruct (asset_woke _ _ _ _ _ _) as [[t doc'] s1]. simplify_eq. simpl in *.
    apply put_task_bounds.
    + split; [by rewrite length_insert|by apply Forall_insert].
    + apply (bounds_inv_trace s); [by destruct F|done..].
  - destruct (tasks s !! p) as [[|ctx pageSize doc i chunk| |]|] eqn:Hp; try done.
    destruct (forallb asset_settled chunk); try done.
    match type of Hstep with context [asset_loop ?c ?n ?d ?k ?g s] =>
      pose proof (asset_loop_bounds c n d k g s I3) as [Ht Hs1];
      pose proof (asset_loop_frame c n d k g s) as F;
      destruct (asset_loop c n d k g s) as [t s1] end.
    simplify_eq. simpl in *.
    apply put_task_bounds; [done|]. apply (bounds_inv_trace s); [by destruct F|done..].
  - destruct (tasks s !! p) as [[| |pageSize|]|] eqn:Hp; try done. simplify_eq.
    apply put_task_bounds; [done|].
    apply (bounds_inv_trace s); [apply page_returned_tasks| |done].
    unfold page_returned. simpl. by repeat case_match.
Qed.

Lemma reachable_bounds_inv targetUrl tempDir s :
  reachable targetUrl tempDir s → bounds_inv s.
Proof.
  apply (reachable_invariant bounds_inv); [|apply step_bounds_inv].
  intros t d s0. unfold start. repeat case_match; simpl; intros; simplify_eq.
  split; simpl; [unfold CHUNK_SIZE; lia|done|]. by repeat constructor.
Qed.

End Bounds.

(** ** Skipped references stay as they were parsed *)

Section WellFormedness.
Context {Pf : Platform}.

Lemma asset_of_element_no_data url i el a :
  asset_of_element url i el = Some a →
  no_data (asset_url a) ∧ asset_element a = i.
Proof.
  unfold asset_of_element. destruct (resolve_asset_url url el) as [u|]; simpl; [|done].
  destruct (JS.includes u "data:") eqn:Hd; [done|]. intros; simplify_eq. done.
Qed.

Lemma collect_assets_elem url doc a :
  a ∈ collect_assets url doc →
  ∃ el, doc !! asset_element a = Some el ∧ is_asset_element el = true ∧
        asset_of_element url (asset_element a) el = Some a.
Proof.
  unfold collect_assets. rewrite list_elem_of_omap.
  intros ([i el] & Hin & Ha). apply list_elem_of_lookup in Hin as [k Hk].
  rewrite list_lookup_imap in Hk.
  destruct (doc !! k) as [el'|] eqn:Hdoc; simpl in Hk; simplify_eq.
  destruct (is_asset_element el) eqn:Hsel; [|done].
  destruct (asset_of_element_no_data _ _ _ _ Ha) as [_ <-]. eauto.
Qed.

Lemma collect_assets_no_data url doc a :
  a ∈ collect_assets url doc → no_data (asset_url a).
Proof.
  intros (el & _ & _ & Ha)%collect_assets_elem.
  by destruct (asset_of_element_no_data _ _ _ _ Ha).
Qed.

Lemma start_asset_wf a s :
  no_data (asset_url a) → Forall effect_wf (trace s) →
  (∀ b, task_asset (start_asset a s).1 = Some b → b = a) ∧
  Forall effect_wf (trace (start_asset a s).2).
Proof.
  intros Ha Hs. unfold start_asset. case_bool_decide; [done|].
  destruct (assetLocalPath _ _ _); simpl; [|done].
  split; [by intros b [= ->]|]. apply Forall_app. split; [done|]. by constructor.
Qed.

Lemma start_assets_wf chunk s :
  (∀ a, a ∈ chunk → no_data (asset_url a)) → Forall effect_wf (trace s) →
  (∀ t b, t ∈ (start_assets chunk s).1 → task_asset t = Some b → b ∈ chunk) ∧
  Forall effect_wf (trace (start_assets chunk s).2).
Proof.
  revert s. induction chunk as [|a rest IH]; intros s Hchunk Hs; simpl.
  - split; [|done]. intros t b Ht. by apply elem_of_nil in Ht.
  - destruct (start_asset_wf a s) as [Ht Hs1]; [apply Hchunk; left|done|].
    destruct (start_asset a s) as [t s1].
    destruct (IH s1) as [Hts Hs2]; [intros; apply Hchunk; by right|done|].
    destruct (start_assets rest s1) as [ts s2]. simpl in *.
    split; [|done]. intros t' b [->|Hin]%elem_of_cons Hb.
    + rewrite (Ht b Hb). left.
    + right. by eapply Hts.
Qed.

Lemma rewrite_links_lookup ctx doc s j el :
  doc !! j = Some el → is_anchor_element el = false →
  (rewrite_links ctx doc s).1 !! j = Some el.
Proof.
  revert s j. induction doc as [|e rest IH]; intros s j Hj Hel; [done|]. simpl.
  destruct j as [|j]; simpl in Hj.
  - simplify_eq. rewrite Hel. by destruct (rewrite_links ctx rest s).
  - destruct (if is_anchor_element e then rewrite_link ctx e s else (e, s)) as [e' s1].
    specialize (IH s1 j Hj Hel). by destruct (rewrite_links ctx rest s1).
Qed.

Lemma finish_page_wf ctx pageSize doc fs_ok s :
  assets ctx = collect_assets (page_url ctx) (dom (page_html ctx)) →
  untouched ctx doc → Forall effect_wf (trace s) →
  page_task_wf (finish_page ctx pageSize doc fs_ok s).1 ∧
  Forall effect_wf (trace (finish_page ctx pageSize doc fs_ok s).2).
Proof.
  intros Hassets Hdoc Hs. unfold finish_page.
  pose proof (rewrite_links_fields ctx doc s) as [_ Ht].
  pose proof (rewrite_links_lookup ctx doc s) as Hl.
  destruct (rewrite_links ctx doc s) as [doc' s1]. simpl in *.
  destruct fs_ok; simpl; (split; [done|]); rewrite Ht; [|done].
  apply Forall_app. split; [done|]. constructor; [|done]. simpl.
  intros j el Hj Hel Hnone. apply Hl; [|done].
  rewrite Hdoc; [done|]. by rewrite Hassets.
Qed.

Lemma asset_loop_wf ctx pageSize doc i fs_ok s :
  assets ctx = collect_assets (page_url ctx) (dom (page_html ctx)) →
  untouched ctx doc → Forall effect_wf (trace s) →
  page_task_wf (asset_loop ctx pageSize doc i fs_ok s).1 ∧
  Forall effect_wf (trace (asset_loop ctx pageSize doc i fs_ok s).2).
Proof.
  intros Hassets Hdoc Hs. unfold asset_loop. case_match; [|by apply finish_page_wf].
  assert (∀ a, a ∈ take MAX_CONCURRENT_DOWNLOADS (drop i (assets ctx)) → a ∈ assets ctx)
    as Hsub.
  { intros a Ha%subseteq_take. by eapply subseteq_drop. }
  destruct (start_assets_wf (take MAX_CONCURRENT_DOWNLOADS (drop i (assets ctx))) s)
    as [Hts Hs1]; [|done|].
  { intros a Ha%Hsub. rewrite Hassets in Ha. by eapply collect_assets_no_data. }
  destruct (start_assets _ s) as [ts s1]. simpl in *.
  split; [|done]. split_and!; [done| |done]. intros t a Ht Ha. eapply Hsub, Hts; eauto.
Qed.

Lemma page_arrived_wf url response fs_ok s :
  Forall effect_wf (trace s) →
  page_task_wf (page_arrived url response fs_ok s).1 ∧
  Forall effect_wf (trace (page_arrived url response fs_ok s).2).
Proof.
  intros Hs. unfold page_arrived. destruct response as [html|]; [|done].
  destruct (getLocalFilePath _ _ _); [|done].
  apply asset_loop_wf; [done| |done]. by intros j _.
Qed.

Lemma localize_asset_untouched ctx a assetPath n doc :
  a ∈ assets ctx → untouched ctx doc →
  untouched ctx (localize_asset ctx a assetPath n doc).2.
Proof.
  intros Ha Hdoc. unfold localize_asset. destruct (encodeURI _); [|done]. simpl.
  intros j Hj. rewrite list_lookup_alter_ne; [by apply Hdoc|]. by apply Hj.
Qed.

Lemma put_task_wf p t s :
  page_task_wf t → wf_inv s → wf_inv (put_task p t s).
Proof. intros Ht [I1 I2]. split; simpl; [by apply Forall_insert|done]. Qed.

Lemma wf_inv_trace s s' :
  tasks s' = tasks s → Forall effect_wf (trace s') → wf_inv s → wf_inv s'.
Proof. intros Ht Hs' [I1 I2]. split; rewrite ?Ht; done. Qed.

Lemma chunk_insert_wf ctx (chunk : list AssetTask) a t :
  (∀ t a, t ∈ chunk → task_asset t = Some a → a ∈ assets ctx) →
  (∀ b, task_asset t = Some b → b ∈ assets ctx) →
  ∀ t' b, t' ∈ <[a := t]> chunk → task_asset t' = Some b → b ∈ assets ctx.
Proof.
  intros Hchunk Ht t' b Hin Hb.
  apply list_elem_of_lookup in Hin as [k Hk].
  destruct (decide (k = a)) as [->|Hne].
  - apply list_lookup_insert_Some in Hk as [(_ & <- & _)|[? _]]; [by apply Ht|done].
  - rewrite list_lookup_insert_ne in Hk by done.
    eapply Hchunk; [|done]. by eapply list_elem_of_lookup_2.
Qed.

Lemma step_wf_inv ev s s' :
  step ev s = Some s' → wf_inv s → wf_inv s'.
Proof.
  intros Hstep Hs. pose proof Hs as [I1 I2].
  destruct ev as [|p r f|p a r f|p a|p f|p]; simpl in Hstep.
  - destruct (status s); try done.
    destruct (forallb page_finished (tasks s)); simplify_eq.
    unfold next_wave. destruct (urlQueue s) as [|u q] eqn:Hq; [by split|].
    assert (∀ chunk s0, Forall effect_wf (trace s0) →
              Forall page_task_wf (start_pages chunk s0).1 ∧
              Forall effect_wf (trace (start_pages chunk s0).2)) as Hstart.
    { induction chunk as [|v rest IH]; intros s0 Hs0; simpl; [done|].
      assert (page_task_wf (start_page v s0).1 ∧
              Forall effect_wf (trace (start_page v s0).2)) as [Ht Hs1].
      { unfold start_page. case_bool_decide; simpl; [done|].
        split; [done|]. apply Forall_app. split; [done|]. by constructor. }
      destruct (start_page v s0) as [t s1]. specialize (IH s1 Hs1).
      destruct (start_pages rest s1) as [ts s2]. simpl in *.
      destruct IH. split; [by constructor|done]. }
    destruct (Hstart (take CHUNK_SIZE (u :: q))
                (set_urlQueue (drop CHUNK_SIZE (u :: q)) s) I2) as [Hts Hs1].
    destruct (start_pages _ _) as [ts s1]. by split.
  - destruct (tasks s !! p) as [[url| | |]|] eqn:Hp; try done.
    pose proof (page_arrived_wf url r f s I2) as [Ht Hs1].
    pose proof (page_arrived_frame url r f s) as F.
    destruct (page_arrived url r f s) as [t s1]. simplify_eq. simpl in *.
    apply put_task_wf; [done|]. apply (wf_inv_trace s); [by destruct F|done..].
  - destruct (tasks s !! p) as [[|ctx pageSize doc i chunk| |]|] eqn:Hp; try done.
    destruct (chunk !! a) as [[|asset assetPath k|]|] eqn:Ha; try done.
    pose proof (Forall_lookup_1 _ _ _ _ I1 Hp) as (Hassets & Hchunk & Hdoc).
    assert (asset ∈ assets ctx) as Hasset.
    { eapply Hchunk; [by eapply list_elem_of_lookup_2|done]. }
    unfold asset_arrived in Hstep.
    destruct (downloadAsset_iteration _ _ _ _); simpl in Hstep.
    + pose proof (localize_asset_untouched ctx asset assetPath assetSize doc Hasset Hdoc).
      destruct (localize_asset _ _ _ _ _) as [n doc']. simplify_eq.
      apply put_task_wf.
      * split_and!; [done| |done]. by apply chunk_insert_wf.
      * apply (wf_inv_trace s); [done| |done]. simpl.
        apply Forall_app. split; [done|]. by constructor.
    + simplify_eq. apply put_task_wf; [|done].
      split_and!; [done| |done]. by apply chunk_insert_wf.
    + simplify_eq. apply put_task_wf.
      * split_and!; [done| |done]. apply chunk_insert_wf; [done|].
        by intros b [= <-].
      * apply (wf_inv_trace s); [done| |done]. simpl.
        apply Forall_app. split; [done|]. by constructor.
  - destruct (tasks s !! p) as [[|ctx pageSize doc i chunk| |]|] eqn:Hp; try done.
    destruct (chunk !! a) as [[| |asset assetPath k]|] eqn:Ha; try done.
    pose proof (Forall_lookup_1 _ _ _ _ I1 Hp) as (Hassets & Hchunk & Hdoc).
    assert (asset ∈ assets ctx) as Hasset.
    { eapply Hchunk; [by eapply list_elem_of_lookup_2|done]. }
    unfold asset_woke in Hstep. destruct (S k <? default_retries).
    + simplify_eq. apply put_task_wf.
      * split_and!; [done| |done]. apply chunk_insert_wf; [done|].
        by intros b [= <-].
      * apply (wf_inv_trace s); [done| |done]. simpl.
        apply Forall_app. split; [done|]. constructor; [|done]. simpl.
        rewrite Hassets in Hasset. by eapply collect_assets_no_data.
    + pose proof (localize_asset_untouched ctx asset assetPath 0 doc Hasset Hdoc).
      destruct (localize_asset _ _ _ _ _) as [n doc']. simplify_eq.
      apply put_task_wf; [|done].
      split_and!; [done| |done]. by apply chunk_insert_wf.
  - destruct (tasks s !! p) as [[|ctx pageSize doc i chunk| |]|] eqn:Hp; try done.
    destruct (forallb asset_settled chunk); try done.
    pose proof (Forall_lookup_1 _ _ _ _ I1 Hp) as (Hassets & Hchunk & Hdoc).
    match type of Hstep with context [asset_loop ?c ?n ?d ?k ?g s] =>
      pose proof (asset_loop_wf c n d k g s Hassets Hdoc I2) as [Ht Hs1];
      pose proof (asset_loop_frame c n d k g s) as F;
      destruct (asset_loop c n d k g s) as [t s1] end.
    simplify_eq. simpl in *.
    apply put_task_wf; [done|]. apply (wf_inv_trace s); [by destruct F|done..].
  - destruct (tasks s !! p) as [[| |pageSize|]|] eqn:Hp; try done. simplify_eq.
    apply put_task_wf; [done|].
    apply (wf_inv_trace s); [apply page_returned_tasks| |done].
    unfold page_returned. simpl. by repeat case_match.
Qed.

Lemma reachable_wf_inv targetUrl tempDir s :
  reachable targetUrl tempDir s → wf_inv s.
Proof.
  apply (reachable_invariant wf_inv); [|apply step_wf_inv].
  intros t d s0. unfold start. repeat case_match; simpl; intros; simplify_eq.
  split; simpl; [done|]. by repeat constructor.
Qed.

End WellFormedness.

(** ** Pages are saved where the mapper says *)

Section SavedPathInvariant.
Context {Pf : Platform}.

(** The origin passed to [getLocalFilePath] is never read. *)
Lemma getLocalFilePath_base url b1 b2 root :
  getLocalFilePath url b1 root = getLocalFilePath url b2 root.
Proof. reflexivity. Qed.

Lemma trace_path_ok_emit root e s :
  effect_path_ok root e → Forall (effect_path_ok root) (trace s) →
  Forall (effect_path_ok root) (trace (emit e s)).
Proof. intros He Hs. simpl. apply Forall_app. split; [done|by constructor]. Qed.

Lemma start_assets_path root chunk s :
  Forall (effect_path_ok root) (trace s) →
  Forall (effect_path_ok root) (trace (start_assets chunk s).2).
Proof.
  revert s. induction chunk as [|a rest IH]; intros s Hs; simpl; [done|].
  assert (Forall (effect_path_ok root) (trace (start_asset a s).2)) as Hs1.
  { unfold start_asset. case_bool_decide; [done|].
    destruct (assetLocalPath _ _ _); simpl; [|done].
    apply Forall_app. split; [done|]. by constructor. }
  destruct (start_asset a s) as [t s1]. specialize (IH s1 Hs1).
  by destruct (start_assets rest s1).
Qed.

Lemma asset_loop_path root ctx pageSize doc i fs_ok s :
  getLocalFilePath (page_url ctx) "" root = Some (localFilePath ctx) →
  Forall (effect_path_ok root) (trace s) →
  task_path_ok root (asset_loop ctx pageSize doc i fs_ok s).1 ∧
  Forall (effect_path_ok root) (trace (asset_loop ctx pageSize doc i fs_ok s).2).
Proof.
  intros Hctx Hs. unfold asset_loop. case_match.
  - pose proof (start_assets_path root
                  (take MAX_CONCURRENT_DOWNLOADS (drop i (assets ctx))) s Hs).
    by destruct (start_assets _ s).
  - unfold finish_page. pose proof (rewrite_links_fields ctx doc s) as [_ Ht].
    destruct (rewrite_links ctx doc s) as [doc' s1]. simpl in *.
    destruct fs_ok; simpl; (split; [done|]); rewrite Ht; [|done].
    apply Forall_app. split; [done|]. by constructor.
Qed.

Lemma put_task_path root p t s :
  task_path_ok root t → path_inv root s → path_inv root (put_task p t s).
Proof. intros Ht [I0 I1 I2]. split; simpl; [done|by apply Forall_insert|done]. Qed.

Lemma path_inv_trace root s s' :
  tempDir s' = tempDir s → tasks s' = tasks s →
  Forall (effect_path_ok root) (trace s') → path_inv root s → path_inv root s'.
Proof. intros Hd Ht Hs' [I0 I1 I2]. split; rewrite ?Hd, ?Ht; done. Qed.

Lemma step_path_inv root ev s s' :
  step ev s = Some s' → path_inv root s → path_inv root s'.
Proof.
  intros Hstep Hs. pose proof Hs as [I0 I1 I2]. subst root.
  destruct ev as [|p r f|p a r f|p a|p f|p]; simpl in Hstep.
  - destruct (status s); try done.
    destruct (forallb page_finished (tasks s)); simplify_eq.
    unfold next_wave. destruct (urlQueue s) as [|u q] eqn:Hq; [by split|].
    assert (∀ chunk s0, Forall (effect_path_ok (tempDir s)) (trace s0) →
              tempDir (start_pages chunk s0).2 = tempDir s0 ∧
              Forall (task_path_ok (tempDir s)) (start_pages chunk s0).1 ∧
              Forall (effect_path_ok (tempDir s)) (trace (start_pages chunk s0).2)) as Hstart.
    { induction chunk as [|v rest IH]; intros s0 Hs0; simpl; [done|].
      assert (tempDir (start_page v s0).2 = tempDir s0 ∧
              task_path_ok (tempDir s) (start_page v s0).1 ∧
              Forall (effect_path_ok (tempDir s)) (trace (start_page v s0).2))
        as (Hd & Ht & Hs1).
      { unfold start_page. case_bool_decide; simpl; [done|].
        split_and!; [done..|]. apply Forall_app. split; [done|]. by constructor. }
      destruct (start_page v s0) as [t s1]. specialize (IH s1 Hs1).
      destruct (start_pages rest s1) as [ts s2]. simpl in *.
      destruct IH as (? & ? & ?). split_and!; [congruence|by constructor|done]. }
    destruct (Hstart (take CHUNK_SIZE (u :: q))
                (set_urlQueue (drop CHUNK_SIZE (u :: q)) s) I2) as (Hd & Hts & Hs1).
    destruct (start_pages _ _) as [ts s1]. by split.
  - destruct (tasks s !! p) as [[url| | |]|] eqn:Hp; try done.
    pose proof (page_arrived_frame url r f s) as F.
    assert (task_path_ok (tempDir s) (page_arrived url r f s).1 ∧
            Forall (effect_path_ok (tempDir s)) (trace (page_arrived url r f s).2))
      as [Ht Hs1].
    { unfold page_arrived. destruct r as [html|]; [|done].
      destruct (getLocalFilePath url (baseUrl s) (tempDir s)) as [lfp|] eqn:Hl; [|done].
      apply asset_loop_path; [|done]. done. }
    destruct (page_arrived url r f s) as [t s1]. simplify_eq. simpl in *.
    apply put_task_path; [done|]. destruct F.
    by apply (path_inv_trace _ s).
  - destruct (tasks s !! p) as [[|ctx pageSize doc i chunk| |]|] eqn:Hp; try done.
    destruct (chunk !! a) as [[|asset assetPath k|]|] eqn:Ha; try done.
    pose proof (Forall_lookup_1 _ _ _ _ I1 Hp) as Hctx.
    unfold asset_arrived in Hstep.
    destruct (downloadAsset_iteration _ _ _ _); simpl in Hstep.
    + destruct (localize_asset _ _ _ _ _) as [n doc']. simplify_eq.
      apply put_task_path; [done|].
      apply (path_inv_trace _ s); [done..| |done]. by apply trace_path_ok_emit.
    + simplify_eq. by apply put_task_path.
    + simplify_eq. apply put_task_path; [done|].
      apply (path_inv_trace _ s); [done..| |done]. by apply trace_path_ok_emit.
  - destruct (tasks s !! p) as [[|ctx pageSize doc i chunk| |]|] eqn:Hp; try done.
    destruct (chunk !! a) as [[| |asset assetPath k]|] eqn:Ha; try done.
    pose proof (Forall_lookup_1 _ _ _ _ I1 Hp) as Hctx.
    unfold asset_woke in Hstep. destruct (S k <? default_retries).
    + simplify_eq. apply put_task_path; [done|].
      apply (path_inv_trace _ s); [done..| |done]. by apply trace_path_ok_emit.
    + destruct (localize_asset _ _ _ _ _) as [n doc']. simplify_eq.
      by apply put_task_path.
  - destruct (tasks s !! p) as [[|ctx pageSize doc i chunk| |]|] eqn:Hp; try done.
    destruct (forallb asset_settled chunk); try done.
    pose proof (Forall_lookup_1 _ _ _ _ I1 Hp) as Hctx. simpl in Hctx.
    match type of Hstep with context [asset_loop ?c ?n ?d ?k ?g s] =>
      pose proof (asset_loop_path _ c n d k g s Hctx I2) as [Ht Hs1];
      pose proof (asset_loop_frame c n d k g s) as F;
      destruct (asset_loop c n d k g s) as [t s1] end.
    simplify_eq. simpl in *.
    apply put_task_path; [done|]. destruct F. by apply (path_inv_trace _ s).
  - destruct (tasks s !! p) as [[| |pageSize|]|] eqn:Hp; try done. simplify_eq.
    apply put_task_path; [done|].
    apply (path_inv_trace _ s); [|apply page_returned_tasks| |done];
      unfold page_returned; simpl; by repeat case_match.
Qed.

Lemma reachable_path_inv targetUrl tempDir s :
  reachable targetUrl tempDir s → path_inv tempDir s.
Proof.
  intros (s0 & evs & Hs0 & Hrun).
  eapply (run_invariant (path_inv tempDir)); [apply step_path_inv|exact Hrun|].
  revert Hs0. unfold start. repeat case_match; simpl; intros; simplify_eq.
  split; simpl; [done..|]. by repeat constructor.
Qed.

End SavedPathInvariant.

(** ** Every job over a finite site ends *)

Section Termination.
Context {Pf : Platform}.

Lemma sum_list_insert_lt {A} (f : A → nat) (l : list A) (i : nat) (x y : A) :
  l !! i = Some x → f y < f x →
  sum_list (f <$> <[i := y]> l) < sum_list (f <$> l).
Proof.
  revert i. induction l as [|z l IH]; intros i Hi Hlt; [done|].
  destruct i as [|i]; csimpl in *.
  - simplify_eq. lia.
  - specialize (IH i Hi Hlt). lia.
Qed.

Lemma sum_list_settled (chunk : list AssetTask) :
  forallb asset_settled chunk = true → sum_list (asset_work <$> chunk) = 0.
Proof.
  induction chunk as [|t chunk IH]; csimpl; [done|].
  rewrite andb_true_iff. intros [Ht Hc]. rewrite (IH Hc). by destruct t.
Qed.

Lemma sum_list_finished W (ts : list PageTask) :
  forallb page_finished ts = true → sum_list (page_work W <$> ts) = 0.
Proof.
  induction ts as [|t ts IH]; csimpl; [done|].
  rewrite andb_true_iff. intros [Ht Hc]. rewrite (IH Hc). by destruct t.
Qed.

Lemma start_assets_work chunk s :
  sum_list (asset_work <$> (start_assets chunk s).1) ≤ 6 * List.length chunk.
Proof.
  revert s. induction chunk as [|a rest IH]; intros s; csimpl; [lia|].
  assert (asset_work (start_asset a s).1 ≤ 6) as Ha.
  { unfold start_asset. case_bool_decide; simpl; [lia|].
    destruct (assetLocalPath _ _ _); simpl; unfold default_retries; lia. }
  destruct (start_asset a s) as [t s1]. specialize (IH s1).
  destruct (start_assets rest s1) as [ts s2]. csimpl in *. lia.
Qed.

Lemma start_assets_length chunk s :
  List.length (start_assets chunk s).1 = List.length chunk.
Proof.
  revert s. induction chunk as [|a rest IH]; intros s; simpl; [done|].
  destruct (start_asset a s) as [t s1]. specialize (IH s1).
  destruct (start_assets rest s1) as [ts s2]. simpl in *. by f_equal.
Qed.

Lemma asset_loop_work W ctx pageSize doc i fs_ok s :
  page_work W (asset_loop ctx pageSize doc i fs_ok s).1
  ≤ 1 + 7 * (List.length (assets ctx) - i).
Proof.
  unfold asset_loop. destruct (i <? List.length (assets ctx)) eqn:Hi.
  - apply Nat.ltb_lt in Hi.
    pose proof (start_assets_work (take MAX_CONCURRENT_DOWNLOADS (drop i (assets ctx))) s)
      as Hw.
    pose proof (start_assets_length (take MAX_CONCURRENT_DOWNLOADS (drop i (assets ctx))) s)
      as Hl.
    destruct (start_assets _ s) as [ts s1]. simpl in *.
    rewrite length_take, length_drop in *. unfold MAX_CONCURRENT_DOWNLOADS in *. lia.
  - unfold finish_page. destruct (rewrite_links ctx doc s). destruct fs_ok; simpl; lia.
Qed.

Lemma omap_length_le {A B} (f : A → option B) (l : list A) :
  List.length (omap f l) ≤ List.length l.
Proof. induction l as [|x l IH]; csimpl; [done|]. destruct (f x); simpl; lia. Qed.

Lemma collect_assets_length url doc :
  List.length (collect_assets url doc) ≤ List.length doc.
Proof.
  unfold collect_assets. etrans; [apply omap_length_le|]. by rewrite length_imap.
Qed.

Lemma page_arrived_work W url response fs_ok s :
  event_within W (EvPageResponse 0 response fs_ok) →
  page_work W (page_arrived url response fs_ok s).1 < W + 3.
Proof.
  unfold page_arrived. destruct response as [html|]; simpl; [|lia].
  intros HW. destruct (getLocalFilePath _ _ _) as [lfp|]; simpl; [|lia].
  match goal with |- context [asset_loop ?c ?n ?d ?k ?g s] =>
    pose proof (asset_loop_work W c n d k g s) as Hw end.
  simpl in Hw. pose proof (collect_assets_length url (dom html)). lia.
Qed.

Lemma asset_arrived_work ctx a assetPath k response fs_ok doc s :
  k < default_retries →
  asset_work (asset_arrived ctx a assetPath k response fs_ok doc s).1.1
  < asset_work (AFetching a assetPath k).
Proof.
  intros Hk. unfold asset_arrived.
  destruct (downloadAsset_iteration _ _ _ _); simpl;
    [destruct (localize_asset _ _ _ _ _); simpl|..];
    unfold default_retries in *; lia.
Qed.

Lemma asset_woke_work ctx a assetPath k doc s :
  S k < default_retries →
  asset_work (asset_woke ctx a assetPath k doc s).1.1
  < asset_work (ASleeping a assetPath k).
Proof.
  intros Hk. unfold asset_woke.
  destruct (S k <? default_retries); simpl;
    [|destruct (localize_asset _ _ _ _ _); simpl];
    unfold default_retries in *; lia.
Qed.

(** *** The frontier *)

Lemma start_assets_queue chunk s :
  urlQueue (start_assets chunk s).2 = urlQueue s.
Proof.
  revert s. induction chunk as [|a rest IH]; intros s; simpl; [done|].
  assert (urlQueue (start_asset a s).2 = urlQueue s) as Ha.
  { unfold start_asset. case_bool_decide; [done|]. by destruct (assetLocalPath _ _ _). }
  destruct (start_asset a s) as [t s1]. specialize (IH s1).
  destruct (start_assets rest s1) as [ts s2]. simpl in *. congruence.
Qed.

Lemma queue_inv_same s s' :
  urlQueue s' = urlQueue s → visitedUrls s' = visitedUrls s →
  queue_inv s → queue_inv s'.
Proof. intros Hq Hv [I1 I2]. split; rewrite ?Hq, ?Hv; done. Qed.

Lemma rewrite_link_queue_inv ctx el s :
  queue_inv s → queue_inv (rewrite_link ctx el s).2.
Proof.
  intros Hs. pose proof Hs as [I1 I2]. unfold rewrite_link.
  destruct (attr_href el) as [h|]; [|done].
  destruct (_ || _); [done|].
  destruct (newURLBase h (page_url ctx)) as [absolute|]; [|done].
  set (key := JS.split_head "?" (JS.split_head "#" (href absolute))).
  destruct (JS.startsWith key (baseUrl s)); [|done].
  assert (queue_inv
            (if negb (bool_decide (key ∈ visitedUrls s))
                && negb (bool_decide (key ∈ urlQueue s))
             then set_urlQueue (urlQueue s ++ [key]) s else s)) as Hpush.
  { case_bool_decide as Hv; [done|]. case_bool_decide as Hq; [done|]. simpl.
    split; simpl.
    - apply NoDup_app. split_and!; [done| |apply NoDup_singleton].
      intros u Hu ->%list_elem_of_singleton. done.
    - intros u [Hu| ->%list_elem_of_singleton]%elem_of_app; [by apply I2|done]. }
  destruct (getLocalFilePath _ _ _); [|done]. by destruct (encodeURI _).
Qed.

Lemma rewrite_links_queue_inv ctx doc s :
  queue_inv s → queue_inv (rewrite_links ctx doc s).2.
Proof.
  revert s. induction doc as [|el rest IH]; intros s Hs; simpl; [done|].
  destruct (is_anchor_element el).
  - pose proof (rewrite_link_queue_inv ctx el s Hs) as Hl.
    destruct (rewrite_link ctx el s) as [el' s1]. specialize (IH s1 Hl).
    by destruct (rewrite_links ctx rest s1).
  - specialize (IH s Hs). by destruct (rewrite_links ctx rest s).
Qed.

Lemma asset_loop_queue_inv ctx pageSize doc i fs_ok s :
  queue_inv s → queue_inv (asset_loop ctx pageSize doc i fs_ok s).2.
Proof.
  intros Hs. unfold asset_loop. case_match.
  - pose proof (start_assets_queue (take MAX_CONCURRENT_DOWNLOADS (drop i (assets ctx))) s).
    pose proof (start_assets_frame (take MAX_CONCURRENT_DOWNLOADS (drop i (assets ctx))) s)
      as F.
    destruct (start_assets _ s) as [ts s1]. simpl in *.
    apply (queue_inv_same s); [done|by destruct F|done].
  - unfold finish_page. pose proof (rewrite_links_queue_inv ctx doc s Hs).
    destruct (rewrite_links ctx doc s) as [doc' s1]. simpl in *.
    destruct fs_ok; simpl; [|done]. by apply (queue_inv_same s1).
Qed.

Lemma start_pages_visited chunk s :
  visitedUrls (start_pages chunk s).2 = visitedUrls s ∪ list_to_set chunk ∧
  urlQueue (start_pages chunk s).2 = urlQueue s.
Proof.
  revert s. induction chunk as [|u rest IH]; intros s; simpl.
  - split; [|done]. by rewrite (right_id_L ∅ (∪)).
  - assert (visitedUrls (start_page u s).2 = visitedUrls s ∪ {[u]} ∧
            urlQueue (start_page u s).2 = urlQueue s) as [Hv Hq].
    { unfold start_page. case_bool_decide as Hin; simpl; (split; [|done]).
      - apply set_eq. intros v. rewrite elem_of_union, elem_of_singleton.
        split; [tauto|]. intros [?| ->]; done.
      - apply set_eq. intros v. rewrite !elem_of_union, elem_of_singleton. tauto. }
    destruct (start_page u s) as [t s1]. destruct (IH s1) as [Hv1 Hq1].
    destruct (start_pages rest s1) as [ts s2]. simpl in *.
    split; [|congruence]. rewrite Hv1, Hv. apply set_eq. intros v.
    rewrite !elem_of_union, elem_of_singleton. tauto.
Qed.

Lemma next_wave_queue_inv s : queue_inv s → queue_inv (next_wave s).
Proof.
  intros [I1 I2]. unfold next_wave. destruct (urlQueue s) as [|u q] eqn:Hq.
  - split; simpl; rewrite Hq; [done|]. intros v Hv. by apply elem_of_nil in Hv.
  - rewrite <- (take_drop CHUNK_SIZE (u :: q)) in I1, I2.
    apply NoDup_app in I1 as (_ & Hdisj & Hdrop).
    generalize dependent (take CHUNK_SIZE (u :: q)). intros chunk Hdisj I2.
    generalize dependent (drop CHUNK_SIZE (u :: q)). intros rest Hnodup Hdisj I2.
    pose proof (start_pages_visited chunk (set_urlQueue rest s)) as [Hv Hq'].
    destruct (start_pages chunk (set_urlQueue rest s)) as [ts s1].
    cbn [fst snd] in *. simpl in Hv, Hq'.
    split; simpl; rewrite Hq'; [done|].
    intros v Hin Hin'. rewrite Hv in Hin'.
    apply elem_of_union in Hin' as [Hvis|Htake%elem_of_list_to_set].
    + eapply I2; [|done]. apply elem_of_app. by right.
    + by eapply Hdisj.
Qed.

Lemma page_arrived_queue_inv url response fs_ok s :
  queue_inv s → queue_inv (page_arrived url response fs_ok s).2.
Proof.
  intros Hs. unfold page_arrived. destruct response; [|done].
  destruct (getLocalFilePath _ _ _); [by apply asset_loop_queue_inv|done].
Qed.

Lemma asset_arrived_queue ctx a assetPath k response fs_ok doc s :
  urlQueue (asset_arrived ctx a assetPath k response fs_ok doc s).2 = urlQueue s.
Proof.
  unfold asset_arrived. destruct (downloadAsset_iteration _ _ _ _); simpl; [|done..].
  by destruct (localize_asset _ _ _ _ _).
Qed.

Lemma asset_woke_queue ctx a assetPath k doc s :
  urlQueue (asset_woke ctx a assetPath k doc s).2 = urlQueue s.
Proof.
  unfold asset_woke. case_match; simpl; [done|]. by destruct (localize_asset _ _ _ _ _).
Qed.

Lemma step_queue_inv ev s s' :
  step ev s = Some s' → queue_inv s → queue_inv s'.
Proof.
  intros Hstep Hs.
  destruct ev as [|p r f|p a r f|p a|p f|p]; simpl in Hstep.
  - destruct (status s); try done.
    destruct (forallb page_finished (tasks s)); simplify_eq.
    by apply next_wave_queue_inv.
  - destruct (tasks s !! p) as [[url| | |]|]; try done.
    pose proof (page_arrived_queue_inv url r f s Hs) as Hx.
    destruct (page_arrived url r f s) as [t s1]. simplify_eq.
    by apply (queue_inv_same s1).
  - destruct (tasks s !! p) as [[|ctx pageSize doc i chunk| |]|]; try done.
    destruct (chunk !! a) as [[|asset assetPath k|]|]; try done.
    pose proof (asset_arrived_queue ctx asset assetPath k r f doc s) as Hq.
    pose proof (asset_arrived_frame ctx asset assetPath k r f doc s) as F.
    destruct (asset_arrived _ _ _ _ _ _ _ _) as [[t doc'] s1]. simplify_eq.
    apply (queue_inv_same s); [done|by destruct F|done].
  - destruct (tasks s !! p) as [[|ctx pageSize doc i chunk| |]|]; try done.
    destruct (chunk !! a) as [[| |asset assetPath k]|]; try done.
    pose proof (asset_woke_queue ctx asset assetPath k doc s) as Hq.
    pose proof (asset_woke_frame ctx asset assetPath k doc s) as F.
    destruct (asset_woke _ _ _ _ _ _) as [[t doc'] s1]. simplify_eq.
    apply (queue_inv_same s); [done|by destruct F|done].
  - destruct (tasks s !! p) as [[|ctx pageSize doc i chunk| |]|]; try done.
    destruct (forallb asset_settled chunk); try done.
    match type of Hstep with context [asset_loop ?c ?n ?d ?k ?g s] =>
      pose proof (asset_loop_queue_inv c n d k g s Hs) as Hx;
      destruct (asset_loop c n d k g s) as [t s1] end.
    simplify_eq. by apply (queue_inv_same s1).
  - destruct (tasks s !! p) as [[| |pageSize|]|]; try done. simplify_eq.
    apply (queue_inv_same s); [| |done]; simpl; unfold page_returned; simpl;
      by repeat case_match.
Qed.

(** *** The rank decreases *)

Lemma start_pages_work W chunk s :
  sum_list (page_work W <$> (start_pages chunk s).1) ≤ (W + 3) * List.length chunk.
Proof.
  revert s. induction chunk as [|u rest IH]; intros s; csimpl; [lia|].
  assert (page_work W (start_page u s).1 ≤ W + 3) as Hu.
  { unfold start_page. case_bool_decide; simpl; lia. }
  destruct (start_page u s) as [t s1]. specialize (IH s1).
  destruct (start_pages rest s1) as [ts s2]. csimpl in *. lia.
Qed.

Lemma rank_local W U p t t' s s1 :
  tasks s !! p = Some t → page_work W t' < page_work W t →
  local_frame s s1 →
  rank W U (put_task p t' s1) < rank W U s.
Proof.
  intros Hp Hlt F. unfold rank, put_task. simpl.
  destruct F as [_ _ _ -> _ Ht -> _]. rewrite Ht.
  pose proof (sum_list_insert_lt (page_work W) (tasks s) p t t' Hp Hlt). lia.
Qed.

Lemma step_rank W U ev s s' :
  step ev s = Some s' → bounds_inv s → queue_inv s →
  visitedUrls s ⊆ U → (∀ u, u ∈ urlQueue s → u ∈ U) → event_within W ev →
  visitedUrls s' ⊆ U ∧ rank W U s' < rank W U s.
Proof.
  intros Hstep [B1 B2 B3] [Q1 Q2] HV HQ HW.
  destruct ev as [|p r f|p a r f|p a|p f|p]; simpl in Hstep.
  - destruct (status s) eqn:Hst; try done.
    destruct (forallb page_finished (tasks s)) eqn:Hall; simplify_eq.
    pose proof (sum_list_finished W _ Hall) as Hzero.
    unfold next_wave. destruct (urlQueue s) as [|u q] eqn:Hq.
    + split; [done|]. unfold rank. simpl. rewrite Hzero, Hst. simpl. lia.
    + assert (u ∉ visitedUrls s) as Hu by (apply Q2; left).
      assert (u ∈ take CHUNK_SIZE (u :: q)) as Hfirst by left.
      assert (∀ v, v ∈ take CHUNK_SIZE (u :: q) → v ∈ U) as Hchunk.
      { intros v Hv. apply HQ. by eapply subseteq_take. }
      assert (List.length (take CHUNK_SIZE (u :: q)) ≤ CHUNK_SIZE) as Hlen.
      { rewrite length_take. lia. }
      generalize dependent (take CHUNK_SIZE (u :: q)). intros chunk Hfirst Hchunk Hlen.
      pose proof (start_pages_visited chunk
                    (set_urlQueue (drop CHUNK_SIZE (u :: q)) s)) as [Hv _].
      pose proof (start_pages_frame chunk
                    (set_urlQueue (drop CHUNK_SIZE (u :: q)) s)) as [_ Hs].
      pose proof (start_pages_work W chunk
                    (set_urlQueue (drop CHUNK_SIZE (u :: q)) s)) as Hw.
      destruct (start_pages chunk _) as [ts s1]. cbn [fst snd] in *.
      simpl in Hv, Hs.
      assert (visitedUrls s1 ⊆ U) as HV1.
      { rewrite Hv. intros v [Hin|Hin%elem_of_list_to_set]%elem_of_union; auto. }
      split; [done|]. unfold rank. simpl. rewrite Hzero, Hs, Hst. simpl.
      assert (size (visitedUrls s) + 1 ≤ size (visitedUrls s1)) as Hgrow.
      { replace (size (visitedUrls s) + 1) with (size (visitedUrls s ∪ {[u]})).
        - apply subseteq_size. rewrite Hv.
          intros v [Hin| ->%elem_of_singleton]%elem_of_union; apply elem_of_union;
            [by left|right; by apply elem_of_list_to_set].
        - rewrite size_union, size_singleton; [done|].
          intros v Hin ->%elem_of_singleton. done. }
      pose proof (subseteq_size _ _ HV1) as Hle.
      unfold wave_cost.
      assert (sum_list (page_work W <$> ts) ≤ CHUNK_SIZE * (W + 3)) as Hsum by nia.
      replace (size U - size (visitedUrls s))
        with (S (size U - size (visitedUrls s) - 1)) by lia.
      assert (size U - size (visitedUrls s1) ≤ size U - size (visitedUrls s) - 1)
        as Hfresh by lia.
      nia.
  - destruct (tasks s !! p) as [[url| | |]|] eqn:Hp; try done.
    pose proof (page_arrived_work W url r f s HW) as Hwork.
    pose proof (page_arrived_frame url r f s) as F.
    destruct (page_arrived url r f s) as [t s1]. simplify_eq. simpl in *.
    split; [simpl; by destruct F as [_ _ _ -> _ _ _ _]|].
    by eapply rank_local.
  - destruct (tasks s !! p) as [[|ctx pageSize doc i chunk| |]|] eqn:Hp; try done.
    destruct (chunk !! a) as [[|asset assetPath k|]|] eqn:Ha; try done.
    pose proof (Forall_lookup_1 _ _ _ _ B2 Hp) as [Hlen Hchunk].
    pose proof (Forall_lookup_1 _ _ _ _ Hchunk Ha) as Hk. simpl in Hk.
    pose proof (asset_arrived_work ctx asset assetPath k r f doc s Hk) as Hwork.
    pose proof (asset_arrived_frame ctx asset assetPath k r f doc s) as F.
    destruct (asset_arrived _ _ _ _ _ _ _ _) as [[t doc'] s1]. simplify_eq.
    cbn [fst snd] in *.
    split; [simpl; by destruct F as [_ _ _ -> _ _ _ _]|].
    eapply rank_local; [done| |done]. cbn [page_work]. rewrite length_insert.
    pose proof (sum_list_insert_lt asset_work chunk a _ t Ha Hwork). lia.
  - destruct (tasks s !! p) as [[|ctx pageSize doc i chunk| |]|] eqn:Hp; try done.
    destruct (chunk !! a) as [[| |asset assetPath k]|] eqn:Ha; try done.
    pose proof (Forall_lookup_1 _ _ _ _ B2 Hp) as [Hlen Hchunk].
    pose proof (Forall_lookup_1 _ _ _ _ Hchunk Ha) as Hk. simpl in Hk.
    pose proof (asset_woke_work ctx asset assetPath k doc s Hk) as Hwork.
    pose proof (asset_woke_frame ctx asset assetPath k doc s) as F.
    destruct (asset_woke _ _ _ _ _ _) as [[t doc'] s1]. simplify_eq.
    cbn [fst snd] in *.
    split; [simpl; by destruct F as [_ _ _ -> _ _ _ _]|].
    eapply rank_local; [done| |done]. cbn [page_work]. rewrite length_insert.
    pose proof (sum_list_insert_lt asset_work chunk a _ t Ha Hwork). lia.
  - destruct (tasks s !! p) as [[|ctx pageSize doc i chunk| |]|] eqn:Hp; try done.
    destruct (forallb asset_settled chunk) eqn:Hall; try done.
    pose proof (Forall_lookup_1 _ _ _ _ B2 Hp) as [Hlen _].
    match type of Hstep with context [asset_loop ?c ?n ?d ?k ?g s] =>
      pose proof (asset_loop_work W c n d k g s) as Hwork;
      pose proof (asset_loop_frame c n d k g s) as F;
      destruct (asset_loop c n d k g s) as [t s1] end.
    simplify_eq. cbn [fst snd] in *.
    split; [simpl; by destruct F as [_ _ _ -> _ _ _ _]|].
    eapply rank_local; [done| |done]. cbn [page_work].
    rewrite (sum_list_settled _ Hall).
    rewrite length_take, length_drop in Hlen.
    unfold MAX_CONCURRENT_DOWNLOADS in *. lia.
  - destruct (tasks s !! p) as [[| |pageSize|]|] eqn:Hp; try done. simplify_eq.
    split; [simpl; unfold page_returned; simpl; by repeat case_match|].
    unfold rank, put_task. simpl.
    rewrite page_returned_tasks, page_returned_status.
    assert (visitedUrls (page_returned pageSize s) = visitedUrls s) as ->.
    { unfold page_returned. simpl. by repeat case_match. }
    assert (sum_list (page_work W <$> <[p:=PFinished]> (tasks s))
            < sum_list (page_work W <$> tasks s)) as Hsum.
    { eapply sum_list_insert_lt; [done|]. simpl. lia. }
    destruct (MAX_SIZE_BYTES <? totalSize s + pageSize)%N; destruct (status s);
      simpl; lia.
Qed.

Lemma run_rank W U evs s s' :
  run evs s = Some s' → bounds_inv s → queue_inv s → visitedUrls s ⊆ U →
  (∀ k s'', run (take k evs) s = Some s'' → ∀ u, u ∈ urlQueue s'' → u ∈ U) →
  Forall (event_within W) evs →
  List.length evs + rank W U s' ≤ rank W U s.
Proof.
  revert s. induction evs as [|ev rest IH]; intros s Hrun HB HQ HV HU HW; simpl in Hrun.
  - simplify_eq. simpl. lia.
  - destruct (step ev s) as [s1|] eqn:Hstep; [|done].
    apply Forall_cons in HW as [Hev HW].
    destruct (step_rank W U ev s s1 Hstep HB HQ HV) as [HV1 Hlt]; [|done|].
    { apply (HU 0 s). done. }
    specialize (IH s1 Hrun (step_bounds_inv _ _ _ Hstep HB)
                  (step_queue_inv _ _ _ Hstep HQ) HV1).
    simpl. cut (List.length rest + rank W U s' ≤ rank W U s1); [lia|].
    apply IH; [|done]. intros k s'' Hk. apply (HU (S k) s''). simpl. by rewrite Hstep.
Qed.

Lemma reachable_queue_inv targetUrl tempDir s :
  reachable targetUrl tempDir s → queue_inv s.
Proof.
  apply (reachable_invariant queue_inv); [|apply step_queue_inv].
  intros t d s0. unfold start. repeat case_match; simpl; intros; simplify_eq.
  split; simpl; [apply NoDup_singleton|]. intros v _. apply not_elem_of_empty.
Qed.

End Termination.

(** ** Requests are never repeated *)

Section Requests.
Context {Pf : Platform}.

Lemma asset_requests_snoc tr e :
  asset_requests (tr ++ [e]) =
  asset_requests tr ++ match e with GetAsset u k => [(u, k)] | _ => [] end.
Proof. unfold asset_requests. rewrite omap_app. by destruct e. Qed.

Lemma asset_requests_emit e s :
  (∀ u k, e ≠ GetAsset u k) →
  asset_requests (trace (emit e s)) = asset_requests (trace s).
Proof.
  intros He. simpl. rewrite asset_requests_snoc.
  destruct e; rewrite ?app_nil_r; try done. by destruct (He url attempt).
Qed.

Lemma forallb_lookup {A} (f : A → bool) (l : list A) i x :
  forallb f l = true → l !! i = Some x → f x = true.
Proof.
  intros Hall Hi. apply Is_true_true. apply Is_true_true_2, forallb_True in Hall.
  by eapply (Forall_lookup_1 _ _ _ _ Hall).
Qed.

(** A wave starts with page tasks that await no asset, and sends no
    asset request. *)
Lemma start_pages_fields chunk s :
  asset_requests (trace (start_pages chunk s).2) = asset_requests (trace s) ∧
  visitedAssets (start_pages chunk s).2 = visitedAssets s ∧
  (∀ p t, (start_pages chunk s).1 !! p = Some t →
     (∃ u, t = PFetching u) ∨ t = PFinished).
Proof.
  revert s. induction chunk as [|u rest IH]; intros s; simpl.
  { split_and!; [done..|]. intros p t. by rewrite lookup_nil. }
  assert (asset_requests (trace (start_page u s).2) = asset_requests (trace s) ∧
          visitedAssets (start_page u s).2 = visitedAssets s ∧
          ((∃ v, (start_page u s).1 = PFetching v) ∨ (start_page u s).1 = PFinished))
    as (Hr & Hv & Ht).
  { unfold start_page. case_bool_decide; simpl; [by auto|].
    rewrite asset_requests_snoc, app_nil_r. split_and!; [done..|]. left. by eexists. }
  destruct (start_page u s) as [t s1]. specialize (IH s1).
  destruct (start_pages rest s1) as [ts s2]. simpl in *.
  destruct IH as (Hr2 & Hv2 & Ht2). split_and!; [congruence..|].
  intros [|p] t' Hp; simpl in Hp; [by simplify_eq|by eapply Ht2].
Qed.

(** The invariant can only be lost by a new request or a new task. *)
Lemma request_inv_shrink s s' :
  asset_requests (trace s') = asset_requests (trace s) →
  visitedAssets s' = visitedAssets s →
  (∀ p a u k, in_flight s' p a u k → in_flight s p a u k) →
  request_inv s → request_inv s'.
Proof.
  intros Ht Hv Hf [I1 I2 P1 P2 I3 I4 I5]. split; rewrite ?Ht, ?Hv; eauto.
Qed.

Lemma in_flight_put p t s1 s q a u k :
  tasks s1 = tasks s →
  in_flight (put_task p t s1) q a u k →
  (q = p ∧ ∃ ctx pageSize doc i chunk t',
      t = PAssets ctx pageSize doc i chunk ∧
      chunk !! a = Some t' ∧ asset_task_key t' = Some (u, k))
  ∨ (q ≠ p ∧ in_flight s q a u k).
Proof.
  intros Ht (ctx & n & doc & i & chunk & t' & Hq & Ha & Hk). simpl in Hq.
  rewrite Ht in Hq. destruct (decide (q = p)) as [->|Hne].
  - left. split; [done|]. apply list_lookup_insert_Some in Hq as [(_ & -> & _)|[? _]]; [|done].
    by exists ctx, n, doc, i, chunk, t'.
  - right. split; [done|]. rewrite list_lookup_insert_ne in Hq by done.
    by exists ctx, n, doc, i, chunk, t'.
Qed.

(** Replacing a task by one that awaits no asset. *)
Lemma request_inv_put_idle p t s1 s :
  tasks s1 = tasks s →
  asset_requests (trace s1) = asset_requests (trace s) →
  visitedAssets s1 = visitedAssets s →
  (∀ ctx pageSize doc i chunk, t ≠ PAssets ctx pageSize doc i chunk) →
  request_inv s → request_inv (put_task p t s1).
Proof.
  intros Ht Hr Hv Hidle. apply request_inv_shrink; [done..|].
  intros q a u k Hq. apply (in_flight_put _ _ _ s) in Hq; [|done].
  destruct Hq as [(_ & ? & ? & ? & ? & ? & ? & -> & _)|[_ ?]]; [|done].
  by edestruct Hidle.
Qed.

(** What a chunk of callbacks claims when it starts. *)
Lemma start_assets_requests chunk s :
  NoDup (asset_requests (trace s)) →
  (∀ u k, (u, k) ∈ asset_requests (trace s) → u ∈ visitedAssets s) →
  let ts := (start_assets chunk s).1 in
  let s' := (start_assets chunk s).2 in
  visitedAssets s ⊆ visitedAssets s' ∧
  NoDup (asset_requests (trace s')) ∧
  (∀ u k, (u, k) ∈ asset_requests (trace s') →
     u ∈ visitedAssets s' ∧
     ((u, k) ∈ asset_requests (trace s) ∨ ((u ∉ visitedAssets s) ∧ k = 0))) ∧
  (∀ x, x ∈ asset_requests (trace s) → x ∈ asset_requests (trace s')) ∧
  (∀ a t u k, ts !! a = Some t → asset_task_key t = Some (u, k) →
     k = 0 ∧ (u ∉ visitedAssets s) ∧ u ∈ visitedAssets s' ∧
     (u, k) ∈ asset_requests (trace s')) ∧
  (∀ a a' t t' u k k',
     ts !! a = Some t → ts !! a' = Some t' →
     asset_task_key t = Some (u, k) → asset_task_key t' = Some (u, k') → a = a').
Proof.
  revert s. induction chunk as [|a0 rest IH]; intros s Hnd Hvis; simpl.
  { split_and!; [done|done| |done| |]; [|intros *; by rewrite lookup_nil..].
    intros u k Hu. split; [by eapply Hvis|by left]. }
  assert (let t := (start_asset a0 s).1 in
          let s1 := (start_asset a0 s).2 in
          visitedAssets s ⊆ visitedAssets s1 ∧
          NoDup (asset_requests (trace s1)) ∧
          (∀ u k, (u, k) ∈ asset_requests (trace s1) →
             u ∈ visitedAssets s1 ∧
             ((u, k) ∈ asset_requests (trace s) ∨ ((u ∉ visitedAssets s) ∧ k = 0))) ∧
          (∀ x, x ∈ asset_requests (trace s) → x ∈ asset_requests (trace s1)) ∧
          (∀ u k, asset_task_key t = Some (u, k) →
             k = 0 ∧ (u ∉ visitedAssets s) ∧ u ∈ visitedAssets s1 ∧
             (u, k) ∈ asset_requests (trace s1))) as Hone.
  { unfold start_asset. case_bool_decide as Hin; simpl.
    { split_and!; [done|done| |done|done].
      intros u k Hu. split; [by eapply Hvis|by left]. }
    destruct (assetLocalPath _ _ _) as [assetPath|]; simpl.
    - rewrite asset_requests_snoc. split_and!.
      + apply union_subseteq_r.
      + apply NoDup_app. split_and!; [done| |apply NoDup_singleton].
        intros [u k] Hu [=-> ->]%list_elem_of_singleton. by apply Hin, (Hvis _ 0).
      + intros u k [Hu|[=-> ->]%list_elem_of_singleton]%elem_of_app.
        * split; [|by left]. apply elem_of_union. right. by eapply Hvis.
        * split; [|by right]. apply elem_of_union. left. by apply elem_of_singleton.
      + intros x Hx. apply elem_of_app. by left.
      + intros u k [=<- <-]. split_and!; [done..| |].
        * apply elem_of_union. left. by apply elem_of_singleton.
        * apply elem_of_app. right. by apply list_elem_of_singleton.
    - split_and!; [apply union_subseteq_r|done| |done|done].
      intros u k Hu. split; [|by left]. apply elem_of_union. right. by eapply Hvis. }
  destruct (start_asset a0 s) as [t s1]. simpl in Hone.
  destruct Hone as (Hsub1 & Hnd1 & Hreq1 & Hinc1 & Hkey1).
  specialize (IH s1 Hnd1 (fun u k H => proj1 (Hreq1 u k H))).
  destruct (start_assets rest s1) as [ts s2]. simpl in *.
  destruct IH as (Hsub2 & Hnd2 & Hreq2 & Hinc2 & Hkey2 & Huniq2).
  split_and!.
  - by etrans.
  - done.
  - intros u k Hu. destruct (Hreq2 u k Hu) as [Hv [Hold|[Hnew ->]]].
    + split; [done|]. by destruct (Hreq1 u k Hold) as [_ ?].
    + split; [done|]. right. split; [|done]. intros Hin. by apply Hnew, Hsub1.
  - auto.
  - intros [|a] t' u k Ht' Hk; simpl in Ht'.
    + simplify_eq. destruct (Hkey1 u k Hk) as (-> & Hn & Hin & Hsent).
      split_and!; [done..|by apply Hsub2|by apply Hinc2].
    + destruct (Hkey2 a t' u k Ht' Hk) as (-> & Hn & Hin & Hsent).
      split_and!; [done| |done..]. intros Hin'. by apply Hn, Hsub1.
  - intros [|a] [|a'] t1 t2 u k k' H1 H2 K1 K2; simpl in H1, H2; simplify_eq.
    + done.
    + destruct (Hkey1 u k K1) as (_ & _ & Hin & _).
      by destruct (Hkey2 a' t2 u k' H2 K2) as (_ & Hn & _).
    + destruct (Hkey1 u k' K2) as (_ & _ & Hin & _).
      by destruct (Hkey2 a t1 u k H1 K1) as (_ & Hn & _).
    + f_equal. by eapply Huniq2.
Qed.

(** Starting the next chunk of a page task that awaits no asset. *)
Lemma request_inv_asset_loop p ctx pageSize doc i fs_ok s :
  (∀ a u k, ¬ in_flight s p a u k) →
  request_inv s →
  request_inv (put_task p (asset_loop ctx pageSize doc i fs_ok s).1
                          (asset_loop ctx pageSize doc i fs_ok s).2).
Proof.
  intros Hidle Hs. pose proof Hs as [I1 I2 P1 P2 I3 I4 I5]. unfold asset_loop.
  case_match.
  - pose proof (start_assets_requests
                  (take MAX_CONCURRENT_DOWNLOADS (drop i (assets ctx))) s I1 I2) as Hsa.
    pose proof (start_assets_frame
                  (take MAX_CONCURRENT_DOWNLOADS (drop i (assets ctx))) s) as F.
    destruct (start_assets _ s) as [ts s1]. simpl in *.
    destruct Hsa as (Hsub & Hnd & Hreq & Hinc & Hkey & Huniq).
    assert (tasks s1 = tasks s) as Ht by by destruct F.
    pose proof (fun q a u k => in_flight_put p (PAssets ctx pageSize doc i ts) s1 s q a u k Ht)
      as Hput.
    split; simpl.
    + done.
    + intros u k Hu. by destruct (Hreq u k Hu).
    + intros u k j Hu Hj. destruct (Hreq u k Hu) as [_ [Hold|[_ ->]]].
      * by eapply Hinc, P1.
      * by replace j with 0 by lia.
    + intros q a u k [(-> & ? & ? & ? & ? & ? & t' & [= <- <- <- <- <-] & Ha & Hk)
                     |[Hne Hq]]%Hput.
      * by destruct (Hkey a t' u k Ha Hk) as (_ & _ & _ & ?).
      * by eapply Hinc, P2.
    + intros q a u k [(-> & ? & ? & ? & ? & ? & t' & [= <- <- <- <- <-] & Ha & Hk)
                     |[Hne Hq]]%Hput.
      * by destruct (Hkey a t' u k Ha Hk) as (_ & _ & ? & _).
      * by eapply Hsub, I3.
    + intros q a u k j [(-> & ? & ? & ? & ? & ? & t' & [= <- <- <- <- <-] & Ha & Hk)
                       |[Hne Hq]]%Hput Hj.
      * destruct (Hkey a t' u k Ha Hk) as (-> & Hn & _).
        destruct (Hreq u j Hj) as [_ [Hold|[_ ->]]]; [|done].
        by destruct Hn; eapply I2.
      * destruct (Hreq u j Hj) as [_ [Hold|[Hn ->]]]; [by eapply I4|lia].
    + intros q a k q' a' k' u
        [(-> & ? & ? & ? & ? & ? & t1 & [= <- <- <- <- <-] & Ha & Hk)
        |[Hne Hq]]%Hput
        [(Heq & ? & ? & ? & ? & ? & t2 & [= <- <- <- <- <-] & Ha' & Hk')
        |[Hne' Hq']]%Hput; try subst q'.
      * split; [done|]. by eapply Huniq.
      * destruct (Hkey a t1 u k Ha Hk) as (_ & Hn & _). by destruct Hn; eapply I3.
      * destruct (Hkey a' t2 u k' Ha' Hk') as (_ & Hn & _). by destruct Hn; eapply I3.
      * by eapply I5.
  - pose proof (finish_page_frame ctx pageSize doc fs_ok s) as F.
    assert (asset_requests (trace (finish_page ctx pageSize doc fs_ok s).2)
              = asset_requests (trace s) ∧
            visitedAssets (finish_page ctx pageSize doc fs_ok s).2 = visitedAssets s ∧
            ∀ c n d j ch, (finish_page ctx pageSize doc fs_ok s).1 ≠ PAssets c n d j ch)
      as (Hr & Hv & Hi).
    { unfold finish_page. pose proof (rewrite_links_fields ctx doc s) as [Ha Htr].
      destruct (rewrite_links ctx doc s) as [doc' s1]. simpl in *.
      destruct fs_ok; simpl; rewrite ?asset_requests_snoc, ?app_nil_r, Htr; done. }
    destruct (finish_page ctx pageSize doc fs_ok s) as [t s1]. simpl in *.
    apply (request_inv_put_idle _ _ _ s); [by destruct F|done..].
Qed.

Lemma in_flight_insert p a ctx pageSize doc doc' i chunk t s1 s q b u k :
  tasks s1 = tasks s →
  tasks s !! p = Some (PAssets ctx pageSize doc i chunk) →
  in_flight (put_task p (PAssets ctx pageSize doc' i (<[a := t]> chunk)) s1) q b u k →
  (q = p ∧ b = a ∧ asset_task_key t = Some (u, k))
  ∨ ((q, b) ≠ (p, a) ∧ in_flight s q b u k).
Proof.
  intros Ht Hp Hq. apply (in_flight_put _ _ _ s) in Hq; [|done].
  destruct Hq as [(-> & ? & ? & ? & ? & ? & t' & [= <- <- <- <- <-] & Hb & Hk)
                 |[Hne Hq]].
  - destruct (decide (b = a)) as [->|Hne].
    + left. apply list_lookup_insert_Some in Hb as [(_ & <- & _)|[? _]]; done.
    + right. split; [congruence|]. rewrite list_lookup_insert_ne in Hb by done.
      by exists ctx, pageSize, doc, i, chunk, t'.
  - right. split; [congruence|done].
Qed.

Lemma step_request_inv ev s s' :
  step ev s = Some s' → request_inv s → request_inv s'.
Proof.
  intros Hstep Hs. pose proof Hs as [I1 I2 P1 P2 I3 I4 I5].
  destruct ev as [|p r f|p a r f|p a|p f|p]; simpl in Hstep.
  - destruct (status s); try done.
    destruct (forallb page_finished (tasks s)) eqn:Hall; simplify_eq.
    revert Hs. apply request_inv_shrink.
    + unfold next_wave. destruct (urlQueue s) as [|u q]; [done|].
      pose proof (start_pages_fields (take CHUNK_SIZE (u :: q))
                    (set_urlQueue (drop CHUNK_SIZE (u :: q)) s)) as H.
      destruct (start_pages _ _) as [ts s1]. simpl in *. by destruct H as (? & ? & ?).
    + unfold next_wave. destruct (urlQueue s) as [|u q]; [done|].
      pose proof (start_pages_fields (take CHUNK_SIZE (u :: q))
                    (set_urlQueue (drop CHUNK_SIZE (u :: q)) s)) as H.
      destruct (start_pages _ _) as [ts s1]. simpl in *. by destruct H as (? & ? & ?).
    + intros q a u k (ctx & n & doc & i & chunk & t & Hq & _). exfalso.
      unfold next_wave in Hq. destruct (urlQueue s) as [|v w].
      * simpl in Hq. by apply (forallb_lookup _ _ _ _ Hall) in Hq.
      * pose proof (start_pages_fields (take CHUNK_SIZE (v :: w))
                      (set_urlQueue (drop CHUNK_SIZE (v :: w)) s)) as H.
        destruct (start_pages _ _) as [ts s1]. simpl in *.
        destruct H as (_ & _ & H). by destruct (H _ _ Hq) as [[? ?]|?].
  - destruct (tasks s !! p) as [[url| | |]|] eqn:Hp; try done.
    assert (∀ a u k, ¬ in_flight s p a u k) as Hidle.
    { intros a u k (? & ? & ? & ? & ? & ? & Hq & _). congruence. }
    unfold page_arrived in Hstep.
    destruct r as [html|];
      [destruct (getLocalFilePath url (baseUrl s) (tempDir s)) as [lfp|]|].
    + match type of Hstep with context [asset_loop ?c ?n ?d ?k ?g s] =>
        pose proof (request_inv_asset_loop p c n d k g s Hidle Hs) as H;
        destruct (asset_loop c n d k g s) as [t s1] end.
      by simplify_eq.
    + simplify_eq. by apply (request_inv_put_idle _ _ _ s).
    + simplify_eq. by apply (request_inv_put_idle _ _ _ s).
  - destruct (tasks s !! p) as [[|ctx pageSize doc i chunk| |]|] eqn:Hp; try done.
    destruct (chunk !! a) as [[|asset assetPath k|]|] eqn:Ha; try done.
    pose proof (asset_arrived_frame ctx asset assetPath k r f doc s) as F.
    assert (let x := asset_arrived ctx asset assetPath k r f doc s in
            asset_requests (trace x.2) = asset_requests (trace s) ∧
            visitedAssets x.2 = visitedAssets s ∧
            (∀ u j, asset_task_key x.1.1 = Some (u, j) → u = asset_url asset ∧ j = k))
      as H.
    { unfold asset_arrived. destruct (downloadAsset_iteration _ _ _ _); simpl.
      - destruct (localize_asset _ _ _ _ _). simpl.
        by rewrite asset_requests_snoc, app_nil_r.
      - done.
      - rewrite asset_requests_snoc, app_nil_r. split_and!; [done..|]. by intros ?? [=]. }
    destruct (asset_arrived _ _ _ _ _ _ _ _) as [[t doc'] s1]. simplify_eq. simpl in *.
    destruct H as (Hr & Hv & Hk). revert Hs. apply request_inv_shrink; [done..|].
    assert (tasks s1 = tasks s) as Ht by by destruct F.
    intros q b u j
      [(-> & -> & Hj)|[_ ?]]%(in_flight_insert p a ctx pageSize doc doc' i chunk t s1 s _ _ _ _ Ht Hp);
      [|done].
    destruct (Hk u j Hj) as [-> ->].
    by exists ctx, pageSize, doc, i, chunk, (AFetching asset assetPath k).
  - destruct (tasks s !! p) as [[|ctx pageSize doc i chunk| |]|] eqn:Hp; try done.
    destruct (chunk !! a) as [[| |asset assetPath k]|] eqn:Ha; try done.
    assert (in_flight s p a (asset_url asset) k) as Hcur.
    { by exists ctx, pageSize, doc, i, chunk, (ASleeping asset assetPath k). }
    unfold asset_woke in Hstep. destruct (S k <? default_retries).
    + simplify_eq.
      pose proof (fun q b u j =>
                    in_flight_insert p a ctx pageSize doc doc i chunk
                      (AFetching asset assetPath (S k))
                      (emit (GetAsset (asset_url asset) (S k)) s) s q b u j eq_refl Hp)
        as Hins.
      split; simpl; rewrite ?asset_requests_snoc.
      * apply NoDup_app. split_and!; [done| |apply NoDup_singleton].
        intros [u j] Hu [=-> ->]%list_elem_of_singleton.
        pose proof (I4 _ _ _ _ _ Hcur Hu). lia.
      * intros u j [Hu|[=-> ->]%list_elem_of_singleton]%elem_of_app; [by eapply I2|].
        by eapply I3.
      * intros u j j' [Hu|[=-> ->]%list_elem_of_singleton]%elem_of_app Hj;
          apply elem_of_app; [left; by eapply P1|].
        destruct (decide (j' = S k)) as [->|Hne]; [right; by apply list_elem_of_singleton|].
        left. apply (P1 _ k); [by eapply P2|lia].
      * intros q b u j [(-> & -> & [=<- <-])|[_ ?]]%Hins; apply elem_of_app;
          [right; by apply list_elem_of_singleton|left; by eapply P2].
      * intros q b u j [(-> & -> & [=<- <-])|[_ ?]]%Hins; by eapply I3.
      * intros q b u j j' [(-> & -> & [=<- <-])|[Hne Hq]]%Hins
          [Hu|Hu%list_elem_of_singleton]%elem_of_app.
        -- pose proof (I4 _ _ _ _ _ Hcur Hu). lia.
        -- injection Hu as ->. lia.
        -- by eapply I4.
        -- injection Hu as -> ->.
           destruct (I5 _ _ _ _ _ _ _ Hq Hcur) as [-> ->]. done.
      * intros q b j q' b' j' u [(-> & -> & K1)|[Hne Hq]]%Hins
          [(-> & -> & K2)|[Hne' Hq']]%Hins.
        -- done.
        -- injection K1 as <- <-.
           destruct (I5 _ _ _ _ _ _ _ Hcur Hq') as [-> ->]. done.
        -- injection K2 as <- <-.
           destruct (I5 _ _ _ _ _ _ _ Hq Hcur) as [-> ->]. done.
        -- by eapply I5.
    + destruct (localize_asset _ _ _ _ _) as [n doc']. simplify_eq.
      revert Hs. apply request_inv_shrink; [done..|].
      by intros q b u j
        [(-> & -> & ?)|[_ ?]]%(in_flight_insert p a ctx pageSize doc doc' i chunk
                                 (ASettled n) s s _ _ _ _ eq_refl Hp).
  - destruct (tasks s !! p) as [[|ctx pageSize doc i chunk| |]|] eqn:Hp; try done.
    destruct (forallb asset_settled chunk) eqn:Hall; try done.
    assert (∀ a u k, ¬ in_flight s p a u k) as Hidle.
    { intros a u k (? & ? & ? & ? & ? & t & Hq & Ha & Hk). simplify_eq.
      destruct t; [done|..]; by apply (forallb_lookup _ _ _ _ Hall) in Ha. }
    match type of Hstep with context [asset_loop ?c ?n ?d ?k ?g s] =>
      pose proof (request_inv_asset_loop p c n d k g s Hidle Hs) as H;
      destruct (asset_loop c n d k g s) as [t s1] end.
    by simplify_eq.
  - destruct (tasks s !! p) as [[| |pageSize|]|] eqn:Hp; try done. simplify_eq.
    apply (request_inv_put_idle _ _ _ s); try done;
      try (apply page_returned_tasks); unfold page_returned; simpl; by repeat case_match.
Qed.

Lemma reachable_request_inv targetUrl tempDir s :
  reachable targetUrl tempDir s → request_inv s.
Proof.
  apply (reachable_invariant request_inv); [|apply step_request_inv].
  intros t d s0. unfold start. repeat case_match; simpl; intros; simplify_eq.
  split; simpl; try apply NoDup_nil_2; try (intros *; by rewrite elem_of_nil);
    intros * (? & ? & ? & ? & ? & ? & Hq & _); by destruct p.
Qed.

End Requests.

Section RequestFacts.

Lemma elem_of_asset_requests u k tr :
  (u, k) ∈ asset_requests tr ↔ GetAsset u k ∈ tr.
Proof.
  unfold asset_requests. rewrite list_elem_of_omap. split.
  - intros (e & He & Hk). destruct e; by simplify_eq.
  - intros He. by exists (GetAsset u k).
Qed.

Lemma elem_of_asset_calls u tr :
  u ∈ asset_calls tr ↔ GetAsset u 0 ∈ tr.
Proof.
  unfold asset_calls. rewrite list_elem_of_omap. split.
  - intros (e & He & Hk). destruct e as [| |? []| | |]; by simplify_eq.
  - intros He. by exists (GetAsset u 0).
Qed.

End RequestFacts.

(** ** The retry loop in general *)

Section RetryLoop.

Lemma downloadAsset_iteration_spec retries i (r : option N * bool) :
  downloadAsset_iteration retries i r.1 r.2 =
  match attempt_ok r with
  | Some n => Returned n
  | None => if i =? retries - 1 then Rethrown else Backoff (backoff_ms i)
  end.
Proof.
  unfold downloadAsset_iteration, attempt_ok, backoff_ms.
  destruct r as [[n|] []]; simpl; by repeat case_match.
Qed.

Lemma downloadAsset_loop_step net retries todo i delays :
  downloadAsset_loop net retries (S todo) i delays =
  match downloadAsset_iteration retries i (net i).1 (net i).2 with
  | Returned n => mkDownload (Some n) (S i) delays
  | Rethrown => mkDownload None (S i) delays
  | Backoff ms => downloadAsset_loop net retries todo (S i) (delays ++ [ms])
  end.
Proof. done. Qed.

Lemma downloadAsset_loop_spec net retries todo i delays :
  i + S todo = retries →
  let d := downloadAsset_loop net retries (S todo) i delays in
  i < dl_attempts d ≤ retries ∧
  dl_delays d = delays ++ (backoff_ms <$> seq i (dl_attempts d - 1 - i)) ∧
  (∀ j, i ≤ j < dl_attempts d - 1 → attempt_ok (net j) = None) ∧
  dl_result d = attempt_ok (net (dl_attempts d - 1)) ∧
  (dl_result d = None → dl_attempts d = retries).
Proof.
  revert i delays. induction todo as [|todo IH]; intros i delays Hi;
    cbv zeta; rewrite downloadAsset_loop_step, downloadAsset_iteration_spec;
    destruct (attempt_ok (net i)) as [n|] eqn:Hok.
  - cbn [dl_attempts dl_delays dl_result].
    replace (S i - 1 - i) with 0 by lia. replace (S i - 1) with i by lia.
    rewrite app_nil_r. split_and!; [lia|lia|done| |done|done]. intros j Hj. lia.
  - assert ((i =? retries - 1) = true) as -> by (apply Nat.eqb_eq; lia).
    cbn [dl_attempts dl_delays dl_result].
    replace (S i - 1 - i) with 0 by lia. replace (S i - 1) with i by lia.
    rewrite app_nil_r. split_and!; [lia|lia|done| |done|]; intros; lia.
  - cbn [dl_attempts dl_delays dl_result].
    replace (S i - 1 - i) with 0 by lia. replace (S i - 1) with i by lia.
    rewrite app_nil_r. split_and!; [lia|lia|done| |done|done]. intros j Hj. lia.
  - assert ((i =? retries - 1) = false) as -> by (apply Nat.eqb_neq; lia).
    cbv beta iota zeta.
    destruct (IH (S i) (delays ++ [backoff_ms i])) as (Hn & Hd & Hfail & Hres & Hlast);
      [lia|].
    set (d := downloadAsset_loop net retries (S todo) (S i) (delays ++ [backoff_ms i])) in *.
    split_and!; [lia|lia| | |done|done].
    + rewrite Hd, <- app_assoc. f_equal.
      replace (dl_attempts d - 1 - i) with (S (dl_attempts d - 1 - S i)) by lia.
      done.
    + intros j Hj. destruct (decide (j = i)) as [->|Hne]; [done|]. apply Hfail. lia.
Qed.

End RetryLoop.

(** ** The sweep *)

Section Sweep.

Lemma sweep_entries_spec TEMP_DIR now files :
  ∃ k, k ≤ List.length files ∧
    (sweep_entries TEMP_DIR now files).1 =
      (fun e => Path.join [TEMP_DIR; entry_name e])
        <$> List.filter (expired now) (take k files) ∧
    (∀ e, e ∈ take k files → sweep_fails now e = false) ∧
    if (sweep_entries TEMP_DIR now files).2 then k = List.length files
    else ∃ e, files !! k = Some e ∧ sweep_fails now e = true.
Proof.
  induction files as [|file rest (k & Hk & Hrm & Hok & Hend)].
  { exists 0. split_and!; [done..| |done]. intros e He. by apply elem_of_nil in He. }
  assert (∀ e, e ∈ take 0 (file :: rest) → sweep_fails now e = false) as Hnil.
  { intros e He. by apply elem_of_nil in He. }
  cbn [sweep_entries].
  destruct (entry_mtime file) as [mtime|] eqn:Hm.
  - assert (expired now file = (MAX_AGE_MS <? now - mtime)%Z) as Hexp.
    { unfold expired. by rewrite Hm. }
    assert (sweep_fails now file = expired now file && negb (entry_rm_ok file)) as Hfail.
    { unfold sweep_fails. by rewrite Hm. }
    rewrite <- Hexp. destruct (expired now file) eqn:Hold.
    + destruct (entry_rm_ok file) eqn:Hrmok.
      * destruct (sweep_entries TEMP_DIR now rest) as [removed finished].
        cbn [fst snd] in *. exists (S k).
        cbn [take List.filter List.length]. rewrite Hold. cbn [fmap list_fmap].
        split_and!; [lia|by f_equal| |].
        -- intros e [->|He]%elem_of_cons; [|by apply Hok]. by rewrite Hfail.
        -- destruct finished; [by f_equal|done].
      * exists 0. cbn [fst snd]. split_and!; [cbn [List.length]; lia|done|done|].
        exists file. by rewrite Hfail.
    + exists (S k). cbn [take List.filter List.length]. rewrite Hold.
      split_and!; [lia|done| |].
      * intros e [->|He]%elem_of_cons; [|by apply Hok]. by rewrite Hfail.
      * destruct (sweep_entries TEMP_DIR now rest).2; [by f_equal|done].
  - exists 0. cbn [fst snd]. split_and!; [cbn [List.length]; lia|done|done|].
    exists file. split; [done|]. unfold sweep_fails. by rewrite Hm.
Qed.

End Sweep.

(** ** The frontier *)

Section Frontier.
Context {Pf : Platform}.

(** A wave whose URLs are new and distinct requests all of them. *)
Lemma start_pages_fresh chunk s :
  NoDup chunk → (∀ u, u ∈ chunk → u ∉ visitedUrls s) →
  (start_pages chunk s).1 = PFetching <$> chunk ∧
  page_gets (trace (start_pages chunk s).2) = page_gets (trace s) ++ chunk ∧
  urlQueue (start_pages chunk s).2 = urlQueue s.
Proof.
  revert s. induction chunk as [|u rest IH]; intros s Hnd Hfresh; simpl.
  { by rewrite app_nil_r. }
  apply NoDup_cons in Hnd as [Hu Hnd].
  unfold start_page. rewrite bool_decide_eq_false_2 by (apply Hfresh; left).
  destruct (IH (emit (GetPage u) (set_visitedUrls ({[u]} ∪ visitedUrls s) s)))
    as (Hts & Hg & Hq); [done| |].
  { intros v Hv. simpl. intros [->%elem_of_singleton|Hin]%elem_of_union; [done|].
    eapply Hfresh; [by right|done]. }
  destruct (start_pages rest _) as [ts s2]. simpl in *.
  split_and!; [by f_equal| |done].
  rewrite Hg, page_gets_snoc, <- app_assoc. done.
Qed.

(** A completed job has an empty frontier. *)
Lemma step_completed ev s s' :
  step ev s = Some s' → budget_inv s →
  (status s = Completed → urlQueue s = []) →
  status s' = Completed → urlQueue s' = [].
Proof.
  intros Hstep [_ I2] Hq Hc. pose proof (step_local ev s s' Hstep) as Hl.
  destruct ev;
    try (destruct Hl as (Hbusy & _ & Hs); rewrite Hs in Hc;
         rewrite (I2 Hc) in Hbusy; done).
  - simpl in Hstep. destruct (status s) eqn:Hst; try done.
    destruct (forallb page_finished (tasks s)); simplify_eq.
    rewrite next_wave_status in Hc. unfold next_wave.
    destruct (urlQueue s) eqn:E; [done|congruence].
  - simpl in Hstep.
    destruct (tasks s !! p) as [[| |pageSize|]|] eqn:Hp; simplify_eq.
    simpl in Hc. rewrite page_returned_status in Hc.
    assert (status s = Completed) as Hcs by (repeat case_match; congruence).
    specialize (I2 Hcs). rewrite forallb_forall in I2.
    apply list_elem_of_lookup_2, list_elem_of_In, I2 in Hp. done.
Qed.

Lemma reachable_completed targetUrl tempDir s :
  reachable targetUrl tempDir s → status s = Completed → urlQueue s = [].
Proof.
  intros Hr. assert (budget_inv s ∧ (status s = Completed → urlQueue s = [])) as [_ H];
    [|done].
  revert Hr. apply (reachable_invariant
                      (fun s => budget_inv s ∧ (status s = Completed → urlQueue s = []))).
  - intros t d s0 Hs0. split; [by eapply start_budget_inv|].
    revert Hs0. unfold start. repeat case_match; simpl; intros; by simplify_eq.
  - intros ev s1 s2 Hstep [Hb Hq]. split; [by eapply step_budget_inv|].
    by eapply step_completed.
Qed.

(** Nothing resumes a job all of whose page tasks have settled, except
    the loop itself. *)
Lemma idle_disabled ev s :
  forallb page_finished (tasks s) = true → ev ≠ EvLoop → step ev s = None.
Proof.
  intros Hall Hev. rewrite forallb_forall in Hall.
  destruct ev as [|p r f|p a r f|p a|p f|p]; [done|..]; simpl;
    destruct (tasks s !! p) as [t|] eqn:Hp; try done;
    apply list_elem_of_lookup_2, list_elem_of_In, Hall in Hp; by destruct t.
Qed.

End Frontier.

(** ** The reach of the crawl *)

Section LinkKeys.

Lemma includes_char_nil (c : ascii) : JS.includes "" (String c "") = false.
Proof. done. Qed.

Lemma includes_char_cons (c b : ascii) (s : string) :
  JS.includes (String b s) (String c "") = Ascii.eqb b c || JS.includes s (String c "").
Proof. cbn [JS.includes]. by rewrite startsWith_char. Qed.

Lemma split_head_excludes (c : ascii) (s : string) :
  JS.includes (JS.split_head c s) (String c "") = false.
Proof.
  induction s as [|b s IH]; cbn [JS.split_head]; [done|].
  destruct (Ascii.eqb b c) eqn:E; [done|]. by rewrite includes_char_cons, E, IH.
Qed.

Lemma split_head_keeps_out (c d : ascii) (s : string) :
  JS.includes s (String d "") = false →
  JS.includes (JS.split_head c s) (String d "") = false.
Proof.
  induction s as [|b s IH]; cbn [JS.split_head]; [done|].
  rewrite includes_char_cons. intros [Hb Hs]%orb_false_elim.
  destruct (Ascii.eqb b c); [done|]. by rewrite includes_char_cons, Hb, IH.
Qed.

Lemma link_key_plain (absoluteLink : string) :
  JS.includes (link_key absoluteLink) "?" = false ∧
  JS.includes (link_key absoluteLink) "#" = false.
Proof.
  unfold link_key. split; [apply split_head_excludes|].
  apply split_head_keeps_out, split_head_excludes.
Qed.

End LinkKeys.

Section Grows.
Context {Pf : Platform}.

Lemma grows_refl s : grows s s.
Proof. split; auto. Qed.

Lemma grows_trans s1 s2 s3 : grows s1 s2 → grows s2 s3 → grows s1 s3.
Proof.
  intros [B1 H1 T1 K1 N1] [B2 H2 T2 K2 N2]. split; [congruence..|auto|].
  intros u [Hu|Hu]%N2; [auto|]. right. by rewrite <- B1.
Qed.

(** A change that leaves frontier and claims alone. *)
Lemma grows_same s s' :
  baseUrl s' = baseUrl s → baseHost s' = baseHost s → tempDir s' = tempDir s →
  urlQueue s' = urlQueue s → visitedUrls s' = visitedUrls s → grows s s'.
Proof. intros B H T Q V. split; unfold known; rewrite ?Q, ?V; auto. Qed.

Lemma grows_local s s' :
  local_frame s s' → urlQueue s' = urlQueue s → grows s s'.
Proof. intros [] Q. by apply grows_same. Qed.

Lemma rewrite_link_grows ctx el s : grows s (rewrite_link ctx el s).2.
Proof.
  unfold rewrite_link. destruct (attr_href el) as [h|]; [|apply grows_refl].
  destruct (_ || _); [apply grows_refl|].
  destruct (newURLBase h (page_url ctx)) as [absolute|]; [|apply grows_refl].
  fold (link_key (href absolute)). set (key := link_key (href absolute)).
  destruct (JS.startsWith key (baseUrl s)) eqn:Hsite; [|apply grows_refl].
  assert (grows s (if negb (bool_decide (key ∈ visitedUrls s))
                     && negb (bool_decide (key ∈ urlQueue s))
                  then set_urlQueue (urlQueue s ++ [key]) s else s)) as Hpush.
  { destruct (_ && _); [|apply grows_refl]. split; simpl; try done; unfold known; simpl.
    - intros u [Hu|Hu]; [left; apply elem_of_app; by left|by right].
    - intros u [[Hu| ->%list_elem_of_singleton]%elem_of_app|Hu]; [by left; left| |by left; right].
      right. split; [done|]. apply link_key_plain. }
  destruct (getLocalFilePath _ _ _); [|done]. by destruct (encodeURI _).
Qed.

Lemma rewrite_links_grows ctx doc s : grows s (rewrite_links ctx doc s).2.
Proof.
  revert s. induction doc as [|el rest IH]; intros s; simpl; [apply grows_refl|].
  destruct (is_anchor_element el).
  - pose proof (rewrite_link_grows ctx el s) as Hl.
    destruct (rewrite_link ctx el s) as [el' s1]. specialize (IH s1).
    destruct (rewrite_links ctx rest s1) as [rest' s2]. simpl in *.
    by eapply grows_trans.
  - specialize (IH s). by destruct (rewrite_links ctx rest s).
Qed.

Lemma finish_page_grows ctx pageSize doc fs_ok s :
  grows s (finish_page ctx pageSize doc fs_ok s).2.
Proof.
  unfold finish_page. pose proof (rewrite_links_grows ctx doc s) as Hl.
  destruct (rewrite_links ctx doc s) as [doc' s1]. simpl in *.
  destruct fs_ok; simpl; [|done]. eapply grows_trans; [done|]. by apply grows_same.
Qed.

Lemma asset_loop_grows ctx pageSize doc i fs_ok s :
  grows s (asset_loop ctx pageSize doc i fs_ok s).2.
Proof.
  unfold asset_loop. case_match; [|apply finish_page_grows].
  pose proof (start_assets_queue (take MAX_CONCURRENT_DOWNLOADS (drop i (assets ctx))) s).
  pose proof (start_assets_frame (take MAX_CONCURRENT_DOWNLOADS (drop i (assets ctx))) s).
  destruct (start_assets _ s) as [ts s1]. simpl in *. by apply grows_local.
Qed.

Lemma page_arrived_grows url response fs_ok s :
  grows s (page_arrived url response fs_ok s).2.
Proof.
  unfold page_arrived. destruct response; [|apply grows_refl].
  destruct (getLocalFilePath _ _ _); [apply asset_loop_grows|apply grows_refl].
Qed.

Lemma start_pages_consts chunk s :
  baseUrl (start_pages chunk s).2 = baseUrl s ∧
  baseHost (start_pages chunk s).2 = baseHost s ∧
  tempDir (start_pages chunk s).2 = tempDir s.
Proof.
  revert s. induction chunk as [|u rest IH]; intros s; simpl; [done|].
  assert (baseUrl (start_page u s).2 = baseUrl s ∧
          baseHost (start_page u s).2 = baseHost s ∧
          tempDir (start_page u s).2 = tempDir s) as (B & H & T).
  { unfold start_page. by case_bool_decide. }
  destruct (start_page u s) as [t s1]. specialize (IH s1).
  destruct (start_pages rest s1) as [ts s2]. simpl in *.
  destruct IH as (? & ? & ?). split_and!; congruence.
Qed.

Lemma next_wave_grows s : grows s (next_wave s).
Proof.
  unfold next_wave. destruct (urlQueue s) as [|u q] eqn:Hq.
  { by apply grows_same. }
  pose proof (take_drop CHUNK_SIZE (u :: q)) as Htd.
  generalize dependent (take CHUNK_SIZE (u :: q)). intros chunk.
  generalize dependent (drop CHUNK_SIZE (u :: q)). intros rest Htd.
  pose proof (start_pages_visited chunk (set_urlQueue rest s)) as [Hv Hq'].
  pose proof (start_pages_consts chunk (set_urlQueue rest s)) as (B & H & T).
  destruct (start_pages chunk (set_urlQueue rest s)) as [ts s1].
  cbn [fst snd] in *. simpl in Hv, Hq', B, H, T.
  assert (∀ v, known (set_tasks ts s1) v ↔ known s v) as Hk.
  { intros v. unfold known. simpl.
    rewrite Hv, Hq', Hq, <- Htd, elem_of_union, elem_of_list_to_set, elem_of_app. tauto. }
  split; simpl; [done..| |]; intros v Hvk; [by apply Hk|left; by apply Hk].
Qed.

Lemma page_returned_grows n s : grows s (page_returned n s).
Proof. unfold page_returned. simpl. repeat case_match; by apply grows_same. Qed.

Lemma put_task_grows p t s s1 : grows s s1 → grows s (put_task p t s1).
Proof. intros Hg. eapply grows_trans; [done|]. by apply grows_same. Qed.

Lemma step_grows ev s s' : step ev s = Some s' → grows s s'.
Proof.
  intros Hstep. destruct ev as [|p r f|p a r f|p a|p f|p]; simpl in Hstep.
  - destruct (status s); try done.
    destruct (forallb page_finished (tasks s)); simplify_eq. apply next_wave_grows.
  - destruct (tasks s !! p) as [[url| | |]|]; try done.
    pose proof (page_arrived_grows url r f s) as Hx.
    destruct (page_arrived url r f s) as [t s1]. simplify_eq. by apply put_task_grows.
  - destruct (tasks s !! p) as [[|ctx pageSize doc i chunk| |]|]; try done.
    destruct (chunk !! a) as [[|asset assetPath k|]|]; try done.
    pose proof (asset_arrived_frame ctx asset assetPath k r f doc s) as F.
    pose proof (asset_arrived_queue ctx asset assetPath k r f doc s) as Q.
    destruct (asset_arrived _ _ _ _ _ _ _ _) as [[t doc'] s1]. simplify_eq.
    by apply put_task_grows, grows_local.
  - destruct (tasks s !! p) as [[|ctx pageSize doc i chunk| |]|]; try done.
    destruct (chunk !! a) as [[| |asset assetPath k]|]; try done.
    pose proof (asset_woke_frame ctx asset assetPath k doc s) as F.
    pose proof (asset_woke_queue ctx asset assetPath k doc s) as Q.
    destruct (asset_woke _ _ _ _ _ _) as [[t doc'] s1]. simplify_eq.
    by apply put_task_grows, grows_local.
  - destruct (tasks s !! p) as [[|ctx pageSize doc i chunk| |]|]; try done.
    destruct (forallb asset_settled chunk); try done.
    match type of Hstep with context [asset_loop ?c ?n ?d ?k ?g s] =>
      pose proof (asset_loop_grows c n d k g s) as Hx;
      destruct (asset_loop c n d k g s) as [t s1] end.
    simplify_eq. by apply put_task_grows.
  - destruct (tasks s !! p) as [[| |pageSize|]|]; try done. simplify_eq.
    apply put_task_grows, page_returned_grows.
Qed.

Lemma run_grows evs s s' : run evs s = Some s' → grows s s'.
Proof.
  revert s. induction evs as [|ev rest IH]; intros s Hrun; simpl in Hrun.
  - simplify_eq. apply grows_refl.
  - destruct (step ev s) as [s1|] eqn:Hstep; [|done].
    eapply grows_trans; [by eapply step_grows|by apply IH].
Qed.

(** The link rewriter makes the key of a same-site link known. *)
Lemma rewrite_link_known ctx el s h absolute :
  attr_href el = Some h → followed h = true →
  newURLBase h (page_url ctx) = Some absolute →
  JS.startsWith (link_key (href absolute)) (baseUrl s) = true →
  known (rewrite_link ctx el s).2 (link_key (href absolute)).
Proof.
  intros Hh Hf Habs Hsite. unfold rewrite_link. rewrite Hh.
  unfold followed in Hf. apply negb_true_iff in Hf. rewrite Hf, Habs.
  fold (link_key (href absolute)). set (key := link_key (href absolute)) in *.
  rewrite Hsite.
  assert (known (if negb (bool_decide (key ∈ visitedUrls s))
                   && negb (bool_decide (key ∈ urlQueue s))
                 then set_urlQueue (urlQueue s ++ [key]) s else s) key) as Hk.
  { unfold known. do 2 case_bool_decide; simpl; auto.
    left. apply elem_of_app. right. by apply list_elem_of_singleton. }
  destruct (getLocalFilePath _ _ _); [|done]. by destruct (encodeURI _).
Qed.

Lemma rewrite_links_known ctx doc s j el h absolute :
  doc !! j = Some el → is_anchor_element el = true →
  attr_href el = Some h → followed h = true →
  newURLBase h (page_url ctx) = Some absolute →
  JS.startsWith (link_key (href absolute)) (baseUrl s) = true →
  known (rewrite_links ctx doc s).2 (link_key (href absolute)).
Proof.
  revert s j. induction doc as [|e rest IH]; intros s j Hj Ha Hh Hf Habs Hsite; [done|].
  simpl. destruct j as [|j]; simpl in Hj.
  - simplify_eq. rewrite Ha.
    pose proof (rewrite_link_known ctx el s h absolute Hh Hf Habs Hsite) as Hk.
    destruct (rewrite_link ctx el s) as [el' s1].
    pose proof (rewrite_links_grows ctx rest s1) as Hg.
    destruct (rewrite_links ctx rest s1) as [rest' s2]. simpl in *.
    by apply Hg.
  - assert (grows s (if is_anchor_element e then rewrite_link ctx e s else (e, s)).2) as Hg.
    { destruct (is_anchor_element e); [apply rewrite_link_grows|apply grows_refl]. }
    destruct (if is_anchor_element e then rewrite_link ctx e s else (e, s)) as [e' s1].
    simpl in Hg. specialize (IH s1 j Hj Ha Hh Hf Habs).
    destruct (rewrite_links ctx rest s1) as [rest' s2]. simpl in *.
    apply IH. by rewrite (grows_baseUrl _ _ Hg).
Qed.

End Grows.

(** ** Where effects come from *)

Section Origins.
Context {Pf : Platform}.

Lemma elem_of_emit e e' s : e ∈ trace (emit e' s) → e ∈ trace s ∨ e = e'.
Proof. simpl. intros [?| ->%list_elem_of_singleton]%elem_of_app; auto. Qed.

Lemma start_assets_effects chunk s e :
  e ∈ trace (start_assets chunk s).2 → e ∈ trace s ∨ ∃ u, e = GetAsset u 0.
Proof.
  revert s. induction chunk as [|a rest IH]; intros s; simpl; [auto|].
  assert (e ∈ trace (start_asset a s).2 → e ∈ trace s ∨ ∃ u, e = GetAsset u 0) as Ha.
  { unfold start_asset. case_bool_decide; [auto|].
    destruct (assetLocalPath _ _ _); simpl; [|auto].
    intros [?| ->%list_elem_of_singleton]%elem_of_app; eauto. }
  destruct (start_asset a s) as [t s1]. specialize (IH s1).
  destruct (start_assets rest s1) as [ts s2]. simpl in *.
  intros [?|?]%IH; auto.
Qed.

Lemma finish_page_effects ctx pageSize doc fs_ok s e :
  e ∈ trace (finish_page ctx pageSize doc fs_ok s).2 →
  e ∈ trace s ∨
  (e = SavePage (page_url ctx) (page_html ctx) (localFilePath ctx)
         (rewrite_links ctx doc s).1 ∧
   urlQueue (finish_page ctx pageSize doc fs_ok s).2
     = urlQueue (rewrite_links ctx doc s).2 ∧
   visitedUrls (finish_page ctx pageSize doc fs_ok s).2
     = visitedUrls (rewrite_links ctx doc s).2).
Proof.
  unfold finish_page. pose proof (rewrite_links_fields ctx doc s) as [_ Ht].
  destruct (rewrite_links ctx doc s) as [doc' s1]. simpl in *.
  destruct fs_ok; simpl; rewrite Ht; [|auto].
  intros [?| ->%list_elem_of_singleton]%elem_of_app; auto.
Qed.

Lemma asset_loop_effects ctx pageSize doc i fs_ok s e :
  e ∈ trace (asset_loop ctx pageSize doc i fs_ok s).2 →
  e ∈ trace s ∨ (∃ u, e = GetAsset u 0) ∨
  (List.length (assets ctx) ≤ i ∧
   e = SavePage (page_url ctx) (page_html ctx) (localFilePath ctx)
         (rewrite_links ctx doc s).1 ∧
   urlQueue (asset_loop ctx pageSize doc i fs_ok s).2
     = urlQueue (rewrite_links ctx doc s).2 ∧
   visitedUrls (asset_loop ctx pageSize doc i fs_ok s).2
     = visitedUrls (rewrite_links ctx doc s).2).
Proof.
  unfold asset_loop. destruct (i <? List.length (assets ctx))%nat eqn:Hlt.
  - pose proof (start_assets_effects
                  (take MAX_CONCURRENT_DOWNLOADS (drop i (assets ctx))) s e) as Hx.
    destruct (start_assets _ s) as [ts s1]. simpl in *. intros [?|?]%Hx; auto.
  - apply Nat.ltb_ge in Hlt. intros [?|?]%finish_page_effects; auto.
Qed.

Lemma start_pages_effects chunk s e :
  e ∈ trace (start_pages chunk s).2 → e ∈ trace s ∨ ∃ u, e = GetPage u.
Proof.
  revert s. induction chunk as [|v rest IH]; intros s; simpl; [auto|].
  assert (e ∈ trace (start_page v s).2 → e ∈ trace s ∨ ∃ u, e = GetPage u) as Hv.
  { unfold start_page. case_bool_decide; simpl; [auto|].
    intros [?| ->%list_elem_of_singleton]%elem_of_app; eauto. }
  destruct (start_page v s) as [t s1]. specialize (IH s1).
  destruct (start_pages rest s1) as [ts s2]. simpl in *.
  intros [?|?]%IH; auto.
Qed.

Lemma downloadAsset_iteration_returned retries i response fs_ok size :
  downloadAsset_iteration retries i response fs_ok = Returned size →
  response = Some size ∧ fs_ok = true ∧ (size ≤ MAX_SIZE_BYTES)%N.
Proof.
  unfold downloadAsset_iteration. destruct response as [n|]; [|by case_match].
  destruct (N.ltb_spec MAX_SIZE_BYTES n); [by case_match|].
  destruct fs_ok; [|by case_match]. by intros [= ->].
Qed.

Lemma step_effects ev s s' e :
  step ev s = Some s' → e ∈ trace s' → e ∈ trace s ∨ fresh_effect s s' e.
Proof.
  intros Hstep. destruct ev as [|p r f|p a r f|p a|p f|p]; simpl in Hstep.
  - destruct (status s); try done.
    destruct (forallb page_finished (tasks s)); simplify_eq.
    unfold next_wave. destruct (urlQueue s) as [|u q]; [auto|].
    pose proof (start_pages_effects (take CHUNK_SIZE (u :: q))
                  (set_urlQueue (drop CHUNK_SIZE (u :: q)) s) e) as Hx.
    destruct (start_pages _ _) as [ts s1]. simpl in *.
    intros [?|[v ->]]%Hx; [auto|by right].
  - destruct (tasks s !! p) as [[url| | |]|] eqn:Hp; try done.
    unfold page_arrived in Hstep. destruct r as [html|]; [|simplify_eq; auto].
    destruct (getLocalFilePath url (baseUrl s) (tempDir s)) as [lfp|] eqn:Hlfp;
      [|simplify_eq; auto].
    match type of Hstep with context [asset_loop ?c ?n ?d ?k ?g s] =>
      pose proof (asset_loop_effects c n d k g s e) as Hx;
      destruct (asset_loop c n d k g s) as [t s1]; set (ctx := c) in * end.
    simplify_eq. simpl in Hx |- *.
    intros [?|[[v ->]|(Hlen & -> & Hq & Hv)]]%Hx; [auto|by right|]. right.
    exists p, ctx, (dom html). split_and!; try done. right.
    split_and!; try done. simpl in *.
    destruct (collect_assets url (dom html)); simpl in Hlen; [done|lia].
  - destruct (tasks s !! p) as [[|ctx pageSize doc i chunk| |]|] eqn:Hp; try done.
    destruct (chunk !! a) as [[|asset assetPath k|]|] eqn:Ha; try done.
    unfold asset_arrived in Hstep.
    destruct (downloadAsset_iteration _ _ _ _) eqn:Hit; simpl in Hstep.
    + destruct (localize_asset _ _ _ _ _) as [n doc']. simplify_eq.
      apply downloadAsset_iteration_returned in Hit as (_ & _ & Hsize).
      intros [?| ->]%elem_of_emit; [auto|]. right. simpl.
      by exists p, a, ctx, pageSize, doc, i, chunk, asset, k.
    + simplify_eq. auto.
    + simplify_eq. intros [?| ->]%elem_of_emit; [auto|by right].
  - destruct (tasks s !! p) as [[|ctx pageSize doc i chunk| |]|] eqn:Hp; try done.
    destruct (chunk !! a) as [[| |asset assetPath k]|] eqn:Ha; try done.
    unfold asset_woke in Hstep. destruct (S k <? default_retries).
    + simplify_eq. intros [?| ->]%elem_of_emit; [auto|by right].
    + destruct (localize_asset _ _ _ _ _) as [n doc']. simplify_eq. auto.
  - destruct (tasks s !! p) as [[|ctx pageSize doc i chunk| |]|] eqn:Hp; try done.
    destruct (forallb asset_settled chunk) eqn:Hall; try done.
    match type of Hstep with context [asset_loop ?c ?n ?d ?k ?g s] =>
      pose proof (asset_loop_effects c n d k g s e) as Hx;
      destruct (asset_loop c n d k g s) as [t s1] end.
    simplify_eq. simpl in Hx |- *.
    intros [?|[[v ->]|(Hlen & -> & Hq & Hv)]]%Hx; [auto|by right|]. right.
    exists p, ctx, doc. split_and!; try done. left. eauto.
  - destruct (tasks s !! p) as [[| |pageSize|]|] eqn:Hp; try done. simplify_eq.
    simpl. unfold page_returned. simpl. repeat case_match; auto.
Qed.

End Origins.

(** ** Saved pages *)

Section SavedPages.
Context {Pf : Platform}.

Lemma anchor_not_asset el :
  is_anchor_element el = true → is_asset_element el = false.
Proof. unfold is_anchor_element, is_asset_element. by destruct (tag el). Qed.

(** The asset loop leaves anchors alone. *)
Lemma saving_anchor s p ctx doc j el :
  wf_inv s → saving s p ctx doc →
  dom (page_html ctx) !! j = Some el → is_anchor_element el = true →
  doc !! j = Some el.
Proof.
  intros [W _] [(pageSize & i & chunk & Hp & _)|(_ & _ & _ & _ & _ & ->)] Hj Hel; [|done].
  destruct (Forall_lookup_1 _ _ _ _ W Hp) as (Hassets & _ & Hdoc).
  rewrite Hdoc; [done|]. intros a Ha <-. rewrite Hassets in Ha.
  apply collect_assets_elem in Ha as (el' & Hj' & Hsel & _).
  simplify_eq. by rewrite (anchor_not_asset _ Hel) in Hsel.
Qed.

Lemma closed_mono s s' tr :
  grows s s' → Forall (effect_closed s) tr → Forall (effect_closed s') tr.
Proof.
  intros [B _ _ K _] Htr. eapply Forall_impl; [done|]. intros [] He; try done. simpl in *.
  intros j el h absolute Hj Hel Hh Hf Habs Hsite. rewrite B in Hsite. eauto.
Qed.

Lemma step_closed_inv ev s s' :
  step ev s = Some s' → wf_inv s → closed_inv s → closed_inv s'.
Proof.
  intros Hstep Hwf Hs. pose proof (step_grows _ _ _ Hstep) as Hg.
  apply Forall_forall. intros e [He|He]%(step_effects _ _ _ _ Hstep).
  - pose proof (closed_mono _ _ _ Hg Hs) as Hs'. rewrite Forall_forall in Hs'. auto.
  - destruct e as [| | | | |url body lfp doc']; try done. simpl in *.
    destruct He as (p & ctx & doc & Hsav & -> & -> & -> & -> & Hq & Hv).
    intros j el h absolute Hj Hel Hh Hf Habs Hsite.
    rewrite (grows_baseUrl _ _ Hg) in Hsite.
    pose proof (saving_anchor _ _ _ _ _ _ Hwf Hsav Hj Hel) as Hdoc.
    pose proof (rewrite_links_known ctx doc s j el h absolute Hdoc Hel Hh Hf Habs Hsite)
      as Hk.
    unfold known in *. by rewrite Hq, Hv.
Qed.

Lemma reachable_closed_inv targetUrl tempDir s :
  reachable targetUrl tempDir s → closed_inv s.
Proof.
  intros Hr. assert (wf_inv s ∧ closed_inv s) as [_ H]; [|done].
  revert Hr. apply (reachable_invariant (fun s => wf_inv s ∧ closed_inv s)).
  - intros t d s0 Hs0. split.
    + apply (reachable_wf_inv t d). exists s0, []. by split.
    + revert Hs0. unfold start. repeat case_match; simpl; intros; simplify_eq.
      by repeat constructor.
  - intros ev s1 s2 Hstep [Hw Hc]. split; [by eapply step_wf_inv|by eapply step_closed_inv].
Qed.

(** *** The contexts of the page tasks *)

Lemma ctx_ok_mono s s' ctx : grows s s' → ctx_ok s ctx → ctx_ok s' ctx.
Proof. intros [B _ T _ _] (? & ? & ?). split_and!; [by rewrite B, T|done..]. Qed.

Lemma asset_loop_ctx ctx pageSize doc i fs_ok s ctx' pageSize' doc' i' chunk' :
  (asset_loop ctx pageSize doc i fs_ok s).1 = PAssets ctx' pageSize' doc' i' chunk' →
  ctx' = ctx.
Proof.
  unfold asset_loop. case_match.
  - destruct (start_assets _ s). simpl. by intros [= <-].
  - unfold finish_page. destruct (rewrite_links ctx doc s). by destruct fs_ok.
Qed.

Lemma step_ctx_inv ev s s' : step ev s = Some s' → ctx_inv s → ctx_inv s'.
Proof.
  intros Hstep Hs q ctx' n' d' i' c' Hq. pose proof (step_grows _ _ _ Hstep) as Hg.
  apply (ctx_ok_mono s); [done|].
  destruct ev as [|p r f|p a r f|p a|p f|p]; simpl in Hstep.
  - destruct (status s); try done.
    destruct (forallb page_finished (tasks s)) eqn:Hall; simplify_eq. exfalso.
    unfold next_wave in Hq. destruct (urlQueue s) as [|v w].
    + simpl in Hq. by apply (forallb_lookup _ _ _ _ Hall) in Hq.
    + pose proof (start_pages_fields (take CHUNK_SIZE (v :: w))
                    (set_urlQueue (drop CHUNK_SIZE (v :: w)) s)) as H.
      destruct (start_pages _ _) as [ts s1]. simpl in *.
      destruct H as (_ & _ & H). by destruct (H _ _ Hq) as [[? ?]|?].
  - destruct (tasks s !! p) as [[url| | |]|] eqn:Hp; try done.
    unfold page_arrived in Hstep.
    destruct r as [html|];
      [destruct (getLocalFilePath url (baseUrl s) (tempDir s)) as [lfp|] eqn:Hlfp|].
    + match type of Hstep with context [asset_loop ?c ?n ?d ?k ?g s] =>
        pose proof (asset_loop_ctx c n d k g s) as Hx;
        pose proof (asset_loop_frame c n d k g s) as F;
        destruct (asset_loop c n d k g s) as [t s1] end.
      simplify_eq. simpl in Hq, F. rewrite (lf_tasks _ _ F) in Hq.
      destruct (decide (q = p)) as [->|Hne].
      * apply list_lookup_insert_Some in Hq as [(_ & -> & _)|[? _]]; [|done].
        rewrite (Hx _ _ _ _ _ eq_refl). by split_and!.
      * rewrite list_lookup_insert_ne in Hq by done. by eapply Hs.
    + simplify_eq. simpl in Hq. destruct (decide (q = p)) as [->|Hne].
      * by apply list_lookup_insert_Some in Hq as [(_ & ? & _)|[? _]].
      * rewrite list_lookup_insert_ne in Hq by done. by eapply Hs.
    + simplify_eq. simpl in Hq. destruct (decide (q = p)) as [->|Hne].
      * by apply list_lookup_insert_Some in Hq as [(_ & ? & _)|[? _]].
      * rewrite list_lookup_insert_ne in Hq by done. by eapply Hs.
  - destruct (tasks s !! p) as [[|ctx pageSize doc i chunk| |]|] eqn:Hp; try done.
    destruct (chunk !! a) as [[|asset assetPath k|]|] eqn:Ha; try done.
    pose proof (asset_arrived_frame ctx asset assetPath k r f doc s) as F.
    destruct (asset_arrived _ _ _ _ _ _ _ _) as [[t doc'] s1]. simplify_eq.
    simpl in Hq, F. rewrite (lf_tasks _ _ F) in Hq.
    destruct (decide (q = p)) as [->|Hne].
    + apply list_lookup_insert_Some in Hq as [(_ & [= <- <- <- <- <-] & _)|[? _]]; [|done].
      by eapply Hs.
    + rewrite list_lookup_insert_ne in Hq by done. by eapply Hs.
  - destruct (tasks s !! p) as [[|ctx pageSize doc i chunk| |]|] eqn:Hp; try done.
    destruct (chunk !! a) as [[| |asset assetPath k]|] eqn:Ha; try done.
    pose proof (asset_woke_frame ctx asset assetPath k doc s) as F.
    destruct (asset_woke _ _ _ _ _ _) as [[t doc'] s1]. simplify_eq.
    simpl in Hq, F. rewrite (lf_tasks _ _ F) in Hq.
    destruct (decide (q = p)) as [->|Hne].
    + apply list_lookup_insert_Some in Hq as [(_ & [= <- <- <- <- <-] & _)|[? _]]; [|done].
      by eapply Hs.
    + rewrite list_lookup_insert_ne in Hq by done. by eapply Hs.
  - destruct (tasks s !! p) as [[|ctx pageSize doc i chunk| |]|] eqn:Hp; try done.
    destruct (forallb asset_settled chunk); try done.
    match type of Hstep with context [asset_loop ?c ?n ?d ?k ?g s] =>
      pose proof (asset_loop_ctx c n d k g s) as Hx;
      pose proof (asset_loop_frame c n d k g s) as F;
      destruct (asset_loop c n d k g s) as [t s1] end.
    simplify_eq. simpl in Hq, F. rewrite (lf_tasks _ _ F) in Hq.
    destruct (decide (q = p)) as [->|Hne].
    + apply list_lookup_insert_Some in Hq as [(_ & -> & _)|[? _]]; [|done].
      rewrite (Hx _ _ _ _ _ eq_refl). by eapply Hs.
    + rewrite list_lookup_insert_ne in Hq by done. by eapply Hs.
  - destruct (tasks s !! p) as [[| |pageSize|]|] eqn:Hp; try done. simplify_eq.
    simpl in Hq. rewrite page_returned_tasks in Hq.
    destruct (decide (q = p)) as [->|Hne].
    + by apply list_lookup_insert_Some in Hq as [(_ & ? & _)|[? _]].
    + rewrite list_lookup_insert_ne in Hq by done. by eapply Hs.
Qed.

Lemma reachable_ctx_inv targetUrl tempDir s :
  reachable targetUrl tempDir s → ctx_inv s.
Proof.
  apply (reachable_invariant ctx_inv); [|apply step_ctx_inv].
  intros t d s0. unfold start. repeat case_match; simpl; intros; simplify_eq.
  intros p ctx n doc i chunk Hp. by destruct p.
Qed.

Lemma saving_ctx_ok s p ctx doc : ctx_inv s → saving s p ctx doc → ctx_ok s ctx.
Proof.
  intros Hs [(pageSize & i & chunk & Hp & _)|(_ & ? & ? & ? & _)]; [by eapply Hs|].
  by split_and!.
Qed.

(** *** What the link rewriter writes *)

(** The element the link rewriter returns depends on the job through
    its constants only. *)
Lemma rewrite_link_element ctx el s s' :
  baseUrl s' = baseUrl s → tempDir s' = tempDir s →
  (rewrite_link ctx el s').1 = (rewrite_link ctx el s).1.
Proof.
  intros B T. unfold rewrite_link. rewrite B, T.
  repeat (case_match; simpl; try done).
Qed.

Lemma rewrite_links_anchor ctx doc s j el :
  doc !! j = Some el → is_anchor_element el = true →
  (rewrite_links ctx doc s).1 !! j = Some (rewrite_link ctx el s).1.
Proof.
  revert s j. induction doc as [|e rest IH]; intros s j Hj Hel; [done|]. simpl.
  destruct j as [|j]; simpl in Hj.
  - simplify_eq. rewrite Hel. destruct (rewrite_link ctx el s) as [el' s1].
    by destruct (rewrite_links ctx rest s1).
  - assert (grows s (if is_anchor_element e then rewrite_link ctx e s else (e, s)).2) as Hg.
    { destruct (is_anchor_element e); [apply rewrite_link_grows|apply grows_refl]. }
    destruct (if is_anchor_element e then rewrite_link ctx e s else (e, s)) as [e' s1].
    specialize (IH s1 j Hj Hel). destruct (rewrite_links ctx rest s1) as [rest' s2].
    simpl in *. rewrite IH. f_equal.
    apply rewrite_link_element; [apply (grows_baseUrl _ _ Hg)|apply (grows_tempDir _ _ Hg)].
Qed.

End SavedPages.

Section SavedAnchors.
Context {Pf : Platform}.

Lemma ctx_ok_eq s ctx :
  ctx_ok s ctx → ctx = ctx_of (page_url ctx) (page_html ctx) (localFilePath ctx).
Proof. intros (_ & Hd & Ha). destruct ctx. unfold ctx_of. simpl in *. by subst. Qed.

Lemma anchors_mono s s' tr :
  grows s s' → Forall (effect_anchors s) tr → Forall (effect_anchors s') tr.
Proof.
  intros [B _ T _ _] Htr. eapply Forall_impl; [done|]. intros [] He; try done. simpl in *.
  intros j el Hj Hel. rewrite (He j el Hj Hel). f_equal. by apply rewrite_link_element.
Qed.

Lemma step_anchors_inv ev s s' :
  step ev s = Some s' → wf_inv s → ctx_inv s → anchors_inv s → anchors_inv s'.
Proof.
  intros Hstep Hwf Hctx Hs. pose proof (step_grows _ _ _ Hstep) as Hg.
  apply Forall_forall. intros e [He|He]%(step_effects _ _ _ _ Hstep).
  - pose proof (anchors_mono _ _ _ Hg Hs) as Hs'. rewrite Forall_forall in Hs'. auto.
  - destruct e as [| | | | |url body lfp doc']; try done. simpl in *.
    destruct He as (p & ctx & doc & Hsav & -> & -> & -> & -> & Hq & Hv).
    intros j el Hj Hel.
    pose proof (saving_anchor _ _ _ _ _ _ Hwf Hsav Hj Hel) as Hdoc.
    rewrite (rewrite_links_anchor ctx doc s j el Hdoc Hel).
    rewrite <- (ctx_ok_eq s ctx) by by eapply saving_ctx_ok.
    f_equal. symmetry.
    apply rewrite_link_element; [apply (grows_baseUrl _ _ Hg)|apply (grows_tempDir _ _ Hg)].
Qed.

Lemma reachable_anchors_inv targetUrl tempDir s :
  reachable targetUrl tempDir s → anchors_inv s.
Proof.
  intros Hr. assert (wf_inv s ∧ ctx_inv s ∧ anchors_inv s) as (_ & _ & H); [|done].
  revert Hr.
  apply (reachable_invariant (fun s => wf_inv s ∧ ctx_inv s ∧ anchors_inv s)).
  - intros t d s0 Hs0.
    assert (reachable t d s0) as Hr0 by (exists s0, []; by split).
    split_and!; [by eapply reachable_wf_inv|by eapply reachable_ctx_inv|].
    revert Hs0. unfold start. repeat case_match; simpl; intros; simplify_eq.
    by repeat constructor.
  - intros ev s1 s2 Hstep (Hw & Hc & Ha).
    split_and!; [by eapply step_wf_inv|by eapply step_ctx_inv|by eapply step_anchors_inv].
Qed.

End SavedAnchors.

(** ** The bytes a job has written *)

Section Ledger.
Context {Pf : Platform}.

Lemma foldl_add_sumN (l : list N) (acc : N) : foldl N.add acc l = (acc + sumN l)%N.
Proof.
  revert acc. induction l as [|x l IH]; intros acc; simpl; [lia|]. rewrite IH. lia.
Qed.

Lemma sumN_insert {A} (f : A → N) (l : list A) p x y :
  l !! p = Some x →
  (sumN (f <$> <[p := y]> l) + f x = sumN (f <$> l) + f y)%N.
Proof.
  revert p. induction l as [|z l IH]; intros [|p] Hp; simplify_eq/=; [lia|].
  specialize (IH p Hp). lia.
Qed.

Lemma sumN_zero {A} (f : A → N) (l : list A) :
  (∀ x, x ∈ l → f x = 0%N) → sumN (f <$> l) = 0%N.
Proof.
  induction l as [|z l IH]; intros Hl; csimpl; [done|].
  rewrite (Hl z), IH; [done| |left]. intros x Hx. apply Hl. by right.
Qed.

Lemma sumN_app (l1 l2 : list N) : sumN (l1 ++ l2) = (sumN l1 + sumN l2)%N.
Proof. induction l1 as [|x l1 IH]; simpl; [done|]. rewrite IH. lia. Qed.

Lemma saved_asset_bytes_snoc tr e :
  saved_asset_bytes (tr ++ [e]) =
  (saved_asset_bytes tr + match e with SaveAsset _ n => n | _ => 0 end)%N.
Proof.
  unfold saved_asset_bytes. rewrite omap_app, sumN_app. destruct e; simpl; lia.
Qed.

Lemma saved_page_bytes_snoc tr e :
  saved_page_bytes (tr ++ [e]) =
  (saved_page_bytes tr
   + match e with SavePage _ body _ _ => byteLength body | _ => 0 end)%N.
Proof.
  unfold saved_page_bytes. rewrite omap_app, sumN_app. destruct e; simpl; lia.
Qed.

(** A chunk starts with nothing counted, and writes nothing. *)
Lemma start_assets_ledger chunk s :
  sumN (settled_size <$> (start_assets chunk s).1) = 0%N ∧
  saved_asset_bytes (trace (start_assets chunk s).2) = saved_asset_bytes (trace s) ∧
  saved_page_bytes (trace (start_assets chunk s).2) = saved_page_bytes (trace s).
Proof.
  revert s. induction chunk as [|a rest IH]; intros s; simpl; [done|].
  assert (settled_size (start_asset a s).1 = 0%N ∧
          saved_asset_bytes (trace (start_asset a s).2) = saved_asset_bytes (trace s) ∧
          saved_page_bytes (trace (start_asset a s).2) = saved_page_bytes (trace s))
    as (Hz & Ha & Hp).
  { unfold start_asset. case_bool_decide; [done|].
    destruct (assetLocalPath _ _ _); simpl; [|done].
    rewrite saved_asset_bytes_snoc, saved_page_bytes_snoc. simpl. split_and!; [done|lia..]. }
  destruct (start_asset a s) as [t s1]. specialize (IH s1).
  destruct (start_assets rest s1) as [ts s2]. cbn [fst snd] in *.
  destruct IH as (Hz2 & Ha2 & Hp2). split_and!; [|congruence..].
  rewrite fmap_cons. cbn [sumN foldr]. fold (sumN (settled_size <$> ts)). lia.
Qed.

(** The end of [downloadPage]: the body is written and its count
    returned, or nothing is written and 0 is returned. *)
Lemma finish_page_ledger ctx pageSize doc fs_ok s :
  ∃ n, (finish_page ctx pageSize doc fs_ok s).1 = PReturned n ∧
       saved_asset_bytes (trace (finish_page ctx pageSize doc fs_ok s).2)
         = saved_asset_bytes (trace s) ∧
       ((n = pageSize ∧
         saved_page_bytes (trace (finish_page ctx pageSize doc fs_ok s).2)
           = (saved_page_bytes (trace s) + byteLength (page_html ctx))%N)
        ∨ (n = 0%N ∧
           saved_page_bytes (trace (finish_page ctx pageSize doc fs_ok s).2)
             = saved_page_bytes (trace s))).
Proof.
  unfold finish_page. pose proof (rewrite_links_fields ctx doc s) as [_ Ht].
  destruct (rewrite_links ctx doc s) as [doc' s1]. simpl in *.
  destruct fs_ok; simpl; rewrite Ht.
  - exists pageSize. rewrite saved_asset_bytes_snoc, saved_page_bytes_snoc. simpl.
    split_and!; [done|lia|by left].
  - exists 0%N. split_and!; [done..|by right].
Qed.

(** What replacing the task at [p] does to the ledger. *)
Lemma ledger_put p t t' s s1 :
  tasks s !! p = Some t →
  tasks s1 = tasks s → totalSize s1 = totalSize s →
  (held t' + saved_page_bytes (trace s) + saved_asset_bytes (trace s) + owed t
   ≤ held t + saved_page_bytes (trace s1) + saved_asset_bytes (trace s1) + owed t')%N →
  (saved_page_bytes (trace s1) + returned t
   ≤ saved_page_bytes (trace s) + returned t')%N →
  (∀ ctx pageSize doc i chunk,
     t' = PAssets ctx pageSize doc i chunk → (byteLength (page_html ctx) ≤ pageSize)%N) →
  ledger_inv s → ledger_inv (put_task p t' s1).
Proof.
  intros Hp Ht Hts Hu Hl Hk [U L K]. split; simpl; rewrite ?Ht, ?Hts.
  - pose proof (sumN_insert held (tasks s) p t t' Hp).
    pose proof (sumN_insert owed (tasks s) p t t' Hp). lia.
  - pose proof (sumN_insert returned (tasks s) p t t' Hp). lia.
  - intros q ctx n doc i chunk Hq. destruct (decide (q = p)) as [->|Hne].
    + apply list_lookup_insert_Some in Hq as [(_ & -> & _)|[? _]]; [|done]. by eapply Hk.
    + rewrite list_lookup_insert_ne in Hq by done. by eapply K.
Qed.

Lemma asset_loop_ledger p t ctx pageSize doc i fs_ok s :
  tasks s !! p = Some t →
  (held t = pageSize ∧ owed t = byteLength (page_html ctx) ∨
   t = PFetching (page_url ctx) ∧ pageSize = byteLength (page_html ctx)) →
  returned t = 0%N →
  (byteLength (page_html ctx) ≤ pageSize)%N →
  ledger_inv s →
  ledger_inv (put_task p (asset_loop ctx pageSize doc i fs_ok s).1
                         (asset_loop ctx pageSize doc i fs_ok s).2).
Proof.
  intros Hp Ht Hr Hsize Hs.
  pose proof (asset_loop_frame ctx pageSize doc i fs_ok s) as F.
  assert (held t + byteLength (page_html ctx) = pageSize + owed t)%N as Hbal.
  { destruct Ht as [[-> ->]|[-> ->]]; simpl; lia. }
  unfold asset_loop in *. case_match.
  - pose proof (start_assets_ledger
                  (take MAX_CONCURRENT_DOWNLOADS (drop i (assets ctx))) s) as (Hz & Ha & Hg).
    destruct (start_assets _ s) as [ts s1]. simpl in *.
    apply (ledger_put p t _ s); [done|by destruct F|by destruct F| | | |done].
    + simpl. rewrite Hz, Ha, Hg. lia.
    + simpl. rewrite Hg, Hr. lia.
    + by intros ????? [= <- <- _ _ _].
  - destruct (finish_page_ledger ctx pageSize doc fs_ok s) as (n & Hn & Ha & Hg).
    destruct (finish_page ctx pageSize doc fs_ok s) as [t' s1]. simpl in *. subst t'.
    apply (ledger_put p t _ s); [done|by destruct F|by destruct F| | |done|done].
    + simpl. rewrite Ha. destruct Hg as [[-> ->]|[-> ->]]; lia.
    + simpl. rewrite Hr. destruct Hg as [[-> ->]|[-> ->]]; lia.
Qed.

Lemma step_ledger_inv ev s s' :
  step ev s = Some s' → ledger_inv s → ledger_inv s'.
Proof.
  intros Hstep Hs. pose proof Hs as [U L K].
  destruct ev as [|p r f|p a r f|p a|p f|p]; simpl in Hstep.
  - destruct (status s); try done.
    destruct (forallb page_finished (tasks s)) eqn:Hall; simplify_eq.
    assert (∀ g : PageTask → N, g PFinished = 0%N → sumN (g <$> tasks s) = 0%N) as Hzero.
    { intros g Hg. apply sumN_zero. intros t [q Hq]%list_elem_of_lookup.
      apply (forallb_lookup _ _ _ _ Hall) in Hq. by destruct t. }
    rewrite (Hzero held), (Hzero owed) in U by done.
    rewrite (Hzero returned) in L by done.
    unfold next_wave. destruct (urlQueue s) as [|u q].
    { split; simpl; rewrite ?(Hzero held), ?(Hzero owed), ?(Hzero returned); done. }
    pose proof (start_pages_fields (take CHUNK_SIZE (u :: q))
                  (set_urlQueue (drop CHUNK_SIZE (u :: q)) s)) as (_ & _ & Hts).
    pose proof (start_pages_frame (take CHUNK_SIZE (u :: q))
                  (set_urlQueue (drop CHUNK_SIZE (u :: q)) s)) as [Htot _].
    assert (∀ chunk s0,
              saved_asset_bytes (trace (start_pages chunk s0).2)
                = saved_asset_bytes (trace s0) ∧
              saved_page_bytes (trace (start_pages chunk s0).2)
                = saved_page_bytes (trace s0)) as Hbytes.
    { induction chunk as [|v rest IH]; intros s0; simpl; [done|].
      assert (saved_asset_bytes (trace (start_page v s0).2) = saved_asset_bytes (trace s0) ∧
              saved_page_bytes (trace (start_page v s0).2) = saved_page_bytes (trace s0))
        as [Ha Hg].
      { unfold start_page. case_bool_decide; simpl; [done|].
        rewrite saved_asset_bytes_snoc, saved_page_bytes_snoc. simpl. split; lia. }
      destruct (start_page v s0) as [t s1]. specialize (IH s1).
      destruct (start_pages rest s1) as [ts s2]. simpl in *.
      destruct IH. split; congruence. }
    destruct (Hbytes (take CHUNK_SIZE (u :: q))
                (set_urlQueue (drop CHUNK_SIZE (u :: q)) s)) as [Ha Hg].
    destruct (start_pages _ _) as [ts s1]. simpl in *.
    assert (∀ g : PageTask → N,
              g PFinished = 0%N → (∀ v, g (PFetching v) = 0%N) →
              sumN (g <$> ts) = 0%N) as Hnew.
    { intros g Hg1 Hg2. apply sumN_zero. intros t [k Hk]%list_elem_of_lookup.
      destruct (Hts _ _ Hk) as [[v ->]| ->]; auto. }
    split; simpl; rewrite ?(Hnew held), ?(Hnew owed), ?(Hnew returned), ?Ha, ?Hg, ?Htot;
      try done; try lia.
    intros k ctx n doc i chunk Hk. by destruct (Hts _ _ Hk) as [[v ?]|?].
  - destruct (tasks s !! p) as [[url| | |]|] eqn:Hp; try done.
    unfold page_arrived in Hstep.
    destruct r as [html|];
      [destruct (getLocalFilePath url (baseUrl s) (tempDir s)) as [lfp|]|].
    + match type of Hstep with context [asset_loop ?c ?n ?d ?k ?g s] =>
        pose proof (asset_loop_ledger p (PFetching url) c n d k g s Hp) as Hx;
        destruct (asset_loop c n d k g s) as [t s1] end.
      simplify_eq. apply Hx; simpl; [by right|done|lia|done].
    + simplify_eq. apply (ledger_put p (PFetching url) _ s); simpl; try done; lia.
    + simplify_eq. apply (ledger_put p (PFetching url) _ s); simpl; try done; lia.
  - destruct (tasks s !! p) as [[|ctx pageSize doc i chunk| |]|] eqn:Hp; try done.
    destruct (chunk !! a) as [[|asset assetPath k|]|] eqn:Ha; try done.
    pose proof (sumN_insert settled_size chunk a (AFetching asset assetPath k)) as Hins.
    pose proof (K _ _ _ _ _ _ Hp) as Hsize.
    unfold asset_arrived in Hstep.
    destruct (downloadAsset_iteration _ _ _ _) eqn:Hit; simpl in Hstep.
    + assert ((localize_asset ctx asset assetPath assetSize doc).1 ≤ assetSize)%N as Hle.
      { unfold localize_asset. destruct (encodeURI _); simpl; lia. }
      destruct (localize_asset _ _ _ _ _) as [n doc']. simplify_eq. simpl in Hle.
      specialize (Hins (ASettled n) Ha). simpl in Hins.
      apply (ledger_put p _ _ s _ Hp); simpl; try done;
        rewrite ?saved_asset_bytes_snoc, ?saved_page_bytes_snoc; try lia.
      by intros ????? [= <- <- _ _ _].
    + simplify_eq. specialize (Hins (ASettled 0) Ha). simpl in Hins.
      apply (ledger_put p _ _ s _ Hp); simpl; try done; try lia.
      by intros ????? [= <- <- _ _ _].
    + simplify_eq. specialize (Hins (ASleeping asset assetPath k) Ha). simpl in Hins.
      apply (ledger_put p _ _ s _ Hp); simpl; try done;
        rewrite ?saved_asset_bytes_snoc, ?saved_page_bytes_snoc; try lia.
      by intros ????? [= <- <- _ _ _].
  - destruct (tasks s !! p) as [[|ctx pageSize doc i chunk| |]|] eqn:Hp; try done.
    destruct (chunk !! a) as [[| |asset assetPath k]|] eqn:Ha; try done.
    pose proof (sumN_insert settled_size chunk a (ASleeping asset assetPath k)) as Hins.
    pose proof (K _ _ _ _ _ _ Hp) as Hsize.
    unfold asset_woke in Hstep. destruct (S k <? default_retries).
    + simplify_eq. specialize (Hins (AFetching asset assetPath (S k)) Ha). simpl in Hins.
      apply (ledger_put p _ _ s _ Hp); simpl; try done;
        rewrite ?saved_asset_bytes_snoc, ?saved_page_bytes_snoc; try lia.
      by intros ????? [= <- <- _ _ _].
    + assert ((localize_asset ctx asset assetPath 0 doc).1 = 0)%N as Hle.
      { unfold localize_asset. by destruct (encodeURI _). }
      destruct (localize_asset _ _ _ _ _) as [n doc']. simplify_eq. simpl in Hle. subst n.
      specialize (Hins (ASettled 0) Ha). simpl in Hins.
      apply (ledger_put p _ _ s _ Hp); simpl; try done; try lia.
      by intros ????? [= <- <- _ _ _].
  - destruct (tasks s !! p) as [[|ctx pageSize doc i chunk| |]|] eqn:Hp; try done.
    destruct (forallb asset_settled chunk); try done.
    pose proof (K _ _ _ _ _ _ Hp) as Hsize.
    match type of Hstep with context [asset_loop ?c ?n ?d ?k ?g s] =>
      pose proof (asset_loop_ledger p _ c n d k g s Hp) as Hx;
      destruct (asset_loop c n d k g s) as [t s1] end.
    simplify_eq. apply Hx; simpl; [left|done| |done].
    + split; [|done]. rewrite foldl_add_sumN.
      change (map settled_size chunk) with (settled_size <$> chunk). lia.
    + rewrite foldl_add_sumN. lia.
  - destruct (tasks s !! p) as [[| |pageSize|]|] eqn:Hp; try done. simplify_eq.
    pose proof (sumN_insert held (tasks s) p (PReturned pageSize) PFinished Hp).
    pose proof (sumN_insert owed (tasks s) p (PReturned pageSize) PFinished Hp).
    pose proof (sumN_insert returned (tasks s) p (PReturned pageSize) PFinished Hp).
    assert (trace (page_returned pageSize s) = trace s) as Htr.
    { unfold page_returned. simpl. by repeat case_match. }
    split; simpl in *; rewrite ?page_returned_tasks, ?page_returned_total, ?Htr.
    + lia.
    + lia.
    + intros q ctx n doc i chunk Hq. destruct (decide (q = p)) as [->|Hne].
      * by apply list_lookup_insert_Some in Hq as [(_ & ? & _)|[? _]].
      * rewrite list_lookup_insert_ne in Hq by done. by eapply K.
Qed.

Lemma reachable_ledger_inv targetUrl tempDir s :
  reachable targetUrl tempDir s → ledger_inv s.
Proof.
  apply (reachable_invariant ledger_inv); [|apply step_ledger_inv].
  intros t d s0. unfold start. repeat case_match; simpl; intros; simplify_eq.
  split; simpl; try done; intros p; by destruct p.
Qed.

End Ledger.

(** ** Localized assets *)

Section Localized.
Context {Pf : Platform}.

Lemma NoDup_omap_key {A B} (g : nat * A → option B) (key : B → nat)
    (l : list (nat * A)) :
  NoDup l.*1 → (∀ x y, g x = Some y → key y = x.1) → NoDup (key <$> omap g l).
Proof.
  intros Hnd Hkey. induction l as [|x l IH]; csimpl; [constructor|].
  apply NoDup_cons in Hnd as [Hx Hnd]. specialize (IH Hnd).
  destruct (g x) as [y|] eqn:Hg; csimpl; [|done].
  constructor; [|done]. intros (y' & Hy' & Hin)%list_elem_of_fmap.
  apply list_elem_of_omap in Hin as (x' & Hx' & Hg').
  apply Hx, list_elem_of_fmap. exists x'. split; [|done].
  rewrite <- (Hkey _ _ Hg), <- (Hkey _ _ Hg'). done.
Qed.

(** An element contributes one asset at most. *)
Lemma collect_assets_inj url doc n m a b :
  collect_assets url doc !! n = Some a → collect_assets url doc !! m = Some b →
  asset_element a = asset_element b → n = m.
Proof.
  intros Hn Hm Heq.
  assert (NoDup (asset_element <$> collect_assets url doc)) as Hnd.
  { unfold collect_assets. apply NoDup_omap_key.
    - rewrite fmap_imap.
      rewrite (imap_ext _ (fun j _ => id j)) by done.
      rewrite imap_seq_0, list_fmap_id. apply NoDup_seq.
    - intros [i el] y. simpl. destruct (is_asset_element el); [|done].
      intros Hy. by destruct (asset_of_element_no_data _ _ _ _ Hy). }
  eapply NoDup_lookup; [done|..].
  - by rewrite list_lookup_fmap, Hn.
  - rewrite list_lookup_fmap, Hm. simpl. by rewrite Heq.
Qed.

Lemma localized_mono s s' url lfp j el el' :
  baseHost s' = baseHost s → tempDir s' = tempDir s →
  (∀ e, e ∈ trace s → e ∈ trace s') →
  localized s url lfp j el el' → localized s' url lfp j el el'.
Proof.
  intros H T Htr [->|(a & assetPath & size & v & Hsel & Ha & Hp & Hin & Hv & ->)]; [by left|].
  right. exists a, assetPath, size, v. rewrite H, T. split_and!; auto.
Qed.

Lemma localized_tag s url lfp j el el' :
  localized s url lfp j el el' → tag el' = tag el.
Proof.
  intros [->|(a & assetPath & size & v & _ & _ & _ & _ & _ & ->)]; [done|].
  by destruct (asset_attr a).
Qed.

Lemma page_task_local_mono s s' t :
  baseHost s' = baseHost s → tempDir s' = tempDir s →
  (∀ e, e ∈ trace s → e ∈ trace s') →
  page_task_local s t → page_task_local s' t.
Proof.
  intros H T Htr. destruct t as [|ctx pageSize doc i chunk| |]; try done.
  intros (T1 & T3 & T4). split_and!; [|done|].
  - intros idx t a assetPath Hidx Ht. rewrite H, T. by eapply T1.
  - intros j el Hj. destruct (T4 j el Hj) as (el' & Hdoc & Hloc).
    exists el'. split; [done|]. by eapply localized_mono.
Qed.

Lemma effect_local_mono s s' e :
  baseHost s' = baseHost s → tempDir s' = tempDir s →
  (∀ e, e ∈ trace s → e ∈ trace s') →
  effect_local s e → effect_local s' e.
Proof.
  intros H T Htr. destruct e as [| | | |assetPath size|url body lfp doc']; try done; simpl.
  - intros (Hsize & u & k & Hin & Hp). split; [done|]. exists u, k. rewrite H, T. auto.
  - intros He j el Hj Hel. destruct (He j el Hj Hel) as (el' & Hdoc & Hloc).
    exists el'. split; [done|]. by eapply localized_mono.
Qed.

(** The tasks of a chunk that starts stand at the positions of their
    assets and hold their local files. *)
Lemma start_assets_local chunk s idx t a assetPath :
  (start_assets chunk s).1 !! idx = Some t →
  asset_task_path t = Some (a, assetPath) →
  chunk !! idx = Some a ∧
  assetLocalPath (asset_url a) (baseHost s) (tempDir s) = Some assetPath.
Proof.
  revert s idx. induction chunk as [|a0 rest IH]; intros s idx; simpl; [done|].
  pose proof (start_asset_frame a0 s) as F.
  assert (∀ b p, asset_task_path (start_asset a0 s).1 = Some (b, p) →
            b = a0 ∧ assetLocalPath (asset_url a0) (baseHost s) (tempDir s) = Some p) as H0.
  { unfold start_asset. case_bool_decide; [done|].
    destruct (assetLocalPath _ _ _) as [p0|]; simpl; [|done]. by intros b p [= <- <-]. }
  destruct (start_asset a0 s) as [t0 s1]. specialize (IH s1).
  destruct (start_assets rest s1) as [ts s2]. simpl in *.
  destruct idx as [|idx]; simpl.
  - intros [= <-] Ht. by destruct (H0 _ _ Ht) as [-> ?].
  - intros Hidx Ht. destruct (IH idx Hidx Ht) as [? Hp]. split; [done|].
    by rewrite <- (lf_baseHost _ _ F), <- (lf_tempDir _ _ F).
Qed.

Lemma claims_trace s s' : claims s s' → ∀ e, e ∈ trace s → e ∈ trace s'.
Proof. intros (_ & _ & new & -> & _) e He. apply elem_of_app. by left. Qed.

(** The task the asset loop makes at index [i] of a page whose elements
    from [i] on are as they were parsed. *)
Lemma asset_loop_local ctx pageSize doc i fs_ok s :
  (∀ n a, assets ctx !! n = Some a → i ≤ n →
          doc !! asset_element a = dom (page_html ctx) !! asset_element a) →
  (∀ j el, dom (page_html ctx) !! j = Some el →
           ∃ el', doc !! j = Some el' ∧
                  localized s (page_url ctx) (localFilePath ctx) j el el') →
  page_task_local (asset_loop ctx pageSize doc i fs_ok s).2
                  (asset_loop ctx pageSize doc i fs_ok s).1.
Proof.
  intros T3 T4. unfold asset_loop. case_match.
  - pose proof (start_assets_local (take MAX_CONCURRENT_DOWNLOADS (drop i (assets ctx))) s)
      as Hts.
    pose proof (start_assets_frame (take MAX_CONCURRENT_DOWNLOADS (drop i (assets ctx))) s)
      as F.
    pose proof (start_assets_claims (take MAX_CONCURRENT_DOWNLOADS (drop i (assets ctx))) s)
      as Hc.
    destruct (start_assets _ s) as [ts s1]. simpl in *. split_and!.
    + intros idx t a assetPath Hidx Ht.
      destruct (Hts idx t a assetPath Hidx Ht) as [Hch Hp].
      rewrite (lf_baseHost _ _ F), (lf_tempDir _ _ F). split; [|done].
      apply lookup_take_Some in Hch as [Hch _]. by rewrite lookup_drop in Hch.
    + intros n a Hn Hi _. by eapply T3.
    + intros j el Hj. destruct (T4 j el Hj) as (el' & Hdoc & Hloc).
      exists el'. split; [done|].
      eapply localized_mono; [apply (lf_baseHost _ _ F)|apply (lf_tempDir _ _ F)| |done].
      by apply claims_trace.
  - unfold finish_page. destruct (rewrite_links ctx doc s). by destruct fs_ok.
Qed.

(** An asset task goes on with its asset. *)
Lemma chunk_keep_local s ctx pageSize doc i chunk idx t0 t1 :
  chunk !! idx = Some t0 →
  asset_task_path t1 = asset_task_path t0 → is_Some (asset_task_path t0) →
  page_task_local s (PAssets ctx pageSize doc i chunk) →
  page_task_local s (PAssets ctx pageSize doc i (<[idx := t1]> chunk)).
Proof.
  intros Hidx Hsame [ap Hap] (T1 & T3 & T4). split_and!; [| |done].
  - intros k t a assetPath Hk Ht. destruct (decide (k = idx)) as [->|Hne].
    + apply list_lookup_insert_Some in Hk as [(_ & <- & _)|[? _]]; [|done].
      rewrite Hsame in Ht. by eapply T1.
    + rewrite list_lookup_insert_ne in Hk by done. by eapply T1.
  - intros n a Hn Hi Hns. apply (T3 n a Hn Hi). intros size Hsz.
    destruct (decide (n - i = idx)) as [Heq|Hne].
    + rewrite Heq in Hsz. by simplify_eq.
    + apply (Hns size). by rewrite list_lookup_insert_ne.
Qed.

(** An asset task settles, with or without its element rewritten. *)
Lemma chunk_settle_local s ctx pageSize doc doc' i chunk idx t0 a0 assetPath n :
  assets ctx = collect_assets (page_url ctx) (dom (page_html ctx)) →
  chunk !! idx = Some t0 → asset_task_path t0 = Some (a0, assetPath) →
  (doc' = doc ∨
   ∃ size v,
     SaveAsset assetPath size ∈ trace s ∧
     encodeURI (JS.backslash_to_slash
                  (Path.relative (Path.dirname (localFilePath ctx)) assetPath)) = Some v ∧
     doc' = alter (set_attr (asset_attr a0) v) (asset_element a0) doc) →
  page_task_local s (PAssets ctx pageSize doc i chunk) →
  page_task_local s (PAssets ctx pageSize doc' i (<[idx := ASettled n]> chunk)).
Proof.
  intros Hassets Hidx Hap Hdoc (T1 & T3 & T4).
  destruct (T1 _ _ _ _ Hidx Hap) as [Ha0 Hp0].
  assert (∀ m a, assets ctx !! m = Some a → i ≤ m →
            (∀ size, <[idx := ASettled n]> chunk !! (m - i) ≠ Some (ASettled size)) →
            asset_element a ≠ asset_element a0 ∧
            ∀ size, chunk !! (m - i) ≠ Some (ASettled size)) as Hother.
  { intros m a Hm Hi Hns. assert (m - i ≠ idx) as Hne.
    { intros Heq. apply (Hns n). rewrite Heq. apply list_lookup_insert_eq.
      by eapply lookup_lt_Some. }
    split.
    - intros Heq. rewrite Hassets in Hm, Ha0.
      pose proof (collect_assets_inj _ _ _ _ _ _ Hm Ha0 Heq). lia.
    - intros size Hsz. apply (Hns size). by rewrite list_lookup_insert_ne. }
  split_and!.
  - intros k t a p Hk Ht. destruct (decide (k = idx)) as [->|Hne].
    + by apply list_lookup_insert_Some in Hk as [(_ & <- & _)|[? _]].
    + rewrite list_lookup_insert_ne in Hk by done. by eapply T1.
  - intros m a Hm Hi Hns. destruct (Hother m a Hm Hi Hns) as [Hne Hold].
    destruct Hdoc as [->|(size & v & _ & _ & ->)]; [by eapply T3|].
    rewrite list_lookup_alter_ne by done. by eapply T3.
  - intros j el Hj. destruct (T4 j el Hj) as (el' & Hj' & Hloc).
    destruct Hdoc as [->|(size & v & Hin & Hv & ->)]; [eauto|].
    destruct (decide (j = asset_element a0)) as [->|Hne].
    + rewrite list_lookup_alter_eq.
      assert (doc !! asset_element a0 = Some el) as Horig.
      { rewrite <- Hj. apply (T3 (i + idx) a0 Ha0); [lia|].
        replace (i + idx - i) with idx by lia. intros sz Hsz. simplify_eq. }
      rewrite Horig. simpl. eexists. split; [done|]. right.
      apply list_elem_of_lookup_2 in Ha0. rewrite Hassets in Ha0.
      apply collect_assets_elem in Ha0 as (el0 & Hj0 & Hsel & Hof). simplify_eq.
      exists a0, assetPath, size, v. by split_and!.
    + rewrite list_lookup_alter_ne by done. eauto.
Qed.

Lemma local_inv_put p t s s1 :
  baseHost s1 = baseHost s → tempDir s1 = tempDir s → tasks s1 = tasks s →
  (∀ e, e ∈ trace s → e ∈ trace s1) →
  page_task_local s1 t →
  Forall (page_task_local s) (tasks s) →
  Forall (page_task_local (put_task p t s1)) (tasks (put_task p t s1)).
Proof.
  intros H T Hts Htr Ht Hs. simpl. rewrite Hts. apply Forall_insert.
  - eapply Forall_impl; [done|]. intros t0. by apply page_task_local_mono.
  - revert Ht. by apply page_task_local_mono.
Qed.

Lemma step_tasks_local ev s s' :
  step ev s = Some s' →
  wf_inv s → bounds_inv s → ctx_inv s →
  Forall (page_task_local s) (tasks s) →
  Forall (page_task_local s') (tasks s').
Proof.
  intros Hstep [W _] [_ B _] Hctx Hs.
  destruct ev as [|p r f|p a r f|p a|p f|p]; simpl in Hstep.
  - destruct (status s); try done.
    destruct (forallb page_finished (tasks s)) eqn:Hall; simplify_eq.
    apply Forall_forall. intros t [q Hq]%list_elem_of_lookup.
    unfold next_wave in Hq. destruct (urlQueue s) as [|v w].
    + simpl in Hq. apply (forallb_lookup _ _ _ _ Hall) in Hq. by destruct t.
    + pose proof (start_pages_fields (take CHUNK_SIZE (v :: w))
                    (set_urlQueue (drop CHUNK_SIZE (v :: w)) s)) as H.
      destruct (start_pages _ _) as [ts s1]. simpl in *.
      destruct H as (_ & _ & H). by destruct (H _ _ Hq) as [[? ->]| ->].
  - destruct (tasks s !! p) as [[url| | |]|] eqn:Hp; try done.
    unfold page_arrived in Hstep.
    destruct r as [html|];
      [destruct (getLocalFilePath url (baseUrl s) (tempDir s)) as [lfp|]|].
    + match type of Hstep with context [asset_loop ?c ?n ?d ?k ?g s] =>
        pose proof (asset_loop_local c n d k g s) as Hx;
        pose proof (asset_loop_frame c n d k g s) as F;
        pose proof (asset_loop_claims c n d k g s) as Hc;
        destruct (asset_loop c n d k g s) as [t s1] end.
      simplify_eq. simpl in *.
      apply (local_inv_put p t s s1); [by destruct F..|by apply claims_trace| |done].
      apply Hx; [done|]. intros j el Hj. exists el. split; [done|by left].
    + simplify_eq. by apply (local_inv_put p _ s s).
    + simplify_eq. by apply (local_inv_put p _ s s).
  - destruct (tasks s !! p) as [[|ctx pageSize doc i chunk| |]|] eqn:Hp; try done.
    destruct (chunk !! a) as [[|asset assetPath k|]|] eqn:Ha; try done.
    pose proof (Forall_lookup_1 _ _ _ _ Hs Hp) as Hloc.
    pose proof (Forall_lookup_1 _ _ _ _ W Hp) as (Hassets & _ & _).
    destruct (Hctx _ _ _ _ _ _ Hp) as (_ & Hdir & _).
    unfold asset_arrived in Hstep.
    destruct (downloadAsset_iteration _ _ _ _) eqn:Hit; simpl in Hstep.
    + unfold localize_asset in Hstep. rewrite Hdir in Hstep.
      destruct (encodeURI _) as [v|] eqn:Hv; simplify_eq.
      * apply (local_inv_put p _ s (emit (SaveAsset assetPath assetSize) s));
          [done..|intros e He; apply elem_of_app; by left| |done].
        apply (chunk_settle_local _ _ _ doc _ _ _ _ (AFetching asset assetPath k)
                 asset assetPath); [done..| |].
        -- right. exists assetSize, v. split_and!; [|done..].
           apply elem_of_app. right. by apply list_elem_of_singleton.
        -- revert Hloc. apply page_task_local_mono; [done..|].
           intros e He. apply elem_of_app. by left.
      * apply (local_inv_put p _ s (emit (SaveAsset assetPath assetSize) s));
          [done..|intros e He; apply elem_of_app; by left| |done].
        apply (chunk_settle_local _ _ _ doc _ _ _ _ (AFetching asset assetPath k)
                 asset assetPath); [done..|by left|].
        revert Hloc. apply page_task_local_mono; [done..|].
        intros e He. apply elem_of_app. by left.
    + simplify_eq. apply (local_inv_put p _ s s); [done..| |done].
      by apply (chunk_settle_local _ _ _ doc _ _ _ _ (AFetching asset assetPath k)
                  asset assetPath); [..|left|].
    + simplify_eq. apply (local_inv_put p _ s (emit (Sleep ms) s));
        [done..|intros e He; apply elem_of_app; by left| |done].
      apply (chunk_keep_local _ _ _ _ _ _ _ (AFetching asset assetPath k)); [done..|by eexists|].
      revert Hloc. apply page_task_local_mono; [done..|].
      intros e He. apply elem_of_app. by left.
  - destruct (tasks s !! p) as [[|ctx pageSize doc i chunk| |]|] eqn:Hp; try done.
    destruct (chunk !! a) as [[| |asset assetPath k]|] eqn:Ha; try done.
    pose proof (Forall_lookup_1 _ _ _ _ Hs Hp) as Hloc.
    pose proof (Forall_lookup_1 _ _ _ _ B Hp) as [_ Hb].
    pose proof (Forall_lookup_1 _ _ _ _ Hb Ha) as Hk. simpl in Hk.
    unfold asset_woke in Hstep.
    assert ((S k <? default_retries) = true) as Hlt by by apply Nat.ltb_lt.
    rewrite Hlt in Hstep. simplify_eq.
    apply (local_inv_put p _ s (emit (GetAsset (asset_url asset) (S k)) s));
      [done..|intros e He; apply elem_of_app; by left| |done].
    apply (chunk_keep_local _ _ _ _ _ _ _ (ASleeping asset assetPath k)); [done..|by eexists|].
    revert Hloc. apply page_task_local_mono; [done..|].
    intros e He. apply elem_of_app. by left.
  - destruct (tasks s !! p) as [[|ctx pageSize doc i chunk| |]|] eqn:Hp; try done.
    destruct (forallb asset_settled chunk); try done.
    pose proof (Forall_lookup_1 _ _ _ _ Hs Hp) as (T1 & T3 & T4).
    pose proof (Forall_lookup_1 _ _ _ _ B Hp) as [Hlen _].
    match type of Hstep with context [asset_loop ?c ?n ?d ?k ?g s] =>
      pose proof (asset_loop_local c n d k g s) as Hx;
      pose proof (asset_loop_frame c n d k g s) as F;
      pose proof (asset_loop_claims c n d k g s) as Hc;
      destruct (asset_loop c n d k g s) as [t s1] end.
    simplify_eq. simpl in *.
    apply (local_inv_put p t s s1); [by destruct F..|by apply claims_trace| |done].
    apply Hx; [|done]. intros n a0 Hn Hi. apply (T3 n a0 Hn); [lia|].
    intros size Hsz. apply lookup_lt_Some in Hsz.
    rewrite Hlen, length_take in Hsz. lia.
  - destruct (tasks s !! p) as [[| |pageSize|]|] eqn:Hp; try done. simplify_eq.
    assert (trace (page_returned pageSize s) = trace s) as Htr.
    { unfold page_returned. simpl. by repeat case_match. }
    apply (local_inv_put p _ s); try done;
      try (unfold page_returned; simpl; by repeat case_match).
Qed.

Lemma localized_not_anchor s url lfp j el el' :
  is_anchor_element el = false → localized s url lfp j el el' →
  is_anchor_element el' = false.
Proof.
  intros Hel [->|(a & assetPath & size & v & Hsel & _ & _ & _ & _ & ->)]; [done|].
  unfold is_asset_element in Hsel. unfold is_anchor_element.
  destruct (asset_attr a); simpl; by destruct (tag el).
Qed.

Lemma step_trace_local ev s s' :
  step ev s = Some s' →
  request_inv s → Forall (page_task_local s) (tasks s) →
  Forall (effect_local s) (trace s) → Forall (effect_local s') (trace s').
Proof.
  intros Hstep Hreq Hts Htr.
  pose proof (step_grows _ _ _ Hstep) as [_ H T _ _].
  pose proof (claims_trace _ _ (step_claims _ _ _ Hstep)) as Hsub.
  apply Forall_forall. intros e [He|He]%(step_effects _ _ _ _ Hstep).
  - apply (effect_local_mono s); [done..|]. rewrite Forall_forall in Htr. auto.
  - apply (effect_local_mono s); [done..|].
    destruct e as [| | | |assetPath size|url body lfp doc']; try done; simpl in *.
    + destruct He as (p & a & ctx & pageSize & doc & i & chunk & asset & k & Hp & Ha & Hsz).
      split; [done|]. exists (asset_url asset), k.
      destruct (Forall_lookup_1 _ _ _ _ Hts Hp) as (T1 & _ & _).
      destruct (T1 a _ asset assetPath Ha eq_refl) as [_ Hpath]. split; [|done].
      apply elem_of_asset_requests, (in_flight_sent _ Hreq p a).
      by exists ctx, pageSize, doc, i, chunk, (AFetching asset assetPath k).
    + destruct He as (p & ctx & doc & Hsav & -> & -> & -> & -> & _ & _).
      intros j el Hj Hel.
      assert (∃ el', doc !! j = Some el' ∧
                localized s (page_url ctx) (localFilePath ctx) j el el')
        as (el' & Hdoc & Hloc).
      { destruct Hsav as [(pageSize & i & chunk & Hp & _)|(_ & _ & _ & _ & _ & ->)].
        - destruct (Forall_lookup_1 _ _ _ _ Hts Hp) as (_ & _ & T4). by apply T4.
        - exists el. split; [done|by left]. }
      exists el'. split; [|done]. apply rewrite_links_lookup; [done|].
      by eapply localized_not_anchor.
Qed.

Lemma reachable_local_inv targetUrl tempDir s :
  reachable targetUrl tempDir s → local_inv s.
Proof.
  intros Hr.
  assert (wf_inv s ∧ bounds_inv s ∧ ctx_inv s ∧ request_inv s ∧ local_inv s)
    as (_ & _ & _ & _ & H); [|done].
  revert Hr.
  apply (reachable_invariant
           (fun s => wf_inv s ∧ bounds_inv s ∧ ctx_inv s ∧ request_inv s ∧ local_inv s)).
  - intros t d s0 Hs0.
    assert (reachable t d s0) as Hr0 by (exists s0, []; by split).
    split_and!;
      [by eapply reachable_wf_inv|by eapply reachable_bounds_inv
      |by eapply reachable_ctx_inv|by eapply reachable_request_inv|].
    revert Hs0. unfold start. repeat case_match; simpl; intros; simplify_eq.
    split; simpl; by repeat constructor.
  - intros ev s1 s2 Hstep (Hw & Hb & Hc & Hq & [Ht He]).
    split_and!; [by eapply step_wf_inv|by eapply step_bounds_inv|by eapply step_ctx_inv
                |by eapply step_request_inv|].
    split; [by eapply step_tasks_local|by eapply step_trace_local].
Qed.

End Localized.

(** ** Pages at work and pages written *)

Section Saves.
Context {Pf : Platform}.

Lemma saved_urls_snoc tr e :
  saved_urls (tr ++ [e]) =
  saved_urls tr ++ match e with SavePage url _ _ _ => [url] | _ => [] end.
Proof. unfold saved_urls. rewrite omap_app. by destruct e. Qed.

Lemma start_assets_saves chunk s :
  saved_urls (trace (start_assets chunk s).2) = saved_urls (trace s).
Proof.
  revert s. induction chunk as [|a rest IH]; intros s; simpl; [done|].
  assert (saved_urls (trace (start_asset a s).2) = saved_urls (trace s)) as Ha.
  { unfold start_asset. case_bool_decide; [done|].
    destruct (assetLocalPath _ _ _); simpl; [|done].
    by rewrite saved_urls_snoc, app_nil_r. }
  destruct (start_asset a s) as [t s1]. specialize (IH s1).
  destruct (start_assets rest s1) as [ts s2]. simpl in *. congruence.
Qed.

(** The asset loop stays with its page, or ends with the page written
    or dropped. *)
Lemma asset_loop_saves ctx pageSize doc i fs_ok s :
  let r := asset_loop ctx pageSize doc i fs_ok s in
  (page_task_url r.1 = Some (page_url ctx) ∧
   saved_urls (trace r.2) = saved_urls (trace s))
  ∨ (page_task_url r.1 = None ∧
     (saved_urls (trace r.2) = saved_urls (trace s) ∨
      saved_urls (trace r.2) = saved_urls (trace s) ++ [page_url ctx])).
Proof.
  unfold asset_loop. case_match.
  - pose proof (start_assets_saves (take MAX_CONCURRENT_DOWNLOADS (drop i (assets ctx))) s).
    destruct (start_assets _ s) as [ts s1]. simpl in *. by left.
  - right. unfold finish_page. pose proof (rewrite_links_fields ctx doc s) as [_ Ht].
    destruct (rewrite_links ctx doc s) as [doc' s1]. simpl in *.
    destruct fs_ok; simpl; rewrite Ht; [|by auto].
    split; [done|]. right. by rewrite saved_urls_snoc.
Qed.

Lemma working_put p t s1 s q u :
  tasks s1 = tasks s →
  working (put_task p t s1) q u →
  (q = p ∧ page_task_url t = Some u) ∨ (q ≠ p ∧ working s q u).
Proof.
  intros Ht (t' & Hq & Hu). simpl in Hq. rewrite Ht in Hq.
  destruct (decide (q = p)) as [->|Hne].
  - left. split; [done|].
    by apply list_lookup_insert_Some in Hq as [(_ & -> & _)|[? _]].
  - right. split; [done|]. rewrite list_lookup_insert_ne in Hq by done. by exists t'.
Qed.

(** Task [p], at work on [u], goes on with [u], or ends, with or without
    [u] written. *)
Lemma saves_inv_put p u t s s1 :
  working s p u →
  tasks s1 = tasks s → visitedUrls s1 = visitedUrls s →
  (page_task_url t = Some u ∧ saved_urls (trace s1) = saved_urls (trace s))
  ∨ (page_task_url t = None ∧
     (saved_urls (trace s1) = saved_urls (trace s) ∨
      saved_urls (trace s1) = saved_urls (trace s) ++ [u])) →
  saves_inv s → saves_inv (put_task p t s1).
Proof.
  intros Hw Ht Hv Hcase [I1 I2 I3 I4 I5].
  pose proof (fun q v => working_put p t s1 s q v Ht) as Hput.
  assert (∀ v, page_task_url t = Some v → v = u) as Hsame.
  { intros v Hu. destruct Hcase as [[Hu' _]|[Hu' _]]; congruence. }
  split; simpl; rewrite ?Hv.
  - destruct Hcase as [[_ ->]|[_ [->| ->]]]; [done..|].
    apply NoDup_app. split_and!; [done| |apply NoDup_singleton].
    intros v Hin ->%list_elem_of_singleton. by eapply I4.
  - intros v Hin. destruct Hcase as [[_ Hs]|[_ [Hs|Hs]]]; rewrite Hs in Hin; [by apply I2..|].
    apply elem_of_app in Hin as [?| ->%list_elem_of_singleton]; [by apply I2|by eapply I3].
  - intros q v [[-> ->%Hsame]|[_ Hq]]%Hput; by eapply I3.
  - intros q v Hq Hin. destruct (Hput q v Hq) as [[-> Hu]|[Hne Hq']].
    + destruct Hcase as [[Hu' Hs]|[Hu' _]]; [|congruence].
      rewrite Hs in Hin. assert (v = u) as -> by congruence. by eapply I4.
    + destruct Hcase as [[_ Hs]|[_ [Hs|Hs]]]; rewrite Hs in Hin; [by eapply I4..|].
      apply elem_of_app in Hin as [?| ->%list_elem_of_singleton]; [by eapply I4|].
      by destruct (I5 _ _ _ Hq' Hw).
  - intros q q' v [[-> Hu]|[Hne Hq]]%Hput [[-> Hu']|[Hne' Hq']]%Hput.
    + done.
    + apply Hsame in Hu as ->. by destruct (I5 _ _ _ Hq' Hw).
    + apply Hsame in Hu' as ->. by destruct (I5 _ _ _ Hq Hw).
    + by eapply I5.
Qed.

(** A wave puts new, distinct URLs to work. *)
Lemma start_pages_saves chunk s :
  let ts := (start_pages chunk s).1 in
  let s' := (start_pages chunk s).2 in
  visitedUrls s ⊆ visitedUrls s' ∧
  saved_urls (trace s') = saved_urls (trace s) ∧
  (∀ k t u, ts !! k = Some t → page_task_url t = Some u →
     (u ∉ visitedUrls s) ∧ u ∈ visitedUrls s') ∧
  (∀ k k' t t' u, ts !! k = Some t → ts !! k' = Some t' →
     page_task_url t = Some u → page_task_url t' = Some u → k = k').
Proof.
  revert s. induction chunk as [|v rest IH]; intros s; simpl.
  { split_and!; [done..| |]; intros *; by rewrite lookup_nil. }
  assert (let t := (start_page v s).1 in
          let s1 := (start_page v s).2 in
          visitedUrls s ⊆ visitedUrls s1 ∧
          saved_urls (trace s1) = saved_urls (trace s) ∧
          (∀ u, page_task_url t = Some u → (u ∉ visitedUrls s) ∧ u ∈ visitedUrls s1))
    as Hone.
  { unfold start_page. case_bool_decide as Hin; simpl; [done|].
    rewrite saved_urls_snoc, app_nil_r. split_and!; [apply union_subseteq_r|done|].
    intros u [= <-]. split; [done|]. apply elem_of_union. left. by apply elem_of_singleton. }
  destruct (start_page v s) as [t s1]. simpl in Hone. destruct Hone as (Hsub1 & Hs1 & Hk1).
  specialize (IH s1). destruct (start_pages rest s1) as [ts s2]. simpl in *.
  destruct IH as (Hsub2 & Hs2 & Hk2 & Hu2). split_and!.
  - by etrans.
  - congruence.
  - intros [|k] t' u Hk Hu; simpl in Hk.
    + simplify_eq. destruct (Hk1 u Hu) as [Hn Hin]. split; [done|by apply Hsub2].
    + destruct (Hk2 k t' u Hk Hu) as [Hn Hin]. split; [|done].
      intros Hin'. by apply Hn, Hsub1.
  - intros [|k] [|k'] t1 t2 u H1 H2 U1 U2; simpl in H1, H2; simplify_eq.
    + done.
    + destruct (Hk1 u U1) as [_ Hin]. by destruct (Hk2 k' t2 u H2 U2) as [Hn _].
    + destruct (Hk1 u U2) as [_ Hin]. by destruct (Hk2 k t1 u H1 U1) as [Hn _].
    + f_equal. by eapply Hu2.
Qed.

Lemma step_saves_inv ev s s' : step ev s = Some s' → saves_inv s → saves_inv s'.
Proof.
  intros Hstep Hs. pose proof Hs as [I1 I2 I3 I4 I5].
  destruct ev as [|p r f|p a r f|p a|p f|p]; simpl in Hstep.
  - destruct (status s); try done.
    destruct (forallb page_finished (tasks s)) eqn:Hall; simplify_eq.
    assert (∀ q u, ¬ working s q u) as Hidle.
    { intros q u (t & Hq & Hu). apply (forallb_lookup _ _ _ _ Hall) in Hq. by destruct t. }
    unfold next_wave. destruct (urlQueue s) as [|v w].
    { split; simpl; try done; intros *; intros (t & Hq & Hu);
        by destruct (Hidle _ _ (ex_intro _ t (conj Hq Hu))). }
    pose proof (start_pages_saves (take CHUNK_SIZE (v :: w))
                  (set_urlQueue (drop CHUNK_SIZE (v :: w)) s)) as H.
    destruct (start_pages _ _) as [ts s1]. simpl in *.
    destruct H as (Hsub & Hsv & Hk & Hu).
    split; simpl; rewrite ?Hsv.
    + done.
    + intros u Hin. by apply Hsub, I2.
    + intros q u (t & Hq & Hqu). by destruct (Hk _ _ _ Hq Hqu).
    + intros q u (t & Hq & Hqu) Hin. destruct (Hk _ _ _ Hq Hqu) as [Hn _]. by apply Hn, I2.
    + intros q q' u (t & Hq & Hqu) (t' & Hq' & Hqu'). by eapply Hu.
  - destruct (tasks s !! p) as [[url| | |]|] eqn:Hp; try done.
    assert (working s p url) as Hw by by exists (PFetching url).
    unfold page_arrived in Hstep.
    destruct r as [html|];
      [destruct (getLocalFilePath url (baseUrl s) (tempDir s)) as [lfp|]|].
    + match type of Hstep with context [asset_loop ?c ?n ?d ?k ?g s] =>
        pose proof (asset_loop_saves c n d k g s) as Hx;
        pose proof (asset_loop_frame c n d k g s) as F;
        destruct (asset_loop c n d k g s) as [t s1] end.
      simplify_eq. simpl in *. apply (saves_inv_put p url _ s); [done|by destruct F..|done|done].
    + simplify_eq. apply (saves_inv_put p url _ s); try done. right. auto.
    + simplify_eq. apply (saves_inv_put p url _ s); try done. right. auto.
  - destruct (tasks s !! p) as [[|ctx pageSize doc i chunk| |]|] eqn:Hp; try done.
    destruct (chunk !! a) as [[|asset assetPath k|]|] eqn:Ha; try done.
    assert (working s p (page_url ctx)) as Hw by by eexists.
    pose proof (asset_arrived_frame ctx asset assetPath k r f doc s) as F.
    assert (saved_urls (trace (asset_arrived ctx asset assetPath k r f doc s).2)
            = saved_urls (trace s)) as Hsv.
    { unfold asset_arrived. destruct (downloadAsset_iteration _ _ _ _); simpl.
      - destruct (localize_asset _ _ _ _ _). simpl. by rewrite saved_urls_snoc, app_nil_r.
      - done.
      - by rewrite saved_urls_snoc, app_nil_r. }
    destruct (asset_arrived _ _ _ _ _ _ _ _) as [[t doc'] s1]. simplify_eq. simpl in *.
    apply (saves_inv_put p (page_url ctx) _ s); [done|by destruct F..|by left|done].
  - destruct (tasks s !! p) as [[|ctx pageSize doc i chunk| |]|] eqn:Hp; try done.
    destruct (chunk !! a) as [[| |asset assetPath k]|] eqn:Ha; try done.
    assert (working s p (page_url ctx)) as Hw by by eexists.
    pose proof (asset_woke_frame ctx asset assetPath k doc s) as F.
    assert (saved_urls (trace (asset_woke ctx asset assetPath k doc s).2)
            = saved_urls (trace s)) as Hsv.
    { unfold asset_woke. destruct (S k <? default_retries); simpl.
      - by rewrite saved_urls_snoc, app_nil_r.
      - by destruct (localize_asset _ _ _ _ _). }
    destruct (asset_woke _ _ _ _ _ _) as [[t doc'] s1]. simplify_eq. simpl in *.
    apply (saves_inv_put p (page_url ctx) _ s); [done|by destruct F..|by left|done].
  - destruct (tasks s !! p) as [[|ctx pageSize doc i chunk| |]|] eqn:Hp; try done.
    destruct (forallb asset_settled chunk); try done.
    assert (working s p (page_url ctx)) as Hw by by eexists.
    match type of Hstep with context [asset_loop ?c ?n ?d ?k ?g s] =>
      pose proof (asset_loop_saves c n d k g s) as Hx;
      pose proof (asset_loop_frame c n d k g s) as F;
      destruct (asset_loop c n d k g s) as [t s1] end.
    simplify_eq. simpl in *.
    apply (saves_inv_put p (page_url ctx) _ s); [done|by destruct F..|done|done].
  - destruct (tasks s !! p) as [[| |pageSize|]|] eqn:Hp; try done. simplify_eq.
    assert (visitedUrls (page_returned pageSize s) = visitedUrls s ∧
            trace (page_returned pageSize s) = trace s) as [Hv Htr].
    { unfold page_returned. simpl. by repeat case_match. }
    pose proof (fun q v => working_put p PFinished (page_returned pageSize s) s q v
                             (page_returned_tasks pageSize s)) as Hput.
    split; simpl; rewrite ?Hv, ?Htr; try done.
    + intros q u [[_ ?]|[_ Hq]]%Hput; [done|by eapply I3].
    + intros q u [[_ ?]|[_ Hq]]%Hput; [done|by eapply I4].
    + intros q q' u [[_ ?]|[_ Hq]]%Hput [[_ ?]|[_ Hq']]%Hput; try done. by eapply I5.
Qed.

Lemma reachable_saves_inv targetUrl tempDir s :
  reachable targetUrl tempDir s → saves_inv s.
Proof.
  apply (reachable_invariant saves_inv); [|apply step_saves_inv].
  intros t d s0. unfold start. repeat case_match; simpl; intros; simplify_eq.
  split; simpl; try apply NoDup_nil_2; try (intros *; by rewrite elem_of_nil);
    intros * (? & Hq & _); by destruct p.
Qed.

End Saves.

(** ** Asset discovery *)

Section Discovery.
Context {Pf : Platform}.

Lemma collect_assets_complete url doc j el a :
  doc !! j = Some el → is_asset_element el = true →
  asset_of_element url j el = Some a → a ∈ collect_assets url doc.
Proof.
  intros Hj Hsel Ha. unfold collect_assets. apply list_elem_of_omap.
  exists (j, el). split; [|by rewrite Hsel].
  apply list_elem_of_lookup. exists j. by rewrite list_lookup_imap, Hj.
Qed.

(** The assets of a document come in the order of their elements. *)
Lemma collect_from_sorted url (k : nat) (doc : list Element) :
  let l := omap (fun '(i, el) =>
                   if is_asset_element el then asset_of_element url i el else None)
                (imap (fun i el => (k + i, el)) doc) in
  (∀ a, a ∈ l → k ≤ asset_element a) ∧
  (∀ n m a b, l !! n = Some a → l !! m = Some b → n < m →
              asset_element a < asset_element b).
Proof.
  revert k. induction doc as [|el doc IH]; intros k; simpl.
  { split; [intros a Ha; by apply elem_of_nil in Ha|intros *; by rewrite lookup_nil]. }
  rewrite (imap_ext _ (fun i el => (S k + i, el))) by (intros; simpl; f_equal; lia).
  destruct (IH (S k)) as [Hlow Hsort]. replace (k + 0) with k by lia.
  destruct (if is_asset_element el then asset_of_element url k el else None)
    as [a0|] eqn:Ha0.
  - assert (asset_element a0 = k) as Hk.
    { destruct (is_asset_element el); [|done].
      by destruct (asset_of_element_no_data _ _ _ _ Ha0). }
    split.
    + intros a [->|Ha%Hlow]%elem_of_cons; lia.
    + intros [|n] [|m] a b Hn Hm Hlt; simpl in Hn, Hm; simplify_eq; try lia.
      * apply list_elem_of_lookup_2, Hlow in Hm. lia.
      * eapply Hsort; [done..|lia].
  - split; [|done]. intros a Ha%Hlow. lia.
Qed.

End Discovery.


(** ** Normalized URLs *)

Section Keys.
Context {Pf : Platform}.

(** A site key is its own normalized form. *)
Lemma site_key_normal (base u : string) : site_key base u → link_key u = u.
Proof.
  intros (_ & Hq & Hf). unfold link_key.
  rewrite (split_head_id "#" u) by done. by apply split_head_id.
Qed.

(** Every URL a job knows is the target or a site key. *)
Lemma reachable_known_keys (targetUrl dir : string) (s : Job) :
  reachable targetUrl dir s →
  ∀ u, known s u → u = targetUrl ∨ site_key (baseUrl s) u.
Proof.
  intros (s0 & evs & Hs0 & Hrun) u Hk.
  pose proof (run_grows _ _ _ Hrun) as [B H T K N].
  revert Hs0. unfold start. destruct (negb (isValidWebflowUrl targetUrl)); [done|]. simpl.
  destruct (newURL targetUrl) as [u0|] eqn:Hu0; [|done]. intros [= <-]. simpl in *.
  apply N in Hk as [[Hq|Hv]|Hsite]; simpl in *.
  - left. by apply list_elem_of_singleton in Hq.
  - by apply elem_of_empty in Hv.
  - right. by rewrite B.
Qed.

Lemma reachable_fetch_inv (targetUrl dir : string) (s : Job) :
  reachable targetUrl dir s → fetch_inv s.
Proof.
  apply (reachable_invariant fetch_inv).
  - intros. by eapply start_fetch_inv.
  - apply step_fetch_inv.
Qed.

(** The page requests other than the one for the target are for
    normalized URLs. *)
Lemma reachable_page_keys (targetUrl dir : string) (s : Job) :
  reachable targetUrl dir s →
  ∀ u, u ∈ page_gets (trace s) → u = targetUrl ∨ link_key u = u.
Proof.
  intros Hr u Hu. pose proof (reachable_fetch_inv _ _ _ Hr) as [_ F2 _ _].
  destruct (reachable_known_keys _ _ _ Hr u) as [?|Hk]; [right; by apply F2|by left|].
  right. by eapply site_key_normal.
Qed.

End Keys.

(** ** Every byte counted *)

Section Audit.
Context {Pf : Platform}.

Lemma audit_put p t t' s s1 :
  tasks s !! p = Some t →
  tasks s1 = tasks s → totalSize s1 = totalSize s →
  (held t' + saved_page_bytes (trace s) + saved_asset_bytes (trace s) + owed t
   = held t + saved_page_bytes (trace s1) + saved_asset_bytes (trace s1) + owed t')%N →
  audit_inv s → audit_inv (put_task p t' s1).
Proof.
  unfold audit_inv. intros Hp Ht Hts Hu U. simpl. rewrite Ht, Hts.
  pose proof (sumN_insert held (tasks s) p t t' Hp).
  pose proof (sumN_insert owed (tasks s) p t t' Hp). lia.
Qed.

(** A page file that can be written is written, and the page counts
    in full. *)
Lemma finish_page_kept ctx pageSize doc s :
  (finish_page ctx pageSize doc true s).1 = PReturned pageSize ∧
  saved_asset_bytes (trace (finish_page ctx pageSize doc true s).2)
    = saved_asset_bytes (trace s) ∧
  saved_page_bytes (trace (finish_page ctx pageSize doc true s).2)
    = (saved_page_bytes (trace s) + byteLength (page_html ctx))%N.
Proof.
  unfold finish_page. pose proof (rewrite_links_fields ctx doc s) as [_ Ht].
  destruct (rewrite_links ctx doc s) as [doc' s1]. simpl in *. rewrite Ht.
  rewrite saved_asset_bytes_snoc, saved_page_bytes_snoc. simpl.
  split_and!; [done|lia|done].
Qed.

Lemma asset_loop_audit p t ctx pageSize doc i fs_ok s :
  tasks s !! p = Some t →
  (held t + byteLength (page_html ctx) = pageSize + owed t)%N →
  fs_ok = true ∨ pageSize = byteLength (page_html ctx) →
  audit_inv s →
  audit_inv (put_task p (asset_loop ctx pageSize doc i fs_ok s).1
                        (asset_loop ctx pageSize doc i fs_ok s).2).
Proof.
  intros Hp Hbal Hok Hs.
  pose proof (asset_loop_frame ctx pageSize doc i fs_ok s) as F.
  unfold asset_loop in *. case_match.
  - pose proof (start_assets_ledger
                  (take MAX_CONCURRENT_DOWNLOADS (drop i (assets ctx))) s) as (Hz & Ha & Hg).
    destruct (start_assets _ s) as [ts s1]. simpl in *.
    apply (audit_put p t _ s); [done|by destruct F|by destruct F| |done].
    simpl. rewrite Hz, Ha, Hg. lia.
  - destruct Hok as [->|Hsize].
    + pose proof (finish_page_kept ctx pageSize doc s) as (Hn & Ha & Hg).
      destruct (finish_page ctx pageSize doc true s) as [t' s1]. simpl in *. subst t'.
      apply (audit_put p t _ s); [done|by destruct F|by destruct F| |done].
      simpl. rewrite Ha, Hg. lia.
    + destruct (finish_page_ledger ctx pageSize doc fs_ok s) as (n & Hn & Ha & Hg).
      destruct (finish_page ctx pageSize doc fs_ok s) as [t' s1]. simpl in *. subst t'.
      apply (audit_put p t _ s); [done|by destruct F|by destruct F| |done].
      simpl. rewrite Ha. destruct Hg as [[-> ->]|[-> ->]]; lia.
Qed.

Lemma step_audit_inv ev s s' :
  (∀ x, is_Some (encodeURI x)) →
  page_kept ev = true → step ev s = Some s' → audit_inv s → audit_inv s'.
Proof.
  intros encodes Hev Hstep Hs. pose proof Hs as U. unfold audit_inv in U.
  destruct ev as [|p r f|p a r f|p a|p f|p]; simpl in Hstep, Hev.
  - destruct (status s); try done.
    destruct (forallb page_finished (tasks s)) eqn:Hall; simplify_eq.
    assert (∀ g : PageTask → N, g PFinished = 0%N → sumN (g <$> tasks s) = 0%N) as Hzero.
    { intros g Hg. apply sumN_zero. intros t [q Hq]%list_elem_of_lookup.
      apply (forallb_lookup _ _ _ _ Hall) in Hq. by destruct t. }
    rewrite (Hzero held), (Hzero owed) in U by done.
    unfold next_wave. destruct (urlQueue s) as [|u q].
    { unfold audit_inv. simpl. rewrite ?(Hzero held), ?(Hzero owed); done. }
    pose proof (start_pages_fields (take CHUNK_SIZE (u :: q))
                  (set_urlQueue (drop CHUNK_SIZE (u :: q)) s)) as (_ & _ & Hts).
    pose proof (start_pages_frame (take CHUNK_SIZE (u :: q))
                  (set_urlQueue (drop CHUNK_SIZE (u :: q)) s)) as [Htot _].
    assert (∀ chunk s0,
              saved_asset_bytes (trace (start_pages chunk s0).2)
                = saved_asset_bytes (trace s0) ∧
              saved_page_bytes (trace (start_pages chunk s0).2)
                = saved_page_bytes (trace s0)) as Hbytes.
    { induction chunk as [|v rest IH]; intros s0; simpl; [done|].
      assert (saved_asset_bytes (trace (start_page v s0).2) = saved_asset_bytes (trace s0) ∧
              saved_page_bytes (trace (start_page v s0).2) = saved_page_bytes (trace s0))
        as [Ha Hg].
      { unfold start_page. case_bool_decide; simpl; [done|].
        rewrite saved_asset_bytes_snoc, saved_page_bytes_snoc. simpl. split; lia. }
      destruct (start_page v s0) as [t s1]. specialize (IH s1).
      destruct (start_pages rest s1) as [ts s2]. simpl in *.
      destruct IH. split; congruence. }
    destruct (Hbytes (take CHUNK_SIZE (u :: q))
                (set_urlQueue (drop CHUNK_SIZE (u :: q)) s)) as [Ha Hg].
    destruct (start_pages _ _) as [ts s1]. simpl in *.
    assert (∀ g : PageTask → N,
              g PFinished = 0%N → (∀ v, g (PFetching v) = 0%N) →
              sumN (g <$> ts) = 0%N) as Hnew.
    { intros g Hg1 Hg2. apply sumN_zero. intros t [k Hk]%list_elem_of_lookup.
      destruct (Hts _ _ Hk) as [[v ->]| ->]; auto. }
    unfold audit_inv. simpl. rewrite (Hnew held), (Hnew owed), Ha, Hg, Htot by done. lia.
  - destruct (tasks s !! p) as [[url| | |]|] eqn:Hp; try done.
    unfold page_arrived in Hstep.
    destruct r as [html|];
      [destruct (getLocalFilePath url (baseUrl s) (tempDir s)) as [lfp|]|].
    + match type of Hstep with context [asset_loop ?c ?n ?d ?k ?g s] =>
        pose proof (asset_loop_audit p (PFetching url) c n d k g s Hp) as Hx;
        destruct (asset_loop c n d k g s) as [t s1] end.
      simplify_eq. apply Hx; simpl; [lia|by right|done].
    + simplify_eq. apply (audit_put p (PFetching url) _ s); simpl; try done; lia.
    + simplify_eq. apply (audit_put p (PFetching url) _ s); simpl; try done; lia.
  - destruct (tasks s !! p) as [[|ctx pageSize doc i chunk| |]|] eqn:Hp; try done.
    destruct (chunk !! a) as [[|asset assetPath k|]|] eqn:Ha; try done.
    pose proof (sumN_insert settled_size chunk a (AFetching asset assetPath k)) as Hins.
    unfold asset_arrived in Hstep.
    destruct (downloadAsset_iteration _ _ _ _) eqn:Hit; simpl in Hstep.
    + assert ((localize_asset ctx asset assetPath assetSize doc).1 = assetSize)%N as Hle.
      { unfold localize_asset. by destruct (encodes
          (JS.backslash_to_slash (Path.relative (pageDir ctx) assetPath))) as [v ->]. }
      destruct (localize_asset _ _ _ _ _) as [n doc']. simpl in Hle. subst n.
      injection Hstep as <-.
      specialize (Hins (ASettled assetSize) Ha). simpl in Hins.
      apply (audit_put p _ _ s _ Hp); simpl; try done;
        rewrite ?saved_asset_bytes_snoc, ?saved_page_bytes_snoc; try lia.
    + simplify_eq. specialize (Hins (ASettled 0) Ha). simpl in Hins.
      apply (audit_put p _ _ s _ Hp); simpl; try done; try lia.
    + simplify_eq. specialize (Hins (ASleeping asset assetPath k) Ha). simpl in Hins.
      apply (audit_put p _ _ s _ Hp); simpl; try done;
        rewrite ?saved_asset_bytes_snoc, ?saved_page_bytes_snoc; try lia.
  - destruct (tasks s !! p) as [[|ctx pageSize doc i chunk| |]|] eqn:Hp; try done.
    destruct (chunk !! a) as [[| |asset assetPath k]|] eqn:Ha; try done.
    pose proof (sumN_insert settled_size chunk a (ASleeping asset assetPath k)) as Hins.
    unfold asset_woke in Hstep. destruct (S k <? default_retries).
    + simplify_eq. specialize (Hins (AFetching asset assetPath (S k)) Ha). simpl in Hins.
      apply (audit_put p _ _ s _ Hp); simpl; try done;
        rewrite ?saved_asset_bytes_snoc, ?saved_page_bytes_snoc; try lia.
    + assert ((localize_asset ctx asset assetPath 0 doc).1 = 0)%N as Hle.
      { unfold localize_asset. by destruct (encodeURI _). }
      destruct (localize_asset _ _ _ _ _) as [n doc']. simplify_eq. simpl in Hle. subst n.
      specialize (Hins (ASettled 0) Ha). simpl in Hins.
      apply (audit_put p _ _ s _ Hp); simpl; try done; try lia.
  - destruct (tasks s !! p) as [[|ctx pageSize doc i chunk| |]|] eqn:Hp; try done.
    destruct (forallb asset_settled chunk); try done.
    match type of Hstep with context [asset_loop ?c ?n ?d ?k ?g s] =>
      pose proof (asset_loop_audit p _ c n d k g s Hp) as Hx;
      destruct (asset_loop c n d k g s) as [t s1] end.
    simplify_eq. apply Hx; simpl; [|by left|done].
    rewrite foldl_add_sumN.
    change (map settled_size chunk) with (settled_size <$> chunk). lia.
  - destruct (tasks s !! p) as [[| |pageSize|]|] eqn:Hp; try done. simplify_eq.
    pose proof (sumN_insert held (tasks s) p (PReturned pageSize) PFinished Hp).
    pose proof (sumN_insert owed (tasks s) p (PReturned pageSize) PFinished Hp).
    assert (trace (page_returned pageSize s) = trace s) as Htr.
    { unfold page_returned. simpl. by repeat case_match. }
    unfold audit_inv. simpl in *.
    rewrite ?page_returned_tasks, ?page_returned_total, ?Htr. lia.
Qed.

Lemma run_audit_inv evs s s' :
  (∀ x, is_Some (encodeURI x)) →
  forallb page_kept evs = true → run evs s = Some s' → audit_inv s → audit_inv s'.
Proof.
  intros encodes. revert s.
  induction evs as [|ev evs IH]; intros s Hev Hrun Hs; simplify_eq/=; [done|].
  apply andb_true_iff in Hev as [Hev Hevs].
  destruct (step ev s) as [s1|] eqn:Hstep; [|done].
  apply (IH s1); [done..|]. by eapply step_audit_inv.
Qed.

Lemma start_audit_inv targetUrl tempDir mkdir_ok s0 :
  (start targetUrl tempDir mkdir_ok).2 = Started s0 → audit_inv s0.
Proof.
  unfold start. repeat case_match; simpl; intros; simplify_eq. done.
Qed.

Lemma audit_finished s :
  audit_inv s → forallb page_finished (tasks s) = true →
  totalSize s = (saved_page_bytes (trace s) + saved_asset_bytes (trace s))%N.
Proof.
  unfold audit_inv. intros U Hall.
  assert (∀ g : PageTask → N, g PFinished = 0%N → sumN (g <$> tasks s) = 0%N) as Hzero.
  { intros g Hg. apply sumN_zero. intros t [q Hq]%list_elem_of_lookup.
    apply (forallb_lookup _ _ _ _ Hall) in Hq. by destruct t. }
  rewrite (Hzero held), (Hzero owed) in U by done. lia.
Qed.

End Audit.

Section LedgerTotal.
Context {Pf : Platform}.

Lemma ledger_total s :
  ledger_inv s →
  (totalSize s ≤ saved_page_bytes (trace s) + saved_asset_bytes (trace s))%N.
Proof.
  intros [U L K].
  assert (sumN (owed <$> tasks s) ≤ sumN (held <$> tasks s))%N as Hle; [|lia].
  assert (∀ t, t ∈ tasks s → (owed t ≤ held t)%N) as Ht.
  { intros t [p Hp]%list_elem_of_lookup. destruct t; simpl; try lia.
    pose proof (K _ _ _ _ _ _ Hp). lia. }
  clear U L K. induction (tasks s) as [|t ts IH]; csimpl; [lia|].
  pose proof (Ht t ltac:(left)). assert (∀ t, t ∈ ts → (owed t ≤ held t)%N) as Hts.
  { intros t' Ht'. apply Ht. by right. }
  specialize (IH Hts). cbn [sumN foldr] in *.
  fold (sumN (owed <$> ts)). fold (sumN (held <$> ts)). lia.
Qed.

End LedgerTotal.


(** * The claims *)

Section DemoFacts.

Lemma demo_reachable : reachable (Pf := Node.node) Demo.target Demo.workdir Demo.final.
Proof. exists Demo.initial, Demo.events. split; vm_compute; reflexivity. Defined.

Lemma demo_huge_reachable : reachable (Pf := Node.node) Demo.target Demo.workdir Demo.final_huge.
Proof. exists Demo.initial, Demo.events_huge. split; vm_compute; reflexivity. Defined.

Lemma demo_query_reachable :
  reachable (Pf := Node.node) Demo.target_query Demo.workdir Demo.final_query.
Proof. exists Demo.initial_query, Demo.events_query. split; vm_compute; reflexivity. Defined.

Lemma demo_variants_reachable :
  reachable (Pf := Node.node) Demo.target Demo.workdir Demo.final_variants.
Proof. exists Demo.initial, Demo.events_variants. split; vm_compute; reflexivity. Defined.

Lemma demo_lost_reachable :
  reachable (Pf := Node.node) Demo.target Demo.workdir Demo.final_lost.
Proof. exists Demo.initial, Demo.events_lost. split; vm_compute; reflexivity. Defined.

Lemma demo_listed_reachable :
  reachable (Pf := Node.node) Demo.target Demo.workdir Demo.listed.
Proof. exists Demo.initial, Demo.events_directory. split; vm_compute; reflexivity. Defined.

Lemma node_encodes : ∀ x, is_Some (encodeURI (Platform := Node.node) x).
Proof. intros x. by eexists. Defined.

Example demo_trace :
  trace Demo.final =
  [MakeTempDir "/srv/temp/temp-1";
   GetPage "https://x.webflow.io/";
   GetAsset "https://cdn.x.com/a.png" 0;
   SaveAsset "/srv/temp/temp-1/assets/cdn.x.com/a.png" 50;
   SavePage "https://x.webflow.io/" Demo.home "/srv/temp/temp-1/index.html"
     [Demo.img "assets/cdn.x.com/a.png"; Demo.img "https://cdn.x.com/a.png";
      Demo.anchor "about.html"];
   GetPage "https://x.webflow.io/about"]
  ∧ status Demo.final = Completed ∧ totalSize Demo.final = 1050%N.
Proof. vm_compute. done. Qed.

End DemoFacts.

(** C1 (amended). Within one job no URL string is requested twice as a
    page, and [downloadAsset] is called at most once per URL string: the
    page requests are exactly the members of [visitedUrls], the asset calls
    are members of [visitedAssets], neither list has a repetition, and
    every transition inserts the URLs it requests into the visited set in
    the same step, none of them being a member before.  Inside the one
    call for an asset no request is repeated either: iteration [k] of its
    loop sends at most one request, [k] is below [retries], and every
    request for a URL belongs to the call that claimed the URL.

    The strings are the keys of the visited sets as the code fills them:
    the target as it was submitted, the normalized keys of the link
    rewriter, and the asset URLs as they were resolved, query and fragment
    included.  Every page request but the one for the target is for a
    normalized URL; hence a normalized URL is requested at most twice as a
    page, and at most once when the target is normalized itself. *)
Theorem each_url_fetched_once {Pf : Platform} (targetUrl tempDir : string) (s : Job) :
  reachable targetUrl tempDir s →
  NoDup (page_gets (trace s)) ∧
  NoDup (asset_calls (trace s)) ∧
  (∀ u, u ∈ page_gets (trace s) ↔ u ∈ visitedUrls s) ∧
  (∀ u, u ∈ asset_calls (trace s) → u ∈ visitedAssets s) ∧
  (∀ ev s', step ev s = Some s' → claims s s') ∧
  NoDup (asset_requests (trace s)) ∧
  (∀ u k, GetAsset u k ∈ trace s →
     k < default_retries ∧ u ∈ asset_calls (trace s)) ∧
  (∀ u, u ∈ page_gets (trace s) → u = targetUrl ∨ link_key u = u) ∧
  (∀ key, List.length (filter (fun u => link_key u = key) (page_gets (trace s))) ≤ 2) ∧
  (link_key targetUrl = targetUrl → NoDup (link_key <$> page_gets (trace s))).
Proof.
  intros Hr.
  pose proof (reachable_fetch_inv _ _ _ Hr) as [I1 I2 I3 I4].
  pose proof (reachable_request_inv _ _ _ Hr) as [R1 _ R3 _ _ _ _].
  pose proof (reachable_bounds_inv _ _ _ Hr) as [_ _ B].
  pose proof (reachable_page_keys _ _ _ Hr) as K.
  split_and!; try done.
  - intros ev s'; apply step_claims.
  - intros u k Hu. split.
    + by apply (proj1 (Forall_forall _ _) B) in Hu.
    + apply elem_of_asset_calls, elem_of_asset_requests, (R3 u k); [|lia].
      by apply elem_of_asset_requests.
  - intros key.
    assert (filter (fun u => link_key u = key) (page_gets (trace s)) ⊆+ [targetUrl; key])
      as Hsub.
    { apply NoDup_submseteq; [by apply NoDup_filter|].
      intros u [Hkey Hu]%list_elem_of_filter.
      destruct (K u Hu) as [->|Hn]; [left|]. right. rewrite <- Hkey, Hn. left. }
    by apply submseteq_length in Hsub.
  - intros Ht.
    assert (link_key <$> page_gets (trace s) = page_gets (trace s)) as ->; [|done].
    clear I1 I2. induction (page_gets (trace s)) as [|u l IH]; [done|]. csimpl.
    rewrite IH by (intros v Hv; apply K; by right). f_equal.
    destruct (K u ltac:(left)) as [->|Hn]; done.
Qed.

Lemma each_url_fetched_once_witness :
  reachable (Pf := Node.node) Demo.target Demo.workdir Demo.final ∧
  NoDup (page_gets (trace Demo.final)) ∧
  NoDup (asset_calls (trace Demo.final)) ∧
  NoDup (link_key <$> page_gets (trace Demo.final)).
Proof.
  split; [exact demo_reachable|].
  pose proof (each_url_fetched_once (Pf := Node.node) Demo.target Demo.workdir Demo.final
                demo_reachable)
    as (H1 & H2 & _ & _ & _ & _ & _ & _ & _ & H10).
  split_and!; [exact H1|exact H2|]. apply H10. vm_compute. reflexivity.
Defined.

(** C1, as stated, fails: URLs are not normalized before they are claimed.
    The target [https://x.webflow.io/?ref=nav] and the key of the link to
    it are two page requests for one normalized URL; and three images whose
    URLs differ in query and fragment only are three calls of
    [downloadAsset] for one normalized URL, each written to the same
    file. *)
Lemma normalized_url_fetched_twice :
  (reachable (Pf := Node.node) Demo.target_query Demo.workdir Demo.final_query ∧
   page_gets (trace Demo.final_query) =
     ["https://x.webflow.io/?ref=nav"%string; "https://x.webflow.io/"%string] ∧
   link_key <$> page_gets (trace Demo.final_query) =
     ["https://x.webflow.io/"%string; "https://x.webflow.io/"%string]) ∧
  (reachable (Pf := Node.node) Demo.target Demo.workdir Demo.final_variants ∧
   asset_calls (trace Demo.final_variants) =
     ["https://cdn.x.com/a.png"%string; "https://cdn.x.com/a.png?v=2"%string;
      "https://cdn.x.com/a.png#frag"%string] ∧
   link_key <$> asset_calls (trace Demo.final_variants) =
     ["https://cdn.x.com/a.png"%string; "https://cdn.x.com/a.png"%string;
      "https://cdn.x.com/a.png"%string] ∧
   omap (fun e => match e with SaveAsset f n => Some (f, n) | _ => None end)
        (trace Demo.final_variants) =
     [("/srv/temp/temp-1/assets/cdn.x.com/a.png"%string, 50%N);
      ("/srv/temp/temp-1/assets/cdn.x.com/a.png"%string, 60%N);
      ("/srv/temp/temp-1/assets/cdn.x.com/a.png"%string, 70%N)]).
Proof.
  split; split_and!.
  - exact demo_query_reachable.
  - vm_compute; reflexivity.
  - vm_compute; reflexivity.
  - exact demo_variants_reachable.
  - vm_compute; reflexivity.
  - vm_compute; reflexivity.
  - vm_compute; reflexivity.
Qed.

(** C2 (amended). The running total never decreases; the job is failed
    exactly when the total is over [MAX_SIZE_MB * 1024 * 1024]; a failed
    job stays failed, never completes, and claims no further page; a job
    under the ceiling is never stuck and completes when the frontier is
    drained at the end of a wave.  And the job ends: while the frontier
    only holds URLs of a finite set [U] and the pages that arrive have at
    most [W / 7] elements, at most [rank W U s] further events can be
    taken.

    What the total counts: when the callback of a page resumes, the total
    grows by the value [downloadPage] returned; the total never exceeds
    the bytes of the page bodies and asset files that were written; and
    in a job where [encodeURI] never throws and no page file fails to be
    written after an asset chunk of its page, every byte written is
    counted: once the page tasks have settled, the total is the bytes of
    the page bodies written plus the bytes of the asset files written. *)
Theorem size_ceiling_enforced {Pf : Platform} (targetUrl tempDir : string) (s : Job) :
  reachable targetUrl tempDir s →
  (status s = Failed ↔ (MAX_SIZE_BYTES < totalSize s)%N) ∧
  (∀ evs s', run evs s = Some s' →
     (totalSize s ≤ totalSize s')%N ∧
     (status s = Failed →
        status s' = Failed ∧ page_gets (trace s') = page_gets (trace s))) ∧
  (status s = Failed → step EvLoop s = None) ∧
  (status s = Crawling →
     (∃ ev s', step ev s = Some s') ∧
     (forallb page_finished (tasks s) = true → urlQueue s = [] →
        ∃ s', step EvLoop s = Some s' ∧ status s' = Completed ∧
              totalSize s' = totalSize s ∧ (totalSize s' ≤ MAX_SIZE_BYTES)%N)) ∧
  (∀ W U evs s',
     run evs s = Some s' → visitedUrls s ⊆ U →
     (∀ k s'', run (take k evs) s = Some s'' → ∀ u, u ∈ urlQueue s'' → u ∈ U) →
     Forall (event_within W) evs →
     List.length evs ≤ rank W U s) ∧
  (∀ p pageSize s',
     tasks s !! p = Some (PReturned pageSize) → step (EvPageDone p) s = Some s' →
     totalSize s' = (totalSize s + pageSize)%N) ∧
  (totalSize s ≤ saved_page_bytes (trace s) + saved_asset_bytes (trace s))%N ∧
  (∀ s0 evs,
     (start targetUrl tempDir true).2 = Started s0 → run evs s0 = Some s →
     (∀ x, is_Some (encodeURI x)) → forallb page_kept evs = true →
     audit_inv s ∧
     (forallb page_finished (tasks s) = true →
      totalSize s = (saved_page_bytes (trace s) + saved_asset_bytes (trace s))%N)).
Proof.
  intros Hr. pose proof (reachable_budget_inv _ _ _ Hr) as Hinv.
  pose proof Hinv as [I1 I2]. split_and!.
  - done.
  - intros evs s' Hrun. split; [by eapply run_total_mono|].
    intros Hf. by eapply run_failed.
  - intros Hf. simpl. by rewrite Hf.
  - intros Hc. split; [by apply crawling_enabled|].
    intros Hall Hq. exists (next_wave s). simpl. rewrite Hc, Hall.
    split_and!; [done|by rewrite next_wave_status, Hq|apply next_wave_total|].
    rewrite next_wave_total. apply N.nlt_ge. intros Hlt%I1. congruence.
  - intros W U evs s' Hrun HV HU HW.
    pose proof (run_rank W U evs s s' Hrun (reachable_bounds_inv _ _ _ Hr)
                  (reachable_queue_inv _ _ _ Hr) HV HU HW). lia.
  - intros p pageSize s' Hp Hstep. simpl in Hstep. rewrite Hp in Hstep.
    simplify_eq. simpl. apply page_returned_total.
  - apply ledger_total. by eapply reachable_ledger_inv.
  - intros s0 evs Hs0 Hrun Henc Hev.
    assert (audit_inv s) as Ha.
    { apply (run_audit_inv evs s0 s Henc Hev Hrun). by eapply start_audit_inv. }
    split; [done|]. by apply audit_finished.
Qed.

Lemma size_ceiling_enforced_witness :
  reachable (Pf := Node.node) Demo.target Demo.workdir Demo.final_huge ∧
  totalSize Demo.final_huge = 550002000%N ∧
  status Demo.final_huge = Failed ∧ step (Pf := Node.node) EvLoop Demo.final_huge = None ∧
  totalSize Demo.final = (saved_page_bytes (trace Demo.final)
                          + saved_asset_bytes (trace Demo.final))%N.
Proof.
  split; [exact demo_huge_reachable|].
  pose proof (size_ceiling_enforced (Pf := Node.node) Demo.target Demo.workdir Demo.final_huge
                demo_huge_reachable) as (H1 & _ & H3 & _).
  assert (status Demo.final_huge = Failed) as Hf by (apply H1; vm_compute; reflexivity).
  split; [vm_compute; reflexivity|]. split; [exact Hf|]. split; [exact (H3 Hf)|].
  pose proof (size_ceiling_enforced (Pf := Node.node) Demo.target Demo.workdir Demo.final
                demo_reachable) as (_ & _ & _ & _ & _ & _ & _ & H8).
  apply (H8 Demo.initial Demo.events); [vm_compute; reflexivity..|exact node_encodes| |];
    vm_compute; reflexivity.
Defined.

(** C2, as stated, fails: bytes that were written can be missing from
    the total.  The gallery page has eleven images of 50,000,000 bytes;
    all of them are written, then the page file cannot be written,
    [downloadPage] returns 0, and the job completes with a total of 0 and
    550,000,000 bytes in the working area, more than the ceiling. *)
Lemma written_bytes_left_uncounted :
  reachable (Pf := Node.node) Demo.target Demo.workdir Demo.final_lost ∧
  status Demo.final_lost = Completed ∧
  totalSize Demo.final_lost = 0%N ∧
  saved_asset_bytes (trace Demo.final_lost) = 550000000%N ∧
  (MAX_SIZE_BYTES < saved_asset_bytes (trace Demo.final_lost))%N.
Proof.
  split; [exact demo_lost_reachable|]. vm_compute. done.
Qed.

Section MoreDemoFacts.

Lemma demo_gallery_reachable :
  reachable (Pf := Node.node) Demo.target Demo.workdir Demo.final_gallery.
Proof. exists Demo.initial, Demo.events_gallery. split; vm_compute; reflexivity. Defined.

Lemma demo_down_reachable :
  reachable (Pf := Node.node) Demo.target Demo.workdir Demo.final_down.
Proof. exists Demo.initial, Demo.events_down. split; vm_compute; reflexivity. Defined.

Lemma demo_inline_reachable :
  reachable (Pf := Node.node) Demo.target Demo.workdir Demo.final_inline.
Proof. exists Demo.initial, Demo.events_inline. split; vm_compute; reflexivity. Defined.

Example demo_inline_trace :
  trace Demo.final_inline =
  [MakeTempDir "/srv/temp/temp-1";
   GetPage "https://x.webflow.io/";
   SavePage "https://x.webflow.io/" Demo.inline "/srv/temp/temp-1/index.html"
     (dom Demo.inline)].
Proof. vm_compute. done. Qed.

End MoreDemoFacts.

(** C3 (the code departs from the claim). The home page of the example
    shows one image twice.  [downloadAsset] is called once, the first
    reference is rewritten to the local path, and the second reference,
    found in [visitedAssets], is written back as it was parsed. *)
Theorem rediscovered_asset_not_rewritten :
  ∃ doc',
    SavePage Demo.target Demo.home "/srv/temp/temp-1/index.html" doc'
      ∈ trace Demo.final ∧
    dom Demo.home !! 0 = Some (Demo.img "https://cdn.x.com/a.png") ∧
    dom Demo.home !! 1 = Some (Demo.img "https://cdn.x.com/a.png") ∧
    doc' !! 0 = Some (Demo.img "assets/cdn.x.com/a.png") ∧
    doc' !! 1 = Some (Demo.img "https://cdn.x.com/a.png") ∧
    asset_calls (trace Demo.final) = ["https://cdn.x.com/a.png"%string].
Proof.
  destruct demo_trace as (Ht & _ & _). rewrite Ht.
  eexists. split; [do 4 right; left|]. by split_and!.
Qed.

(** C4 (amended). Only [downloadAsset] retries: its outcome is that of
    the first of at most three requests that succeeds, the delays before
    the second and the third request are 1000 and 2000 ms, and it throws
    only when the third request fails.  [downloadPage] makes a single
    request; when it fails the page returns 0 at once.  In every job state
    asset requests are numbered below 3 and the backoff delays are 1000
    or 2000 ms. *)
Theorem retry_only_for_assets {Pf : Platform} :
  (∀ net,
     downloadAsset net default_retries =
     match attempt_ok (net 0), attempt_ok (net 1), attempt_ok (net 2) with
     | Some n, _, _ => mkDownload (Some n) 1 []
     | None, Some n, _ => mkDownload (Some n) 2 [1000%N]
     | None, None, Some n => mkDownload (Some n) 3 [1000%N; 2000%N]
     | None, None, None => mkDownload None 3 [1000%N; 2000%N]
     end) ∧
  (∀ p url fs_ok s,
     tasks s !! p = Some (PFetching url) →
     step (EvPageResponse p None fs_ok) s = Some (put_task p (PReturned 0) s)) ∧
  (∀ targetUrl tempDir s,
     reachable targetUrl tempDir s →
     ∀ e, e ∈ trace s →
          match e with
          | GetAsset _ k => k < 3
          | Sleep ms => ms = 1000%N ∨ ms = 2000%N
          | _ => True
          end).
Proof.
  split_and!.
  - intros net. unfold downloadAsset, default_retries, attempt_ok. simpl.
    unfold downloadAsset_iteration. simpl.
    destruct (net 0) as [[n0|] []], (net 1) as [[n1|] []], (net 2) as [[n2|] []];
      simpl; repeat case_match; simplify_eq; reflexivity.
  - intros p url fs_ok s Hp. simpl. by rewrite Hp.
  - intros targetUrl tempDir s Hr e He.
    pose proof (reachable_bounds_inv _ _ _ Hr) as [_ _ Htr].
    rewrite Forall_forall in Htr. specialize (Htr e He). by destruct e.
Qed.

Lemma retry_only_for_assets_witness :
  reachable (Pf := Node.node) Demo.target Demo.workdir Demo.final ∧
  GetAsset "https://cdn.x.com/a.png" 0 ∈ trace Demo.final ∧ 0 < 3.
Proof.
  split; [exact demo_reachable|].
  assert (GetAsset "https://cdn.x.com/a.png" 0 ∈ trace Demo.final) as Hin.
  { destruct demo_trace as (Ht & _). rewrite Ht. do 2 right. left. }
  split; [exact Hin|].
  destruct (retry_only_for_assets (Pf := Node.node)) as (_ & _ & Hb).
  exact (Hb Demo.target Demo.workdir Demo.final demo_reachable _ Hin).
Defined.

(** C4, as stated, fails: the only page of the example cannot be
    retrieved; it is requested once, no timer is armed, and the job
    completes without it. *)
Lemma page_request_not_retried :
  reachable (Pf := Node.node) Demo.target Demo.workdir Demo.final_down ∧
  status Demo.final_down = Completed ∧
  trace Demo.final_down =
    [MakeTempDir "/srv/temp/temp-1"; GetPage "https://x.webflow.io/"].
Proof. split; [exact demo_down_reachable|]. vm_compute. done. Qed.

(** C6. A target is accepted exactly when it parses and its hostname
    ends, character for character, with [webflow.io] or [webflow.com].
    A target that is not accepted is answered at once: nothing has been
    done to the outside world, neither a directory nor a request.  An
    accepted target starts a job whose only effect so far is its working
    directory. *)
Theorem invalid_target_rejected {Pf : Platform}
    (url tempDir : string) (mkdir_ok : bool) :
  (isValidWebflowUrl url = true ↔
     ∃ u, newURL url = Some u ∧
          (suffix_of "webflow.io" (hostname u) ∨ suffix_of "webflow.com" (hostname u))) ∧
  (isValidWebflowUrl url = false → start url tempDir mkdir_ok = ([], Rejected)) ∧
  (isValidWebflowUrl url = true →
     ∃ s0, start url tempDir true = ([MakeTempDir tempDir], Started s0) ∧
           urlQueue s0 = [url] ∧ tasks s0 = [] ∧ status s0 = Crawling).
Proof.
  split_and!.
  - unfold isValidWebflowUrl, suffix_of. destruct (newURL url) as [u|].
    + rewrite orb_true_iff, !endsWith_spec. split; [eauto|].
      by intros (u' & [= <-] & Hs).
    + split; [done|]. by intros (u' & ? & _).
  - intros Hv. unfold start. by rewrite Hv.
  - intros Hv. unfold start. rewrite Hv. simpl.
    unfold isValidWebflowUrl in Hv. destruct (newURL url) as [u|]; [|done].
    eexists. split; [reflexivity|]. done.
Qed.

Lemma invalid_target_rejected_witness :
  isValidWebflowUrl (Pf := Node.node) "https://evil.example.com/" = false ∧
  start (Pf := Node.node) "https://evil.example.com/" Demo.workdir true = ([], Rejected).
Proof.
  assert (isValidWebflowUrl (Pf := Node.node) "https://evil.example.com/" = false)
    as Hv by (vm_compute; reflexivity).
  split; [exact Hv|].
  destruct (invalid_target_rejected (Pf := Node.node)
              "https://evil.example.com/" Demo.workdir true) as (_ & Hrej & _).
  exact (Hrej Hv).
Defined.

(** C8 (amended). The assets of a page are requested in waves of at most
    [MAX_CONCURRENT_DOWNLOADS] = 10, the wave that starts at index [i]
    holding [min 10 (length assets - i)] of them; the bound of 15 is the one
    of the page waves. *)
Theorem asset_waves_of_ten {Pf : Platform} (targetUrl tempDir : string) (s : Job) :
  reachable targetUrl tempDir s →
  List.length (tasks s) ≤ 15 ∧
  ∀ p ctx pageSize doc i chunk,
    tasks s !! p = Some (PAssets ctx pageSize doc i chunk) →
    List.length chunk = Nat.min 10 (List.length (assets ctx) - i) ∧
    List.length chunk ≤ 10.
Proof.
  intros Hr. pose proof (reachable_bounds_inv _ _ _ Hr) as [I1 I2 _].
  split; [exact I1|]. intros p ctx pageSize doc i chunk Hp.
  pose proof (Forall_lookup_1 _ _ _ _ I2 Hp) as [Hlen _].
  rewrite length_take, length_drop in Hlen. unfold MAX_CONCURRENT_DOWNLOADS in Hlen. lia.
Qed.

Lemma asset_waves_of_ten_witness :
  reachable (Pf := Node.node) Demo.target Demo.workdir Demo.final_gallery ∧
  List.length (tasks Demo.final_gallery) ≤ 15.
Proof.
  split; [exact demo_gallery_reachable|].
  exact (proj1 (asset_waves_of_ten (Pf := Node.node) Demo.target Demo.workdir
                  Demo.final_gallery demo_gallery_reachable)).
Defined.

(** C8, as stated, fails: a page with eleven images has ten of them in
    its first wave, not [min 15 11]. *)
Lemma asset_wave_is_not_fifteen :
  reachable (Pf := Node.node) Demo.target Demo.workdir Demo.final_gallery ∧
  ∃ ctx pageSize doc chunk,
    tasks Demo.final_gallery !! 0 = Some (PAssets ctx pageSize doc 0 chunk) ∧
    List.length (assets ctx) = 11 ∧
    List.length chunk = 10 ∧
    List.length chunk ≠ Nat.min CHUNK_SIZE (List.length (assets ctx)) ∧
    List.length (asset_calls (trace Demo.final_gallery)) = 10.
Proof.
  split; [exact demo_gallery_reachable|].
  destruct (tasks Demo.final_gallery !! 0) as [[|ctx pageSize doc i chunk| |]|] eqn:Hp;
    try (vm_compute in Hp; discriminate).
  assert (i = 0) as -> by (vm_compute in Hp; congruence).
  exists ctx, pageSize, doc, chunk. split; [done|].
  assert (List.length (assets ctx) = 11) as Ha by (vm_compute in Hp; by simplify_eq).
  assert (List.length chunk = 10) as Hc by (vm_compute in Hp; by simplify_eq).
  rewrite Ha, Hc. split_and!; [done..| vm_compute; lia |vm_compute; done].
Qed.

(** C9. No asset whose absolute URL contains [data:], wherever in the
    string, is ever requested; and the element that carries such a
    reference contributes no asset and is written to the page file as it
    was parsed. *)
Theorem data_references_skipped {Pf : Platform} (targetUrl tempDir : string) (s : Job) :
  reachable targetUrl tempDir s →
  (∀ u k, GetAsset u k ∈ trace s → JS.includes u "data:" = false) ∧
  (∀ url body lfp doc' j el before after,
     SavePage url body lfp doc' ∈ trace s →
     dom body !! j = Some el → is_asset_element el = true →
     resolve_asset_url url el = Some (before +:+ "data:" +:+ after) →
     asset_of_element url j el = None ∧ doc' !! j = Some el).
Proof.
  intros Hr. pose proof (reachable_wf_inv _ _ _ Hr) as [_ Htr].
  rewrite Forall_forall in Htr. split.
  - intros u k Hin. exact (Htr _ Hin).
  - intros url body lfp doc' j el before after Hin Hj Hel Hres.
    assert (asset_of_element url j el = None) as Hnone.
    { unfold asset_of_element. rewrite Hres. simpl.
      assert (JS.includes (before +:+ "data:" +:+ after) "data:" = true) as ->; [|done].
      apply includes_spec. eauto. }
    split; [done|]. apply (Htr _ Hin j el Hj).
    + unfold is_asset_element in Hel. unfold is_anchor_element. by destruct (tag el).
    + intros a (el' & Hj' & _ & Ha)%collect_assets_elem <-. congruence.
Qed.

Lemma data_references_skipped_witness :
  reachable (Pf := Node.node) Demo.target Demo.workdir Demo.final_inline ∧
  asset_of_element (Pf := Node.node) "https://x.webflow.io/" 1
    (Demo.img "https://cdn.x.com/pix.png?from=data:1") = None ∧
  dom Demo.inline !! 1 = Some (Demo.img "https://cdn.x.com/pix.png?from=data:1").
Proof.
  split; [exact demo_inline_reachable|].
  destruct (data_references_skipped (Pf := Node.node) Demo.target Demo.workdir
              Demo.final_inline demo_inline_reachable) as [_ Hkeep].
  apply (Hkeep "https://x.webflow.io/"%string Demo.inline
           "/srv/temp/temp-1/index.html"%string (dom Demo.inline) 1
           (Demo.img "https://cdn.x.com/pix.png?from=data:1")
           "https://cdn.x.com/pix.png?from="%string "1"%string).
  - rewrite demo_inline_trace. do 2 right. left.
  - reflexivity.
  - reflexivity.
  - reflexivity.
Defined.

(** C10. The frontier starts as the one-element queue holding the target
    exactly as it was submitted.  Any URL with a query or a fragment
    differs from the key the link rewriter derives from it; so the target
    [https://x.webflow.io/?ref=nav], whose page links to itself, is
    requested under both strings. *)
Theorem frontier_starts_with_raw_target :
  (∀ (Pf : Platform) targetUrl tempDir s0,
     (start targetUrl tempDir true).2 = Started s0 →
     urlQueue s0 = [targetUrl] ∧ visitedUrls s0 = ∅) ∧
  (∀ absoluteLink,
     JS.includes absoluteLink "?" = true ∨ JS.includes absoluteLink "#" = true →
     JS.split_head "?" (JS.split_head "#" absoluteLink) ≠ absoluteLink) ∧
  ((start (Pf := Node.node) Demo.target_query Demo.workdir true).2
     = Started Demo.initial_query ∧
   reachable (Pf := Node.node) Demo.target_query Demo.workdir Demo.final_query ∧
   page_gets (trace Demo.final_query) =
     ["https://x.webflow.io/?ref=nav"%string; "https://x.webflow.io/"%string]).
Proof.
  split_and!.
  - intros Pf targetUrl tempDir s0. unfold start.
    repeat case_match; simpl; intros; simplify_eq. done.
  - apply normalized_differs.
  - vm_compute. reflexivity.
  - exact demo_query_reachable.
  - vm_compute. reflexivity.
Qed.

Lemma frontier_starts_with_raw_target_witness :
  (start (Pf := Node.node) Demo.target_query Demo.workdir true).2
    = Started Demo.initial_query ∧
  urlQueue Demo.initial_query = [Demo.target_query].
Proof.
  assert ((start (Pf := Node.node) Demo.target_query Demo.workdir true).2
            = Started Demo.initial_query) as Hs by (vm_compute; reflexivity).
  split; [exact Hs|].
  destruct frontier_starts_with_raw_target as (Hinit & _).
  exact (proj1 (Hinit Node.node _ _ _ Hs)).
Defined.

(** ** The two path mappings on plain paths *)

Section PlainPaths.

Lemma of_segments_snoc (front : list string) (x : string) :
  of_segments (front ++ [x]) = (of_segments front +:+ "/") +:+ x.
Proof.
  rewrite of_segments_app. simpl. by rewrite string_app_nil_r, !string_app_assoc.
Qed.

Lemma endsWith_path (psegs : list string) (trail : bool) :
  forallb is_segment psegs = true → psegs ≠ [] ∨ trail = true →
  JS.endsWith (of_segments psegs +:+ (if trail then "/" else "")) "/" = trail.
Proof.
  intros Hp Hne. destruct trail.
  - apply endsWith_spec. eauto.
  - rewrite string_app_nil_r. destruct Hne as [Hne|?]; [|done].
    destruct (exists_last Hne) as (front & x & ->).
    rewrite forallb_app in Hp. simpl in Hp.
    rewrite andb_true_r in Hp. apply andb_true_iff in Hp as [_ Hx].
    rewrite of_segments_snoc. destruct x as [|c x]; [done|].
    rewrite endsWith_app by done. by apply endsWith_token, segment_token.
Qed.

Lemma path_tokens_ok (psegs : list string) (trail : bool) :
  forallb is_segment psegs = true →
  Forall (fun x => x = ""%string ∨ is_segment x = true) (path_tokens psegs trail).
Proof.
  intros Hps. unfold path_tokens. constructor; [by left|].
  apply Forall_app. split; [by apply segments_tokens|].
  destruct trail; [|done]. constructor; [by left|done].
Qed.

Lemma join_root_path (rsegs psegs : list string) (trail : bool) :
  rsegs ≠ [] → forallb is_segment rsegs = true →
  forallb is_segment psegs = true → psegs ≠ [] ∨ trail = true →
  Path.join [of_segments rsegs; of_segments psegs +:+ (if trail then "/" else "")]
  = of_segments rsegs +:+ of_segments psegs +:+ (if trail then "/" else "").
Proof.
  intros Hr Hrs Hps Hne. rewrite <- path_tokens_concat by done.
  pose proof (join_tokens rsegs [path_tokens psegs trail] Hr Hrs) as Hj.
  repeat (unfold mjoin in Hj; cbn [list_join map String.concat] in Hj).
  rewrite app_nil_r in Hj. rewrite Hj; clear Hj.
  - rewrite path_tokens_filter, path_tokens_last, of_segments_app by done.
    rewrite path_tokens_concat by done. by rewrite !string_app_assoc.
  - done.
  - constructor; [|done]. rewrite path_tokens_concat by done.
    destruct psegs; [by destruct Hne as [?| ->]|done].
  - by apply path_tokens_ok.
Qed.

Lemma join_root_index (rsegs psegs : list string) :
  rsegs ≠ [] → forallb is_segment rsegs = true →
  forallb is_segment psegs = true →
  Path.join [of_segments rsegs; of_segments psegs +:+ "/"; "index.html"%string]
  = of_segments rsegs +:+ (of_segments psegs +:+ "/") +:+ "index.html".
Proof.
  intros Hr Hrs Hps.
  rewrite <- (path_tokens_concat psegs true) by (by right).
  pose proof (join_tokens rsegs [path_tokens psegs true; ["index.html"%string]] Hr Hrs)
    as Hj.
  repeat (unfold mjoin in Hj; cbn [list_join map String.concat] in Hj).
  rewrite app_nil_r in Hj. rewrite Hj; clear Hj.
  - rewrite filter_app, path_tokens_filter by done.
    rewrite last_snoc.
    rewrite bool_decide_eq_false_2 by (by intros [=]).
    rewrite filter_cons_True by done. rewrite filter_nil.
    rewrite app_assoc, of_segments_snoc, of_segments_app, string_app_nil_r.
    rewrite path_tokens_concat by (by right). by rewrite !string_app_assoc.
  - done.
  - constructor; [|by constructor]. rewrite path_tokens_concat by (by right).
    by destruct psegs.
  - apply Forall_app. split; [by apply path_tokens_ok|].
    constructor; [by right|done].
Qed.

Lemma join_root_assets (rsegs psegs : list string) (h : string) (trail : bool) :
  rsegs ≠ [] → forallb is_segment rsegs = true → is_segment h = true →
  forallb is_segment psegs = true → psegs ≠ [] ∨ trail = true →
  Path.join [of_segments rsegs; "assets"%string; h;
             of_segments psegs +:+ (if trail then "/" else "")]
  = of_segments rsegs +:+ "/assets/" +:+ h +:+ of_segments psegs
    +:+ (if trail then "/" else "").
Proof.
  intros Hr Hrs Hh Hps Hne. rewrite <- path_tokens_concat by done.
  pose proof (join_tokens rsegs [["assets"%string]; [h]; path_tokens psegs trail] Hr Hrs)
    as Hj.
  repeat (unfold mjoin in Hj; cbn [list_join map String.concat] in Hj).
  rewrite app_nil_r in Hj. rewrite Hj; clear Hj.
  - assert (h ≠ ""%string) as Hhne by (by intros ->).
    change (["assets"%string] ++ [h] ++ path_tokens psegs trail)
      with ("assets"%string :: h :: path_tokens psegs trail).
    rewrite filter_cons_True by done. rewrite filter_cons_True by done.
    rewrite path_tokens_filter by done.
    assert (last ("assets"%string :: h :: path_tokens psegs trail)
            = last (path_tokens psegs trail)) as -> by done.
    rewrite path_tokens_last by done.
    rewrite path_tokens_concat by done.
    rewrite of_segments_app. simpl. by rewrite !string_app_assoc.
  - done.
  - constructor; [done|]. constructor; [simpl; by intros ->|].
    constructor; [|done]. rewrite path_tokens_concat by done.
    destruct psegs; [by destruct Hne as [?| ->]|done].
  - constructor; [by right|]. constructor; [by right|].
    by apply path_tokens_ok.
Qed.

End PlainPaths.

(** On plain paths, a working area and a pathname made of proper
    segments with nothing to decode, the two mappings are concatenations:
    the pathname below the working area, with [index.html] or [.html] for
    pages and below [assets/<host>] for the assets of other hosts. *)
Lemma local_path_on_plain_paths {Pf : Platform}
    (url baseUrl baseHost tempDir : string) (u : URL)
    (rsegs psegs : list string) (trail : bool) :
  newURL url = Some u →
  tempDir = of_segments rsegs → rsegs ≠ [] → forallb is_segment rsegs = true →
  pathname u = of_segments psegs +:+ (if trail then "/" else "") →
  forallb is_segment psegs = true → psegs ≠ [] ∨ trail = true →
  decodeURIComponent (pathname u) = Some (pathname u) →
  getLocalFilePath url baseUrl tempDir
  = Some (if trail then tempDir +:+ pathname u +:+ "index.html"
          else if has_html_extension (pathname u) then tempDir +:+ pathname u
          else tempDir +:+ pathname u +:+ ".html")
  ∧ (is_segment (host u) = true →
     assetLocalPath url baseHost tempDir
     = Some (if String.eqb (host u) baseHost then tempDir +:+ pathname u
             else tempDir +:+ "/assets/" +:+ host u +:+ pathname u)).
Proof.
  intros Hu -> Hr Hrs Hp Hps Hne Hdec. split.
  - unfold getLocalFilePath. rewrite Hu. simpl. rewrite Hdec. simpl.
    rewrite Hp, endsWith_path by done. destruct trail.
    + by rewrite join_root_index.
    + rewrite (join_root_path rsegs psegs false) by done.
      destruct (String.eqb (Path.extname (of_segments psegs +:+ "")) "") eqn:Hext.
      * apply String.eqb_eq in Hext. unfold has_html_extension. rewrite Hext.
        simpl. by rewrite !string_app_assoc.
      * unfold has_html_extension. simpl.
        destruct (_ || _); simpl; by rewrite ?string_app_assoc.
  - intros Hh. unfold assetLocalPath. rewrite Hu. simpl. rewrite Hp.
    destruct (String.eqb (host u) baseHost).
    + by rewrite (join_root_path rsegs psegs trail).
    + by rewrite (join_root_assets rsegs psegs (host u) trail), ?string_app_assoc.
Qed.


(** ** Paths below a directory *)

Section Below.

Lemma split_tokens (c : ascii) (s : string) :
  Forall (fun x => JS.includes x (String c "") = false) (JS.split c s).
Proof.
  induction s as [|b s IH]; cbn [JS.split]; [by constructor|].
  destruct (Ascii.eqb b c) eqn:Hb; [by constructor|].
  destruct (JS.split c s) as [|h t]; inversion IH; subst.
  - constructor; [|done]. cbn [JS.includes]. rewrite startsWith_char, Hb. done.
  - constructor; [|done]. cbn [JS.includes]. rewrite startsWith_char, Hb. done.
Qed.

Lemma split_of_segments (rsegs : list string) :
  forallb is_segment rsegs = true →
  JS.split "/" (of_segments rsegs) = ""%string :: rsegs.
Proof.
  intros Hr. destruct rsegs as [|x rsegs]; [done|].
  rewrite of_segments_concat by done.
  change ("/" +:+ String.concat "/" (x :: rsegs))%string
    with (""%string +:+ String "/" (String.concat "/" (x :: rsegs)))%string.
  rewrite split_app, split_concat; [done|done|].
  eapply Forall_impl; [by apply segments_tokens|].
  intros y [->|Hy]; [done|by apply segment_token].
Qed.

Lemma norm_step_nonempty (above : bool) (acc : list string) (seg : string) :
  Forall (fun x => x ≠ ""%string) acc →
  Forall (fun x => x ≠ ""%string) (Path.norm_step above acc seg).
Proof.
  intros Hacc. unfold Path.norm_step.
  destruct (String.eqb seg "") eqn:He; simpl; [done|].
  apply String.eqb_neq in He.
  destruct (String.eqb seg "."); simpl; [done|].
  destruct (String.eqb seg "..").
  - destruct acc as [|top rest].
    + destruct above; [by constructor|done].
    + destruct (String.eqb top ".."); [by constructor|]. by inversion Hacc.
  - by constructor.
Qed.

Lemma fold_norm_step_nonempty (above : bool) (toks acc : list string) :
  Forall (fun x => x ≠ ""%string) acc →
  Forall (fun x => x ≠ ""%string) (fold_left (Path.norm_step above) toks acc).
Proof.
  revert acc. induction toks as [|x toks IH]; intros acc Hacc; [done|].
  simpl. by apply IH, norm_step_nonempty.
Qed.

Lemma resolve_below_nonempty (rsegs : list string) (p : string) :
  forallb is_segment rsegs = true →
  Forall (fun x => x ≠ ""%string) (resolve_below rsegs p).
Proof.
  intros Hr. unfold resolve_below. apply Forall_rev, fold_norm_step_nonempty, Forall_rev.
  apply Forall_forall. intros x Hx ->.
  rewrite forallb_forall in Hr. by specialize (Hr _ (proj1 (list_elem_of_In _ _) Hx)).
Qed.

Lemma concat_nonempty (l : list string) :
  Forall (fun x => x ≠ ""%string) l → String.concat "/" l = ""%string → l = [].
Proof.
  intros Hl Hc. destruct l as [|x l]; [done|]. exfalso.
  apply Forall_cons in Hl as [Hx _]. destruct l as [|y l].
  - done.
  - rewrite concat_cons in Hc by done. destruct x; done.
Qed.

(** [path.normalize] of a path that continues a directory. *)
Lemma normalize_below (rsegs : list string) (rest : string) :
  forallb is_segment rsegs = true →
  Path.normalize (of_segments rsegs +:+ "/" +:+ rest)%string
  = render_path (resolve_below rsegs rest) (JS.endsWith ("/" +:+ rest)%string "/").
Proof.
  intros Hr. unfold Path.normalize. cbv zeta.
  set (s := (of_segments rsegs +:+ "/" +:+ rest)%string).
  assert (s = (of_segments rsegs +:+ String "/" rest)%string) as Hs by done.
  assert (String.eqb s "" = false) as ->.
  { apply String.eqb_neq. rewrite Hs. intros H%(f_equal String.length).
    rewrite string_app_length in H. simpl in H. lia. }
  assert (JS.startsWith s "/" = true) as ->.
  { apply startsWith_spec. rewrite Hs. destruct rsegs as [|x rsegs].
    - by exists rest.
    - simpl. rewrite !string_app_assoc. eauto. }
  change (negb true) with false.
  assert (Path.normalizeString s false = String.concat "/" (resolve_below rsegs rest)) as ->.
  { unfold Path.normalizeString, resolve_below. rewrite Hs.
    change Path.sep with "/"%char.
    rewrite split_app, split_of_segments by done.
    rewrite fold_left_app. do 2 f_equal.
    rewrite (norm_step_tokens false (""%string :: rsegs) []).
    - rewrite filter_cons_False by (by intros ?).
      by rewrite filter_segments, app_nil_r.
    - constructor; [by left|by apply segments_tokens]. }
  assert (JS.endsWith s "/" = JS.endsWith ("/" +:+ rest)%string "/") as ->.
  { rewrite Hs. by apply endsWith_app. }
  pose proof (resolve_below_nonempty rsegs rest Hr) as Hne.
  unfold render_path. destruct (resolve_below rsegs rest) as [|x l] eqn:E; [done|].
  destruct (String.eqb (String.concat "/" (x :: l)) "") eqn:Hq.
  { apply String.eqb_eq in Hq. by apply concat_nonempty in Hq. }
  rewrite of_segments_concat by done.
  destruct (JS.endsWith _ _); [by rewrite string_app_assoc|by rewrite string_app_nil_r].
Qed.

Lemma of_segments_nonempty (rsegs : list string) :
  rsegs ≠ [] → of_segments rsegs ≠ ""%string.
Proof. by destruct rsegs. Qed.

Lemma endsWith_slash_cons (p : string) :
  p ≠ ""%string → JS.endsWith ("/" +:+ p)%string "/" = JS.endsWith p "/".
Proof.
  destruct p as [|c p]; [done|]. intros _.
  change ("/" +:+ String c p)%string with (("/" +:+ "") +:+ String c p)%string.
  by apply endsWith_app.
Qed.

Lemma resolve_below_empty (rsegs : list string) : resolve_below rsegs "" = rsegs.
Proof. unfold resolve_below. simpl. unfold Path.norm_step. simpl. apply rev_involutive. Qed.

Lemma resolve_below_snoc (rsegs : list string) (x : string) :
  forallb is_segment rsegs = true → is_segment x = true →
  resolve_below rsegs x = rsegs ++ [x].
Proof.
  intros Hr Hx. unfold resolve_below.
  rewrite split_plain by (by apply segment_token).
  rewrite (norm_step_tokens false [x] (rev rsegs)) by (constructor; [by right|done]).
  rewrite filter_cons_True by (by intros ->). rewrite filter_nil.
  change (rev [x]) with [x]. rewrite rev_app_distr, rev_involutive. done.
Qed.

(** [path.join(root, p)] *)
Lemma join_below (rsegs : list string) (p : string) :
  rsegs ≠ [] → forallb is_segment rsegs = true →
  Path.join [of_segments rsegs; p]
  = render_path (resolve_below rsegs p) (JS.endsWith p "/").
Proof.
  intros Hne Hr. pose proof (of_segments_nonempty rsegs Hne) as HR.
  unfold Path.join. rewrite filter_cons_True by done.
  destruct (decide (p = ""%string)) as [->|Hp].
  - rewrite filter_cons_False by (by intros ?). rewrite filter_nil.
    cbn [String.concat]. rewrite resolve_below_empty.
    destruct (exists_last Hne) as (front & x & ->).
    rewrite forallb_app in Hr. apply andb_true_iff in Hr as [Hf Hx].
    simpl in Hx. rewrite andb_true_r in Hx.
    rewrite of_segments_snoc, string_app_assoc.
    rewrite normalize_below by done.
    rewrite resolve_below_snoc by done.
    rewrite endsWith_slash_cons by (by intros ->).
    rewrite endsWith_token by (by apply segment_token). done.
  - rewrite filter_cons_True by done. rewrite filter_nil.
    rewrite concat_cons by done. cbn [String.concat].
    rewrite normalize_below by done. by rewrite endsWith_slash_cons.
Qed.

(** A piece that is one segment extends the directory. *)
Lemma join_segment (rsegs : list string) (x : string) (rest : list string) :
  rsegs ≠ [] → x ≠ ""%string →
  Path.join (of_segments rsegs :: x :: rest) = Path.join (of_segments (rsegs ++ [x]) :: rest).
Proof.
  intros Hne Hx. pose proof (of_segments_nonempty rsegs Hne) as HR.
  assert (of_segments (rsegs ++ [x]) ≠ ""%string) as HR'.
  { apply of_segments_nonempty. by destruct rsegs. }
  unfold Path.join. rewrite !filter_cons_True by done.
  f_equal. rewrite concat_cons by done. rewrite of_segments_snoc.
  destruct (filter _ rest) as [|y l].
  - cbn [String.concat]. by rewrite string_app_assoc.
  - rewrite (concat_cons "/" x (y :: l)) by done.
    rewrite (concat_cons "/" _ (y :: l)) by done. by rewrite !string_app_assoc.
Qed.

Lemma resolve_below_app (rsegs : list string) (p q : string) :
  resolve_below rsegs (p +:+ "/" +:+ q)%string
  = rev (fold_left (Path.norm_step false) (JS.split "/" q) (rev (resolve_below rsegs p))).
Proof.
  unfold resolve_below.
  change (p +:+ "/" +:+ q)%string with (p +:+ String "/" q)%string.
  by rewrite split_app, fold_left_app, rev_involutive.
Qed.

(** [path.join(root, p, 'index.html')] *)
Lemma join_below_index (rsegs : list string) (p : string) :
  rsegs ≠ [] → forallb is_segment rsegs = true → p ≠ ""%string →
  Path.join [of_segments rsegs; p; "index.html"%string]
  = of_segments (resolve_below rsegs p ++ ["index.html"%string]).
Proof.
  intros Hne Hr Hp. pose proof (of_segments_nonempty rsegs Hne) as HR.
  unfold Path.join. rewrite !filter_cons_True by done. rewrite filter_nil.
  rewrite !concat_cons by done. cbn [String.concat].
  rewrite normalize_below by done.
  rewrite resolve_below_app.
  assert (∀ acc, fold_left (Path.norm_step false) (JS.split "/" "index.html") acc
                 = "index.html"%string :: acc) as -> by done.
  cbn [rev]. rewrite rev_involutive.
  assert (JS.endsWith ("/" +:+ p +:+ "/" +:+ "index.html")%string "/" = false) as ->.
  { rewrite <- !string_app_assoc.
    change (((("/" +:+ p) +:+ "/") +:+ "index.html")%string)
      with ((("/" +:+ p) +:+ "/") +:+ String "i" "ndex.html")%string.
    rewrite endsWith_app by done. done. }
  unfold render_path. destruct (resolve_below rsegs p); simpl; by rewrite ?string_app_nil_r.
Qed.

(** Without dot segments nothing is removed: the segments of the path
    follow those of the directory. *)
Lemma resolve_below_dot_free (rsegs : list string) (p : string) :
  dot_free p → resolve_below rsegs p = rsegs ++ segments_of p.
Proof.
  intros Hp. unfold resolve_below, segments_of.
  rewrite norm_step_tokens.
  - by rewrite rev_app_distr, !rev_involutive.
  - pose proof (split_tokens "/" p) as Htok.
    unfold dot_free in Hp. revert Hp Htok. generalize (JS.split "/" p).
    intros l. induction l as [|x l IH]; intros Hp Htok; [done|].
    apply Forall_cons in Hp as [[Hd Hdd] Hp]. apply Forall_cons in Htok as [Hx Htok].
    constructor; [|by apply IH].
    destruct (decide (x = ""%string)) as [->|Hne]; [by left|right].
    unfold is_segment. rewrite Hx.
    apply String.eqb_neq in Hne, Hd, Hdd. by rewrite Hne, Hd, Hdd.
Qed.

End Below.

Section Extensions.

Lemma render_path_dot_free (base : list string) (p : string) (trail : bool) :
  base ≠ [] → dot_free p →
  render_path (resolve_below base p) trail
  = (of_segments base +:+ of_segments (segments_of p) +:+ (if trail then "/" else ""))%string.
Proof.
  intros Hb Hp. rewrite resolve_below_dot_free by done.
  unfold render_path. destruct (base ++ segments_of p) eqn:E.
  - by destruct base.
  - rewrite <- E. by rewrite of_segments_app, string_app_assoc.
Qed.

Lemma html_extension_test (p : string) :
  String.eqb (Path.extname p) ""
  || negb (existsb (String.eqb (JS.toLowerCase (Path.extname p))) [".html"; ".htm"]%string)
  = negb (has_html_extension p).
Proof.
  unfold has_html_extension.
  destruct (String.eqb (Path.extname p) "") eqn:Hext; [|done].
  apply String.eqb_eq in Hext. by rewrite Hext.
Qed.

End Extensions.

(** C5 (amended). The two mappings, for every URL and a working area
    [tempDir] that is an absolute path of proper segments.

    A URL that [new URL] refuses is mapped by neither.  [getLocalFilePath],
    used for pages and links, throws when the pathname cannot be
    percent-decoded, whatever the pathname; otherwise a pathname that ends
    with [/] maps to [index.html] below the directory named by the
    pathname as it is, not decoded; a pathname whose extension is [.html]
    or [.htm] in any letter case maps to its decoded path; and every other
    pathname, extensionless or not, maps to its decoded path followed by
    [.html].  Assets are mapped by a rule of their own: the pathname, not
    decoded, below the working area for the host of the site, and below
    [assets/<host>] for any other host, without [index.html] and without
    suffix.

    Below a directory means [path.join]: the tokens of the path are
    resolved one by one from the directory ([resolve_below]); without dot
    segments, these are the segments of the directory followed by the
    non-empty tokens of the path. *)
Theorem local_path_mapping {Pf : Platform}
    (url baseUrl baseHost tempDir : string) (rsegs : list string) :
  tempDir = of_segments rsegs → rsegs ≠ [] → forallb is_segment rsegs = true →
  (newURL url = None →
     getLocalFilePath url baseUrl tempDir = None ∧
     assetLocalPath url baseHost tempDir = None) ∧
  (∀ u, newURL url = Some u →
     (decodeURIComponent (pathname u) = None →
        getLocalFilePath url baseUrl tempDir = None) ∧
     (∀ decoded, decodeURIComponent (pathname u) = Some decoded →
        getLocalFilePath url baseUrl tempDir
        = Some (if JS.endsWith (pathname u) "/"
                then of_segments (resolve_below rsegs (pathname u) ++ ["index.html"%string])
                else if has_html_extension (pathname u)
                then render_path (resolve_below rsegs decoded) (JS.endsWith decoded "/")
                else (render_path (resolve_below rsegs decoded) (JS.endsWith decoded "/")
                      +:+ ".html")%string)) ∧
     (is_segment (host u) = true →
        assetLocalPath url baseHost tempDir
        = Some (render_path
                  (resolve_below
                     (if String.eqb (host u) baseHost then rsegs
                      else rsegs ++ ["assets"%string; host u])
                     (pathname u))
                  (JS.endsWith (pathname u) "/")))) ∧
  (∀ base p trail,
     base ≠ [] → dot_free p →
     resolve_below base p = base ++ segments_of p ∧
     render_path (resolve_below base p) trail
     = (of_segments base +:+ of_segments (segments_of p)
        +:+ (if trail then "/" else ""))%string).
Proof.
  intros -> Hne Hr. split_and!.
  - intros Hu. unfold getLocalFilePath, assetLocalPath. by rewrite Hu.
  - intros u Hu. split_and!.
    + intros Hd. unfold getLocalFilePath. rewrite Hu. simpl. by rewrite Hd.
    + intros decoded Hd. unfold getLocalFilePath. rewrite Hu. simpl. rewrite Hd. simpl.
      destruct (JS.endsWith (pathname u) "/") eqn:Hdir.
      * rewrite join_below_index; [done..|]. by intros Hp; rewrite Hp in Hdir.
      * rewrite html_extension_test, join_below by done.
        by destruct (has_html_extension (pathname u)).
    + intros Hh. unfold assetLocalPath. rewrite Hu. simpl.
      destruct (String.eqb (host u) baseHost).
      * by rewrite join_below.
      * assert (host u ≠ ""%string) as Hhne by (by intros Heq; rewrite Heq in Hh).
        rewrite join_segment by done.
        rewrite join_segment by (done || by destruct rsegs).
        rewrite <- app_assoc. rewrite join_below; [done|by destruct rsegs|].
        rewrite forallb_app, Hr. simpl. by rewrite Hh.
  - intros base p trail Hb Hp. split; [by apply resolve_below_dot_free|].
    by apply render_path_dot_free.
Qed.

Lemma local_path_mapping_witness :
  getLocalFilePath (Pf := Node.node) "https://x.webflow.io/a%20b.html"
    "https://x.webflow.io" "/srv/temp/temp-1"
  = Some "/srv/temp/temp-1/a b.html"%string ∧
  getLocalFilePath (Pf := Node.node) "https://x.webflow.io/a%20b/"
    "https://x.webflow.io" "/srv/temp/temp-1"
  = Some "/srv/temp/temp-1/a%20b/index.html"%string ∧
  getLocalFilePath (Pf := Node.node) "https://x.webflow.io/a//b"
    "https://x.webflow.io" "/srv/temp/temp-1"
  = Some "/srv/temp/temp-1/a/b.html"%string ∧
  getLocalFilePath (Pf := Node.node) "https://x.webflow.io/files/doc.pdf"
    "https://x.webflow.io" "/srv/temp/temp-1"
  = Some "/srv/temp/temp-1/files/doc.pdf.html"%string ∧
  getLocalFilePath (Pf := Node.node) "https://x.webflow.io/%zz"
    "https://x.webflow.io" "/srv/temp/temp-1"
  = None ∧
  assetLocalPath (Pf := Node.node) "https://cdn.x.com/fonts/a%20b.woff"
    "x.webflow.io" "/srv/temp/temp-1"
  = Some "/srv/temp/temp-1/assets/cdn.x.com/fonts/a%20b.woff"%string.
Proof.
  pose proof (fun url =>
    local_path_mapping (Pf := Node.node) url "https://x.webflow.io" "x.webflow.io"
      "/srv/temp/temp-1" ["srv"; "temp"; "temp-1"]%string
      eq_refl ltac:(discriminate) eq_refl) as H.
  split_and!.
  - destruct (H "https://x.webflow.io/a%20b.html"%string) as (_ & Hu & _).
    destruct (Hu (mkURL "https://x.webflow.io/a%20b.html" "https://x.webflow.io"
                    "x.webflow.io" "x.webflow.io" "/a%20b.html") eq_refl)
      as (_ & Hp & _).
    exact (Hp "/a b.html"%string eq_refl).
  - destruct (H "https://x.webflow.io/a%20b/"%string) as (_ & Hu & _).
    destruct (Hu (mkURL "https://x.webflow.io/a%20b/" "https://x.webflow.io"
                    "x.webflow.io" "x.webflow.io" "/a%20b/") eq_refl)
      as (_ & Hp & _).
    exact (Hp "/a b/"%string eq_refl).
  - destruct (H "https://x.webflow.io/a//b"%string) as (_ & Hu & _).
    destruct (Hu (mkURL "https://x.webflow.io/a//b" "https://x.webflow.io"
                    "x.webflow.io" "x.webflow.io" "/a//b") eq_refl)
      as (_ & Hp & _).
    exact (Hp "/a//b"%string eq_refl).
  - destruct (H "https://x.webflow.io/files/doc.pdf"%string) as (_ & Hu & _).
    destruct (Hu (mkURL "https://x.webflow.io/files/doc.pdf" "https://x.webflow.io"
                    "x.webflow.io" "x.webflow.io" "/files/doc.pdf") eq_refl)
      as (_ & Hp & _).
    exact (Hp "/files/doc.pdf"%string eq_refl).
  - destruct (H "https://x.webflow.io/%zz"%string) as (_ & Hu & _).
    destruct (Hu (mkURL "https://x.webflow.io/%zz" "https://x.webflow.io"
                    "x.webflow.io" "x.webflow.io" "/%zz") eq_refl)
      as (Hthrow & _).
    exact (Hthrow eq_refl).
  - destruct (H "https://cdn.x.com/fonts/a%20b.woff"%string) as (_ & Hu & _).
    destruct (Hu (mkURL "https://cdn.x.com/fonts/a%20b.woff" "https://cdn.x.com"
                    "cdn.x.com" "cdn.x.com" "/fonts/a%20b.woff") eq_refl)
      as (_ & _ & Ha).
    exact (Ha eq_refl).
Defined.

(** C5, as stated, fails on both mappings: a page path with another
    extension gains [.html] instead of being kept, and an extensionless
    asset path gains nothing. *)
Lemma local_path_not_as_specified :
  getLocalFilePath (Pf := Node.node) "https://x.webflow.io/files/doc.pdf"
    "https://x.webflow.io" "/srv/temp/temp-1"
    = Some "/srv/temp/temp-1/files/doc.pdf.html"%string ∧
  spec_local_path (Pf := Node.node) "https://x.webflow.io/files/doc.pdf"
    "x.webflow.io" "/srv/temp/temp-1"
    = Some "/srv/temp/temp-1/files/doc.pdf"%string ∧
  assetLocalPath (Pf := Node.node) "https://cdn.x.com/fonts/icons"
    "x.webflow.io" "/srv/temp/temp-1"
    = Some "/srv/temp/temp-1/assets/cdn.x.com/fonts/icons"%string ∧
  spec_local_path (Pf := Node.node) "https://cdn.x.com/fonts/icons"
    "x.webflow.io" "/srv/temp/temp-1"
    = Some "/srv/temp/temp-1/assets/cdn.x.com/fonts/icons.html"%string.
Proof. vm_compute. done. Qed.

(** C7. [getLocalFilePath] is a function of its arguments alone: equal
    arguments give equal paths, the origin is not even read, and two URLs
    with the same pathname get the same path.  A job uses it the same way
    at every moment: each page file is saved at the path the mapper gives
    for the page URL and the working directory of the job. *)
Theorem path_mapper_is_a_function {Pf : Platform} :
  (∀ url1 base1 root1 url2 base2 root2,
     url1 = url2 → root1 = root2 →
     getLocalFilePath url1 base1 root1 = getLocalFilePath url2 base2 root2) ∧
  (∀ url1 url2 base1 base2 root u1 u2,
     newURL url1 = Some u1 → newURL url2 = Some u2 → pathname u1 = pathname u2 →
     getLocalFilePath url1 base1 root = getLocalFilePath url2 base2 root) ∧
  (∀ targetUrl tempDir s,
     reachable targetUrl tempDir s →
     ∀ url body lfp doc base,
       SavePage url body lfp doc ∈ trace s →
       getLocalFilePath url base tempDir = Some lfp).
Proof.
  split_and!.
  - by intros url1 base1 root1 url2 base2 root2 -> ->.
  - intros url1 url2 base1 base2 root u1 u2 H1 H2 Hp.
    unfold getLocalFilePath. rewrite H1, H2. simpl. by rewrite Hp.
  - intros targetUrl tempDir s Hr url body lfp doc base Hin.
    pose proof (reachable_path_inv _ _ _ Hr) as [_ _ Htr].
    rewrite Forall_forall in Htr. exact (Htr _ Hin).
Qed.

Lemma path_mapper_is_a_function_witness :
  reachable (Pf := Node.node) Demo.target Demo.workdir Demo.final ∧
  getLocalFilePath (Pf := Node.node) "https://x.webflow.io/" "" Demo.workdir
  = Some "/srv/temp/temp-1/index.html"%string.
Proof.
  split; [exact demo_reachable|].
  destruct (path_mapper_is_a_function (Pf := Node.node)) as (_ & _ & Hsave).
  apply (Hsave Demo.target Demo.workdir Demo.final demo_reachable
           "https://x.webflow.io/"%string Demo.home
           "/srv/temp/temp-1/index.html"%string
           [Demo.img "assets/cdn.x.com/a.png"; Demo.img "https://cdn.x.com/a.png";
            Demo.anchor "about.html"]).
  destruct demo_trace as (Ht & _). rewrite Ht. do 4 right. left.
Defined.

(** * Further properties of the server *)

(** X1. [downloadAsset] for any value of [retries].  With [retries = 0]
    the loop is skipped and the call returns 0 without a request.
    Otherwise it sends between one and [retries] requests, one after each
    failure, waits [1000 * 2^i] ms after the failure of request [i], and
    its outcome is that of its last request: it throws only when all
    [retries] requests failed. *)
Theorem downloadAsset_any_retries (net : nat → option N * bool) (retries : nat) :
  let d := downloadAsset net retries in
  match retries with
  | 0 => d = mkDownload (Some 0%N) 0 []
  | S _ =>
      1 ≤ dl_attempts d ≤ retries ∧
      dl_delays d = backoff_ms <$> seq 0 (dl_attempts d - 1) ∧
      (∀ j, j < dl_attempts d - 1 → attempt_ok (net j) = None) ∧
      dl_result d = attempt_ok (net (dl_attempts d - 1)) ∧
      (dl_result d = None → dl_attempts d = retries)
  end.
Proof.
  destruct retries as [|todo]; [done|]. unfold downloadAsset.
  destruct (downloadAsset_loop_spec net (S todo) todo 0 []) as (Hn & Hd & Hf & Hr & Hl);
    [done|].
  split_and!; [lia|lia| | |done|done].
  - rewrite Hd. simpl. by rewrite Nat.sub_0_r.
  - intros j Hj. apply Hf. lia.
Qed.

(** X2. The hourly sweep.  It walks the listing in order and stops at the
    first entry on which [statSync] or [rmSync] throws: of the entries
    before that one it removes exactly those modified more than an hour
    ago, the entries after it are left alone, and when no call throws the
    whole listing is swept.  No entry that is at most one hour old is ever
    removed. *)
Theorem sweep_removes_expired_prefix (TEMP_DIR : string) (now : Z) (files : list DirEntry) :
  let r := sweep TEMP_DIR now (Some files) in
  ∃ k, k ≤ List.length files ∧
    r.1 = (fun e => Path.join [TEMP_DIR; entry_name e])
            <$> List.filter (expired now) (take k files) ∧
    (∀ e, e ∈ take k files → sweep_fails now e = false) ∧
    (if r.2 then k = List.length files
     else ∃ e, files !! k = Some e ∧ sweep_fails now e = true) ∧
    (∀ e mtime, e ∈ List.filter (expired now) (take k files) →
       entry_mtime e = Some mtime → (3600000 < now - mtime)%Z).
Proof.
  destruct (sweep_entries_spec TEMP_DIR now files) as (k & Hk & Hrm & Hok & Hend).
  exists k. split_and!; [done..|].
  intros e mtime [_ He]%list_elem_of_In%filter_In Hm.
  unfold expired in He. rewrite Hm in He. by apply Z.ltb_lt in He.
Qed.

(** X3. The frontier never holds a URL twice, and never a URL that has
    been claimed: a URL in [urlQueue] is not in [visitedUrls] and has not
    been requested. *)
Theorem frontier_holds_new_urls_once {Pf : Platform} (targetUrl tempDir : string) (s : Job) :
  reachable targetUrl tempDir s →
  NoDup (urlQueue s) ∧
  (∀ u, u ∈ urlQueue s → (u ∉ visitedUrls s) ∧ GetPage u ∉ trace s).
Proof.
  intros Hr. pose proof (reachable_queue_inv _ _ _ Hr) as [Q1 Q2].
  assert (fetch_inv s) as [_ F2 _ _].
  { revert Hr. apply (reachable_invariant fetch_inv).
    - intros. by eapply start_fetch_inv.
    - apply step_fetch_inv. }
  split; [done|]. intros u Hu. split; [by apply Q2|].
  intros Hin. apply (Q2 u Hu), F2, list_elem_of_omap. by exists (GetPage u).
Qed.

Lemma frontier_holds_new_urls_once_witness :
  reachable (Pf := Node.node) Demo.target Demo.workdir Demo.listed ∧
  urlQueue Demo.listed
  = map (fun n => ("https://x.webflow.io/p" +:+ n)%string)
        ["a"; "b"; "c"; "d"; "e"; "f"; "g"; "h"; "i"; "j"; "k"; "l"; "m"; "n";
         "o"; "p"; "q"]%string ∧
  page_gets (trace Demo.listed) = ["https://x.webflow.io/"%string] ∧
  NoDup (urlQueue Demo.listed) ∧
  ("https://x.webflow.io/pb"%string ∉ visitedUrls Demo.listed) ∧
  GetPage "https://x.webflow.io/pb" ∉ trace Demo.listed.
Proof.
  split; [exact demo_listed_reachable|].
  split; [vm_compute; reflexivity|]. split; [vm_compute; reflexivity|].
  destruct (frontier_holds_new_urls_once (Pf := Node.node) _ _ _ demo_listed_reachable)
    as [Hnd Hnew].
  split; [exact Hnd|]. apply Hnew.
  vm_compute. right. left.
Defined.

(** X4. A turn of the crawl loop on a non-empty frontier takes the first
    [CHUNK_SIZE] URLs of the frontier (all of them when there are fewer),
    requests every one of them, in frontier order, and leaves the rest of
    the frontier in place: the crawl is breadth-first. *)
Theorem wave_takes_frontier_head {Pf : Platform} (targetUrl tempDir : string) (s s' : Job) :
  reachable targetUrl tempDir s →
  step EvLoop s = Some s' →
  urlQueue s ≠ [] →
  tasks s' = PFetching <$> take CHUNK_SIZE (urlQueue s) ∧
  urlQueue s' = drop CHUNK_SIZE (urlQueue s) ∧
  page_gets (trace s') = page_gets (trace s) ++ take CHUNK_SIZE (urlQueue s).
Proof.
  intros Hr Hstep Hq. pose proof (reachable_queue_inv _ _ _ Hr) as [Q1 Q2].
  simpl in Hstep. destruct (status s); try done.
  destruct (forallb page_finished (tasks s)); simplify_eq.
  unfold next_wave. destruct (urlQueue s) as [|u q] eqn:E; [done|].
  destruct (start_pages_fresh (take CHUNK_SIZE (u :: q))
              (set_urlQueue (drop CHUNK_SIZE (u :: q)) s)) as (Hts & Hg & Hq').
  - eapply sublist_NoDup; [done|apply sublist_take].
  - intros v Hv%subseteq_take. by apply Q2.
  - destruct (start_pages _ _) as [ts s1]. simpl in *. done.
Qed.

Lemma wave_takes_frontier_head_witness :
  ∃ s', step (Pf := Node.node) EvLoop Demo.listed = Some s' ∧
        tasks s'
        = map (fun n => PFetching ("https://x.webflow.io/p" +:+ n)%string)
              ["a"; "b"; "c"; "d"; "e"; "f"; "g"; "h"; "i"; "j"; "k"; "l"; "m"; "n";
               "o"]%string ∧
        urlQueue s' = ["https://x.webflow.io/pp"; "https://x.webflow.io/pq"]%string ∧
        page_gets (trace s')
        = "https://x.webflow.io/"%string
          :: map (fun n => ("https://x.webflow.io/p" +:+ n)%string)
                 ["a"; "b"; "c"; "d"; "e"; "f"; "g"; "h"; "i"; "j"; "k"; "l"; "m"; "n";
                  "o"]%string.
Proof.
  destruct (step (Pf := Node.node) EvLoop Demo.listed) as [s'|] eqn:Hstep;
    [|vm_compute in Hstep; discriminate].
  exists s'. split; [reflexivity|].
  destruct (wave_takes_frontier_head (Pf := Node.node) _ _ _ _
              demo_listed_reachable Hstep) as (Ht & Hq & Hg).
  { vm_compute. discriminate. }
  split; [exact Ht|]. split; [exact Hq|exact Hg].
Defined.

(** X5. When the crawl loop has ended, the job is quiescent: the frontier
    is empty, every page task has settled, the total is within the
    ceiling, and no event can resume the job, so nothing is written while
    the archive is made. *)
Theorem completed_job_is_quiescent {Pf : Platform} (targetUrl tempDir : string) (s : Job) :
  reachable targetUrl tempDir s →
  status s = Completed →
  urlQueue s = [] ∧
  forallb page_finished (tasks s) = true ∧
  (totalSize s ≤ MAX_SIZE_BYTES)%N ∧
  ∀ ev, step ev s = None.
Proof.
  intros Hr Hc. pose proof (reachable_budget_inv _ _ _ Hr) as [B1 B2].
  split_and!.
  - by eapply reachable_completed.
  - by apply B2.
  - apply N.nlt_ge. intros Hlt%B1. congruence.
  - intros ev. destruct ev; [simpl; by rewrite Hc|..];
      (apply idle_disabled; [by apply B2|done]).
Qed.

Lemma completed_job_is_quiescent_witness :
  status Demo.final = Completed ∧ urlQueue Demo.final = [] ∧
  step (Pf := Node.node) (EvPageDone 0) Demo.final = None.
Proof.
  assert (status Demo.final = Completed) as Hc by (vm_compute; reflexivity).
  split; [exact Hc|].
  destruct (completed_job_is_quiescent (Pf := Node.node) _ _ _ demo_reachable Hc)
    as (Hq & _ & _ & Hstep).
  split; [exact Hq|exact (Hstep (EvPageDone 0))].
Defined.

(** X6. The crawl stays on the site, as the link rewriter understands
    it.  [baseUrl] is the origin of the target for the whole job, and
    every URL that is requested as a page or waits in the frontier is the
    target itself or a string that starts with [baseUrl] and holds neither
    a query nor a fragment. *)
Theorem crawl_stays_on_site {Pf : Platform} (targetUrl dir : string) (s : Job) :
  reachable targetUrl dir s →
  (∃ u0, newURL targetUrl = Some u0 ∧ baseUrl s = origin u0 ∧ baseHost s = host u0) ∧
  tempDir s = dir ∧
  ∀ u, GetPage u ∈ trace s ∨ u ∈ urlQueue s →
       u = targetUrl ∨ site_key (baseUrl s) u.
Proof.
  intros Hr. pose proof Hr as (s0 & evs & Hs0 & Hrun).
  pose proof (run_grows _ _ _ Hrun) as [B H T K N].
  assert (fetch_inv s) as [_ F2 _ _].
  { revert Hr. apply (reachable_invariant fetch_inv).
    - intros. by eapply start_fetch_inv.
    - apply step_fetch_inv. }
  revert Hs0. unfold start. destruct (negb (isValidWebflowUrl targetUrl)); [done|]. simpl.
  destruct (newURL targetUrl) as [u0|] eqn:Hu0; [|done]. intros [= <-]. simpl in *.
  split_and!; [by exists u0|done|].
  intros u Hu. assert (known s u) as Hk.
  { destruct Hu as [Hu|Hu]; [right|by left].
    apply F2, list_elem_of_omap. by exists (GetPage u). }
  apply N in Hk as [[Hq|Hv]|Hsite]; simpl in *.
  - left. by apply list_elem_of_singleton in Hq.
  - by apply elem_of_empty in Hv.
  - right. by rewrite B.
Qed.

Lemma crawl_stays_on_site_witness :
  reachable (Pf := Node.node) Demo.target Demo.workdir Demo.final ∧
  site_key "https://x.webflow.io" "https://x.webflow.io/about".
Proof.
  split; [exact demo_reachable|].
  destruct (crawl_stays_on_site (Pf := Node.node) _ _ _ demo_reachable) as (_ & _ & Hs).
  destruct (Hs "https://x.webflow.io/about") as [Heq|Hk].
  - left. destruct demo_trace as (Ht & _). rewrite Ht. do 5 right. left.
  - vm_compute in Heq. discriminate.
  - exact Hk.
Defined.

(** X7. The mirror is closed under the links it follows.  For every page
    that has been saved, each of its links that the rewriter follows and
    that leads to the site has its key in the frontier or already
    requested; once the crawl loop has ended, every such key has been
    requested. *)
Theorem saved_links_are_crawled {Pf : Platform} (targetUrl dir : string) (s : Job)
    (url : string) (body : Html) (lfp : string) (doc' : list Element)
    (j : nat) (el : Element) (h : string) (absolute : URL) :
  reachable targetUrl dir s →
  SavePage url body lfp doc' ∈ trace s →
  dom body !! j = Some el → is_anchor_element el = true →
  attr_href el = Some h → followed h = true →
  newURLBase h url = Some absolute →
  JS.startsWith (link_key (href absolute)) (baseUrl s) = true →
  (link_key (href absolute) ∈ urlQueue s ∨ GetPage (link_key (href absolute)) ∈ trace s) ∧
  (status s = Completed → GetPage (link_key (href absolute)) ∈ trace s).
Proof.
  intros Hr Hin Hj Hel Hh Hf Habs Hsite.
  pose proof (reachable_closed_inv _ _ _ Hr) as Hc.
  assert (fetch_inv s) as [_ F2 _ _].
  { revert Hr. apply (reachable_invariant fetch_inv).
    - intros. by eapply start_fetch_inv.
    - apply step_fetch_inv. }
  assert (∀ u, u ∈ visitedUrls s → GetPage u ∈ trace s) as Hget.
  { intros u (e & He & Hu)%F2%list_elem_of_omap. destruct e; by simplify_eq. }
  unfold closed_inv in Hc. rewrite Forall_forall in Hc.
  pose proof (Hc _ Hin j el h absolute Hj Hel Hh Hf Habs Hsite) as [Hq|Hv].
  - split; [by left|]. intros Hdone.
    rewrite (reachable_completed _ _ _ Hr Hdone) in Hq. by apply elem_of_nil in Hq.
  - split; [right|intros _]; by apply Hget.
Qed.

Lemma saved_links_are_crawled_witness :
  GetPage "https://x.webflow.io/about" ∈ trace Demo.final.
Proof.
  destruct demo_trace as (Ht & Hst & _).
  destruct (Node.parse_with_base "/about?x=1#top" Demo.target) as [absolute|] eqn:Habs;
    [|vm_compute in Habs; discriminate].
  assert (link_key (href absolute) = "https://x.webflow.io/about"%string) as Hkey.
  { vm_compute in Habs. injection Habs as <-. vm_compute. reflexivity. }
  rewrite <- Hkey.
  refine (proj2 (saved_links_are_crawled (Pf := Node.node) Demo.target Demo.workdir
                   Demo.final Demo.target Demo.home "/srv/temp/temp-1/index.html" _
                   2 (Demo.anchor "/about?x=1#top") "/about?x=1#top" absolute
                   demo_reachable _ _ _ _ _ Habs _) Hst).
  - rewrite Ht. do 4 right. left.
  - reflexivity.
  - reflexivity.
  - reflexivity.
  - reflexivity.
  - rewrite Hkey. vm_compute. reflexivity.
Defined.

(** X8. What a saved page holds at its links.  A link that the rewriter
    does not follow ([mailto:], [tel:], [#...], empty), one that does not
    parse, and one that leads off the site are written as they were
    parsed.  A link into the site is written as the encoded relative path
    from the page's directory to the local file of the link's key,
    whether or not that page has been, or ever will be, saved. *)
Theorem saved_page_links {Pf : Platform} (targetUrl dir : string) (s : Job)
    (url : string) (body : Html) (lfp : string) (doc' : list Element)
    (j : nat) (el : Element) (h : string) :
  reachable targetUrl dir s →
  SavePage url body lfp doc' ∈ trace s →
  dom body !! j = Some el → is_anchor_element el = true →
  attr_href el = Some h →
  (followed h = false → doc' !! j = Some el) ∧
  (newURLBase h url = None → doc' !! j = Some el) ∧
  (∀ absolute,
     newURLBase h url = Some absolute →
     JS.startsWith (link_key (href absolute)) (baseUrl s) = false →
     doc' !! j = Some el) ∧
  (∀ absolute localLinkPath v,
     followed h = true →
     newURLBase h url = Some absolute →
     JS.startsWith (link_key (href absolute)) (baseUrl s) = true →
     getLocalFilePath (link_key (href absolute)) (baseUrl s) (tempDir s)
       = Some localLinkPath →
     encodeURI (JS.backslash_to_slash (Path.relative (Path.dirname lfp) localLinkPath))
       = Some v →
     doc' !! j = Some (set_attr AttrHref v el)).
Proof.
  intros Hr Hin Hj Hel Hh.
  pose proof (reachable_anchors_inv _ _ _ Hr) as Ha.
  unfold anchors_inv in Ha. rewrite Forall_forall in Ha.
  pose proof (Ha _ Hin j el Hj Hel) as Hdoc. rewrite Hdoc.
  unfold rewrite_link, followed. rewrite Hh. simpl. fold (followed h).
  split_and!.
  - intros Hf. apply negb_false_iff in Hf. by rewrite Hf.
  - intros ->. by destruct (_ || _).
  - intros absolute -> Hsite. destruct (_ || _); [done|].
    fold (link_key (href absolute)). by rewrite Hsite.
  - intros absolute localLinkPath v Hf -> Hsite Hp Hv.
    apply negb_true_iff in Hf. rewrite Hf.
    fold (link_key (href absolute)). by rewrite Hsite, Hp, Hv.
Qed.

Lemma saved_page_links_witness :
  ∃ doc',
    SavePage Demo.target Demo.home "/srv/temp/temp-1/index.html" doc' ∈ trace Demo.final ∧
    doc' !! 2 = Some (Demo.anchor "about.html").
Proof.
  destruct demo_trace as (Ht & _).
  destruct (Node.parse_with_base "/about?x=1#top" Demo.target) as [absolute|] eqn:Habs;
    [|vm_compute in Habs; discriminate].
  assert (link_key (href absolute) = "https://x.webflow.io/about"%string) as Hkey.
  { vm_compute in Habs. injection Habs as <-. vm_compute. reflexivity. }
  eexists. split; [rewrite Ht; do 4 right; left|].
  assert (SavePage Demo.target Demo.home "/srv/temp/temp-1/index.html"
            [Demo.img "assets/cdn.x.com/a.png"; Demo.img "https://cdn.x.com/a.png";
             Demo.anchor "about.html"] ∈ trace Demo.final) as Hin.
  { rewrite Ht. do 4 right. left. }
  destruct (saved_page_links (Pf := Node.node) Demo.target Demo.workdir Demo.final
              Demo.target Demo.home "/srv/temp/temp-1/index.html" _
              2 (Demo.anchor "/about?x=1#top") "/about?x=1#top"
              demo_reachable Hin eq_refl eq_refl eq_refl) as (_ & _ & _ & Hrw).
  apply (Hrw absolute "/srv/temp/temp-1/about.html"%string "about.html"%string).
  - reflexivity.
  - exact Habs.
  - rewrite Hkey. vm_compute. reflexivity.
  - rewrite Hkey. vm_compute. reflexivity.
  - vm_compute. reflexivity.
Defined.

(** X9. The size budget counts written bytes only.  The running total
    never exceeds the bytes of the page bodies and asset files that have
    been written; and once every page task has settled, the body of every
    page that has been written is counted in it. *)
Theorem budget_counts_written_bytes {Pf : Platform} (targetUrl dir : string) (s : Job) :
  reachable targetUrl dir s →
  (totalSize s ≤ saved_page_bytes (trace s) + saved_asset_bytes (trace s))%N ∧
  (forallb page_finished (tasks s) = true →
   (saved_page_bytes (trace s) ≤ totalSize s)%N).
Proof.
  intros Hr. pose proof (reachable_ledger_inv _ _ _ Hr) as [U L K]. split.
  - assert (sumN (owed <$> tasks s) ≤ sumN (held <$> tasks s))%N as Hle; [|lia].
    assert (∀ t, t ∈ tasks s → (owed t ≤ held t)%N) as Ht.
    { intros t [p Hp]%list_elem_of_lookup. destruct t; simpl; try lia.
      pose proof (K _ _ _ _ _ _ Hp). lia. }
    clear U L K. induction (tasks s) as [|t ts IH]; csimpl; [lia|].
    pose proof (Ht t ltac:(left)). assert (∀ t, t ∈ ts → (owed t ≤ held t)%N) as Hts.
    { intros t' Ht'. apply Ht. by right. }
    specialize (IH Hts). cbn [sumN foldr] in *.
    fold (sumN (owed <$> ts)). fold (sumN (held <$> ts)). lia.
  - intros Hall. rewrite (sumN_zero returned) in L; [lia|].
    intros t [p Hp]%list_elem_of_lookup.
    apply (forallb_lookup _ _ _ _ Hall) in Hp. by destruct t.
Qed.

Lemma budget_counts_written_bytes_witness :
  totalSize Demo.final = 1050%N ∧
  (saved_page_bytes (trace Demo.final) ≤ totalSize Demo.final)%N.
Proof.
  split; [vm_compute; reflexivity|].
  apply (budget_counts_written_bytes (Pf := Node.node) Demo.target Demo.workdir Demo.final
           demo_reachable).
  vm_compute. reflexivity.
Defined.

(** X10. Every asset file that is written holds a response that is
    within the ceiling, and it is written at the local path of an asset
    URL that the job has requested. *)
Theorem written_assets_are_mapped {Pf : Platform} (targetUrl dir : string) (s : Job)
    (assetPath : string) (size : N) :
  reachable targetUrl dir s →
  SaveAsset assetPath size ∈ trace s →
  (size ≤ MAX_SIZE_BYTES)%N ∧
  ∃ u k, GetAsset u k ∈ trace s ∧
         assetLocalPath u (baseHost s) (tempDir s) = Some assetPath.
Proof.
  intros Hr Hin. pose proof (reachable_local_inv _ _ _ Hr) as [_ Htr].
  rewrite Forall_forall in Htr. exact (Htr _ Hin).
Qed.

Lemma written_assets_are_mapped_witness :
  SaveAsset "/srv/temp/temp-1/assets/cdn.x.com/a.png" 50 ∈ trace Demo.final ∧
  (50 ≤ MAX_SIZE_BYTES)%N.
Proof.
  assert (SaveAsset "/srv/temp/temp-1/assets/cdn.x.com/a.png" 50 ∈ trace Demo.final) as Hin.
  { destruct demo_trace as (Ht & _). rewrite Ht. do 3 right. left. }
  split; [exact Hin|].
  exact (proj1 (written_assets_are_mapped (Pf := Node.node) _ _ _ _ _ demo_reachable Hin)).
Defined.

(** X11. What a saved page holds at its other elements.  Every element
    that is not a link is written either as it was parsed, or, when it is
    an asset element, with the attribute that was read replaced by the
    encoded relative path from the page's directory to the local file of
    its asset; and in that case the file has been written.  No saved page
    refers to a local asset file that does not exist. *)
Theorem saved_page_assets {Pf : Platform} (targetUrl dir : string) (s : Job)
    (url : string) (body : Html) (lfp : string) (doc' : list Element)
    (j : nat) (el : Element) :
  reachable targetUrl dir s →
  SavePage url body lfp doc' ∈ trace s →
  dom body !! j = Some el → is_anchor_element el = false →
  doc' !! j = Some el ∨
  ∃ a assetPath size v,
    is_asset_element el = true ∧
    asset_of_element url j el = Some a ∧
    assetLocalPath (asset_url a) (baseHost s) (tempDir s) = Some assetPath ∧
    SaveAsset assetPath size ∈ trace s ∧
    encodeURI (JS.backslash_to_slash (Path.relative (Path.dirname lfp) assetPath))
      = Some v ∧
    doc' !! j = Some (set_attr (asset_attr a) v el).
Proof.
  intros Hr Hin Hj Hel. pose proof (reachable_local_inv _ _ _ Hr) as [_ Htr].
  rewrite Forall_forall in Htr.
  destruct (Htr _ Hin j el Hj Hel) as (el' & Hdoc & [->|Hloc]); [by left|].
  destruct Hloc as (a & assetPath & size & v & ? & ? & ? & ? & ? & ->).
  right. by exists a, assetPath, size, v.
Qed.

Lemma saved_page_assets_witness :
  ∃ doc',
    SavePage Demo.target Demo.home "/srv/temp/temp-1/index.html" doc' ∈ trace Demo.final ∧
    (doc' !! 1 = Some (Demo.img "https://cdn.x.com/a.png") ∨
     ∃ assetPath size, SaveAsset assetPath size ∈ trace Demo.final).
Proof.
  destruct demo_trace as (Ht & _).
  assert (SavePage Demo.target Demo.home "/srv/temp/temp-1/index.html"
            [Demo.img "assets/cdn.x.com/a.png"; Demo.img "https://cdn.x.com/a.png";
             Demo.anchor "about.html"] ∈ trace Demo.final) as Hin.
  { rewrite Ht. do 4 right. left. }
  eexists. split; [exact Hin|].
  destruct (saved_page_assets (Pf := Node.node) Demo.target Demo.workdir Demo.final
              Demo.target Demo.home "/srv/temp/temp-1/index.html" _
              1 (Demo.img "https://cdn.x.com/a.png")
              demo_reachable Hin eq_refl eq_refl)
    as [Hkeep|(a & assetPath & size & v & _ & _ & _ & Hsave & _)].
  - left. exact Hkeep.
  - right. exists assetPath, size. exact Hsave.
Defined.

(** X12. A page is written once at most.  No URL has its page file
    written twice in a job, every page that is written has been requested,
    and as long as a task is inside [downloadPage] for a URL the page of
    that URL has not been written: the write is the last thing
    [downloadPage] does. *)
Theorem pages_written_once {Pf : Platform} (targetUrl dir : string) (s : Job) :
  reachable targetUrl dir s →
  NoDup (saved_urls (trace s)) ∧
  (∀ url body lfp doc', SavePage url body lfp doc' ∈ trace s → GetPage url ∈ trace s) ∧
  (∀ p t url body lfp doc',
     tasks s !! p = Some t → page_task_url t = Some url →
     SavePage url body lfp doc' ∉ trace s).
Proof.
  intros Hr. pose proof (reachable_saves_inv _ _ _ Hr) as [I1 I2 I3 I4 I5].
  assert (fetch_inv s) as [_ F2 _ _].
  { revert Hr. apply (reachable_invariant fetch_inv).
    - intros. by eapply start_fetch_inv.
    - apply step_fetch_inv. }
  assert (∀ url body lfp doc',
            SavePage url body lfp doc' ∈ trace s → url ∈ saved_urls (trace s)) as Hsv.
  { intros url body lfp doc' Hin. apply list_elem_of_omap.
    by exists (SavePage url body lfp doc'). }
  split_and!; [done| |].
  - intros url body lfp doc' Hin%Hsv%I2%F2.
    apply list_elem_of_omap in Hin as (e & He & Hu). destruct e; by simplify_eq.
  - intros p t url body lfp doc' Hp Hu Hin%Hsv. apply (I4 p url); [|done]. by exists t.
Qed.

Lemma pages_written_once_witness :
  reachable (Pf := Node.node) Demo.target Demo.workdir Demo.final ∧
  NoDup (saved_urls (trace Demo.final)).
Proof.
  split; [exact demo_reachable|].
  exact (proj1 (pages_written_once (Pf := Node.node) _ _ _ demo_reachable)).
Defined.

(** X13. What the first loop of [downloadPage] collects.  The assets of a
    document are exactly the elements the selector matches whose reference
    resolves to a URL without [data:], one asset per element, listed in
    document order. *)
Theorem assets_are_the_selected_elements {Pf : Platform} (url : string)
    (doc : list Element) :
  (∀ a, a ∈ collect_assets url doc ↔
        ∃ el, doc !! asset_element a = Some el ∧ is_asset_element el = true ∧
              asset_of_element url (asset_element a) el = Some a) ∧
  (∀ n m a b,
     collect_assets url doc !! n = Some a → collect_assets url doc !! m = Some b →
     n < m → asset_element a < asset_element b) ∧
  (∀ a, a ∈ collect_assets url doc → JS.includes (asset_url a) "data:" = false).
Proof.
  split_and!.
  - intros a. split; [apply collect_assets_elem|].
    intros (el & Hj & Hsel & Ha). by eapply collect_assets_complete.
  - pose proof (collect_from_sorted url 0 doc) as [_ Hs]. exact Hs.
  - intros a Ha. by eapply collect_assets_no_data.
Qed.

(** ** Paths that climb *)

Section Climbing.

Lemma startsWith_app_l (a s p : string) :
  JS.startsWith (a +:+ s) (a +:+ p) = JS.startsWith s p.
Proof.
  unfold JS.startsWith. induction a as [|c a IH]; app_simpl; [done|].
  destruct (ascii_dec c c); [done|done].
Qed.

(** One [..] after the working directory removes its last segment. *)
Lemma join_parent (rsegs : list string) (r x : string) :
  forallb is_segment rsegs = true → is_segment r = true → is_segment x = true →
  Path.join [of_segments (rsegs ++ [r]); "/../" +:+ x] = of_segments (rsegs ++ [x]).
Proof.
  intros Hrs Hr Hx.
  assert (forallb is_segment (rsegs ++ [r]) = true) as Hroot.
  { rewrite forallb_app. simpl. by rewrite Hrs, Hr. }
  assert (x ≠ ""%string ∧ r ≠ ""%string) as [Hxne Hrne].
  { split; intros ->; done. }
  assert (rsegs ++ [r] ≠ []) as Hne by (by destruct rsegs).
  set (toks := (rsegs ++ [r]) ++ [""%string; ".."%string; x]).
  assert (String.concat "/" [of_segments (rsegs ++ [r]); "/../" +:+ x]
          = String.concat "/" (""%string :: toks)) as Hcat.
  { unfold toks. rewrite (concat_cons "/" "") by (by destruct rsegs).
    rewrite (concat_app "/" (rsegs ++ [r])) by done.
    rewrite of_segments_concat by done.
    cbn [String.concat].
    repeat rewrite ?string_app_assoc, ?string_app_cons, ?string_app_nil_l. done. }
  rewrite join_nonempty; [|done|].
  2: { repeat constructor; [|by destruct x].
       rewrite of_segments_concat by done. done. }
  rewrite Hcat.
  assert (Forall is_token toks) as Htok.
  { unfold toks. rewrite !Forall_app. split_and!.
    - eapply Forall_impl; [by apply segments_tokens|].
      intros y [->|Hy]; [done|by apply segment_token].
    - repeat constructor. by apply segment_token.
    - repeat constructor. by apply segment_token. }
  rewrite (concat_cons "/" "") by (by destruct rsegs). rewrite string_app_nil_l.
  unfold Path.normalize. cbv zeta.
  assert (JS.startsWith ("/" +:+ String.concat "/" toks) "/" = true) as ->.
  { apply startsWith_spec. eauto. }
  change (negb true) with false.
  assert (Path.normalizeString ("/" +:+ String.concat "/" toks) false
          = String.concat "/" (rsegs ++ [x])) as ->.
  { unfold Path.normalizeString.
    change ("/" +:+ String.concat "/" toks)
      with (""%string +:+ String "/" (String.concat "/" toks)).
    rewrite split_app, split_concat by (done || by destruct rsegs).
    cbn [JS.split app fold_left].
    assert (Path.norm_step false [] "" = []) as -> by done.
    unfold toks. rewrite fold_left_app.
    rewrite (norm_step_tokens false (rsegs ++ [r]) []) by (by apply segments_tokens).
    rewrite filter_segments by done. rewrite app_nil_r, rev_app_distr.
    cbn [rev app fold_left].
    unfold is_segment in Hr, Hx. rewrite !andb_true_iff, !negb_true_iff in Hr, Hx.
    destruct Hr as (((_ & _) & Hrdd) & _). destruct Hx as (((Hx0 & Hxd) & Hxdd) & _).
    assert (Path.norm_step false (r :: rev rsegs) "" = r :: rev rsegs) as -> by done.
    assert (Path.norm_step false (r :: rev rsegs) ".." = rev rsegs) as ->.
    { unfold Path.norm_step. simpl. by rewrite Hrdd. }
    assert (Path.norm_step false (rev rsegs) x = x :: rev rsegs) as ->.
    { unfold Path.norm_step. by rewrite Hx0, Hxd, Hxdd. }
    cbn [rev]. by rewrite rev_involutive. }
  assert (JS.endsWith ("/" +:+ String.concat "/" toks) "/" = false) as ->.
  { unfold toks. rewrite concat_app by done.
    cbn [String.concat]. destruct x as [|c x]; [done|].
    repeat rewrite ?string_app_nil_l.
    rewrite <- !string_app_assoc, endsWith_app by done.
    apply endsWith_token. by apply segment_token. }
  assert (String.eqb (String.concat "/" (rsegs ++ [x])) "" = false) as ->.
  { apply String.eqb_neq. destruct rsegs as [|y rsegs]; simpl; [done|].
    apply andb_true_iff in Hrs as [Hy _]. destruct y; [done|]. by destruct (rsegs ++ [x]). }
  assert ((String.eqb ("/" +:+ String.concat "/" toks) "") = false) as -> by done.
  by rewrite of_segments_concat by (by destruct rsegs).
Qed.

Lemma includes_char_app (c : ascii) (a b : string) :
  JS.includes (a +:+ b) (String c "")
  = JS.includes a (String c "") || JS.includes b (String c "").
Proof.
  induction a as [|d a IH]; [by rewrite string_app_nil_l|].
  rewrite string_app_cons, !includes_char_cons, IH. by rewrite orb_assoc.
Qed.

(** A path below the parent of the working directory, under another
    name, is not below the working directory. *)
Lemma sibling_outside (rsegs : list string) (r x suffix : string) :
  is_token x → is_token suffix →
  JS.startsWith (of_segments (rsegs ++ [x]) +:+ suffix)
                (of_segments (rsegs ++ [r]) +:+ "/") = false.
Proof.
  intros Hx Hs. rewrite !of_segments_snoc.
  rewrite (string_app_assoc (of_segments rsegs +:+ "/") x suffix).
  rewrite (string_app_assoc (of_segments rsegs +:+ "/") r "/").
  rewrite startsWith_app_l.
  apply not_true_is_false. intros [rest Hrest]%startsWith_spec.
  assert (JS.includes (x +:+ suffix) "/" = true) as Hin.
  { apply includes_spec. exists r, rest. by rewrite Hrest, !string_app_assoc. }
  rewrite includes_char_app in Hin. unfold is_token in Hx, Hs. by rewrite Hx, Hs in Hin.
Qed.

End Climbing.

(** X14. [getLocalFilePath] does not keep page files inside the working
    directory.  The pathname is decoded before it is joined to the
    directory, so a pathname whose decoding starts with [/../] (an encoded
    separator after two dots) is mapped to a file in the parent of the
    working directory, which is not below the working directory. *)
Theorem page_path_can_leave_working_dir {Pf : Platform} (url base : string) (u : URL)
    (rsegs : list string) (r x : string) :
  newURL url = Some u →
  JS.endsWith (pathname u) "/" = false →
  decodeURIComponent (pathname u) = Some ("/../" +:+ x) →
  forallb is_segment rsegs = true → is_segment r = true → is_segment x = true →
  ∃ lfp,
    getLocalFilePath url base (of_segments (rsegs ++ [r])) = Some lfp ∧
    (lfp = of_segments (rsegs ++ [x]) ∨ lfp = of_segments (rsegs ++ [x]) +:+ ".html") ∧
    JS.startsWith lfp (of_segments (rsegs ++ [r]) +:+ "/") = false.
Proof.
  intros Hu Hend Hdec Hrs Hr Hx. unfold getLocalFilePath. rewrite Hu. simpl.
  rewrite Hdec. simpl. rewrite Hend, join_parent by done.
  pose proof (segment_token _ Hx) as Htok.
  destruct (_ || _); eexists; (split; [done|]).
  - split; [by right|]. by apply sibling_outside.
  - split; [by left|]. rewrite <- (string_app_nil_r (of_segments (rsegs ++ [x]))).
    by apply sibling_outside.
Qed.

Lemma page_path_can_leave_working_dir_witness :
  ∃ lfp,
    getLocalFilePath (Pf := Node.node) "https://x.webflow.io/..%2Fsecrets"
      "https://x.webflow.io" "/srv/temp/temp-1" = Some lfp ∧
    JS.startsWith lfp "/srv/temp/temp-1/" = false.
Proof.
  destruct (page_path_can_leave_working_dir (Pf := Node.node)
              "https://x.webflow.io/..%2Fsecrets" "https://x.webflow.io"
              (mkURL "https://x.webflow.io/..%2Fsecrets" "https://x.webflow.io"
                     "x.webflow.io" "x.webflow.io" "/..%2Fsecrets")
              ["srv"; "temp"]%string "temp-1" "secrets")
    as (lfp & Hlfp & _ & Hout).
  - reflexivity.
  - reflexivity.
  - reflexivity.
  - reflexivity.
  - reflexivity.
  - reflexivity.
  - exists lfp. split; [exact Hlfp|exact Hout].
Defined.

(** ** Tasks do not look at the status *)

Section StatusBlind.
Context {Pf : Platform}.

Lemma start_asset_status a st s :
  start_asset a (set_status st s)
  = ((start_asset a s).1, set_status st (start_asset a s).2).
Proof.
  unfold start_asset. simpl. case_bool_decide; [done|].
  by destruct (assetLocalPath _ _ _).
Qed.

Lemma start_assets_status chunk st s :
  start_assets chunk (set_status st s)
  = ((start_assets chunk s).1, set_status st (start_assets chunk s).2).
Proof.
  revert s. induction chunk as [|a rest IH]; intros s; simpl; [done|].
  rewrite start_asset_status. destruct (start_asset a s) as [t s1]. simpl.
  rewrite IH. by destruct (start_assets rest s1).
Qed.

Lemma rewrite_link_status ctx el st s :
  rewrite_link ctx el (set_status st s)
  = ((rewrite_link ctx el s).1, set_status st (rewrite_link ctx el s).2).
Proof.
  unfold rewrite_link. simpl. repeat (case_match; simpl; try done).
Qed.

Lemma rewrite_links_status ctx doc st s :
  rewrite_links ctx doc (set_status st s)
  = ((rewrite_links ctx doc s).1, set_status st (rewrite_links ctx doc s).2).
Proof.
  revert s. induction doc as [|el rest IH]; intros s; simpl; [done|].
  destruct (is_anchor_element el).
  - rewrite rewrite_link_status. destruct (rewrite_link ctx el s) as [el' s1]. simpl.
    rewrite IH. by destruct (rewrite_links ctx rest s1).
  - rewrite IH. by destruct (rewrite_links ctx rest s).
Qed.

Lemma asset_loop_status ctx pageSize doc i fs_ok st s :
  asset_loop ctx pageSize doc i fs_ok (set_status st s)
  = ((asset_loop ctx pageSize doc i fs_ok s).1,
     set_status st (asset_loop ctx pageSize doc i fs_ok s).2).
Proof.
  unfold asset_loop. case_match.
  - rewrite start_assets_status. by destruct (start_assets _ s).
  - unfold finish_page. rewrite rewrite_links_status.
    destruct (rewrite_links ctx doc s) as [doc' s1]. simpl. by destruct fs_ok.
Qed.

Lemma same_work_status st s : same_work s (set_status st s).
Proof. by repeat split. Qed.

Lemma same_work_put p t st s1 :
  same_work (put_task p t s1) (put_task p t (set_status st s1)).
Proof. by repeat split. Qed.

End StatusBlind.

(** X15. Nothing stops the tasks in flight.  An event that resumes a
    page task or an asset task is taken whatever the status of the job, and
    with the same requests, writes, frontier and sizes: after the size
    error has been reported, the downloads that were under way go on, and
    go on writing. *)
Theorem failure_does_not_stop_tasks {Pf : Platform} (s s' : Job) (ev : Event)
    (st : Status) :
  ev ≠ EvLoop →
  step ev s = Some s' →
  ∃ s'', step ev (set_status st s) = Some s'' ∧ same_work s' s''.
Proof.
  intros Hev Hstep. destruct ev as [|p r f|p a r f|p a|p f|p]; [done|..];
    simpl in Hstep |- *.
  - destruct (tasks s !! p) as [[url| | |]|]; try done.
    unfold page_arrived in *. simpl.
    destruct r as [html|]; [destruct (getLocalFilePath _ _ _)|].
    + rewrite asset_loop_status. destruct (asset_loop _ _ _ _ _ s) as [t s1].
      simplify_eq. eexists. split; [done|]. apply same_work_put.
    + simplify_eq. eexists. split; [done|]. apply same_work_put.
    + simplify_eq. eexists. split; [done|]. apply same_work_put.
  - destruct (tasks s !! p) as [[|ctx pageSize doc i chunk| |]|]; try done.
    destruct (chunk !! a) as [[|asset assetPath k|]|]; try done.
    unfold asset_arrived in *.
    destruct (downloadAsset_iteration _ _ _ _); simpl in *.
    + destruct (localize_asset _ _ _ _ _) as [n doc']. simplify_eq.
      eexists. split; [done|]. by repeat split.
    + simplify_eq. eexists. split; [done|]. by repeat split.
    + simplify_eq. eexists. split; [done|]. by repeat split.
  - destruct (tasks s !! p) as [[|ctx pageSize doc i chunk| |]|]; try done.
    destruct (chunk !! a) as [[| |asset assetPath k]|]; try done.
    unfold asset_woke in *. destruct (S k <? default_retries); simpl in *.
    + simplify_eq. eexists. split; [done|]. by repeat split.
    + destruct (localize_asset _ _ _ _ _) as [n doc']. simplify_eq.
      eexists. split; [done|]. by repeat split.
  - destruct (tasks s !! p) as [[|ctx pageSize doc i chunk| |]|]; try done.
    destruct (forallb asset_settled chunk); try done.
    rewrite asset_loop_status. destruct (asset_loop _ _ _ _ _ s) as [t s1].
    simplify_eq. eexists. split; [done|]. apply same_work_put.
  - destruct (tasks s !! p) as [[| |pageSize|]|]; try done. simplify_eq.
    eexists. split; [done|]. unfold page_returned. simpl.
    repeat case_match; by repeat split.
Qed.

Lemma failure_does_not_stop_tasks_witness :
  ∃ s'', step (Pf := Node.node) (EvPageResponse 0 (Some Demo.home) true)
              (set_status Failed (next_wave Demo.initial)) = Some s'' ∧
         GetAsset "https://cdn.x.com/a.png" 0 ∈ trace s''.
Proof.
  destruct (step (Pf := Node.node) (EvPageResponse 0 (Some Demo.home) true)
              (next_wave Demo.initial)) as [s'|] eqn:Hstep;
    [|vm_compute in Hstep; discriminate].
  assert (EvPageResponse 0 (Some Demo.home) true ≠ EvLoop) as Hev by discriminate.
  destruct (failure_does_not_stop_tasks (Pf := Node.node) _ _ _ Failed Hev Hstep)
    as (s'' & Hstep' & Hsame).
  exists s''. split; [exact Hstep'|].
  destruct Hsame as (_ & _ & _ & _ & _ & _ & _ & _ & ->).
  vm_compute in Hstep. injection Hstep as <-. simpl. do 2 right. left.
Defined.

(** ** The older handler *)

Section LegacyFacts.
Context {Pf : Platform}.




End LegacyFacts.



